(** * Pentomino tiling search: a shallow embedding of the solver sources

    The development follows the Python sources file by file:
    - [Pentomino6x10]      embeds [manim/pentomino_6x10.py]
      (orientation generator and the budgeted recorder [SearchState]);
    - [Pentomino6x10Five]  embeds [manim/pentomino_6x10_five.py]
      (the randomised first-solution solver and the deduplicator);
    - [Rect6x10DfsTree]    embeds [manim/rect_6x10_dfs_tree.py]
      (pruning oracle, trace recorder, counterfactual grafting).

    Python [int] is [Z]; tuples and lists are [list]; [Set[str]] is
    [gset string]; [Dict] is [gmap] (or an association list where insertion
    order is observable).  Exceptions are explicit results. *)

From Stdlib Require Import ZArith List Lia Ascii.
From stdpp Require Import base tactics option numbers list sorting
  gmap sets strings pretty.

Open Scope Z_scope.

(** ** Shared data model *)

Definition Coord : Type := Z * Z.
Definition Cells : Type := list Coord.
Definition Placement : Type := string * Cells.

(** Python exceptions that the modelled code can raise. *)
Inductive exn : Type :=
  | ValueError
  | KeyError
  | IndexError
  | StopIteration
  | RuntimeError (found expected : nat).

(** Outcome of running a Python function: a value, a raised exception, or
    the recursion budget of the model being exhausted. *)
Inductive result (A : Type) : Type :=
  | Ok (a : A)
  | Raise (e : exn)
  | OutOfFuel.
Arguments Ok {A} a.
Arguments Raise {A} e.
Arguments OutOfFuel {A}.

(** Tuple comparison of Python on pairs of integers. *)
Definition coord_le (a b : Coord) : Prop :=
  a.1 < b.1 ∨ (a.1 = b.1 ∧ a.2 ≤ b.2).

#[global] Instance coord_le_dec a b : Decision (coord_le a b).
Proof. unfold coord_le. apply _. Defined.

#[global] Instance coord_le_total : Total coord_le.
Proof. intros [a1 a2] [b1 b2]. unfold coord_le. simpl. lia. Qed.

#[global] Instance coord_le_trans : Transitive coord_le.
Proof. intros [a1 a2] [b1 b2] [c1 c2]. unfold coord_le. simpl. lia. Qed.

#[global] Instance coord_le_antisymm : AntiSymm (=) coord_le.
Proof.
  intros [a1 a2] [b1 b2]. unfold coord_le. simpl. intros H1 H2.
  f_equal; lia.
Qed.

(** [sorted(cells)] on a list of coordinate pairs. *)
Definition sorted (cells : Cells) : Cells := merge_sort coord_le cells.

(** [min(...)] over a list of integers; the empty case raises. *)
Definition py_min (l : list Z) : option Z :=
  match l with
  | [] => None
  | x :: l' => Some (fold_left Z.min l' x)
  end.

(** [range(n)] *)
Definition range (n : Z) : list Z := map Z.of_nat (seq 0 (Z.to_nat n)).

(** The twelve pieces, in the insertion order of the source dictionary. *)
Definition PENTOMINOES : list (string * Cells) :=
  [ ("F"%string, [(0,1); (1,0); (1,1); (1,2); (2,0)]);
    ("I"%string, [(0,0); (0,1); (0,2); (0,3); (0,4)]);
    ("L"%string, [(0,0); (1,0); (2,0); (3,0); (3,1)]);
    ("P"%string, [(0,0); (0,1); (1,0); (1,1); (2,0)]);
    ("N"%string, [(0,0); (1,0); (1,1); (2,1); (3,1)]);
    ("T"%string, [(0,0); (0,1); (0,2); (1,1); (2,1)]);
    ("U"%string, [(0,0); (0,2); (1,0); (1,1); (1,2)]);
    ("V"%string, [(0,0); (1,0); (2,0); (2,1); (2,2)]);
    ("W"%string, [(0,0); (1,0); (1,1); (2,1); (2,2)]);
    ("X"%string, [(0,1); (1,0); (1,1); (1,2); (2,1)]);
    ("Y"%string, [(0,1); (1,1); (2,0); (2,1); (3,1)]);
    ("Z"%string, [(0,0); (0,1); (1,1); (2,1); (2,2)]) ].

(** [sorted(PENTOMINOES)]: the piece names in alphabetical order. *)
Definition sorted_names : list string :=
  ["F"; "I"; "L"; "N"; "P"; "T"; "U"; "V"; "W"; "X"; "Y"; "Z"]%string.

(** ** Orientation generator *)

(** [normalize]: translate so that both minima are 0, then sort. *)
Definition normalize (cells : Cells) : option Cells :=
  match py_min (map fst cells), py_min (map snd cells) with
  | Some min_r, Some min_c =>
      Some (sorted (map (fun rc => (rc.1 - min_r, rc.2 - min_c)) cells))
  | _, _ => None
  end.

(** One quarter turn [(x, y) -> (y, -x)], repeated [n] times. *)
Fixpoint rotate (n : nat) (xy : Coord) : Coord :=
  match n with
  | O => xy
  | S n' => rotate n' (xy.2, - xy.1)
  end.

Definition transform_cell (k : Z) (reflect : bool) (rc : Coord) : Coord :=
  let x := rc.1 in
  let y := if reflect then - rc.2 else rc.2 in
  rotate (Z.to_nat (k mod 4)) (x, y).

Definition transform (cells : Cells) (k : Z) (reflect : bool) : option Cells :=
  normalize (map (transform_cell k reflect) cells).

(** The loop body of [unique_orientations]: [seen] is the set, [variants]
    the output list. *)
Definition orient_step (cells : Cells)
    (acc : option (gset Cells * list Cells)) (rk : bool * Z)
    : option (gset Cells * list Cells) :=
  match acc with
  | None => None
  | Some (seen, variants) =>
      match transform cells rk.2 rk.1 with
      | None => None
      | Some v =>
          if decide (v ∈ seen) then Some (seen, variants)
          else Some ({[v]} ∪ seen, variants ++ [v])
      end
  end.

Definition orient_order : list (bool * Z) :=
  flat_map (fun reflect => map (fun k => (reflect, k)) (range 4))
           [false; true].

Definition unique_orientations (cells : Cells) : option (list Cells) :=
  snd <$> fold_left (orient_step cells) orient_order (Some (∅, [])).

(** *** Facts about [py_min], [sorted] and [normalize] *)

Lemma fold_left_min_spec (l : list Z) (x : Z) :
  (fold_left Z.min l x = x ∨ fold_left Z.min l x ∈ l)
  ∧ fold_left Z.min l x ≤ x
  ∧ ∀ y, y ∈ l → fold_left Z.min l x ≤ y.
Proof.
  revert x. induction l as [|a l IH]; intros x.
  - simpl. split; [left; reflexivity|]. split; [lia|].
    intros y Hy. by apply elem_of_nil in Hy.
  - change (fold_left Z.min (a :: l) x) with (fold_left Z.min l (Z.min x a)).
    destruct (IH (Z.min x a)) as (Hin & Hle & Hall).
    split; [|split].
    + destruct Hin as [Heq|Hin].
      * rewrite Heq.
        destruct (Z.min_spec x a) as [[_ Hm]|[_ Hm]]; rewrite Hm.
        -- left; reflexivity.
        -- right. apply elem_of_cons. left; reflexivity.
      * right. apply elem_of_cons. right; assumption.
    + lia.
    + intros y Hy. apply elem_of_cons in Hy as [->|Hy]; [lia|by apply Hall].
Qed.

Lemma py_min_spec (l : list Z) (m : Z) :
  py_min l = Some m ↔ m ∈ l ∧ ∀ y, y ∈ l → m ≤ y.
Proof.
  destruct l as [|x l]; simpl.
  - split; [done|]. intros [H _]. by apply elem_of_nil in H.
  - pose proof (fold_left_min_spec l x) as (Hin & Hle & Hall). simpl in *.
    split.
    + intros [= <-]. split.
      * apply elem_of_cons. destruct Hin; auto.
      * intros y Hy. apply elem_of_cons in Hy as [->|Hy]; auto.
    + intros [Hm Hmin]. f_equal.
      assert (fold_left Z.min l x ∈ x :: l) as Hf.
      { apply elem_of_cons. destruct Hin; auto. }
      apply Hmin in Hf.
      apply elem_of_cons in Hm as [->|Hm]; [lia|].
      apply Hall in Hm. lia.
Qed.

Lemma py_min_None (l : list Z) : py_min l = None ↔ l = [].
Proof. by destruct l. Qed.

Lemma py_min_perm (l1 l2 : list Z) : l1 ≡ₚ l2 → py_min l1 = py_min l2.
Proof.
  intros Hp. destruct (py_min l1) as [m|] eqn:H1.
  - symmetry. apply py_min_spec. apply py_min_spec in H1 as [Hin Hall].
    split; [by rewrite <- Hp|]. intros y Hy. apply Hall. by rewrite Hp.
  - apply py_min_None in H1. subst. apply Permutation_nil_l in Hp.
    by subst.
Qed.

Lemma py_min_shift (l : list Z) (m : Z) :
  py_min l = Some m → py_min (map (fun x => x - m) l) = Some 0.
Proof.
  intros [Hin Hall]%py_min_spec. apply py_min_spec. split.
  - apply list_elem_of_fmap. exists m. split; [lia|done].
  - intros y [x [-> Hx]]%list_elem_of_fmap. apply Hall in Hx. lia.
Qed.

Lemma sorted_perm (l : Cells) : sorted l ≡ₚ l.
Proof. apply merge_sort_Permutation. Qed.

Lemma sorted_Sorted (l : Cells) : Sorted coord_le (sorted l).
Proof. apply Sorted_merge_sort. apply _. Qed.

Lemma sorted_idemp (l : Cells) : sorted (sorted l) = sorted l.
Proof.
  apply (Sorted_unique coord_le).
  - apply sorted_Sorted.
  - apply sorted_Sorted.
  - apply sorted_perm.
Qed.

Lemma normalize_None (cells : Cells) : normalize cells = None ↔ cells = [].
Proof.
  unfold normalize. destruct cells as [|c cells]; simpl; [done|].
  split; [done|]. intros [=].
Qed.

Lemma sorted_of_Sorted (l : Cells) : Sorted coord_le l → sorted l = l.
Proof.
  intros Hl. apply (Sorted_unique coord_le); [apply sorted_Sorted|done|].
  apply sorted_perm.
Qed.

Lemma normalize_at_origin (n : Cells) :
  py_min (map fst n) = Some 0 → py_min (map snd n) = Some 0 →
  Sorted coord_le n → normalize n = Some n.
Proof.
  intros Hr Hc Hs. unfold normalize. rewrite Hr, Hc. f_equal.
  rewrite (map_ext _ id), map_id; [by apply sorted_of_Sorted|].
  intros [r c]. simpl. unfold id. f_equal; lia.
Qed.

Lemma normalize_fixpoint (cells n : Cells) :
  normalize cells = Some n → normalize n = Some n.
Proof.
  unfold normalize at 1.
  destruct (py_min (map fst cells)) as [mr|] eqn:Hr; [|done].
  destruct (py_min (map snd cells)) as [mc|] eqn:Hc; [|done].
  intros [= <-]. apply normalize_at_origin.
  - erewrite py_min_perm; [|apply Permutation_map, sorted_perm].
    rewrite map_map. simpl.
    rewrite <- (map_map fst (fun x => x - mr)). by apply py_min_shift.
  - erewrite py_min_perm; [|apply Permutation_map, sorted_perm].
    rewrite map_map. simpl.
    rewrite <- (map_map snd (fun x => x - mc)). by apply py_min_shift.
  - apply sorted_Sorted.
Qed.

(** The per-piece check of the orientation table, as a boolean. *)
Definition orientations_ok (cells : Cells) : bool :=
  match unique_orientations cells with
  | None => false
  | Some os =>
      bool_decide (length os ∈ [1; 2; 4; 8]%nat)
      && bool_decide (NoDup os)
      && forallb (fun o => bool_decide (normalize o = Some o)) os
  end.

Lemma orientations_ok_all :
  forallb (fun p => orientations_ok p.2) PENTOMINOES = true.
Proof. vm_compute. reflexivity. Qed.

(** C4: each of the twelve pentominoes has 1, 2, 4 or 8 pairwise distinct
    orientations, each of them a fixed point of [normalize]; and [normalize]
    is idempotent on every cell list on which it is defined (it raises on
    the empty one only). *)
Theorem unique_orientations_sizes_normalize_idempotent :
  (∀ name cells, (name, cells) ∈ PENTOMINOES →
     ∃ os, unique_orientations cells = Some os
           ∧ (length os = 1 ∨ length os = 2 ∨ length os = 4 ∨ length os = 8)%nat
           ∧ NoDup os
           ∧ ∀ o, o ∈ os → normalize o = Some o)
  ∧ (∀ cells, cells ≠ [] →
     ∃ n, normalize cells = Some n ∧ normalize n = Some n).
Proof.
  split.
  - intros name cells Hin.
    pose proof orientations_ok_all as Hall.
    rewrite forallb_forall in Hall.
    apply list_elem_of_In in Hin. specialize (Hall _ Hin). simpl in Hall.
    unfold orientations_ok in Hall.
    destruct (unique_orientations cells) as [os|]; [|done].
    apply andb_true_iff in Hall as [Hall Hfix].
    apply andb_true_iff in Hall as [Hlen Hnd].
    apply bool_decide_eq_true in Hlen, Hnd.
    exists os. split; [done|]. split; [|split; [done|]].
    + repeat (apply elem_of_cons in Hlen as [Hlen|Hlen]; [tauto|]).
      by apply elem_of_nil in Hlen.
    + intros o Ho. rewrite forallb_forall in Hfix.
      apply list_elem_of_In in Ho. apply Hfix in Ho.
      by apply bool_decide_eq_true in Ho.
  - intros cells Hne. destruct (normalize cells) as [n|] eqn:Hn.
    + exists n. split; [done|]. by eapply normalize_fixpoint.
    + by apply normalize_None in Hn.
Qed.

Lemma unique_orientations_sizes_normalize_idempotent_witness :
  (∃ os, unique_orientations [(0,1); (1,0); (1,1); (1,2); (2,1)] = Some os
         ∧ (length os = 1 ∨ length os = 2 ∨ length os = 4 ∨ length os = 8)%nat
         ∧ NoDup os
         ∧ ∀ o, o ∈ os → normalize o = Some o)
  ∧ (∃ n, normalize [(3,-1); (2,5)] = Some n ∧ normalize n = Some n).
Proof.
  split.
  - apply (proj1 unique_orientations_sizes_normalize_idempotent "X"%string).
    apply list_elem_of_In. unfold PENTOMINOES. simpl. tauto.
  - apply (proj2 unique_orientations_sizes_normalize_idempotent). discriminate.
Defined.

(** The orientation table built once per solver object
    ([self.orientations] / [ORIENTATIONS]). *)
Definition ORIENTATIONS : list (string * list Cells) :=
  Eval vm_compute in
    map (fun p => (p.1, default [] (unique_orientations p.2))) PENTOMINOES.

Lemma ORIENTATIONS_unfold :
  map (fun p => (p.1, Some p.2)) ORIENTATIONS
  = map (fun p => (p.1, unique_orientations p.2)) PENTOMINOES.
Proof. vm_compute. reflexivity. Qed.

(** Dictionary lookup [d[name]] on an insertion-ordered dictionary. *)
Fixpoint dict_get {V} (d : list (string * V)) (name : string) : option V :=
  match d with
  | [] => None
  | (k, v) :: d' => if decide (k = name) then Some v else dict_get d' name
  end.

(** [tuple((r + dr, c + dc) for r, c in orient)] *)
Definition shift (orient : Cells) (dr dc : Z) : Cells :=
  map (fun rc => (rc.1 + dr, rc.2 + dc)) orient.

(** ** A state monad with exceptions and a log of intermediate states

    [M S A] runs on a state of type [S]; it returns the list of states
    reached after each mutation, and the outcome. *)
Definition M (S A : Type) : Type := S → list S * result (A * S).

Definition ret {S A} (a : A) : M S A := fun s => ([], Ok (a, s)).

Definition bind {S A B} (m : M S A) (k : A → M S B) : M S B :=
  fun s =>
    match m s with
    | (l1, Ok (a, s1)) => let '(l2, r) := k a s1 in (l1 ++ l2, r)
    | (l1, Raise e) => (l1, Raise e)
    | (l1, OutOfFuel) => (l1, OutOfFuel)
    end.

Definition get {S} : M S S := fun s => ([], Ok (s, s)).
Definition raise {S A} (e : exn) : M S A := fun _ => ([], Raise e).
Definition out_of_fuel {S A} : M S A := fun _ => ([], OutOfFuel).

(** A mutation of the state that may raise; the new state is logged. *)
Definition update {S} (f : S → result S) : M S unit :=
  fun s =>
    match f s with
    | Ok s' => ([s'], Ok (tt, s'))
    | Raise e => ([], Raise e)
    | OutOfFuel => ([], OutOfFuel)
    end.

(** A read of the state that may raise. *)
Definition query {S A} (f : S → result A) : M S A :=
  fun s =>
    match f s with
    | Ok a => ([], Ok (a, s))
    | Raise e => ([], Raise e)
    | OutOfFuel => ([], OutOfFuel)
    end.

Notation "'let*' x := m 'in' k" := (bind m (fun x => k))
  (at level 10, x name, m at level 200, k at level 200).
Notation "'do' m 'then' k" := (bind m (fun _ => k))
  (at level 10, m at level 200, k at level 200).

(** A [for] loop whose body may [return]: [Some b] leaves the enclosing
    function with [b], [None] goes on with the next element. *)
Fixpoint for_each {S A B} (l : list A) (body : A → M S (option B))
    : M S (option B) :=
  match l with
  | [] => ret None
  | x :: l' =>
      let* r := body x in
      match r with
      | Some b => ret (Some b)
      | None => for_each l' body
      end
  end.

(** The same monad on [result] alone, for pure code that may raise. *)
Definition rbind {A B} (m : result A) (k : A → result B) : result B :=
  match m with
  | Ok a => k a
  | Raise e => Raise e
  | OutOfFuel => OutOfFuel
  end.

(** *** Total correctness of monadic code

    [total m s Q]: started in [s], [m] returns normally (no exception, no
    exhausted budget) with a result and a final state satisfying [Q]. *)
Definition total {S A} (m : M S A) (s : S) (Q : A → S → Prop) : Prop :=
  ∃ a s', (m s).2 = Ok (a, s') ∧ Q a s'.

Lemma total_elim {S A} (m : M S A) (s : S) (Q : A → S → Prop) a s' :
  total m s Q → (m s).2 = Ok (a, s') → Q a s'.
Proof. intros (a0 & s0 & Hr & HQ) Hr'. rewrite Hr in Hr'. by simplify_eq. Qed.

Lemma total_mono {S A} (m : M S A) (s : S) (Q Q' : A → S → Prop) :
  total m s Q → (∀ a s', Q a s' → Q' a s') → total m s Q'.
Proof. intros (a & s' & Hr & HQ) Hw. exists a, s'. auto. Qed.

Lemma total_ret {S A} (a : A) (s : S) (Q : A → S → Prop) :
  Q a s → total (ret a) s Q.
Proof. intros HQ. by exists a, s. Qed.

Lemma total_get {S} (s : S) (Q : S → S → Prop) : Q s s → total get s Q.
Proof. intros HQ. by exists s, s. Qed.

Lemma total_query {S A} (f : S → result A) (s : S) (a : A)
    (Q : A → S → Prop) :
  f s = Ok a → Q a s → total (query f) s Q.
Proof. intros Hf HQ. exists a, s. unfold query. by rewrite Hf. Qed.

Lemma total_update {S} (f : S → result S) (s s' : S) (Q : unit → S → Prop) :
  f s = Ok s' → Q tt s' → total (update f) s Q.
Proof. intros Hf HQ. exists tt, s'. unfold update. by rewrite Hf. Qed.

Lemma total_bind {S A B} (m : M S A) (k : A → M S B) (s : S)
    (Q : B → S → Prop) :
  total m s (fun a s1 => total (k a) s1 Q) → total (bind m k) s Q.
Proof.
  intros (a & s1 & Hr & b & s2 & Hr2 & HQ). exists b, s2. split; [|done].
  unfold bind. destruct (m s) as [l1 r]. simpl in Hr. subst r.
  destruct (k a s1) as [l2 r2]. simpl in *. done.
Qed.

(** Loops: [I] holds as long as the body falls through. *)
Lemma total_for_each {S A B} (I : S → Prop) (Q : option B → S → Prop)
    (l : list A) (body : A → M S (option B)) (s : S) :
  I s →
  (∀ x s, x ∈ l → I s →
     total (body x) s (fun r s' =>
       match r with None => I s' | Some b => Q (Some b) s' end)) →
  (∀ s, I s → Q None s) →
  total (for_each l body) s Q.
Proof.
  intros HI Hbody Hend. revert s HI. induction l as [|x l IH]; intros s HI.
  - apply total_ret. by apply Hend.
  - simpl. apply total_bind.
    eapply total_mono; [apply Hbody; [apply elem_of_cons; left; done|done]|].
    intros [b|] s' Hr; simpl in Hr.
    + by apply total_ret.
    + apply IH; [|done]. intros y s0 Hy. apply Hbody.
      apply elem_of_cons. right; done.
Qed.

(** ** Board state of the two grid solvers
    ([SearchState] and [DFSSolver] share these four methods verbatim). *)
Module Board.

Record t : Type := mk {
  rows : Z;
  cols : Z;
  board : list (list (option string));
  used : gset string
}.

(** [__post_init__]: an empty grid. *)
Definition init (rows cols : Z) : t :=
  mk rows cols
     (replicate (Z.to_nat rows) (replicate (Z.to_nat cols) None)) ∅.

(** Position addressed by a Python index, negative ones counting from the
    end; [None] is [IndexError]. *)
Definition py_pos (len : nat) (i : Z) : option nat :=
  if decide (0 ≤ i) then
    if decide (i < Z.of_nat len) then Some (Z.to_nat i) else None
  else
    if decide (- Z.of_nat len ≤ i) then Some (Z.to_nat (Z.of_nat len + i))
    else None.

Definition getitem (b : list (list (option string))) (r c : Z)
    : result (option string) :=
  match py_pos (length b) r with
  | None => Raise IndexError
  | Some i =>
      match b !! i with
      | None => Raise IndexError
      | Some row =>
          match py_pos (length row) c with
          | None => Raise IndexError
          | Some j =>
              match row !! j with
              | None => Raise IndexError
              | Some v => Ok v
              end
          end
      end
  end.

Definition setitem (b : list (list (option string))) (r c : Z)
    (v : option string) : result (list (list (option string))) :=
  match py_pos (length b) r with
  | None => Raise IndexError
  | Some i =>
      match b !! i with
      | None => Raise IndexError
      | Some row =>
          match py_pos (length row) c with
          | None => Raise IndexError
          | Some j => Ok (<[i := <[j := v]> row]> b)
          end
      end
  end.

Fixpoint first_empty_cols (g : t) (r : Z) (cs : list Z)
    : result (option Coord) :=
  match cs with
  | [] => Ok None
  | c :: cs' =>
      rbind (getitem (board g) r c) (fun v =>
        match v with
        | None => Ok (Some (r, c))
        | Some _ => first_empty_cols g r cs'
        end)
  end.

Fixpoint first_empty_rows (g : t) (rs : list Z) : result (option Coord) :=
  match rs with
  | [] => Ok None
  | r :: rs' =>
      rbind (first_empty_cols g r (range (cols g))) (fun o =>
        match o with
        | Some rc => Ok (Some rc)
        | None => first_empty_rows g rs'
        end)
  end.

Definition first_empty (g : t) : result (option Coord) :=
  first_empty_rows g (range (rows g)).

Fixpoint can_place (g : t) (cells : Cells) : result bool :=
  match cells with
  | [] => Ok true
  | (r, c) :: cells' =>
      if decide (r < 0 ∨ rows g ≤ r ∨ c < 0 ∨ cols g ≤ c) then Ok false
      else
        rbind (getitem (board g) r c) (fun v =>
          match v with
          | Some _ => Ok false
          | None => can_place g cells'
          end)
  end.

Fixpoint write_cells (b : list (list (option string))) (cells : Cells)
    (v : option string) : result (list (list (option string))) :=
  match cells with
  | [] => Ok b
  | (r, c) :: cells' =>
      rbind (setitem b r c v) (fun b' => write_cells b' cells' v)
  end.

Definition apply_place (name : string) (cells : Cells) (g : t) : result t :=
  rbind (write_cells (board g) cells (Some name)) (fun b' =>
    Ok (mk (rows g) (cols g) b' ({[name]} ∪ used g))).

Definition apply_remove (name : string) (cells : Cells) (g : t) : result t :=
  rbind (write_cells (board g) cells None) (fun b' =>
    if decide (name ∈ used g)
    then Ok (mk (rows g) (cols g) b' (used g ∖ {[name]}))
    else Raise KeyError).

(** *** Specification of the board methods *)

Abbreviation grid_t := (list (list (option string))).

(** The grid has [R] rows of [C] cells each. *)
Definition dims (b : grid_t) (R C : Z) : Prop :=
  length b = Z.to_nat R ∧ Forall (fun row => length row = Z.to_nat C) b.

Definition wf (g : t) : Prop := dims (board g) (rows g) (cols g).

(** Content of a cell addressed by non-negative indices. *)
Definition cell (b : grid_t) (rc : Coord) : option (option string) :=
  match b !! Z.to_nat rc.1 with
  | Some row => row !! Z.to_nat rc.2
  | None => None
  end.

Definition in_range (g : t) (rc : Coord) : Prop :=
  (0 ≤ rc.1 ∧ rc.1 < rows g) ∧ (0 ≤ rc.2 ∧ rc.2 < cols g).

Definition is_empty (g : t) (rc : Coord) : Prop :=
  in_range g rc ∧ cell (board g) rc = Some None.

Lemma py_pos_in_range (len : nat) (i : Z) :
  0 ≤ i → i < Z.of_nat len → py_pos len i = Some (Z.to_nat i).
Proof.
  intros H0 H1. unfold py_pos.
  destruct (decide (0 ≤ i)); [|lia].
  destruct (decide (i < Z.of_nat len)); [done|lia].
Qed.

Lemma dims_row (b : grid_t) (R C r : Z) :
  dims b R C → 0 ≤ r → r < R →
  ∃ row, b !! Z.to_nat r = Some row ∧ length row = Z.to_nat C
         ∧ py_pos (length b) r = Some (Z.to_nat r).
Proof.
  intros [Hlen Hrows] H0 H1.
  destruct (lookup_lt_is_Some_2 b (Z.to_nat r)) as [row Hrow]; [lia|].
  exists row. split; [done|]. split.
  - by eapply (Forall_lookup_1 _ _ _ _ Hrows).
  - apply py_pos_in_range; lia.
Qed.

Lemma getitem_in_range (b : grid_t) (R C r c : Z) :
  dims b R C → 0 ≤ r → r < R → 0 ≤ c → c < C →
  ∃ v, getitem b r c = Ok v ∧ cell b (r, c) = Some v.
Proof.
  intros Hd Hr0 Hr1 Hc0 Hc1.
  destruct (dims_row b R C r Hd Hr0 Hr1) as (row & Hrow & Hlen & Hpos).
  destruct (lookup_lt_is_Some_2 row (Z.to_nat c)) as [v Hv]; [lia|].
  exists v. unfold getitem, cell. simpl. rewrite Hpos, Hrow.
  rewrite py_pos_in_range by lia. by rewrite Hv.
Qed.

Lemma setitem_in_range (b : grid_t) (R C r c : Z) (v : option string) :
  dims b R C → 0 ≤ r → r < R → 0 ≤ c → c < C →
  ∃ b', setitem b r c v = Ok b' ∧ dims b' R C
        ∧ ∀ rc, 0 ≤ rc.1 → 0 ≤ rc.2 →
            cell b' rc = if decide (rc = (r, c)) then Some v else cell b rc.
Proof.
  intros Hd Hr0 Hr1 Hc0 Hc1.
  destruct (dims_row b R C r Hd Hr0 Hr1) as (row & Hrow & Hlen & Hpos).
  exists (<[Z.to_nat r := <[Z.to_nat c := v]> row]> b).
  unfold setitem. rewrite Hpos, Hrow. rewrite py_pos_in_range by lia.
  split; [done|]. destruct Hd as [Hlenb Hrows]. split.
  - split; [by rewrite length_insert|].
    apply Forall_insert; [done|]. by rewrite length_insert.
  - intros [r' c'] Hr' Hc'. unfold cell. simpl in *.
    destruct (decide ((r', c') = (r, c))) as [[= -> ->]|Hne].
    + rewrite list_lookup_insert_eq by lia.
      rewrite list_lookup_insert_eq by lia. done.
    + destruct (decide (r' = r)) as [->|Hr].
      * rewrite list_lookup_insert_eq by lia. rewrite Hrow.
        rewrite list_lookup_insert_ne; [done|].
        intros Heq. apply Hne. f_equal. lia.
      * rewrite list_lookup_insert_ne; [done|]. lia.
Qed.

Lemma write_cells_in_range (b : grid_t) (R C : Z) (cells : Cells)
    (v : option string) :
  dims b R C →
  (∀ rc, rc ∈ cells → (0 ≤ rc.1 ∧ rc.1 < R) ∧ (0 ≤ rc.2 ∧ rc.2 < C)) →
  ∃ b', write_cells b cells v = Ok b' ∧ dims b' R C
        ∧ ∀ rc, 0 ≤ rc.1 → 0 ≤ rc.2 →
            cell b' rc = if decide (rc ∈ cells) then Some v else cell b rc.
Proof.
  revert b. induction cells as [|[r c] cells IH]; intros b Hd Hin.
  - exists b. split; [done|]. split; [done|]. intros rc _ _.
    destruct (decide (rc ∈ [])) as [H|_]; [by apply elem_of_nil in H|done].
  - destruct (Hin (r, c)) as [[Hr0 Hr1] [Hc0 Hc1]]; [apply elem_of_cons; (left; done)|].
    simpl in *.
    destruct (setitem_in_range b R C r c v Hd Hr0 Hr1 Hc0 Hc1)
      as (b1 & Hset & Hd1 & Hcell1).
    destruct (IH b1 Hd1) as (b2 & Hw & Hd2 & Hcell2).
    { intros rc Hrc. apply Hin. apply elem_of_cons. (right; done). }
    exists b2. rewrite Hset. simpl. split; [done|]. split; [done|].
    intros rc H1 H2. rewrite Hcell2 by done. rewrite Hcell1 by done.
    repeat case_decide; try done; exfalso;
      match goal with
      | H : _ ∈ _ :: _ |- _ => apply elem_of_cons in H; tauto
      | H : _ ∉ _ :: _ |- _ => apply H, elem_of_cons; tauto
      end.
Qed.

Lemma board_ext (b b' : grid_t) (R C : Z) :
  dims b R C → dims b' R C →
  (∀ rc, (0 ≤ rc.1 ∧ rc.1 < R) → (0 ≤ rc.2 ∧ rc.2 < C) →
         cell b rc = cell b' rc) →
  b = b'.
Proof.
  intros [Hl Hr] [Hl' Hr'] Hcell. apply list_eq. intros i.
  destruct (decide (i < length b)%nat) as [Hi|Hi].
  - destruct (lookup_lt_is_Some_2 b i Hi) as [row Hrow].
    destruct (lookup_lt_is_Some_2 b' i) as [row' Hrow']; [lia|].
    rewrite Hrow, Hrow'. f_equal. apply list_eq. intros j.
    pose proof (Forall_lookup_1 _ _ _ _ Hr Hrow) as Hlr.
    pose proof (Forall_lookup_1 _ _ _ _ Hr' Hrow') as Hlr'.
    simpl in Hlr, Hlr'.
    destruct (decide (j < length row)%nat) as [Hj|Hj].
    + specialize (Hcell (Z.of_nat i, Z.of_nat j)). unfold cell in Hcell.
      simpl in Hcell. rewrite !Nat2Z.id, Hrow, Hrow' in Hcell.
      apply Hcell; lia.
    + rewrite !lookup_ge_None_2; [done|lia|lia].
  - rewrite !lookup_ge_None_2; [done|lia|lia].
Qed.

Lemma init_wf (R C : Z) : wf (init R C).
Proof.
  unfold wf, init, dims. simpl. split; [by rewrite length_replicate|].
  apply Forall_replicate. by rewrite length_replicate.
Qed.

Lemma init_is_empty (R C : Z) (rc : Coord) :
  is_empty (init R C) rc ↔ (0 ≤ rc.1 ∧ rc.1 < R) ∧ (0 ≤ rc.2 ∧ rc.2 < C).
Proof.
  unfold is_empty, in_range, init, cell. simpl. split; [tauto|].
  intros [[H1 H2] [H3 H4]]. split; [done|].
  rewrite lookup_replicate_2 by lia. by rewrite lookup_replicate_2 by lia.
Qed.

Lemma first_empty_cols_spec (g : t) (r : Z) (cs : list Z) :
  wf g → 0 ≤ r → r < rows g →
  (∀ c, c ∈ cs → 0 ≤ c ∧ c < cols g) →
  ∃ o, first_empty_cols g r cs = Ok o
       ∧ (o = None → ∀ c, c ∈ cs → cell (board g) (r, c) ≠ Some None).
Proof.
  intros Hwf Hr0 Hr1. induction cs as [|c cs IH]; intros Hcs.
  - exists None. split; [done|]. intros _ c Hc. by apply elem_of_nil in Hc.
  - destruct (Hcs c) as [Hc0 Hc1]; [apply elem_of_cons; (left; done)|].
    destruct (getitem_in_range _ _ _ r c Hwf Hr0 Hr1 Hc0 Hc1) as (v & Hg & Hv).
    simpl. rewrite Hg. simpl. destruct v as [name|].
    + destruct IH as (o & Ho & Hnone).
      { intros c' Hc'. apply Hcs. apply elem_of_cons. (right; done). }
      exists o. split; [done|]. intros Hn c' [->|Hc']%elem_of_cons.
      * by rewrite Hv.
      * by apply Hnone.
    + exists (Some (r, c)). split; [done|]. intros [=].
Qed.

Lemma elem_of_range (n x : Z) : x ∈ range n ↔ 0 ≤ x ∧ x < n.
Proof.
  unfold range. rewrite list_elem_of_fmap. split.
  - intros (k & -> & Hk%elem_of_seq). lia.
  - intros [H0 H1]. exists (Z.to_nat x). split; [lia|].
    apply elem_of_seq. lia.
Qed.

Lemma first_empty_rows_spec (g : t) (rs : list Z) :
  wf g → (∀ r, r ∈ rs → 0 ≤ r ∧ r < rows g) →
  ∃ o, first_empty_rows g rs = Ok o
       ∧ (o = None → ∀ r c, r ∈ rs → 0 ≤ c ∧ c < cols g →
                     cell (board g) (r, c) ≠ Some None).
Proof.
  intros Hwf. induction rs as [|r rs IH]; intros Hrs.
  - exists None. split; [done|]. intros _ r c Hr. by apply elem_of_nil in Hr.
  - destruct (Hrs r) as [Hr0 Hr1]; [apply elem_of_cons; (left; done)|].
    destruct (first_empty_cols_spec g r (range (cols g)) Hwf Hr0 Hr1)
      as (o & Ho & Hnone).
    { intros c. apply elem_of_range. }
    simpl. rewrite Ho. simpl. destruct o as [rc|].
    + exists (Some rc). split; [done|]. intros [=].
    + destruct IH as (o' & Ho' & Hnone').
      { intros r' Hr'. apply Hrs. apply elem_of_cons. (right; done). }
      exists o'. split; [done|].
      intros Hn r' c [->|Hr']%elem_of_cons Hc.
      * apply Hnone; [done|]. by apply elem_of_range.
      * by apply Hnone'.
Qed.

Lemma first_empty_spec (g : t) :
  wf g →
  ∃ o, first_empty g = Ok o ∧ (o = None → ∀ rc, ¬ is_empty g rc).
Proof.
  intros Hwf.
  destruct (first_empty_rows_spec g (range (rows g)) Hwf) as (o & Ho & Hnone).
  { intros r. apply elem_of_range. }
  exists o. split; [done|]. intros Hn [r c] [[Hr Hc] Hcell].
  simpl in *. eapply Hnone; [done| |done|done]. by apply elem_of_range.
Qed.

Lemma can_place_spec (g : t) (cells : Cells) :
  wf g →
  ∃ b, can_place g cells = Ok b
       ∧ (b = true → ∀ rc, rc ∈ cells → is_empty g rc).
Proof.
  intros Hwf. induction cells as [|[r c] cells IH].
  - exists true. split; [done|]. intros _ rc Hrc. by apply elem_of_nil in Hrc.
  - simpl. destruct (decide _) as [Hout|Hin].
    + exists false. split; [done|]. intros [=].
    + assert (0 ≤ r ∧ r < rows g ∧ 0 ≤ c ∧ c < cols g) as (H1 & H2 & H3 & H4)
        by lia.
      destruct (getitem_in_range _ _ _ r c Hwf H1 H2 H3 H4) as (v & Hg & Hv).
      rewrite Hg. simpl. destruct v as [name|].
      * exists false. split; [done|]. intros [=].
      * destruct IH as (b & Hb & Hall). exists b. split; [done|].
        intros Ht rc [->|Hrc]%elem_of_cons.
        -- split; [|done]. unfold in_range. simpl. lia.
        -- by apply Hall.
Qed.

Lemma apply_place_spec (name : string) (cells : Cells) (g : t) :
  wf g → (∀ rc, rc ∈ cells → in_range g rc) →
  ∃ g', apply_place name cells g = Ok g' ∧ wf g'
        ∧ rows g' = rows g ∧ cols g' = cols g
        ∧ used g' = {[name]} ∪ used g
        ∧ ∀ rc, 0 ≤ rc.1 → 0 ≤ rc.2 →
            cell (board g') rc =
              if decide (rc ∈ cells) then Some (Some name)
              else cell (board g) rc.
Proof.
  intros Hwf Hin.
  destruct (write_cells_in_range (board g) (rows g) (cols g) cells
              (Some name) Hwf Hin) as (b' & Hw & Hd & Hcell).
  eexists. unfold apply_place. rewrite Hw. simpl. split; [done|].
  split; [done|]. done.
Qed.

(** [apply_remove] after [apply_place] (and anything in between that
    gives the grid back unchanged) restores the grid. *)
Lemma place_remove_restore (name : string) (cells : Cells) (g g1 : t) :
  wf g → (∀ rc, rc ∈ cells → is_empty g rc) → name ∉ used g →
  apply_place name cells g = Ok g1 →
  apply_remove name cells g1 = Ok g.
Proof.
  intros Hwf Hempty Hname Hplace.
  destruct (apply_place_spec name cells g Hwf)
    as (g1' & Hp & Hwf1 & Hr & Hc & Hu & Hcell).
  { intros rc Hrc. by apply Hempty. }
  rewrite Hplace in Hp. injection Hp as <-.
  destruct (write_cells_in_range (board g1) (rows g) (cols g) cells None)
    as (b2 & Hw & Hd2 & Hcell2).
  { unfold wf in Hwf1. by rewrite Hr, Hc in Hwf1. }
  { intros rc Hrc. by apply Hempty. }
  unfold apply_remove. rewrite Hw. simpl.
  rewrite decide_True by (rewrite Hu; set_solver).
  destruct g as [R C b u]. simpl in *. f_equal. rewrite Hr, Hc. f_equal.
  - symmetry. apply (board_ext b b2 R C); [done|done|].
    intros rc H1 H2. rewrite Hcell2 by lia. rewrite Hcell by lia.
    destruct (decide (rc ∈ cells)) as [Hm|Hm]; [|done].
    by destruct (Hempty rc Hm) as [_ ?].
  - rewrite Hu. apply leibniz_equiv. set_solver.
Qed.

End Board.

(** ** [manim/pentomino_6x10.py]: the budgeted recorder *)
Module Pentomino6x10.

Record SearchState : Type := mkSearchState {
  grid : Board.t;
  max_steps : Z;
  events : list (string * Placement)
}.

Definition init (rows cols max_steps : Z) : SearchState :=
  mkSearchState (Board.init rows cols) max_steps [].

(** [len(self.events) >= self.max_steps] *)
Definition capped (s : SearchState) : Prop :=
  max_steps s ≤ Z.of_nat (length (events s)).

Definition append_event (op : string) (piece : Placement)
    (s : SearchState) : result SearchState :=
  Ok (mkSearchState (grid s) (max_steps s) (events s ++ [(op, piece)])).

Definition record (op : string) (piece : Placement) : M SearchState bool :=
  let* s := get in
  if decide (capped s) then ret true
  else
    do update (append_event op piece) then
    let* s' := get in
    ret (bool_decide (capped s')).

(** A method of the grid run on the grid of the search state. *)
Definition on_grid (f : Board.t → result Board.t) : M SearchState unit :=
  update (fun s =>
    rbind (f (grid s)) (fun g => Ok (mkSearchState g (max_steps s) (events s)))).

(** Body of the innermost loop of [search], for one anchoring cell. *)
Definition try_cell (rec : M SearchState bool) (anchor : Coord)
    (name : string) (orient : Cells) (cell : Coord)
    : M SearchState (option bool) :=
  let dr := anchor.1 - cell.1 in
  let dc := anchor.2 - cell.2 in
  let shifted := shift orient dr dc in
  let* ok := query (fun s => Board.can_place (grid s) shifted) in
  if negb ok then ret None
  else
    do on_grid (Board.apply_place name shifted) then
    let* full := record "place" (name, shifted) in
    if full then ret (Some true)
    else
      let* found := rec in
      if found then ret (Some true)
      else
        do on_grid (Board.apply_remove name shifted) then
        let* full' := record "remove" (name, shifted) in
        if full' then ret (Some true) else ret None.

(** Body of the loop over piece names. *)
Definition try_name (rec : M SearchState bool) (anchor : Coord)
    (name : string) : M SearchState (option bool) :=
  let* s := get in
  if decide (name ∈ Board.used (grid s)) then ret None
  else
    match dict_get ORIENTATIONS name with
    | None => raise KeyError
    | Some orients =>
        for_each orients (fun orient =>
          for_each orient (try_cell rec anchor name orient))
    end.

Fixpoint search (fuel : nat) : M SearchState bool :=
  match fuel with
  | O => out_of_fuel
  | S fuel' =>
      let* s := get in
      if decide (capped s) then ret true
      else
        let* spot := query (fun s => Board.first_empty (grid s)) in
        match spot with
        | None => ret true
        | Some anchor =>
            let* r := for_each sorted_names (try_name (search fuel') anchor) in
            match r with
            | Some b => ret b
            | None => ret false
            end
        end
  end.

(** *** The event stream never exceeds the cap *)

(** [len(self.events) <= self.max_steps] *)
Definition bounded (s : SearchState) : Prop :=
  Z.of_nat (length (events s)) ≤ max_steps s.

(** What a computation guarantees when started below the cap: every
    state it passes through is [bounded]; a state at the cap can only be
    the last one it reaches; the final state is the last one logged; and
    ending at the cap is signalled by a result satisfying [stop]. *)
Definition cap_spec {A} (m : M SearchState A) (stop : A → Prop) : Prop :=
  ∀ s, bounded s → ¬ capped s →
    Forall bounded (m s).1
    ∧ (∀ l1 x l2, (m s).1 = l1 ++ x :: l2 → capped x → l2 = [])
    ∧ ∀ a s', (m s).2 = Ok (a, s') →
        s' = List.last (m s).1 s ∧ (capped s' → stop a).

Lemma last_Forall {X} (P : X → Prop) (l : list X) (d : X) :
  Forall P l → P d → P (List.last l d).
Proof.
  induction l as [|x l IH]; [done|]. intros HF Hd.
  apply Forall_cons in HF as [Hx HF].
  destruct l as [|y l]; [done|]. by apply IH.
Qed.

Lemma last_cons_default {X} (l : list X) (x d : X) :
  List.last (x :: l) d = List.last l x.
Proof.
  revert x d. induction l as [|y l IH]; intros x d; [done|].
  change (List.last (y :: l) d = List.last (y :: l) x).
  rewrite (IH y d), (IH y x). reflexivity.
Qed.

Lemma last_app_default {X} (l1 l2 : list X) (d : X) :
  List.last (l1 ++ l2) d = List.last l2 (List.last l1 d).
Proof.
  revert d. induction l1 as [|x l1 IH]; intros d; [done|].
  rewrite <- app_comm_cons, !last_cons_default. apply IH.
Qed.

Lemma last_snoc_split {X} (l1 l2 : list X) (x d : X) :
  List.last (l1 ++ x :: l2) d = List.last (x :: l2) d.
Proof. by rewrite last_app_default, !last_cons_default. Qed.

Lemma cap_spec_weaken {A} (m : M SearchState A) (stop stop' : A → Prop) :
  (∀ a, stop a → stop' a) → cap_spec m stop → cap_spec m stop'.
Proof.
  intros Hw Hm s Hb Hc. destruct (Hm s Hb Hc) as (H1 & H2 & H3).
  split; [done|]. split; [done|]. intros a s' Hr.
  destruct (H3 a s' Hr) as [? ?]. split; auto.
Qed.

Lemma cap_spec_ret {A} (a : A) (stop : A → Prop) : cap_spec (ret a) stop.
Proof.
  intros s Hb Hc. simpl. split; [constructor|]. split.
  - intros l1 x l2 Heq. by destruct l1.
  - intros a' s' [= <- <-]. split; [done|]. intros; contradiction.
Qed.

Lemma cap_spec_get (stop : SearchState → Prop) : cap_spec get stop.
Proof.
  intros s Hb Hc. simpl. split; [constructor|]. split.
  - intros l1 x l2 Heq. by destruct l1.
  - intros a' s' [= <- <-]. split; [done|]. intros; contradiction.
Qed.

Lemma cap_spec_raise {A} (e : exn) (stop : A → Prop) : cap_spec (raise e) stop.
Proof.
  intros s Hb Hc. simpl. split; [constructor|]. split.
  - intros l1 x l2 Heq. by destruct l1.
  - intros a' s' [=].
Qed.

Lemma cap_spec_out_of_fuel {A} (stop : A → Prop) :
  cap_spec (@out_of_fuel SearchState A) stop.
Proof.
  intros s Hb Hc. simpl. split; [constructor|]. split.
  - intros l1 x l2 Heq. by destruct l1.
  - intros a' s' [=].
Qed.

Lemma cap_spec_query {A} (f : SearchState → result A) (stop : A → Prop) :
  cap_spec (query f) stop.
Proof.
  intros s Hb Hc. unfold query. destruct (f s); simpl.
  all: split; [constructor|]; split;
    [intros l1 x l2 Heq; by destruct l1|].
  - intros a' s' [= <- <-]. split; [done|]. intros; contradiction.
  - intros a' s' [=].
  - intros a' s' [=].
Qed.

Lemma cap_spec_on_grid (f : Board.t → result Board.t) (stop : unit → Prop) :
  cap_spec (on_grid f) stop.
Proof.
  intros s Hb Hc. unfold on_grid, update.
  destruct (f (grid s)) as [g| |]; simpl.
  - split; [by repeat constructor|]. split.
    + intros l1 x l2 Heq. destruct l1 as [|y l1]; simplify_eq/=.
      * done.
      * by destruct l1.
    + intros a' s' [= <- <-]. split; [done|]. intros; contradiction.
  - split; [constructor|]. split; [intros l1 x l2 Heq; by destruct l1|].
    intros a' s' [=].
  - split; [constructor|]. split; [intros l1 x l2 Heq; by destruct l1|].
    intros a' s' [=].
Qed.

(** Sequencing: when the first part ends at the cap (signalled by
    [stopA]), the continuation must return at once without touching the
    state. *)
Lemma cap_spec_bind {A B} (m : M SearchState A) (k : A → M SearchState B)
    (stopA : A → Prop) (stopB : B → Prop) :
  cap_spec m stopA →
  (∀ a, cap_spec (k a) stopB) →
  (∀ a s, stopA a → ∃ b, k a s = ([], Ok (b, s)) ∧ stopB b) →
  cap_spec (bind m k) stopB.
Proof.
  intros Hm Hk Hsilent s Hb Hc. unfold bind.
  destruct (Hm s Hb Hc) as (HF & Hlast & Hres).
  destruct (m s) as [l1 [[a s1]| |]] eqn:Hms; simpl in *.
  2,3: (split; [done|]; split; [done|]; intros ?? [=]).
  destruct (Hres a s1 eq_refl) as [Hs1 Hstop].
  assert (bounded s1) as Hb1 by (subst s1; by apply last_Forall).
  destruct (decide (capped s1)) as [Hc1|Hc1].
  - destruct (Hsilent a s1 (Hstop Hc1)) as (b & -> & Hb'). simpl.
    rewrite app_nil_r. split; [done|]. split; [done|].
    intros b' s' [= <- <-]. split; [done|]. done.
  - destruct (Hk a s1 Hb1 Hc1) as (HF2 & Hlast2 & Hres2).
    destruct (k a s1) as [l2 r]; simpl in *.
    split; [by apply Forall_app|]. split.
    + intros p x q Heq Hx.
      apply app_eq_app in Heq as [l [[H1 H2]|[H1 H2]]].
      * destruct l as [|y l].
        -- simpl in H2. symmetry in H2. by apply (Hlast2 [] x q).
        -- simpl in H2. injection H2 as <- ->.
           pose proof (Hlast p x l H1 Hx) as ->.
           rewrite H1, last_snoc_split in Hs1. simpl in Hs1.
           subst s1. contradiction.
      * by apply (Hlast2 l x q).
    + intros b s' Hr. destruct (Hres2 b s' Hr) as [-> Hst].
      split; [|done]. rewrite last_app_default. by subst s1.
Qed.

(** When the continuation never sees a stopped first part. *)
Lemma cap_spec_bind_quiet {A B} (m : M SearchState A)
    (k : A → M SearchState B) (stopB : B → Prop) :
  cap_spec m (fun _ => False) →
  (∀ a, cap_spec (k a) stopB) →
  cap_spec (bind m k) stopB.
Proof. intros Hm Hk. eapply cap_spec_bind; [exact Hm|exact Hk|]. intros ?? []. Qed.

Definition is_true_signal (b : bool) : Prop := b = true.
Definition is_return_true (r : option bool) : Prop := r = Some true.

Lemma record_at_cap (op : string) (piece : Placement) (s : SearchState) :
  capped s → record op piece s = ([], Ok (true, s)).
Proof.
  intros Hc. unfold record, bind, get. simpl.
  destruct (decide (capped s)); [done|contradiction].
Qed.

Lemma record_below_cap (op : string) (piece : Placement) (s : SearchState) :
  ¬ capped s →
  let s' := mkSearchState (grid s) (max_steps s) (events s ++ [(op, piece)]) in
  record op piece s = ([s'], Ok (bool_decide (capped s'), s')).
Proof.
  intros Hc. unfold record, bind, get. simpl.
  destruct (decide (capped s)); [contradiction|done].
Qed.

Lemma cap_spec_record (op : string) (piece : Placement) :
  cap_spec (record op piece) is_true_signal.
Proof.
  intros s Hb Hc. rewrite record_below_cap by done. simpl.
  set (s' := mkSearchState _ _ _).
  assert (bounded s') as Hb'.
  { unfold bounded, capped in *. simpl. rewrite length_app. simpl. lia. }
  split; [by repeat constructor|]. split.
  - intros l1 x l2 Heq. destruct l1 as [|y l1]; simplify_eq/=; [done|].
    by destruct l1.
  - intros a s'' [= <- <-]. split; [done|].
    intros Hc'. unfold is_true_signal. by apply bool_decide_eq_true.
Qed.

Lemma cap_spec_for_each {A} (l : list A)
    (body : A → M SearchState (option bool)) :
  (∀ x, cap_spec (body x) is_return_true) →
  cap_spec (for_each l body) is_return_true.
Proof.
  intros Hbody. induction l as [|x l IH]; simpl.
  - apply cap_spec_ret.
  - eapply cap_spec_bind; [apply Hbody| |].
    + intros [b|]; [apply cap_spec_ret|apply IH].
    + intros r s ->. by exists (Some true).
Qed.

Lemma cap_spec_try_cell (rec : M SearchState bool) (anchor : Coord)
    (name : string) (orient : Cells) (cell : Coord) :
  cap_spec rec is_true_signal →
  cap_spec (try_cell rec anchor name orient cell) is_return_true.
Proof.
  intros Hrec. unfold try_cell.
  apply cap_spec_bind_quiet; [apply cap_spec_query|]. intros ok.
  destruct ok; simpl; [|apply cap_spec_ret].
  apply cap_spec_bind_quiet; [apply cap_spec_on_grid|]. intros _.
  eapply cap_spec_bind; [apply cap_spec_record| |].
  2:{ intros b s ->. by exists (Some true). }
  intros full. destruct full; [apply cap_spec_ret|].
  eapply cap_spec_bind; [apply Hrec| |].
  2:{ intros b s ->. by exists (Some true). }
  intros found. destruct found; [apply cap_spec_ret|].
  apply cap_spec_bind_quiet; [apply cap_spec_on_grid|]. intros _.
  eapply cap_spec_bind; [apply cap_spec_record| |].
  2:{ intros b s ->. by exists (Some true). }
  intros full'. destruct full'; apply cap_spec_ret.
Qed.

Lemma cap_spec_try_name (rec : M SearchState bool) (anchor : Coord)
    (name : string) :
  cap_spec rec is_true_signal →
  cap_spec (try_name rec anchor name) is_return_true.
Proof.
  intros Hrec. unfold try_name.
  apply cap_spec_bind_quiet; [apply cap_spec_get|]. intros s.
  destruct (decide _); [apply cap_spec_ret|].
  destruct (dict_get ORIENTATIONS name) as [orients|]; [|apply cap_spec_raise].
  apply cap_spec_for_each. intros orient.
  apply cap_spec_for_each. intros cell.
  by apply cap_spec_try_cell.
Qed.

Lemma search_at_cap (fuel : nat) (s : SearchState) :
  capped s → search (S fuel) s = ([], Ok (true, s)).
Proof.
  intros Hc. cbn [search]. unfold bind, get. cbn beta iota.
  destruct (decide (capped s)); [done|contradiction].
Qed.

Lemma cap_spec_search (fuel : nat) : cap_spec (search fuel) is_true_signal.
Proof.
  induction fuel as [|fuel IH]; cbn [search]; [apply cap_spec_out_of_fuel|].
  apply cap_spec_bind_quiet; [apply cap_spec_get|]. intros s.
  destruct (decide _); [apply cap_spec_ret|].
  apply cap_spec_bind_quiet; [apply cap_spec_query|]. intros spot.
  destruct spot as [anchor|]; [|apply cap_spec_ret].
  eapply cap_spec_bind.
  - apply cap_spec_for_each. intros name. by apply cap_spec_try_name.
  - intros [b|]; apply cap_spec_ret.
  - intros r s' ->. by exists true.
Qed.

(** C10: the event stream of the budgeted recorder is bounded.  Started
    with at most [max_steps] events (a fresh state with a non-negative
    cap), every state [search] passes through and the state it ends in hold
    at most [max_steps] events; a state at the cap is never followed by
    another mutation, and reaching it makes [search] return [True].
    [record] does not append at the cap, and [search] entered at the cap
    returns [True] at once. *)
Theorem events_bounded_by_max_steps :
  (∀ fuel s, bounded s →
     Forall bounded (search fuel s).1
     ∧ (∀ l1 x l2, (search fuel s).1 = l1 ++ x :: l2 → capped x → l2 = [])
     ∧ (∀ b s', (search fuel s).2 = Ok (b, s') →
          bounded s' ∧ (capped s' → b = true)))
  ∧ (∀ op piece s, capped s → record op piece s = ([], Ok (true, s)))
  ∧ (∀ fuel s, capped s → search (S fuel) s = ([], Ok (true, s))).
Proof.
  split; [|split; [apply record_at_cap|apply search_at_cap]].
  intros fuel s Hb. destruct (decide (capped s)) as [Hc|Hc].
  - destruct fuel as [|fuel].
    + simpl. split; [constructor|]. split.
      * intros l1 x l2 Heq. by destruct l1.
      * intros b s' [=].
    + rewrite search_at_cap by done. simpl. split; [constructor|]. split.
      * intros l1 x l2 Heq. by destruct l1.
      * intros b s' [= <- <-]. done.
  - destruct (cap_spec_search fuel s Hb Hc) as (HF & Hlast & Hres).
    split; [done|]. split; [done|].
    intros b s' Hr. destruct (Hres b s' Hr) as [-> Hsig].
    split; [by apply last_Forall|done].
Qed.

Lemma events_bounded_by_max_steps_witness :
  Forall bounded (search 13 (init 6 10 100)).1
  ∧ (∀ l1 x l2, (search 13 (init 6 10 100)).1 = l1 ++ x :: l2 →
       capped x → l2 = [])
  ∧ (∀ b s', (search 13 (init 6 10 100)).2 = Ok (b, s') →
       bounded s' ∧ (capped s' → b = true)).
Proof.
  apply (proj1 events_bounded_by_max_steps 13%nat (init 6 10 100)).
  unfold bounded. simpl. lia.
Defined.

(** The run of the scene: 100 events, then [True]. *)
Example search_scene_run :
  let r := search 13 (init 6 10 100) in
  length r.1 = 200%nat
  ∧ ∃ s', r.2 = Ok (true, s') ∧ length (events s') = 100%nat.
Proof. vm_compute. split; [done|]. eexists. split; reflexivity. Qed.

End Pentomino6x10.

(** *** Facts about the orientation table and about shifting *)

Definition orientation_table_ok : bool :=
  forallb (fun name =>
    match dict_get ORIENTATIONS name with
    | None => false
    | Some os =>
        forallb (fun o => bool_decide (NoDup o) && bool_decide (length o = 5%nat)) os
    end) sorted_names.

Lemma orientation_table_ok_true : orientation_table_ok = true.
Proof. vm_compute. reflexivity. Qed.

Lemma orientations_lookup (name : string) :
  name ∈ sorted_names →
  ∃ os, dict_get ORIENTATIONS name = Some os
        ∧ ∀ o, o ∈ os → NoDup o ∧ length o = 5%nat.
Proof.
  intros Hin. pose proof orientation_table_ok_true as Hok.
  unfold orientation_table_ok in Hok. rewrite forallb_forall in Hok.
  apply list_elem_of_In in Hin. specialize (Hok _ Hin).
  destruct (dict_get ORIENTATIONS name) as [os|]; [|done].
  exists os. split; [done|]. intros o Ho.
  rewrite forallb_forall in Hok. apply list_elem_of_In in Ho.
  apply Hok in Ho. apply andb_true_iff in Ho as [H1 H2].
  by apply bool_decide_eq_true in H1, H2.
Qed.

#[global] Instance shift_cell_inj (dr dc : Z) :
  Inj (=) (=) (fun rc : Coord => (rc.1 + dr, rc.2 + dc)).
Proof. intros [a b] [c d] [=]. f_equal; lia. Qed.

Lemma shift_NoDup (orient : Cells) (dr dc : Z) :
  NoDup orient → NoDup (shift orient dr dc).
Proof. intros Hnd. unfold shift. by apply (NoDup_fmap_2 _). Qed.

Lemma shift_length (orient : Cells) (dr dc : Z) :
  length (shift orient dr dc) = length orient.
Proof. unfold shift. apply length_map. Qed.

(** Number of pieces not yet on the board. *)
Definition unused (g : Board.t) : nat :=
  length (filter (fun name => name ∉ Board.used g) sorted_names).

Lemma filter_length_lt {A} (P P' : A → Prop) `{∀ x, Decision (P x)}
    `{∀ x, Decision (P' x)} (l : list A) (a : A) :
  a ∈ l → P a → ¬ P' a → (∀ x, P' x → P x) →
  (length (filter P' l) < length (filter P l))%nat.
Proof.
  intros Hin Ha Hna Himp.
  assert (∀ k : list A, (length (filter P' k) ≤ length (filter P k))%nat) as Hle.
  { induction k as [|x k IH]; [done|]. rewrite !filter_cons.
    repeat case_decide; simpl; try lia. exfalso; auto. }
  induction l as [|x l IH]; [by apply elem_of_nil in Hin|].
  rewrite !filter_cons. apply elem_of_cons in Hin as [<-|Hin].
  - specialize (Hle l). repeat case_decide; simpl; try lia; contradiction.
  - specialize (IH Hin). repeat case_decide; simpl; try lia. exfalso; auto.
Qed.

Lemma unused_place (g g' : Board.t) (name : string) :
  name ∈ sorted_names → name ∉ Board.used g →
  Board.used g' = {[name]} ∪ Board.used g →
  (unused g' < unused g)%nat.
Proof.
  intros Hin Hn Hu. unfold unused.
  apply (filter_length_lt _ _ _ name); [done|done| |].
  - rewrite Hu. set_solver.
  - intros x. rewrite Hu. set_solver.
Qed.

Lemma unused_le (g : Board.t) : (unused g ≤ length sorted_names)%nat.
Proof. unfold unused. apply length_filter. Qed.

(** ** [manim/pentomino_6x10_five.py]: randomised solver and deduplicator *)
Module Pentomino6x10Five.

(** Python's order on [(name, cells)] tuples: names first, then the cell
    tuples, lexicographically. *)
Definition coord_cmp (a b : Coord) : comparison :=
  match a.1 ?= b.1 with
  | Eq => a.2 ?= b.2
  | c => c
  end.

Fixpoint cells_cmp (a b : Cells) : comparison :=
  match a, b with
  | [], [] => Eq
  | [], _ :: _ => Lt
  | _ :: _, [] => Gt
  | x :: a', y :: b' =>
      match coord_cmp x y with
      | Eq => cells_cmp a' b'
      | c => c
      end
  end.

Definition placement_le (p q : Placement) : Prop :=
  match String.compare p.1 q.1 with
  | Lt => True
  | Gt => False
  | Eq => cells_cmp p.2 q.2 ≠ Gt
  end.

#[global] Instance placement_le_dec p q : Decision (placement_le p q).
Proof. unfold placement_le. destruct (String.compare p.1 q.1); apply _. Defined.

Definition Signature : Type := list Placement.

(** [solution_signature]: cells sorted inside each placement, then the
    placements sorted. *)
Definition solution_signature (solution : list Placement) : Signature :=
  merge_sort placement_le (map (fun p => (p.1, sorted p.2)) solution).

Section Solver.

(** [random.Random]: the generator state, its seeding, and [shuffle].
    The library is not part of the repository; all that is used of it is
    that [shuffle] permutes its argument. *)
Context {RNG : Type}.
Variable Random : Z → RNG.
Variable shuffle : ∀ A : Type, list A → RNG → list A * RNG.
Hypothesis shuffle_perm :
  ∀ (A : Type) (l : list A) (g : RNG), (shuffle A l g).1 ≡ₚ l.

(** The mutable state of a solver object.  The [seed] argument is only
    read by [__post_init__], to create [rng]. *)
Record DFSSolver : Type := mkDFSSolver {
  grid : Board.t;
  rng : RNG
}.

(** [DFSSolver(rows, cols, seed)] *)
Definition init (rows cols seed : Z) : DFSSolver :=
  mkDFSSolver (Board.init rows cols) (Random seed).

(** [self.rng.shuffle(l)] on a fresh list [l]. *)
Definition rng_shuffle {A} (l : list A) : M DFSSolver (list A) :=
  fun s =>
    let '(l', g') := shuffle A l (rng s) in
    let s' := mkDFSSolver (grid s) g' in
    ([s'], Ok (l', s')).

Definition on_grid (f : Board.t → result Board.t) : M DFSSolver unit :=
  update (fun s =>
    rbind (f (grid s)) (fun g => Ok (mkDFSSolver g (rng s)))).

(** Innermost loop body of [solve]. *)
Definition try_anchor (rec : M DFSSolver (option (list Placement)))
    (anchor : Coord) (name : string) (orient : Cells) (cell : Coord)
    : M DFSSolver (option (list Placement)) :=
  let dr := anchor.1 - cell.1 in
  let dc := anchor.2 - cell.2 in
  let shifted := shift orient dr dc in
  let* ok := query (fun s => Board.can_place (grid s) shifted) in
  if negb ok then ret None
  else
    do on_grid (Board.apply_place name shifted) then
    let* rest := rec in
    match rest with
    | Some rest => ret (Some ((name, shifted) :: rest))
    | None =>
        do on_grid (Board.apply_remove name shifted) then
        ret None
    end.

Definition try_orient (rec : M DFSSolver (option (list Placement)))
    (anchor : Coord) (name : string) (orient : Cells)
    : M DFSSolver (option (list Placement)) :=
  let* anchors := rng_shuffle orient in
  for_each anchors (try_anchor rec anchor name orient).

Definition try_name (rec : M DFSSolver (option (list Placement)))
    (anchor : Coord) (name : string)
    : M DFSSolver (option (list Placement)) :=
  match dict_get ORIENTATIONS name with
  | None => raise KeyError
  | Some os =>
      let* orientations := rng_shuffle os in
      for_each orientations (try_orient rec anchor name)
  end.

Fixpoint solve_rec (fuel : nat) : M DFSSolver (option (list Placement)) :=
  match fuel with
  | O => out_of_fuel
  | S fuel' =>
      let* empty := query (fun s => Board.first_empty (grid s)) in
      match empty with
      | None => ret (Some [])
      | Some anchor =>
          let* s := get in
          let* names :=
            rng_shuffle
              (filter (fun name => name ∉ Board.used (grid s)) sorted_names) in
          for_each names (try_name (solve_rec fuel') anchor)
      end
  end.

(** [solve]: each nested call has one more piece in [used], so the depth
    never exceeds the number of pieces plus one. *)
Definition solve : M DFSSolver (option (list Placement)) :=
  solve_rec (S (length sorted_names)).

(** The loop of [find_unique_solutions]; [unique] is the insertion-ordered
    dictionary from signatures to solutions.  The result is the dictionary
    when the loop is left, by [break] or by exhaustion. *)
Fixpoint find_loop (count : Z) (attempts : list Z)
    (unique : list (Signature * list Placement))
    : result (list (Signature * list Placement)) :=
  match attempts with
  | [] => Ok unique
  | attempt :: rest =>
      match (solve (init 6 10 (attempt + 1))).2 with
      | Ok (None, _) => find_loop count rest unique
      | Ok (Some solution, _) =>
          let signature := solution_signature solution in
          if decide (signature ∈ map fst unique) then
            find_loop count rest unique
          else
            let unique' := unique ++ [(signature, solution)] in
            if decide (count ≤ Z.of_nat (length unique')) then Ok unique'
            else find_loop count rest unique'
      | Raise e => Raise e
      | OutOfFuel => OutOfFuel
      end
  end.

Definition find_unique_solutions (count max_attempts : Z)
    : result (list (list Placement)) :=
  rbind (find_loop count (range max_attempts) [])
        (fun unique => Ok (map snd unique)).


(** *** Soundness of [solve] *)

(** [sol] tiles exactly the empty cells of [g] with pieces not used in
    [g], each at most once. *)
Definition exact_cover (g : Board.t) (sol : list Placement) : Prop :=
  NoDup (concat (map snd sol))
  ∧ (∀ rc, rc ∈ concat (map snd sol) ↔ Board.is_empty g rc)
  ∧ NoDup (map fst sol)
  ∧ (∀ n, n ∈ map fst sol → n ∉ Board.used g).

(** Outcome of a call entered with grid [g]: a cover of the empty cells,
    or [None] with the grid as it was. *)
Definition solve_post (g : Board.t) (r : option (list Placement))
    (s' : DFSSolver) : Prop :=
  match r with
  | None => grid s' = g
  | Some sol => exact_cover g sol
  end.

Lemma exact_cover_nil (g : Board.t) :
  (∀ rc, ¬ Board.is_empty g rc) → exact_cover g [].
Proof.
  intros Hfull. split; [constructor|]. split; [|split; [constructor|]].
  - intros rc. simpl. split; [by intros ?%elem_of_nil|].
    intros He. by destruct (Hfull rc).
  - intros n ?%elem_of_nil. done.
Qed.

Lemma exact_cover_cons (g g1 : Board.t) (name : string) (cells : Cells)
    (rest : list Placement) :
  NoDup cells → (∀ rc, rc ∈ cells → Board.is_empty g rc) →
  name ∉ Board.used g →
  Board.rows g1 = Board.rows g → Board.cols g1 = Board.cols g →
  Board.used g1 = {[name]} ∪ Board.used g →
  (∀ rc, 0 ≤ rc.1 → 0 ≤ rc.2 →
     Board.cell (Board.board g1) rc =
       if decide (rc ∈ cells) then Some (Some name)
       else Board.cell (Board.board g) rc) →
  exact_cover g1 rest →
  exact_cover g ((name, cells) :: rest).
Proof.
  intros Hnd Hempty Hname Hr Hc Hu Hcell (Hnd1 & Hcov & Hnames & Hunused).
  assert (∀ rc, Board.is_empty g1 rc ↔ Board.is_empty g rc ∧ rc ∉ cells) as Hiff.
  { intros rc. unfold Board.is_empty, Board.in_range. rewrite Hr, Hc.
    split.
    - intros [Hin Hce]. rewrite Hcell in Hce by lia.
      case_decide; [done|]. done.
    - intros [[Hin Hce] Hnot]. split; [done|]. rewrite Hcell by lia.
      case_decide; [contradiction|done]. }
  unfold exact_cover. simpl. split; [|split; [|split]].
  - apply NoDup_app. split; [done|]. split; [|done].
    intros rc Hin Hin'. apply Hcov, Hiff in Hin'. tauto.
  - intros rc. rewrite elem_of_app, Hcov, Hiff. split.
    + intros [?|[? _]]; auto.
    + intros He. destruct (decide (rc ∈ cells)); auto.
  - apply NoDup_cons. split; [|done].
    intros Hin. apply Hunused in Hin. rewrite Hu in Hin. set_solver.
  - intros n [->|Hin]%elem_of_cons; [done|].
    apply Hunused in Hin. rewrite Hu in Hin. set_solver.
Qed.

Lemma total_rng_shuffle {A} (l : list A) (s : DFSSolver)
    (Q : list A → DFSSolver → Prop) :
  (∀ l' s', l' ≡ₚ l → grid s' = grid s → Q l' s') →
  total (rng_shuffle l) s Q.
Proof.
  intros HQ. unfold total, rng_shuffle.
  pose proof (shuffle_perm A l (rng s)) as Hp.
  destruct (shuffle A l (rng s)) as [l' g']. simpl in *.
  eexists _, _. split; [done|]. by apply HQ.
Qed.

Section Loops.

Variable fuel : nat.
Variable rec : M DFSSolver (option (list Placement)).
Hypothesis rec_spec :
  ∀ s, Board.wf (grid s) → (unused (grid s) < fuel)%nat →
       total rec s (solve_post (grid s)).

Variable g0 : Board.t.
Hypothesis g0_wf : Board.wf g0.
Hypothesis g0_fuel : (unused g0 < S fuel)%nat.

Lemma try_anchor_total (anchor : Coord) (name : string) (orient : Cells)
    (cell : Coord) (s : DFSSolver) :
  grid s = g0 → name ∈ sorted_names → name ∉ Board.used g0 →
  NoDup orient →
  total (try_anchor rec anchor name orient cell) s (fun r s' =>
    match r with
    | None => grid s' = g0
    | Some sol => solve_post g0 (Some sol) s'
    end).
Proof.
  intros Hg Hin Hname Hnd. unfold try_anchor.
  set (shifted := shift orient _ _).
  destruct (Board.can_place_spec g0 shifted g0_wf) as (ok & Hok & Hempty).
  apply total_bind. eapply total_query; [by rewrite Hg|].
  destruct ok; simpl; [|by apply total_ret].
  specialize (Hempty eq_refl).
  destruct (Board.apply_place_spec name shifted g0 g0_wf)
    as (g1 & Hp & Hwf1 & Hr1 & Hc1 & Hu1 & Hcell1).
  { intros rc Hrc. by apply Hempty. }
  apply total_bind. eapply total_update.
  { unfold rbind. rewrite Hg, Hp. reflexivity. }
  apply total_bind.
  eapply total_mono.
  { apply rec_spec; simpl; [done|].
    pose proof (unused_place g0 g1 name Hin Hname Hu1). lia. }
  simpl. intros [rest|] s2 Hpost; simpl in Hpost.
  - apply total_ret. simpl.
    eapply exact_cover_cons; eauto. by apply shift_NoDup.
  - apply total_bind. eapply total_update.
    { rewrite Hpost.
      by rewrite (Board.place_remove_restore name shifted g0 g1
                    g0_wf Hempty Hname Hp). }
    by apply total_ret.
Qed.

Lemma try_orient_total (anchor : Coord) (name : string) (orient : Cells)
    (s : DFSSolver) :
  grid s = g0 → name ∈ sorted_names → name ∉ Board.used g0 →
  NoDup orient →
  total (try_orient rec anchor name orient) s (fun r s' =>
    match r with
    | None => grid s' = g0
    | Some sol => solve_post g0 (Some sol) s'
    end).
Proof.
  intros Hg Hin Hname Hnd. unfold try_orient.
  apply total_bind. apply total_rng_shuffle. intros anchors s1 _ Hg1.
  apply (total_for_each (fun s => grid s = g0)
           (fun r s' => match r with
                        | None => grid s' = g0
                        | Some sol => solve_post g0 (Some sol) s'
                        end)).
  - congruence.
  - intros cell s2 _ Hg2. by apply try_anchor_total.
  - done.
Qed.

Lemma try_name_total (anchor : Coord) (name : string) (s : DFSSolver) :
  grid s = g0 → name ∈ sorted_names → name ∉ Board.used g0 →
  total (try_name rec anchor name) s (fun r s' =>
    match r with
    | None => grid s' = g0
    | Some sol => solve_post g0 (Some sol) s'
    end).
Proof.
  intros Hg Hin Hname. unfold try_name.
  destruct (orientations_lookup name Hin) as (os & -> & Hos).
  apply total_bind. apply total_rng_shuffle. intros os' s1 Hperm Hg1.
  apply (total_for_each (fun s => grid s = g0)
           (fun r s' => match r with
                        | None => grid s' = g0
                        | Some sol => solve_post g0 (Some sol) s'
                        end)).
  - congruence.
  - intros orient s2 Ho Hg2. apply try_orient_total; try done.
    rewrite Hperm in Ho. by apply Hos.
  - done.
Qed.

End Loops.

Lemma solve_rec_total (fuel : nat) (s : DFSSolver) :
  Board.wf (grid s) → (unused (grid s) < fuel)%nat →
  total (solve_rec fuel) s (solve_post (grid s)).
Proof.
  revert s. induction fuel as [|fuel IH]; intros s Hwf Hfuel; [lia|].
  cbn [solve_rec].
  destruct (Board.first_empty_spec (grid s) Hwf) as (o & Ho & Hnone).
  apply total_bind. eapply total_query; [exact Ho|].
  destruct o as [anchor|].
  - apply total_bind. apply total_get.
    apply total_bind. apply total_rng_shuffle. intros names s1 Hperm Hg1.
    apply (total_for_each (fun s' => grid s' = grid s) (solve_post (grid s))).
    + done.
    + intros name s2 Hname Hg2. rewrite Hperm in Hname.
      apply list_elem_of_filter in Hname as [Hunused Hin].
      by apply (try_name_total fuel (solve_rec fuel) IH (grid s)).
    + done.
  - apply total_ret. simpl. apply exact_cover_nil. by apply Hnone.
Qed.

Lemma solve_total (rows cols sd : Z) :
  total solve (init rows cols sd) (solve_post (Board.init rows cols)).
Proof.
  unfold solve. apply (solve_rec_total _ (init rows cols sd)).
  - apply Board.init_wf.
  - pose proof (unused_le (grid (init rows cols sd))). lia.
Qed.

(** C1: every solution returned by [solve] on a fresh [rows] x [cols]
    board (6 x 10 in the scene) covers each board cell exactly once: no
    cell occurs twice in the placements, a cell occurs in them iff it lies
    on the board, and no piece name occurs twice.  Moreover [solve] always
    returns (a solution or [None]), whatever the generator does. *)
Theorem solve_returns_exact_cover (rows cols sd : Z) :
  (∃ r s', (solve (init rows cols sd)).2 = Ok (r, s'))
  ∧ ∀ sol s', (solve (init rows cols sd)).2 = Ok (Some sol, s') →
      NoDup (concat (map snd sol))
      ∧ (∀ r c, (r, c) ∈ concat (map snd sol) ↔
                (0 ≤ r ∧ r < rows) ∧ (0 ≤ c ∧ c < cols))
      ∧ NoDup (map fst sol).
Proof.
  pose proof (solve_total rows cols sd) as Ht. split.
  - destruct Ht as (r & s' & Hr & _). by exists r, s'.
  - intros sol s' Hr.
    pose proof (total_elim _ _ _ _ _ Ht Hr) as (Hnd & Hcov & Hnames & _).
    split; [done|]. split; [|done].
    intros r c. rewrite Hcov. apply (Board.init_is_empty rows cols (r, c)).
Qed.

(** *** The deduplicator *)

(** **** What the deduplicator is to return *)

(** The solution that attempt number [attempt] finds, if it finds one. *)
Definition attempt_solution (attempt : Z) : option (list Placement) :=
  match (solve (init 6 10 (attempt + 1))).2 with
  | Ok (Some solution, _) => Some solution
  | _ => None
  end.

(** The solutions found by the attempts, in the order of the attempts. *)
Fixpoint solutions_found (attempts : list Z) : list (list Placement) :=
  match attempts with
  | [] => []
  | attempt :: rest =>
      match attempt_solution attempt with
      | Some solution => solution :: solutions_found rest
      | None => solutions_found rest
      end
  end.

(** Of a list of solutions, the first one of each signature not in
    [seen]. *)
Fixpoint first_of_each (seen : list Signature)
    (solutions : list (list Placement)) : list (list Placement) :=
  match solutions with
  | [] => []
  | solution :: rest =>
      if decide (solution_signature solution ∈ seen)
      then first_of_each seen rest
      else solution
             :: first_of_each (seen ++ [solution_signature solution]) rest
  end.

(** The number of solutions after which the loop is left: the test
    [len(unique) >= count] follows an insertion, so it is never below 1. *)
Definition enough (count : Z) : nat := Z.to_nat (Z.max count 1).

(** Specification of [find_unique_solutions]: the first [enough count]
    solutions with pairwise distinct signatures among those found. *)
Definition collected (count max_attempts : Z) : list (list Placement) :=
  take (enough count)
       (first_of_each [] (solutions_found (range max_attempts))).

Definition filed (solution : list Placement) : Signature * list Placement :=
  (solution_signature solution, solution).

Lemma attempt_solution_run (attempt : Z) :
  ∃ s', (solve (init 6 10 (attempt + 1))).2
        = Ok (attempt_solution attempt, s').
Proof.
  unfold attempt_solution.
  destruct (solve_total 6 10 (attempt + 1)) as (r & s' & -> & _).
  exists s'. by destruct r.
Qed.

Lemma solutions_found_app (l1 l2 : list Z) :
  solutions_found (l1 ++ l2) = solutions_found l1 ++ solutions_found l2.
Proof.
  induction l1 as [|attempt l1 IH]; [done|]. cbn [app solutions_found].
  destruct (attempt_solution attempt); [|done]. by rewrite IH.
Qed.




(** The loop computes the specification: started with [unique], it adds
    the first solutions of new signatures until [enough count] are filed. *)
Lemma find_loop_collects (count : Z) (attempts : list Z) unique :
  (length unique < enough count)%nat →
  find_loop count attempts unique
  = Ok (unique
        ++ map filed
             (take (enough count - length unique)
                (first_of_each (map fst unique) (solutions_found attempts)))).
Proof.
  unfold enough. revert unique.
  induction attempts as [|attempt rest IH]; intros unique Hlen.
  - cbn [solutions_found first_of_each]. by rewrite take_nil, app_nil_r.
  - cbn [find_loop solutions_found].
    destruct (attempt_solution_run attempt) as [s' ->].
    destruct (attempt_solution attempt) as [solution|]; [|by apply IH].
    cbn [first_of_each].
    destruct (decide (_ ∈ _)) as [Hin|Hnew]; [by apply IH|].
    destruct (Z.to_nat (Z.max count 1) - length unique)%nat as [|more]
      eqn:Hmore; [lia|].
    cbn [take map]. fold (filed solution).
    destruct (decide (count ≤ _)) as [Hfull|Hfew].
    + rewrite length_app in Hfull. cbn [length] in Hfull.
      replace more with 0%nat by lia. by rewrite take_0.
    + rewrite length_app in Hfew. cbn [length] in Hfew.
      rewrite IH by (rewrite length_app; cbn [length]; lia).
      rewrite <- (assoc_L _ unique [_] _). cbn [app].
      rewrite map_app, length_app. cbn [map length fst filed].
      do 5 f_equal. lia.
Qed.

Lemma find_unique_solutions_collects (count max_attempts : Z) :
  find_unique_solutions count max_attempts
  = Ok (collected count max_attempts).
Proof.
  unfold find_unique_solutions, collected.
  rewrite find_loop_collects by (unfold enough; simpl; lia).
  cbn [rbind app length map]. rewrite Nat.sub_0_r, map_map. cbn [filed snd].
  by rewrite map_id.
Qed.


Lemma range_app (k m : Z) :
  0 ≤ k → k ≤ m → ∃ later, range m = range k ++ later.
Proof.
  intros Hk Hm. unfold range.
  exists (map Z.of_nat (seq (Z.to_nat k) (Z.to_nat m - Z.to_nat k))).
  rewrite <- map_app, <- seq_app. do 2 f_equal. lia.
Qed.

End Solver.

(** A generator that leaves every list in place: the solver then tries the
    pieces, orientations and anchors in their stored order. *)
Definition fixed_random (_ : Z) : unit := tt.
Definition fixed_shuffle (A : Type) (l : list A) (g : unit) : list A * unit :=
  (l, g).

Lemma fixed_shuffle_perm (A : Type) (l : list A) (g : unit) :
  (fixed_shuffle A l g).1 ≡ₚ l.
Proof. reflexivity. Qed.

(** On a strip of five cells the solver, trying the pieces in stored order,
    finds the one piece that fits. *)
Definition strip_solution : list Placement :=
  [ ("I"%string, [(0, 0); (0, 1); (0, 2); (0, 3); (0, 4)]) ].

Lemma fixed_solve_run (sd : Z) :
  ∃ s', (solve fixed_shuffle (init fixed_random 1 5 sd)).2
        = Ok (Some strip_solution, s').
Proof. vm_compute. eexists. reflexivity. Qed.

Lemma solve_returns_exact_cover_witness :
  NoDup (concat (map snd strip_solution))
  ∧ (∀ r c, (r, c) ∈ concat (map snd strip_solution) ↔
            (0 ≤ r ∧ r < 1) ∧ (0 ≤ c ∧ c < 5))
  ∧ NoDup (map fst strip_solution).
Proof.
  destruct (fixed_solve_run 0) as [s' Hrun].
  exact (proj2 (solve_returns_exact_cover fixed_random fixed_shuffle
                  fixed_shuffle_perm 1 5 0) strip_solution s' Hrun).
Defined.

End Pentomino6x10Five.

(** ** [manim/rect_6x10_dfs_tree.py]: pruning oracle and trace recorder *)
Module Rect6x10DfsTree.

(** [PIECES]: the twelve shapes again, the same table as [PENTOMINOES]. *)
Definition PIECES : list (string * Cells) := PENTOMINOES.

(** One candidate of [unique_orientations], before normalisation: here the
    quarter turn is repeated [range(k)] times. *)
Definition variant (cells : Cells) (flipped : bool) (k : Z) : Cells :=
  map (fun rc => rotate (Z.to_nat k)
                   (rc.1, if flipped then - rc.2 else rc.2)) cells.

Definition variant_step (cells : Cells)
    (acc : option (gset Cells * list Cells)) (fk : bool * Z)
    : option (gset Cells * list Cells) :=
  match acc with
  | None => None
  | Some (seen, out) =>
      match normalize (variant cells fk.1 fk.2) with
      | None => None
      | Some norm =>
          if decide (norm ∈ seen) then Some (seen, out)
          else Some ({[norm]} ∪ seen, out ++ [norm])
      end
  end.

Definition unique_orientations (cells : Cells) : option (list Cells) :=
  snd <$> fold_left (variant_step cells) orient_order (Some (∅, [])).

Definition ORIENTATIONS : list (string * list Cells) :=
  Eval vm_compute in
    map (fun p => (p.1, default [] (unique_orientations p.2))) PIECES.

Lemma ORIENTATIONS_computed :
  map (fun p => (p.1, Some p.2)) ORIENTATIONS
  = map (fun p => (p.1, unique_orientations p.2)) PIECES.
Proof. vm_compute. reflexivity. Qed.

(** [key]: the string ["r,c"]. *)
Definition key (rc : Coord) : string :=
  pretty rc.1 +:+ "," +:+ pretty rc.2.

(** *** [key] is injective *)

Fixpoint comma_free (s : string) : Prop :=
  match s with
  | EmptyString => True
  | String a s' => a ≠ ","%char ∧ comma_free s'
  end.

Lemma pretty_N_go_comma_free (x : N) (s : string) :
  comma_free s → comma_free (pretty_N_go x s).
Proof.
  revert s. induction (N.lt_wf_0 x) as [x _ IH]; intros s Hs.
  destruct (decide (x = 0)%N) as [->|Hx]; [by rewrite pretty_N_go_0|].
  rewrite pretty_N_go_step by lia. apply IH; [apply N.div_lt; lia|].
  split; [|done]. unfold pretty_N_char. repeat case_match; done.
Qed.

Lemma pretty_N_comma_free (x : N) : comma_free (pretty x).
Proof.
  unfold pretty, pretty_N. case_decide; [by simpl|].
  by apply pretty_N_go_comma_free.
Qed.

Lemma pretty_Z_comma_free (z : Z) : comma_free (pretty z).
Proof.
  destruct z as [|p|p]; unfold pretty, pretty_Z.
  - by simpl.
  - apply pretty_N_comma_free.
  - simpl. split; [done|]. apply pretty_N_comma_free.
Qed.

Lemma app_comma_inj (s1 s2 t1 t2 : string) :
  comma_free s1 → comma_free s2 →
  s1 +:+ "," +:+ t1 = s2 +:+ "," +:+ t2 → s1 = s2 ∧ t1 = t2.
Proof.
  revert s2. induction s1 as [|a s1 IH]; intros [|b s2] H1 H2 Heq;
    simpl in *.
  - by simplify_eq.
  - injection Heq as Ha _. destruct H2 as [H2 _]. by subst.
  - injection Heq as Ha _. destruct H1 as [H1 _]. by subst.
  - injection Heq as Ha Heq. destruct H1 as [_ H1], H2 as [_ H2].
    destruct (IH s2 H1 H2 Heq) as [-> ->]. by subst.
Qed.

#[global] Instance key_inj : Inj (=) (=) key.
Proof.
  intros [r1 c1] [r2 c2] Heq. unfold key in Heq. simpl in Heq.
  apply app_comma_inj in Heq as [Hr Hc]; try apply pretty_Z_comma_free.
  apply (inj pretty) in Hr, Hc. by subst.
Qed.

Example key_example : key (3, -12) = "3,-12"%string.
Proof. reflexivity. Qed.

#[global] Arguments key : simpl never.
#[global] Opaque key.

(** *** The pruning oracle *)

Definition deltas : list Coord := [(-1, 0); (1, 0); (0, -1); (0, 1)].

Definition step (x d : Coord) : Coord := (x.1 + d.1, x.2 + d.2).

(** *** 4-connected cell lists *)

Definition adjacent (x y : Coord) : Prop := ∃ d, d ∈ deltas ∧ y = step x d.

Definition adjb (x y : Coord) : bool :=
  bool_decide ((y.1 - x.1, y.2 - x.2) ∈ deltas).

(** A cell list is connected when a property that passes between adjacent
    cells of the list holds of all of them as soon as it holds of one. *)
Definition connected (p : Cells) : Prop :=
  ∀ P : Coord → Prop, (∀ x, Decision (P x)) →
    (∀ x y, x ∈ p → y ∈ p → adjacent x y → P x → P y) →
    ∀ x y, x ∈ p → y ∈ p → P x → P y.

(** One round of a breadth-first sweep inside [p]. *)
Definition grow (p R : Cells) : Cells :=
  R ++ List.filter (fun y => existsb (fun x => adjb x y) R) p.

Definition connectedb (p : Cells) : bool :=
  match p with
  | [] => true
  | x :: _ =>
      forallb (fun y => bool_decide (y ∈ Nat.iter (length p) (grow p) [x])) p
  end.

Lemma adjb_spec (x y : Coord) : adjb x y = true ↔ adjacent x y.
Proof.
  unfold adjb, adjacent. rewrite bool_decide_eq_true. split.
  - intros Hd. eexists. split; [exact Hd|].
    destruct x, y. unfold step. simpl. f_equal; lia.
  - intros (d & Hd & ->). destruct x as [a b], d as [d1 d2]. unfold step.
    simpl. by replace (a + d1 - a) with d1 by lia;
      replace (b + d2 - b) with d2 by lia.
Qed.

Lemma adjacent_sym (x y : Coord) : adjacent x y → adjacent y x.
Proof.
  intros (d & Hd & ->). exists (- d.1, - d.2). split.
  - unfold deltas in *.
    repeat (apply elem_of_cons in Hd as [->|Hd]);
      [..|by apply elem_of_nil in Hd];
      apply list_elem_of_In; simpl; tauto.
  - destruct x, d. unfold step. simpl. f_equal; lia.
Qed.

Lemma grow_inv (P : Coord → Prop) (p R : Cells) :
  (∀ x y, x ∈ p → y ∈ p → adjacent x y → P x → P y) →
  (∀ y, y ∈ R → y ∈ p ∧ P y) → ∀ y, y ∈ grow p R → y ∈ p ∧ P y.
Proof.
  intros Hcl HR y. unfold grow. rewrite elem_of_app.
  intros [Hy|Hy]; [by apply HR|].
  apply list_elem_of_In, filter_In in Hy as [Hy Hex].
  apply existsb_exists in Hex as (x & Hx & Hadj).
  apply list_elem_of_In in Hy, Hx. apply adjb_spec in Hadj.
  destruct (HR x Hx). split; [done|]. by apply (Hcl x).
Qed.

Lemma sweep_inv (P : Coord → Prop) (p : Cells) (h : Coord) (n : nat) :
  (∀ x y, x ∈ p → y ∈ p → adjacent x y → P x → P y) →
  h ∈ p → P h → ∀ y, y ∈ Nat.iter n (grow p) [h] → y ∈ p ∧ P y.
Proof.
  intros Hcl Hh HP. induction n as [|n IH]; simpl.
  - intros y ->%list_elem_of_singleton. done.
  - by apply grow_inv.
Qed.

Lemma connectedb_correct (p : Cells) : connectedb p = true → connected p.
Proof.
  destruct p as [|h t]; [intros _ P _ _ x y Hx; by apply elem_of_nil in Hx|].
  intros Hb. cbn [connectedb] in Hb. rewrite forallb_forall in Hb.
  assert (∀ y, y ∈ h :: t → y ∈ Nat.iter (length (h :: t)) (grow (h :: t)) [h])
    as Hreach.
  { intros y Hy. apply list_elem_of_In in Hy. apply Hb in Hy.
    by apply bool_decide_eq_true in Hy. }
  assert (h ∈ h :: t) as Hh by (apply elem_of_cons; left; done).
  intros P Hdec Hcl x y Hx Hy HPx.
  assert (P h) as HPh.
  { destruct (decide (P h)) as [|Hn]; [done|]. exfalso.
    assert (∀ a b, a ∈ h :: t → b ∈ h :: t → adjacent a b → ¬ P a → ¬ P b)
      as Hcl'.
    { intros a b Ha Hb' Hadj Hna HPb. apply Hna.
      apply (Hcl b a); [done|done|by apply adjacent_sym|done]. }
    destruct (sweep_inv (fun z => ¬ P z) (h :: t) h _ Hcl' Hh Hn x
                (Hreach x Hx)) as [_ Hbad].
    by apply Hbad. }
  by destruct (sweep_inv P (h :: t) h _ Hcl Hh HPh y (Hreach y Hy)).
Qed.

Lemma connected_shift (p : Cells) (dr dc : Z) :
  connected p → connected (shift p dr dc).
Proof.
  intros Hp P Hdec Hcl x y Hx Hy HPx. unfold shift in Hx, Hy.
  apply list_elem_of_fmap in Hx as (x0 & -> & Hx0).
  apply list_elem_of_fmap in Hy as (y0 & -> & Hy0).
  apply (Hp (fun z => P (z.1 + dr, z.2 + dc)) _) with (x := x0);
    [|done|done|done].
  intros a b Ha Hb (d & Hd & ->) HPa.
  apply (Hcl (a.1 + dr, a.2 + dc)); [| | |done].
  - unfold shift. apply list_elem_of_fmap. by exists a.
  - unfold shift. apply list_elem_of_fmap. by exists (step a d).
  - exists d. split; [done|]. destruct a, d. unfold step. simpl.
    f_equal; lia.
Qed.

Section Oracle.

Variables rows cols : Z.
Variable allowed_keys : gset string.
Variable filled_keys : gset string.

(** Body of [for dr, dc in deltas]; the stack is kept with its top first. *)
Definition visit_neighbour (cr cc : Z) (acc : gset string * list Coord)
    (d : Coord) : gset string * list Coord :=
  let nr := cr + d.1 in
  let nc := cc + d.2 in
  if decide (nr < 0 ∨ rows ≤ nr ∨ nc < 0 ∨ cols ≤ nc) then acc
  else
    let kk := key (nr, nc) in
    if decide (kk ∉ allowed_keys ∨ kk ∈ filled_keys ∨ kk ∈ acc.1) then acc
    else ({[kk]} ∪ acc.1, (nr, nc) :: acc.2).

(** [while stack: ...]; [None] when the budget of the model runs out. *)
Fixpoint flood (fuel : nat) (visited : gset string) (stack : list Coord)
    (region_size : Z) : option (gset string * Z) :=
  match stack with
  | [] => Some (visited, region_size)
  | (cr, cc) :: stack' =>
      match fuel with
      | O => None
      | S fuel' =>
          let acc := fold_left (visit_neighbour cr cc) deltas (visited, stack') in
          flood fuel' acc.1 acc.2 (region_size + 1)
      end
  end.

(** [for r, c in sorted_mask: ...] *)
Fixpoint regions_loop (fuel : nat) (mask : list Coord) (visited : gset string)
    : result bool :=
  match mask with
  | [] => Ok true
  | rc :: rest =>
      let start := key rc in
      if decide (start ∈ filled_keys ∨ start ∈ visited) then
        regions_loop fuel rest visited
      else
        match flood fuel ({[start]} ∪ visited) [rc] 0 with
        | None => OutOfFuel
        | Some (visited', region_size) =>
            if decide (region_size mod 5 ≠ 0) then Ok false
            else regions_loop fuel rest visited'
        end
  end.

(** Each pass of the [while] loop pops a cell that was marked visited when
    it was pushed, so [1 + len(allowed_keys)] passes always suffice. *)
Definition has_only_five_multiple_void_regions (sorted_mask : list Coord)
    : result bool :=
  regions_loop (S (size allowed_keys)) sorted_mask ∅.

(** *** What the flood fill computes *)

Definition in_bounds (rc : Coord) : Prop :=
  (0 ≤ rc.1 ∧ rc.1 < rows) ∧ (0 ≤ rc.2 ∧ rc.2 < cols).

(** Keys of the cells still to be covered. *)
Definition free : gset string := allowed_keys ∖ filled_keys.

Lemma visit_neighbour_spec (cr cc : Z) (visited : gset string)
    (stack : list Coord) (d : Coord) :
  (visit_neighbour cr cc (visited, stack) d = (visited, stack)
   ∧ (in_bounds (step (cr, cc) d) → key (step (cr, cc) d) ∈ free →
      key (step (cr, cc) d) ∈ visited))
  ∨ (visit_neighbour cr cc (visited, stack) d
       = ({[key (step (cr, cc) d)]} ∪ visited, step (cr, cc) d :: stack)
     ∧ key (step (cr, cc) d) ∈ free
     ∧ key (step (cr, cc) d) ∉ visited).
Proof.
  unfold visit_neighbour, step, in_bounds, free. simpl.
  destruct (decide (cr + d.1 < 0 ∨ rows ≤ cr + d.1
                    ∨ cc + d.2 < 0 ∨ cols ≤ cc + d.2)) as [Hout|Hin].
  { left. split; [done|]. intros. lia. }
  destruct (decide (_ ∨ _ ∨ _)) as [Hskip|Hnew].
  - left. split; [done|]. intros _ [Ha Hf]%elem_of_difference. tauto.
  - right. split; [done|]. split.
    + apply elem_of_difference.
      destruct (decide (key (cr + d.1, cc + d.2) ∈ allowed_keys)); tauto.
    + tauto.
Qed.

Lemma visit_fold_spec (cr cc : Z) (ds : list Coord) (visited : gset string)
    (stack : list Coord) :
  ∃ pushed,
    fold_left (visit_neighbour cr cc) ds (visited, stack)
      = (list_to_set (key <$> pushed) ∪ visited, pushed ++ stack)
    ∧ NoDup (key <$> pushed)
    ∧ (∀ x, x ∈ pushed → key x ∈ free ∧ key x ∉ visited)
    ∧ (∀ d, d ∈ ds → in_bounds (step (cr, cc) d) →
         key (step (cr, cc) d) ∈ free →
         key (step (cr, cc) d)
           ∈ (list_to_set (key <$> pushed) ∪ visited : gset string)).
Proof.
  revert visited stack. induction ds as [|d ds IH]; intros visited stack.
  - exists []. simpl. split; [by rewrite (left_id_L ∅ (∪))|].
    split; [constructor|]. split; [by intros x ?%elem_of_nil|].
    by intros d ?%elem_of_nil.
  - simpl.
    destruct (visit_neighbour_spec cr cc visited stack d)
      as [[-> Hold]|(-> & Hfree & Hnew)].
    + destruct (IH visited stack) as (pushed & Hfold & Hnd & Hp & Hcl).
      exists pushed. split; [done|]. split; [done|]. split; [done|].
      intros d' [->|Hd']%elem_of_cons Hb Hf; [|by apply Hcl].
      apply elem_of_union. right. by apply Hold.
    + set (y := step (cr, cc) d) in *.
      destruct (IH ({[key y]} ∪ visited) (y :: stack))
        as (pushed & Hfold & Hnd & Hp & Hcl).
      exists (pushed ++ [y]). rewrite Hfold. split; [|split; [|split]].
      * f_equal.
        -- rewrite fmap_app, list_to_set_app_L. simpl. set_solver.
        -- by rewrite <- app_assoc.
      * rewrite fmap_app. apply NoDup_app. split; [done|]. split.
        -- intros k Hk [->|[]%elem_of_nil]%elem_of_cons.
           apply list_elem_of_fmap in Hk as (x & Hkx & Hx).
           apply Hp in Hx as [_ Hx]. rewrite <- Hkx in Hx. set_solver.
        -- apply NoDup_singleton.
      * intros x [Hx|[->|[]%elem_of_nil]%elem_of_cons]%elem_of_app.
        -- apply Hp in Hx. set_solver.
        -- done.
      * intros d' [->|Hd']%elem_of_cons Hb Hf.
        -- rewrite fmap_app, list_to_set_app_L, !elem_of_union.
           left. right. apply elem_of_list_to_set.
           apply elem_of_cons. left. reflexivity.
        -- specialize (Hcl d' Hd' Hb Hf).
           rewrite !elem_of_union in Hcl.
           rewrite fmap_app, list_to_set_app_L, !elem_of_union.
           rewrite elem_of_singleton in Hcl.
           destruct Hcl as [?|[Heq|?]]; [left; left; done| |right; done].
           left. right. apply elem_of_list_to_set.
           apply elem_of_cons. left. exact Heq.
Qed.

Lemma size_keys (l : list Coord) :
  NoDup (key <$> l) → size (list_to_set (key <$> l) : gset string) = length l.
Proof. intros Hnd. rewrite size_list_to_set by done. by rewrite length_fmap. Qed.

(** The [while] loop, started with a stack of visited cells: it ends, it
    only adds free cells, it counts the cells it pops, and every cell it
    pops has all its free neighbours visited in the end. *)
Lemma flood_spec (fuel : nat) (visited : gset string) (stack : list Coord)
    (n : Z) :
  (length stack + size (free ∖ visited) ≤ fuel)%nat →
  ∃ visited' n',
    flood fuel visited stack n = Some (visited', n')
    ∧ visited ⊆ visited'
    ∧ visited' ∖ visited ⊆ free
    ∧ n' = n + Z.of_nat (length stack) + Z.of_nat (size (visited' ∖ visited))
    ∧ (∀ x, x ∈ stack ∨ key x ∈ visited' ∖ visited →
         ∀ d, d ∈ deltas → in_bounds (step x d) → key (step x d) ∈ free →
              key (step x d) ∈ visited').
Proof.
  revert visited stack n.
  induction fuel as [|fuel IH]; intros visited stack n Hfuel.
  - destruct stack as [|x stack]; [|simpl in Hfuel; lia].
    exists visited, n. simpl. split; [done|]. split; [done|].
    split; [set_solver|].
    replace (visited ∖ visited) with (∅ : gset string) by set_solver.
    rewrite size_empty. split; [lia|].
    intros x [[]%elem_of_nil|[]%not_elem_of_empty].
  - destruct stack as [|[cr cc] stack].
    { exists visited, n. simpl. split; [done|]. split; [done|].
      split; [set_solver|].
      replace (visited ∖ visited) with (∅ : gset string) by set_solver.
      rewrite size_empty. split; [lia|].
      intros x [[]%elem_of_nil|[]%not_elem_of_empty]. }
    cbn [flood].
    destruct (visit_fold_spec cr cc deltas visited stack)
      as (pushed & -> & Hnd & Hp & Hcl).
    cbn [fst snd].
    set (K := list_to_set (key <$> pushed) : gset string) in *.
    assert (K ⊆ free ∖ visited) as HK.
    { intros k Hk. apply elem_of_list_to_set in Hk.
      apply list_elem_of_fmap in Hk as (x & -> & Hx).
      apply Hp in Hx. clear -Hx. set_solver. }
    assert (size K = length pushed) as HsK by by apply size_keys.
    assert (free ∖ (K ∪ visited) = (free ∖ visited) ∖ K) as Hdiff
      by (clear; set_solver).
    destruct (IH (K ∪ visited) (pushed ++ stack) (n + 1))
      as (visited' & n' & Hrun & Hsub & Hnewfree & Hn & Hclosed).
    { rewrite Hdiff, size_difference by done.
      pose proof (subseteq_size _ _ HK).
      rewrite length_app. simpl in Hfuel. lia. }
    exists visited', n'. split; [done|]. split; [clear -Hsub; set_solver|].
    split.
    { clear -Hnewfree HK. intros k [Hk Hnk]%elem_of_difference.
      destruct (decide (k ∈ K)) as [HkK|HkK].
      - apply HK in HkK. set_solver.
      - apply Hnewfree. set_solver. }
    split.
    + assert (visited' ∖ visited = K ∪ visited' ∖ (K ∪ visited)) as ->.
      { clear -Hsub HK. apply set_eq. intros k.
        destruct (decide (k ∈ K)); set_solver. }
      rewrite size_union by (clear; set_solver).
      rewrite Hn, length_app. simpl. lia.
    + intros x Hx d Hd Hb Hf.
      destruct (decide (x = (cr, cc))) as [->|Hne].
      { apply Hsub. by apply Hcl. }
      apply (Hclosed x); [|done|done|done].
      destruct Hx as [Hx|Hx].
      * apply elem_of_cons in Hx as [?|Hx]; [done|].
        left. apply elem_of_app. by right.
      * destruct (decide (key x ∈ K)) as [Hk|Hk];
          [|right; clear -Hx Hk; set_solver].
        left. apply elem_of_app. left.
        apply elem_of_list_to_set, list_elem_of_fmap in Hk
          as (x' & Heq & Hx').
        by apply (inj key) in Heq as ->.
Qed.

(** A set of keys that no free neighbour of one of its cells is missing
    from. *)
Definition closed (V : gset string) : Prop :=
  ∀ x d, key x ∈ V → d ∈ deltas → in_bounds (step x d) →
         key (step x d) ∈ free → key (step x d) ∈ V.

(** One region: the flood started from an unvisited free cell. *)
Lemma region_spec (fuel : nat) (rc : Coord) (visited : gset string) :
  (size allowed_keys < fuel)%nat →
  visited ⊆ free → key rc ∈ free → key rc ∉ visited →
  ∃ visited' n,
    flood fuel ({[key rc]} ∪ visited) [rc] 0 = Some (visited', n)
    ∧ {[key rc]} ∪ visited ⊆ visited'
    ∧ visited' ⊆ free
    ∧ n = Z.of_nat (size visited') - Z.of_nat (size visited)
    ∧ (closed visited → closed visited').
Proof.
  intros Hfuel Hsub Hfree Hnew.
  destruct (flood_spec fuel ({[key rc]} ∪ visited) [rc] 0)
    as (visited' & n & Hrun & Hinc & Hnewfree & Hn & Hcl).
  { assert (size (free ∖ ({[key rc]} ∪ visited)) ≤ size allowed_keys)%nat.
    { apply subseteq_size. unfold free. clear. set_solver. }
    simpl. lia. }
  exists visited', n. split; [done|]. split; [done|]. split; [|split].
  - clear -Hsub Hfree Hnewfree Hinc. intros k Hk.
    destruct (decide (k ∈ ({[key rc]} ∪ visited : gset string))) as [Hin|Hout].
    + apply elem_of_union in Hin as [->%elem_of_singleton|Hin]; auto.
    + apply Hnewfree. set_solver.
  - assert (size visited' =
            size ({[key rc]} ∪ visited : gset string)
            + size (visited' ∖ ({[key rc]} ∪ visited)))%nat as Hsize.
    { rewrite <- size_union by (clear; set_solver).
      f_equal. clear -Hinc. apply set_eq. intros k.
      destruct (decide (k ∈ ({[key rc]} ∪ visited : gset string)));
        set_solver. }
    rewrite size_union in Hsize by (clear -Hnew; set_solver).
    rewrite size_singleton in Hsize. simpl in Hn. lia.
  - intros Hclosed x d Hx Hd Hb Hf.
    destruct (decide (key x ∈ visited)) as [Hv|Hv].
    { apply Hinc. apply elem_of_union. right. by apply Hclosed. }
    apply (Hcl x); [|done|done|done].
    destruct (decide (key x = key rc)) as [Heq|Hne].
    + left. apply (inj key) in Heq as ->. apply elem_of_cons. by left.
    + right. clear -Hx Hv Hne. set_solver.
Qed.

(** The loop over the mask, counting: when it answers [True] the cells
    visited since its start are a multiple of 5 and include every free
    cell of the mask. *)
Lemma regions_loop_count (fuel : nat) (mask : list Coord)
    (visited : gset string) :
  (size allowed_keys < fuel)%nat →
  visited ⊆ free →
  (∀ rc, rc ∈ mask → key rc ∈ allowed_keys) →
  ∃ b, regions_loop fuel mask visited = Ok b
       ∧ (b = true →
          ∃ final, visited ⊆ final ∧ final ⊆ free
                   ∧ (∀ rc, rc ∈ mask → key rc ∉ filled_keys →
                            key rc ∈ final)
                   ∧ (Z.of_nat (size final) - Z.of_nat (size visited))
                       mod 5 = 0).
Proof.
  intros Hfuel. revert visited.
  induction mask as [|rc rest IH]; intros visited Hsub Hmask.
  - exists true. split; [done|]. intros _. exists visited.
    split; [done|]. split; [done|].
    split; [by intros rc ?%elem_of_nil|].
    by rewrite Z.sub_diag.
  - cbn [regions_loop].
    assert (∀ rc', rc' ∈ rest → key rc' ∈ allowed_keys) as Hrest.
    { intros rc' Hrc'. apply Hmask. apply elem_of_cons. by right. }
    destruct (decide (key rc ∈ filled_keys ∨ key rc ∈ visited)) as [Hskip|Hgo].
    + destruct (IH visited Hsub Hrest) as (b & Hb & Htrue).
      exists b. split; [done|]. intros Ht.
      destruct (Htrue Ht) as (final & H1 & H2 & H3 & H4).
      exists final. split; [done|]. split; [done|]. split; [|done].
      intros rc' [->|Hrc']%elem_of_cons Hnf; [|by apply H3].
      destruct Hskip as [?|Hv]; [done|]. by apply H1.
    + assert (key rc ∈ free) as Hfree.
      { apply elem_of_difference. split; [|tauto].
        apply Hmask. apply elem_of_cons. by left. }
      destruct (region_spec fuel rc visited Hfuel Hsub Hfree)
        as (visited' & n & -> & Hinc & Hsub' & Hn & _); [tauto|].
      destruct (decide (n mod 5 ≠ 0)) as [Hbad|Hgood].
      { exists false. split; [done|]. intros [=]. }
      destruct (IH visited' Hsub' Hrest) as (b & Hb & Htrue).
      exists b. split; [done|]. intros Ht.
      destruct (Htrue Ht) as (final & H1 & H2 & H3 & H4).
      exists final. split; [clear -Hinc H1; set_solver|].
      split; [done|]. split.
      * intros rc' [->|Hrc']%elem_of_cons Hnf; [|by apply H3].
        apply H1, Hinc. apply elem_of_union. left.
        by apply elem_of_singleton.
      * assert (n mod 5 = 0) as Hn5 by (destruct (decide (n mod 5 = 0)); tauto).
        replace (Z.of_nat (size final) - Z.of_nat (size visited))
          with ((Z.of_nat (size final) - Z.of_nat (size visited')) + n) by lia.
        rewrite Z.add_mod, H4, Hn5 by lia. reflexivity.
Qed.

(** The loop over the mask, soundness: if every closed set of free cells
    is a multiple of 5 then no region is rejected. *)
Lemma regions_loop_sound (fuel : nat) (mask : list Coord)
    (visited : gset string) :
  (size allowed_keys < fuel)%nat →
  (∀ V, V ⊆ free → closed V → Z.of_nat (size V) mod 5 = 0) →
  visited ⊆ free → closed visited →
  (∀ rc, rc ∈ mask → key rc ∈ allowed_keys) →
  regions_loop fuel mask visited = Ok true.
Proof.
  intros Hfuel Hfive. revert visited.
  induction mask as [|rc rest IH]; intros visited Hsub Hclosed Hmask;
    [done|].
  cbn [regions_loop].
  assert (∀ rc', rc' ∈ rest → key rc' ∈ allowed_keys) as Hrest.
  { intros rc' Hrc'. apply Hmask. apply elem_of_cons. by right. }
  destruct (decide (key rc ∈ filled_keys ∨ key rc ∈ visited)) as [Hskip|Hgo];
    [by apply IH|].
  assert (key rc ∈ free) as Hfree.
  { apply elem_of_difference. split; [|tauto].
    apply Hmask. apply elem_of_cons. by left. }
  destruct (region_spec fuel rc visited Hfuel Hsub Hfree)
    as (visited' & n & -> & Hinc & Hsub' & Hn & Hcl'); [tauto|].
  specialize (Hcl' Hclosed).
  pose proof (Hfive visited Hsub Hclosed) as H5.
  pose proof (Hfive visited' Hsub' Hcl') as H5'.
  assert (n mod 5 = 0) as Hn5.
  { rewrite Hn, Zminus_mod, H5, H5'. reflexivity. }
  rewrite decide_False by (intros Hbad; by apply Hbad).
  by apply IH.
Qed.

(** *** Closed sets under an exact cover *)

Lemma piece_all_or_none (V : gset string) (p : Cells) :
  closed V → connected p →
  (∀ x, x ∈ p → in_bounds x ∧ key x ∈ free) →
  (∀ x, x ∈ p → key x ∈ V) ∨ (∀ x, x ∈ p → key x ∉ V).
Proof.
  intros Hcl Hconn Hp.
  assert (∀ x y, x ∈ p → y ∈ p → adjacent x y → key x ∈ V → key y ∈ V)
    as Hpass.
  { intros x y Hx Hy (d & Hd & ->) HV.
    destruct (Hp _ Hy) as [Hb Hf]. by apply Hcl. }
  destruct p as [|h t]; [left; by intros x ?%elem_of_nil|].
  assert (h ∈ h :: t) as Hh by (apply elem_of_cons; left; done).
  destruct (decide (key h ∈ V)) as [Hin|Hout].
  - left. intros x Hx.
    by apply (Hconn (fun z => key z ∈ V) _ Hpass h x).
  - right. intros x Hx HV. apply Hout.
    by apply (Hconn (fun z => key z ∈ V) _ Hpass x h).
Qed.

Lemma cover_size (V : gset string) (ps : list Cells) :
  Forall (fun p => NoDup p ∧ length p = 5%nat
                   ∧ ((∀ x, x ∈ p → key x ∈ V) ∨ (∀ x, x ∈ p → key x ∉ V)))
         ps →
  NoDup (concat ps) →
  Z.of_nat (size (V ∩ list_to_set (key <$> concat ps))) mod 5 = 0.
Proof.
  induction ps as [|p ps IH]; intros Hall Hnd.
  - simpl. replace (V ∩ ∅) with (∅ : gset string) by (clear; set_solver).
    by rewrite size_empty.
  - apply Forall_cons in Hall as [(Hp & Hlen & Hside) Hall].
    simpl in Hnd. apply NoDup_app in Hnd as (_ & Hdisj & Hnd').
    specialize (IH Hall Hnd').
    simpl. rewrite fmap_app, list_to_set_app_L.
    replace (V ∩ (list_to_set (key <$> p) ∪ list_to_set (key <$> concat ps)))
      with ((V ∩ list_to_set (key <$> p))
            ∪ (V ∩ list_to_set (key <$> concat ps)) : gset string)
      by (clear; set_solver).
    rewrite size_union.
    2:{ intros k [_ H1]%elem_of_intersection [_ H2]%elem_of_intersection.
        apply elem_of_list_to_set, list_elem_of_fmap in H1 as (x & -> & Hx).
        apply elem_of_list_to_set, list_elem_of_fmap in H2 as (y & Heq & Hy).
        apply (inj key) in Heq as <-. by apply (Hdisj x). }
    assert (size (V ∩ list_to_set (key <$> p) : gset string) = 5%nat
            ∨ size (V ∩ list_to_set (key <$> p) : gset string) = 0%nat)
      as [->| ->].
    { destruct Hside as [Hin|Hout].
      - left. rewrite <- Hlen, <- size_keys by (by apply (NoDup_fmap_2 _)).
        f_equal. apply set_eq. intros k. rewrite elem_of_intersection.
        split; [tauto|]. intros Hk. split; [|done].
        apply elem_of_list_to_set, list_elem_of_fmap in Hk as (x & -> & Hx).
        by apply Hin.
      - right. apply size_empty_iff, elem_of_equiv_empty.
        intros k [HV Hk]%elem_of_intersection.
        apply elem_of_list_to_set, list_elem_of_fmap in Hk as (x & -> & Hx).
        by apply (Hout x). }
    + rewrite Nat2Z.inj_add, Z.add_mod, IH by lia. reflexivity.
    + by rewrite Nat.add_0_l.
Qed.

(** Under an exact cover of the free cells by connected five-cell pieces
    inside the bounds, every closed set of free cells is a multiple of 5. *)
Lemma closed_size_of_cover (ps : list Cells) (V : gset string) :
  Forall (fun p => NoDup p ∧ length p = 5%nat ∧ connected p) ps →
  NoDup (concat ps) →
  (∀ x, x ∈ concat ps → in_bounds x ∧ key x ∈ free) →
  (∀ k, k ∈ free → ∃ x, x ∈ concat ps ∧ key x = k) →
  V ⊆ free → closed V → Z.of_nat (size V) mod 5 = 0.
Proof.
  intros Hall Hnd Hin Hsurj Hsub Hcl.
  replace V with (V ∩ list_to_set (key <$> concat ps) : gset string).
  - apply cover_size; [|done]. apply Forall_forall. intros p Hp.
    rewrite Forall_forall in Hall. destruct (Hall p Hp) as (H1 & H2 & H3).
    split; [done|]. split; [done|]. apply piece_all_or_none; [done|done|].
    intros x Hx. apply Hin. apply list_elem_of_In, in_concat.
    exists p. split; by apply list_elem_of_In.
  - apply set_eq. intros k. rewrite elem_of_intersection. split; [tauto|].
    intros Hk. split; [done|]. destruct (Hsurj k (Hsub k Hk)) as (x & Hx & <-).
    apply elem_of_list_to_set, list_elem_of_fmap. by exists x.
Qed.

End Oracle.

(** *** The orientation table: five distinct, connected cells each *)

Definition orientation_ok (o : Cells) : bool :=
  bool_decide (NoDup o) && bool_decide (length o = 5%nat) && connectedb o.

Lemma pieces_table_ok :
  forallb (fun p => forallb orientation_ok p.2) ORIENTATIONS = true.
Proof. vm_compute. reflexivity. Qed.

Lemma dict_get_elem {V} (d : list (string * V)) (name : string) (v : V) :
  dict_get d name = Some v → (name, v) ∈ d.
Proof.
  induction d as [|[k w] d IH]; simpl; [done|].
  case_decide as Hk.
  - intros [= ->]. subst. apply elem_of_cons. by left.
  - intros Hd. apply elem_of_cons. right. by apply IH.
Qed.

Lemma ORIENTATIONS_facts (name : string) (os : list Cells) (o : Cells) :
  dict_get ORIENTATIONS name = Some os → o ∈ os →
  NoDup o ∧ length o = 5%nat ∧ connected o.
Proof.
  intros Hos%dict_get_elem Ho. pose proof pieces_table_ok as Hok.
  rewrite forallb_forall in Hok. apply list_elem_of_In in Hos.
  specialize (Hok _ Hos). simpl in Hok. rewrite forallb_forall in Hok.
  apply list_elem_of_In in Ho. specialize (Hok _ Ho).
  unfold orientation_ok in Hok.
  apply andb_true_iff in Hok as [[H1 H2]%andb_true_iff H3].
  apply bool_decide_eq_true in H1, H2.
  split; [done|]. split; [done|]. by apply connectedb_correct.
Qed.

(** *** Exact covers of what is left of the mask *)

(** [allowed_keys = {key(rc) for rc in problem.mask_cells}] *)
Definition mask_keys (mask : list Coord) : gset string :=
  list_to_set (key <$> mask).

(** A placement of a piece: one of its orientations, shifted. *)
Definition piece_placed (pl : Placement) : Prop :=
  ∃ os orient dr dc,
    dict_get ORIENTATIONS pl.1 = Some os ∧ orient ∈ os
    ∧ pl.2 = shift orient dr dc.

(** [rest] covers exactly the cells of [mask] whose key is not in [filled],
    each of them once. *)
Definition covers_rest (mask : list Coord) (filled : gset string)
    (rest : list Placement) : Prop :=
  Forall piece_placed rest
  ∧ NoDup (concat (snd <$> rest))
  ∧ ∀ rc, rc ∈ concat (snd <$> rest) ↔ rc ∈ mask ∧ key rc ∉ filled.

Lemma piece_placed_facts (pl : Placement) :
  piece_placed pl → NoDup pl.2 ∧ length pl.2 = 5%nat ∧ connected pl.2.
Proof.
  intros (os & orient & dr & dc & Hos & Ho & ->).
  destruct (ORIENTATIONS_facts _ _ _ Hos Ho) as (H1 & H2 & H3).
  split; [by apply shift_NoDup|]. split; [by rewrite shift_length|].
  by apply connected_shift.
Qed.

Lemma mask_keys_sorted (mask : list Coord) (rc : Coord) :
  rc ∈ sorted mask → key rc ∈ mask_keys mask.
Proof.
  intros Hrc. apply elem_of_list_to_set, list_elem_of_fmap. exists rc.
  split; [done|]. by rewrite <- (sorted_perm mask).
Qed.

(** The oracle always answers. *)
Lemma oracle_total (rows cols : Z) (mask : list Coord)
    (filled : gset string) :
  ∃ b, has_only_five_multiple_void_regions rows cols (mask_keys mask) filled
         (sorted mask) = Ok b.
Proof.
  destruct (regions_loop_count rows cols (mask_keys mask) filled
              (S (size (mask_keys mask))) (sorted mask) ∅)
    as (b & Hb & _); [lia|clear; set_solver|apply mask_keys_sorted|].
  by exists b.
Qed.

(** Soundness: a state whose free cells have an exact cover is accepted. *)
Lemma oracle_accepts_cover (rows cols : Z) (mask : list Coord)
    (filled : gset string) (rest : list Placement) :
  (∀ rc, rc ∈ mask → in_bounds rows cols rc) →
  covers_rest mask filled rest →
  has_only_five_multiple_void_regions rows cols (mask_keys mask) filled
    (sorted mask) = Ok true.
Proof.
  intros Hbounds (Hpieces & Hnd & Hcells).
  apply regions_loop_sound; [lia| |clear; set_solver| |apply mask_keys_sorted].
  - intros V HV Hcl.
    apply (closed_size_of_cover rows cols (mask_keys mask) filled
             (snd <$> rest)); [|done| | |done|done].
    + apply Forall_fmap. eapply Forall_impl; [exact Hpieces|].
      intros pl Hpl. by apply piece_placed_facts.
    + intros x [Hx Hnf]%Hcells. split; [by apply Hbounds|].
      apply elem_of_difference. split; [|done].
      apply elem_of_list_to_set, list_elem_of_fmap. by exists x.
    + intros k [Hk Hnf]%elem_of_difference.
      apply elem_of_list_to_set, list_elem_of_fmap in Hk as (x & -> & Hx).
      exists x. split; [|done]. by apply Hcells.
  - intros x d Hx. by apply elem_of_empty in Hx.
Qed.

(** Number of distinct cells of a mask. *)
Definition cell_count (mask : list Coord) : Z :=
  Z.of_nat (length (remove_dups mask)).

Lemma cell_count_keys (mask : list Coord) :
  cell_count mask = Z.of_nat (size (mask_keys mask)).
Proof.
  unfold cell_count, mask_keys. f_equal.
  rewrite <- (size_keys (remove_dups mask))
    by (apply (NoDup_fmap_2 _), NoDup_remove_dups).
  f_equal. apply set_eq. intros k. rewrite !elem_of_list_to_set.
  rewrite !list_elem_of_fmap. by setoid_rewrite elem_of_remove_dups.
Qed.

(** On the empty board the regions add up to the whole mask, so one of them
    is rejected when the mask is not a multiple of 5. *)
Lemma oracle_rejects_empty_board (rows cols : Z) (mask : list Coord) :
  cell_count mask mod 5 ≠ 0 →
  has_only_five_multiple_void_regions rows cols (mask_keys mask) ∅
    (sorted mask) = Ok false.
Proof.
  intros Hcount. rewrite cell_count_keys in Hcount.
  destruct (regions_loop_count rows cols (mask_keys mask) ∅
              (S (size (mask_keys mask))) (sorted mask) ∅)
    as (b & Hb & Htrue); [lia|clear; set_solver|apply mask_keys_sorted|].
  unfold has_only_five_multiple_void_regions. rewrite Hb.
  destruct b; [|done]. exfalso.
  destruct (Htrue eq_refl) as (final & _ & Hsub & Hall & Hmod).
  apply Hcount. rewrite size_empty, Z.sub_0_r in Hmod.
  replace (mask_keys mask) with final; [done|].
  apply set_eq. intros k. split.
  - intros Hk. apply Hsub in Hk. clear -Hk. unfold free in Hk. set_solver.
  - intros Hk. apply elem_of_list_to_set, list_elem_of_fmap in Hk
      as (x & -> & Hx).
    apply Hall; [by rewrite (sorted_perm mask)|]. apply not_elem_of_empty.
Qed.


(** *** Data of the trace recorder

    The wall-clock fields ([elapsed_ms], [elapsed_ms_at_enter],
    [total_elapsed_ms], [step_elapsed_ms]) are left out: nothing below
    reads them. *)

Definition DEFAULT_DISPLAY_DEPTH : Z := 3.
Definition RIGHTMOST_BRANCH_DEPTH : Z := 12.

Record Problem : Type := mkProblem {
  rows : Z;
  cols : Z;
  mask_cells : list Coord;
  selected_pieces : list string;
}.

Module NodeData.
Record t : Type := mk {
  node_id : Z;
  parent_id : option Z;
  depth : Z;
  board : gmap Coord string;
  pruned : bool;
  counterfactual : bool;
  rightmost_chain : bool;
  step_at_enter : Z;
  children : list Z;
  explored_subnodes : Z;
}.

(** [node.children.append(nid)] *)
Definition append_child (nid : Z) (n : t) : t :=
  mk (node_id n) (parent_id n) (depth n) (board n) (pruned n)
     (counterfactual n) (rightmost_chain n) (step_at_enter n)
     (children n ++ [nid]) (explored_subnodes n).

(** [node.explored_subnodes = k] *)
Definition set_explored (k : Z) (n : t) : t :=
  mk (node_id n) (parent_id n) (depth n) (board n) (pruned n)
     (counterfactual n) (rightmost_chain n) (step_at_enter n)
     (children n) k.
End NodeData.

Module Event.
Record t : Type := mk {
  kind : string;  (* enter | exit *)
  node_id : Z;
}.
End Event.

Module TraceResult.
Record t : Type := mk {
  nodes : gmap Z NodeData.t;
  events : list Event.t;
  total_steps : Z;
}.
End TraceResult.

(** The variables of [build_trace] that its inner functions share:
    the pieces on the board ... *)
Record Placed : Type := mkPlaced {
  used : gset string;
  filled_keys : gset string;
  board : gmap Coord string;
}.

(** ... and the trace under construction. *)
Record TraceState : Type := mkTraceState {
  placed : Placed;
  nodes : gmap Z NodeData.t;
  events : list Event.t;
  next_node_id : Z;
  node_counter : Z;
}.

Definition Attempt : Type := string * string * Cells.

(** A loop with local variables [C] whose body may [return]. *)
Fixpoint for_acc {S A C B} (l : list A) (c : C) (body : C → A → M S (C + B))
    : M S (C + B) :=
  match l with
  | [] => ret (inl c)
  | x :: l' =>
      let* r := body c x in
      match r with
      | inl c' => for_acc l' c' body
      | inr b => ret (inr b)
      end
  end.

(** A loop with local variables and no [return]. *)
Fixpoint foldM {S A B} (f : B → A → M S B) (l : list A) (b : B) : M S B :=
  match l with
  | [] => ret b
  | x :: l' => let* b' := f b x in foldM f l' b'
  end.

(** [enumerate(l)], counting from [i]. *)
Fixpoint enumerate_from {A} (i : Z) (l : list A) : list (Z * A) :=
  match l with
  | [] => []
  | x :: l' => (i, x) :: enumerate_from (i + 1) l'
  end.

Definition enumerate {A} (l : list A) : list (Z * A) := enumerate_from 0 l.

(** [apply]: [used.add(name)], then every cell is filled. *)
Definition apply_cell (name : string) (p : Placed) (rc : Coord) : Placed :=
  mkPlaced (used p) ({[key rc]} ∪ filled_keys p) (<[rc := name]> (board p)).

Definition apply_piece (name : string) (cells : Cells) (p : Placed) : Placed :=
  fold_left (apply_cell name) cells
    (mkPlaced ({[name]} ∪ used p) (filled_keys p) (board p)).

(** [unapply]: [set.remove] and [del] raise [KeyError] on a missing
    element. *)
Definition unapply_cell (acc : result Placed) (rc : Coord) : result Placed :=
  rbind acc (fun p =>
    if decide (key rc ∈ filled_keys p) then
      match board p !! rc with
      | Some _ =>
          Ok (mkPlaced (used p) (filled_keys p ∖ {[key rc]})
                (delete rc (board p)))
      | None => Raise KeyError
      end
    else Raise KeyError).

Definition unapply_piece (name : string) (cells : Cells) (p : Placed)
    : result Placed :=
  if decide (name ∈ used p) then
    fold_left unapply_cell cells
      (Ok (mkPlaced (used p ∖ {[name]}) (filled_keys p) (board p)))
  else Raise KeyError.

Definition on_placed (f : Placed → result Placed) : M TraceState unit :=
  update (fun s =>
    rbind (f (placed s)) (fun p =>
      Ok (mkTraceState p (nodes s) (events s) (next_node_id s)
            (node_counter s)))).

Definition append_event (ev : Event.t) : M TraceState unit :=
  update (fun s =>
    Ok (mkTraceState (placed s) (nodes s) (events s ++ [ev])
          (next_node_id s) (node_counter s))).

(** [nodes[nid]] *)
Definition node_at (nid : Z) : M TraceState NodeData.t :=
  query (fun s =>
    match nodes s !! nid with
    | Some n => Ok n
    | None => Raise KeyError
    end).

(** [ORIENTATIONS[name]] *)
Definition orientations_of (name : string) : M TraceState (list Cells) :=
  query (fun _ =>
    match dict_get ORIENTATIONS name with
    | Some os => Ok os
    | None => Raise KeyError
    end).

(** [first_empty], for a given set of filled keys. *)
Fixpoint first_empty_from (filled : gset string) (mask : list Coord)
    : option Coord :=
  match mask with
  | [] => None
  | rc :: rest =>
      if decide (key rc ∉ filled) then Some rc
      else first_empty_from filled rest
  end.

(** The exits of [dfs] that close the displayed node:
    [node = nodes[display_node_id]; node.explored_subnodes = k;
     events.append(Event("exit", display_node_id))]
    under [if display_node_id is not None]. *)
Definition close_node (display_node_id : option Z) (k : Z)
    : M TraceState unit :=
  match display_node_id with
  | None => ret tt
  | Some d =>
      update (fun s =>
        match nodes s !! d with
        | None => Raise KeyError
        | Some node =>
            Ok (mkTraceState (placed s)
                  (<[d := NodeData.set_explored k node]> (nodes s))
                  (events s ++ [Event.mk "exit" d])
                  (next_node_id s) (node_counter s))
        end)
  end.

Section Trace.

Variable problem : Problem.
Variable enable_pruning : bool.
Variables max_display_children max_nodes : Z.

Definition sorted_mask : list Coord := sorted (mask_cells problem).
Definition allowed_keys : gset string := mask_keys (mask_cells problem).

Definition create_node (parent_id : option Z) (depth : Z)
    (pruned rightmost_chain : bool) : M TraceState Z :=
  let* s0 := get in
  let nid := next_node_id s0 in
  do update (fun s =>
       let node :=
         NodeData.mk nid parent_id depth (board (placed s)) pruned false
           rightmost_chain (node_counter s) [] 0 in
       let nodes1 := <[nid := node]> (nodes s) in
       let events1 := events s ++ [Event.mk "enter" nid] in
       match parent_id with
       | None =>
           Ok (mkTraceState (placed s) nodes1 events1 (nid + 1)
                 (node_counter s))
       | Some p =>
           match nodes1 !! p with
           | None => Raise KeyError
           | Some pn =>
               Ok (mkTraceState (placed s)
                     (<[p := NodeData.append_child nid pn]> nodes1)
                     events1 (nid + 1) (node_counter s))
           end
       end) then
  ret nid.

Definition first_empty : M TraceState (option Coord) :=
  query (fun s => Ok (first_empty_from (filled_keys (placed s)) sorted_mask)).

Fixpoint can_place_in (filled : gset string) (cells : Cells) : bool :=
  match cells with
  | [] => true
  | rc :: rest =>
      if decide (key rc ∉ allowed_keys ∨ key rc ∈ filled) then false
      else can_place_in filled rest
  end.

Definition can_place (cells : Cells) : M TraceState bool :=
  query (fun s => Ok (can_place_in (filled_keys (placed s)) cells)).

(** [passes = True; if enable_pruning: passes = has_only_...(...)] *)
Definition passes_oracle : M TraceState bool :=
  if enable_pruning then
    query (fun s =>
      has_only_five_multiple_void_regions (rows problem) (cols problem)
        allowed_keys (filled_keys (placed s)) sorted_mask)
  else ret true.

(** The three nested loops that fill [attempts]. *)
Definition attempt_cell (anchor : Coord) (name : string) (orient : Cells)
    (attempts : list Attempt) (cell : Coord) : M TraceState (list Attempt) :=
  let shifted := shift orient (anchor.1 - cell.1) (anchor.2 - cell.2) in
  let* ok := can_place shifted in
  if negb ok then ret attempts
  else
    do on_placed (fun p => Ok (apply_piece name shifted p)) then
    let* passes := passes_oracle in
    do on_placed (unapply_piece name shifted) then
    ret (attempts
         ++ [((if passes then "valid" else "pruned")%string, name, shifted)]).

Definition attempt_name (anchor : Coord) (attempts : list Attempt)
    (name : string) : M TraceState (list Attempt) :=
  let* s := get in
  if decide (name ∈ used (placed s)) then ret attempts
  else
    let* os := orientations_of name in
    foldM (fun acc orient => foldM (attempt_cell anchor name orient) orient acc)
          os attempts.

Definition collect_attempts (anchor : Coord) : M TraceState (list Attempt) :=
  foldM (attempt_name anchor) (selected_pieces problem) [].

(** [solve_first]: the first move of the first full cover found from the
    current board, if any. *)
Definition solve_first_cell
    (rec : option Placement → M TraceState (option Placement))
    (first_move : option Placement) (spot : Coord) (sname : string)
    (sorient : Cells) (cell : Coord) : M TraceState (option Placement) :=
  let sshifted := shift sorient (spot.1 - cell.1) (spot.2 - cell.2) in
  let* fits := can_place sshifted in
  if negb fits then ret None
  else
    do on_placed (fun p => Ok (apply_piece sname sshifted p)) then
    let* ok := passes_oracle in
    let* got :=
      (if ok then
         let next_first :=
           match first_move with
           | Some mv => mv
           | None => (sname, sshifted)
           end in
         rec (Some next_first)
       else ret None) in
    do on_placed (unapply_piece sname sshifted) then
    ret got.

Definition solve_first_name
    (rec : option Placement → M TraceState (option Placement))
    (first_move : option Placement) (spot : Coord) (sname : string)
    : M TraceState (option Placement) :=
  let* s := get in
  if decide (sname ∈ used (placed s)) then ret None
  else
    let* os := orientations_of sname in
    for_each os (fun sorient =>
      for_each sorient (solve_first_cell rec first_move spot sname sorient)).

Fixpoint solve_first (fuel : nat) (first_move : option Placement)
    : M TraceState (option Placement) :=
  match fuel with
  | O => out_of_fuel
  | S fuel' =>
      let* spot := first_empty in
      match spot with
      | None => ret first_move
      | Some spot =>
          for_each (selected_pieces problem)
            (solve_first_name (solve_first fuel') first_move spot)
      end
  end.

(** Every level of [solve_first] below the first has one more piece on the
    board, so it is never deeper than the number of selected pieces. *)
Definition solution_next_move : M TraceState (option Placement) :=
  solve_first (S (length (selected_pieces problem))) None.

Definition is_valid (a : Attempt) : bool :=
  bool_decide (a.1.1 = "valid"%string).

Definition valid_indices (attempts : list Attempt) : list Z :=
  map fst (List.filter (fun ia => is_valid ia.2) (enumerate attempts)).

(** [next((i for ... if kind == "valid" and name == next_move[0]
                       and shifted == next_move[1]), -1)] *)
Definition index_of_move (attempts : list Attempt) (mv : Placement) : Z :=
  match List.find (fun ia : Z * Attempt =>
                     is_valid ia.2 && bool_decide (ia.2.1.2 = mv.1)
                     && bool_decide (ia.2.2 = mv.2))
                  (enumerate attempts) with
  | Some ia => ia.1
  | None => -1
  end.

(** The choice of [rightmost_idx] and [display_indices]. *)
Definition choose_display (parent : NodeData.t) (attempts : list Attempt)
    (next_move : option Placement) : gset Z * Z :=
  let len := Z.of_nat (length attempts) in
  let rightmost_idx0 :=
    match next_move with
    | Some mv => index_of_move attempts mv
    | None => -1
    end in
  let rightmost_idx :=
    if decide (rightmost_idx0 < 0) then
      List.last (valid_indices attempts) (len - 1)
    else rightmost_idx0 in
  let display_indices : gset Z :=
    if NodeData.rightmost_chain parent then {[rightmost_idx]}
    else if decide (len ≤ max_display_children) then list_to_set (range len)
    else {[0; 1; rightmost_idx]} in
  (display_indices, rightmost_idx).

(** The body of [for idx, (kind, name, shifted) in enumerate(attempts)]:
    [item] is [(idx, ((kind, name), shifted))], the local variables [acc] are
    [(subtree_nodes, found_solution)], and the result [r] of the recursive
    call is [((solved, child_count), aborted)]. *)
Definition visit_attempt
    (rec : Z → option Z → M TraceState (bool * Z * bool))
    (depth : Z) (display_node_id : option Z) (display_indices : gset Z)
    (rightmost_idx : Z) (acc : Z * bool) (item : Z * Attempt)
    : M TraceState ((Z * bool) + (bool * Z * bool)) :=
  let* parent :=
    (match display_node_id with
     | Some d => let* n := node_at d in ret (Some n)
     | None => ret None
     end) in
  let parent_is_chain :=
    match parent with
    | Some n => NodeData.rightmost_chain n
    | None => false
    end in
  let chain_root_ok := bool_decide (depth = 0) || parent_is_chain in
  let is_rightmost_display := bool_decide (item.1 = rightmost_idx) in
  let child_on_chain := chain_root_ok && is_rightmost_display in
  if decide (item.1 ∉ display_indices) then ret (inl acc)
  else if decide (item.2.1.1 = "pruned"%string) then
    match display_node_id with
    | Some d =>
        do on_placed (fun p => Ok (apply_piece item.2.1.2 item.2.2 p)) then
        let* pruned_id :=
          create_node (Some d) (depth + 1) true child_on_chain in
        do append_event (Event.mk "exit" pruned_id) then
        do on_placed (unapply_piece item.2.1.2 item.2.2) then
        ret (inl acc)
    | None => ret (inl acc)
    end
  else
    do on_placed (fun p => Ok (apply_piece item.2.1.2 item.2.2 p)) then
    let* child_display_id :=
      (match display_node_id with
       | Some d =>
           let* c := create_node (Some d) (depth + 1) false child_on_chain in
           ret (Some c)
       | None => ret None
       end) in
    let* r := rec (depth + 1) child_display_id in
    let subtree_nodes := acc.1 + r.1.2 in
    do on_placed (unapply_piece item.2.1.2 item.2.2) then
    if r.2 then
      do close_node display_node_id (Z.max 0 (subtree_nodes - 1)) then
      ret (inr (false, subtree_nodes, true))
    else if r.1.1 then
      if parent_is_chain then
        do close_node display_node_id (Z.max 0 (subtree_nodes - 1)) then
        ret (inr (true, subtree_nodes, false))
      else ret (inl (subtree_nodes, true))
    else ret (inl (subtree_nodes, acc.2)).

(** [display_indices] and [rightmost_idx] as they stand when the loop over
    the attempts starts. *)
Definition plan_display (depth : Z) (display_node_id : option Z)
    (attempts : list Attempt) : M TraceState (gset Z * Z) :=
  match display_node_id with
  | None => ret (∅, -1)
  | Some d =>
      let* parent := node_at d in
      let local_depth_cap :=
        if NodeData.rightmost_chain parent then RIGHTMOST_BRANCH_DEPTH
        else DEFAULT_DISPLAY_DEPTH in
      let can_display_children := bool_decide (depth < local_depth_cap) in
      if can_display_children && negb (bool_decide (attempts = [])) then
        let* next_move := solution_next_move in
        ret (choose_display parent attempts next_move)
      else ret (∅, -1)
  end.

Definition bump_node_counter : M TraceState unit :=
  update (fun s =>
    Ok (mkTraceState (placed s) (nodes s) (events s) (next_node_id s)
          (node_counter s + 1))).

Fixpoint dfs (fuel : nat) (depth : Z) (display_node_id : option Z)
    : M TraceState (bool * Z * bool) :=
  match fuel with
  | O => out_of_fuel
  | S fuel' =>
      do bump_node_counter then
      let* s := get in
      if decide (max_nodes < node_counter s) then ret (false, 1, true)
      else
        let* anchor := first_empty in
        match anchor with
        | None =>
            do close_node display_node_id 0 then
            ret (true, 1, false)
        | Some anchor =>
            let* attempts := collect_attempts anchor in
            let* plan := plan_display depth display_node_id attempts in
            let* r :=
              for_acc (enumerate attempts) (1, false)
                (visit_attempt (dfs fuel') depth display_node_id
                   plan.1 plan.2) in
            match r with
            | inr res => ret res
            | inl acc =>
                do close_node display_node_id (Z.max 0 (acc.1 - 1)) then
                ret (acc.2, acc.1, false)
            end
        end
  end.

Definition initial_state : TraceState :=
  mkTraceState (mkPlaced ∅ ∅ ∅) ∅ [] 0 0.

(** Displayed children only exist above [RIGHTMOST_BRANCH_DEPTH], so the
    recursion of [dfs] is never deeper than that. *)
Definition dfs_fuel : nat := S (Z.to_nat RIGHTMOST_BRANCH_DEPTH).

(** The body of [build_trace] up to the call of [dfs], whose result
    [build_trace] drops. *)
Definition root_dfs : M TraceState (bool * Z * bool) :=
  let* root_id := create_node None 0 false false in
  dfs dfs_fuel 0 (Some root_id).

End Trace.

(** [build_trace]; its body never reads [max_display_depth] (the depth caps
    are the two constants above). *)
Definition build_trace (problem : Problem) (enable_pruning : bool)
    (max_display_depth max_display_children max_nodes : Z)
    : result TraceResult.t :=
  match (root_dfs problem enable_pruning max_display_children max_nodes
           initial_state).2 with
  | Ok (_, s) => Ok (TraceResult.mk (nodes s) (events s) (node_counter s))
  | Raise e => Raise e
  | OutOfFuel => OutOfFuel
  end.

(** *** [apply] and [unapply] *)

Ltac split_cons :=
  repeat match goal with
  | H : _ ∈ _ :: _ |- _ => apply elem_of_cons in H as [->|H]
  | H : _ ∉ _ :: _ |- _ => apply not_elem_of_cons in H as [? ?]
  end.

(** The board dictionary and the set of filled keys describe the same
    cells. *)
Definition board_ok (p : Placed) : Prop :=
  ∀ rc, is_Some (board p !! rc) ↔ key rc ∈ filled_keys p.

Lemma apply_cells_spec (name : string) (cells : Cells) (p : Placed) :
  used (fold_left (apply_cell name) cells p) = used p
  ∧ filled_keys (fold_left (apply_cell name) cells p)
    = list_to_set (key <$> cells) ∪ filled_keys p
  ∧ ∀ rc, board (fold_left (apply_cell name) cells p) !! rc
          = if decide (rc ∈ cells) then Some name else board p !! rc.
Proof.
  revert p. induction cells as [|c cells IH]; intros p.
  - split; [done|]. split; [simpl; clear; set_solver|].
    intros rc. case_decide as Hrc; [by apply elem_of_nil in Hrc|done].
  - cbn [fold_left]. destruct (IH (apply_cell name p c)) as (Hu & Hf & Hb).
    rewrite Hu, Hf. split; [done|]. split.
    + simpl. clear. set_solver.
    + intros rc. rewrite Hb. cbn [apply_cell board].
      repeat case_decide; split_cons; try done.
      * by rewrite lookup_insert_eq.
      * by rewrite lookup_insert_ne.
Qed.

Lemma apply_piece_used (name : string) (cells : Cells) (p : Placed) :
  used (apply_piece name cells p) = {[name]} ∪ used p.
Proof. unfold apply_piece. by rewrite (proj1 (apply_cells_spec _ _ _)). Qed.

Lemma apply_piece_filled (name : string) (cells : Cells) (p : Placed) :
  filled_keys (apply_piece name cells p)
  = list_to_set (key <$> cells) ∪ filled_keys p.
Proof.
  unfold apply_piece.
  by rewrite (proj1 (proj2 (apply_cells_spec _ _ _))).
Qed.

Lemma apply_piece_board (name : string) (cells : Cells) (p : Placed)
    (rc : Coord) :
  board (apply_piece name cells p) !! rc
  = if decide (rc ∈ cells) then Some name else board p !! rc.
Proof.
  unfold apply_piece.
  by rewrite (proj2 (proj2 (apply_cells_spec _ _ _))).
Qed.

Lemma apply_piece_board_ok (name : string) (cells : Cells) (p : Placed) :
  board_ok p → board_ok (apply_piece name cells p).
Proof.
  intros Hok rc. rewrite apply_piece_board, apply_piece_filled.
  rewrite elem_of_union, elem_of_list_to_set, list_elem_of_fmap.
  destruct (decide (rc ∈ cells)) as [Hin|Hout].
  - split; [|by eauto]. intros _. left. by exists rc.
  - rewrite (Hok rc : _ ↔ _). split; [by right|].
    intros [(y & Heq & Hy)|Hf]; [|done].
    apply (inj key) in Heq as <-. done.
Qed.

Lemma unapply_cells_spec (cells : Cells) (p1 : Placed) :
  NoDup cells →
  (∀ rc, rc ∈ cells → key rc ∈ filled_keys p1 ∧ is_Some (board p1 !! rc)) →
  ∃ p2, fold_left unapply_cell cells (Ok p1) = Ok p2
        ∧ used p2 = used p1
        ∧ filled_keys p2 = filled_keys p1 ∖ list_to_set (key <$> cells)
        ∧ ∀ rc, board p2 !! rc
                = if decide (rc ∈ cells) then None else board p1 !! rc.
Proof.
  revert p1. induction cells as [|c cells IH]; intros p1 Hnd Hin.
  - exists p1. split; [done|]. split; [done|].
    split; [simpl; clear; set_solver|].
    intros rc. case_decide as Hrc; [by apply elem_of_nil in Hrc|done].
  - apply NoDup_cons in Hnd as [Hc Hnd].
    destruct (Hin c) as [Hcf [v Hcb]]; [apply elem_of_cons; by left|].
    cbn [fold_left]. unfold unapply_cell at 2. cbn [rbind].
    rewrite decide_True by done. rewrite Hcb.
    destruct (IH (mkPlaced (used p1) (filled_keys p1 ∖ {[key c]})
                    (delete c (board p1))) Hnd) as (p2 & Hrun & Hu & Hf & Hb).
    { intros rc Hrc. simpl.
      assert (rc ≠ c) as Hne by (intros ->; done).
      destruct (Hin rc) as [H1 H2]; [apply elem_of_cons; by right|].
      split.
      - apply elem_of_difference. split; [done|].
        intros Heq%elem_of_singleton. by apply (inj key) in Heq.
      - by rewrite lookup_delete_ne. }
    exists p2. split; [done|]. split; [done|]. split.
    + rewrite Hf. simpl. clear. set_solver.
    + intros rc. rewrite Hb. cbn [board].
      repeat case_decide; split_cons; try done.
      * by rewrite lookup_delete_eq.
      * by rewrite lookup_delete_ne.
Qed.

Lemma Placed_eq (p q : Placed) :
  used p = used q → filled_keys p = filled_keys q →
  (∀ rc, board p !! rc = board q !! rc) → p = q.
Proof.
  destruct p, q. simpl. intros -> -> Hb. f_equal. by apply map_eq.
Qed.

(** [unapply] undoes [apply] for a piece that is not in use, on distinct
    cells that were empty. *)
Lemma unapply_apply (name : string) (cells : Cells) (p : Placed) :
  board_ok p → name ∉ used p → NoDup cells →
  (∀ rc, rc ∈ cells → key rc ∉ filled_keys p) →
  unapply_piece name cells (apply_piece name cells p) = Ok p.
Proof.
  intros Hok Hname Hnd Hfree. unfold unapply_piece.
  rewrite decide_True
    by (rewrite apply_piece_used; apply elem_of_union; left;
        by apply elem_of_singleton).
  destruct (unapply_cells_spec cells
              (mkPlaced (used (apply_piece name cells p) ∖ {[name]})
                 (filled_keys (apply_piece name cells p))
                 (board (apply_piece name cells p))) Hnd)
    as (p2 & -> & Hu & Hf & Hb).
  { intros rc Hrc. cbn [filled_keys board].
    rewrite apply_piece_filled, apply_piece_board.
    rewrite decide_True by done. split; [|by eauto].
    apply elem_of_union. left.
    apply elem_of_list_to_set, list_elem_of_fmap. by exists rc. }
  f_equal. apply Placed_eq.
  - rewrite Hu. cbn [used]. rewrite apply_piece_used.
    clear -Hname. set_solver.
  - rewrite Hf. cbn [filled_keys]. rewrite apply_piece_filled.
    apply set_eq. intros k. rewrite elem_of_difference, elem_of_union.
    rewrite elem_of_list_to_set, list_elem_of_fmap. split; [tauto|].
    intros Hk. split; [by right|]. intros (rc & -> & Hrc).
    by apply (Hfree rc).
  - intros rc. rewrite Hb. cbn [board]. rewrite apply_piece_board.
    destruct (decide (rc ∈ cells)) as [Hrc|Hrc]; [|done].
    symmetry. apply eq_None_not_Some. rewrite (Hok rc : _ ↔ _).
    by apply Hfree.
Qed.

(** [unapply] raises [KeyError] for a piece that is not in use. *)
Lemma unapply_unused (name : string) (cells : Cells) (p : Placed) :
  name ∉ used p → unapply_piece name cells p = Raise KeyError.
Proof. intros Hname. unfold unapply_piece. by rewrite decide_False. Qed.

(** *** Well-nested event sequences *)

Inductive balanced : list Event.t → Prop :=
  | balanced_nil : balanced []
  | balanced_node (c : Z) (inner rest : list Event.t) :
      balanced inner → balanced rest →
      balanced (Event.mk "enter" c :: inner ++ Event.mk "exit" c :: rest).

Lemma balanced_app (a b : list Event.t) :
  balanced a → balanced b → balanced (a ++ b).
Proof.
  intros Ha Hb. induction Ha as [|c inner rest Hinner _ _ IH]; [done|].
  rewrite <- app_comm_cons, <- app_assoc, <- app_comm_cons.
  by apply balanced_node.
Qed.

Lemma balanced_snoc_node (mid inner : list Event.t) (c : Z) :
  balanced mid → balanced inner →
  balanced (mid ++ Event.mk "enter" c :: inner ++ [Event.mk "exit" c]).
Proof.
  intros Hmid Hinner. apply balanced_app; [done|].
  apply balanced_node; [done|apply balanced_nil].
Qed.

(** The same as a check with a stack of the nodes that are open. *)
Fixpoint nests (open : list Z) (evs : list Event.t) : bool :=
  match evs with
  | [] => bool_decide (open = [])
  | ev :: evs' =>
      if decide (Event.kind ev = "enter"%string) then
        nests (Event.node_id ev :: open) evs'
      else
        match open with
        | top :: open' =>
            bool_decide (Event.node_id ev = top) && nests open' evs'
        | [] => false
        end
  end.

Definition well_nested (evs : list Event.t) : bool := nests [] evs.

Lemma nests_balanced (evs rest : list Event.t) (open : list Z) :
  balanced evs → nests open (evs ++ rest) = nests open rest.
Proof.
  intros Hb. revert open rest.
  induction Hb as [|c inner tail _ IHinner _ IHtail]; intros open rest;
    [done|].
  rewrite <- app_comm_cons. cbn [nests Event.kind Event.node_id].
  rewrite decide_True by done. rewrite <- app_assoc, IHinner.
  rewrite <- app_comm_cons. cbn [nests Event.kind Event.node_id].
  rewrite decide_False by done. rewrite bool_decide_eq_true_2 by done.
  cbn [andb]. apply IHtail.
Qed.

Lemma balanced_well_nested (evs : list Event.t) :
  balanced evs → well_nested evs = true.
Proof.
  intros Hb. unfold well_nested.
  rewrite <- (app_nil_r evs), nests_balanced by done. reflexivity.
Qed.

(** *** Rules for the loops *)

Lemma total_foldM {S A B} (I : B → S → Prop) (f : B → A → M S B)
    (l : list A) (b : B) (s : S) :
  I b s →
  (∀ x b s, x ∈ l → I b s → total (f b x) s I) →
  total (foldM f l b) s I.
Proof.
  revert b s. induction l as [|x l IH]; intros b s HI Hf.
  - by apply total_ret.
  - cbn [foldM]. apply total_bind.
    eapply total_mono; [apply Hf; [apply elem_of_cons; by left|done]|].
    intros b' s' HI'. apply IH; [done|].
    intros y b0 s0 Hy. apply Hf. apply elem_of_cons. by right.
Qed.

(** [I] speaks of the elements still to come. *)
Lemma total_for_acc {S A C B} (I : list A → C → S → Prop)
    (Q : C + B → S → Prop) (body : C → A → M S (C + B))
    (l : list A) (c : C) (s : S) :
  I l c s →
  (∀ x rest c s, I (x :: rest) c s →
     total (body c x) s (fun r s' =>
       match r with
       | inl c' => I rest c' s'
       | inr b => Q (inr b) s'
       end)) →
  (∀ c s, I [] c s → Q (inl c) s) →
  total (for_acc l c body) s Q.
Proof.
  intros HI Hbody Hend. revert c s HI.
  induction l as [|x l IH]; intros c s HI.
  - apply total_ret. by apply Hend.
  - cbn [for_acc]. apply total_bind.
    eapply total_mono; [by apply Hbody|].
    intros [c'|b] s' Hr; [by apply IH|by apply total_ret].
Qed.

Lemma enumerate_from_fst {A} (i : Z) (l : list A) :
  (∀ j, j ∈ (enumerate_from i l).*1 → i ≤ j)
  ∧ NoDup (enumerate_from i l).*1.
Proof.
  revert i. induction l as [|x l IH]; intros i; simpl.
  - split; [by intros j ?%elem_of_nil|apply NoDup_nil_2].
  - destruct (IH (i + 1)) as [Hge Hnd]. split.
    + intros j [->|Hj]%elem_of_cons; [lia|]. apply Hge in Hj. lia.
    + apply NoDup_cons. split; [|done]. intros Hi%Hge. lia.
Qed.

Lemma enumerate_from_snd {A} (i : Z) (l : list A) :
  (enumerate_from i l).*2 = l.
Proof. revert i. induction l as [|x l IH]; intros i; simpl; by f_equal. Qed.

Section TraceFacts.

Variable problem : Problem.
Variable enable_pruning : bool.
Variables max_display_children max_nodes : Z.

Notation allowed := (allowed_keys problem).

(** Every selected piece is one of the twelve. *)
Definition known_pieces : Prop :=
  ∀ name, name ∈ selected_pieces problem →
          is_Some (dict_get ORIENTATIONS name).

Definition set_placed (p : Placed) (s : TraceState) : TraceState :=
  mkTraceState p (nodes s) (events s) (next_node_id s) (node_counter s).

Lemma set_placed_same (s : TraceState) : set_placed (placed s) s = s.
Proof. by destruct s. Qed.

(** **** The primitive steps *)

Lemma total_on_placed (f : Placed → result Placed) (s : TraceState)
    (p' : Placed) (Q : unit → TraceState → Prop) :
  f (placed s) = Ok p' → Q tt (set_placed p' s) → total (on_placed f) s Q.
Proof.
  intros Hf HQ. unfold on_placed. eapply total_update; [|exact HQ].
  by rewrite Hf.
Qed.

Lemma total_first_empty (s : TraceState)
    (Q : option Coord → TraceState → Prop) :
  Q (first_empty_from (filled_keys (placed s)) (sorted_mask problem)) s →
  total (first_empty problem) s Q.
Proof. intros HQ. unfold first_empty. by eapply total_query. Qed.

Lemma total_can_place (cells : Cells) (s : TraceState)
    (Q : bool → TraceState → Prop) :
  Q (can_place_in problem (filled_keys (placed s)) cells) s →
  total (can_place problem cells) s Q.
Proof. intros HQ. unfold can_place. by eapply total_query. Qed.

Lemma total_node_at (d : Z) (n : NodeData.t) (s : TraceState)
    (Q : NodeData.t → TraceState → Prop) :
  nodes s !! d = Some n → Q n s → total (node_at d) s Q.
Proof.
  intros Hd HQ. unfold node_at. eapply total_query; [|exact HQ].
  by rewrite Hd.
Qed.

Lemma total_orientations_of (name : string) (os : list Cells)
    (s : TraceState) (Q : list Cells → TraceState → Prop) :
  dict_get ORIENTATIONS name = Some os → Q os s →
  total (orientations_of name) s Q.
Proof.
  intros Hd HQ. unfold orientations_of. eapply total_query; [|exact HQ].
  by rewrite Hd.
Qed.

Lemma total_passes_oracle (s : TraceState) (Q : bool → TraceState → Prop) :
  (∀ b, Q b s) → total (passes_oracle problem enable_pruning) s Q.
Proof.
  intros HQ. unfold passes_oracle. destruct enable_pruning.
  - destruct (oracle_total (rows problem) (cols problem) (mask_cells problem)
                (filled_keys (placed s))) as [b Hb].
    eapply total_query; [exact Hb|apply HQ].
  - by apply total_ret.
Qed.

Lemma total_append_event (ev : Event.t) (s : TraceState)
    (Q : unit → TraceState → Prop) :
  Q tt (mkTraceState (placed s) (nodes s) (events s ++ [ev])
          (next_node_id s) (node_counter s)) →
  total (append_event ev) s Q.
Proof. intros HQ. unfold append_event. by eapply total_update. Qed.

Lemma total_bump_node_counter (s : TraceState)
    (Q : unit → TraceState → Prop) :
  Q tt (mkTraceState (placed s) (nodes s) (events s) (next_node_id s)
          (node_counter s + 1)) →
  total bump_node_counter s Q.
Proof. intros HQ. unfold bump_node_counter. by eapply total_update. Qed.

Lemma total_close_node (d : Z) (k : Z) (n : NodeData.t) (s : TraceState)
    (Q : unit → TraceState → Prop) :
  nodes s !! d = Some n →
  Q tt (mkTraceState (placed s)
          (<[d := NodeData.set_explored k n]> (nodes s))
          (events s ++ [Event.mk "exit" d])
          (next_node_id s) (node_counter s)) →
  total (close_node (Some d) k) s Q.
Proof.
  intros Hd HQ. unfold close_node. eapply total_update; [|exact HQ].
  by rewrite Hd.
Qed.

(** The node that [create_node] makes. *)
Definition fresh_node (s : TraceState) (parent_id : option Z) (depth : Z)
    (pruned rightmost_chain : bool) : NodeData.t :=
  NodeData.mk (next_node_id s) parent_id depth (board (placed s)) pruned
    false rightmost_chain (node_counter s) [] 0.

Lemma total_create_root (depth : Z) (pruned chain : bool) (s : TraceState)
    (Q : Z → TraceState → Prop) :
  Q (next_node_id s)
    (mkTraceState (placed s)
       (<[next_node_id s := fresh_node s None depth pruned chain]> (nodes s))
       (events s ++ [Event.mk "enter" (next_node_id s)])
       (next_node_id s + 1) (node_counter s)) →
  total (create_node None depth pruned chain) s Q.
Proof.
  intros HQ. unfold create_node. apply total_bind, total_get.
  apply total_bind. eapply total_update; [reflexivity|].
  by apply total_ret.
Qed.

Lemma total_create_child (p : Z) (pn : NodeData.t) (depth : Z)
    (pruned chain : bool) (s : TraceState) (Q : Z → TraceState → Prop) :
  nodes s !! p = Some pn → p ≠ next_node_id s →
  Q (next_node_id s)
    (mkTraceState (placed s)
       (<[p := NodeData.append_child (next_node_id s) pn]>
          (<[next_node_id s := fresh_node s (Some p) depth pruned chain]>
             (nodes s)))
       (events s ++ [Event.mk "enter" (next_node_id s)])
       (next_node_id s + 1) (node_counter s)) →
  total (create_node (Some p) depth pruned chain) s Q.
Proof.
  intros Hp Hne HQ. unfold create_node. apply total_bind, total_get.
  apply total_bind. eapply total_update; [|by apply total_ret].
  cbn zeta. rewrite lookup_insert_ne by done. by rewrite Hp.
Qed.

(** **** [can_place] and [first_empty] *)

Lemma can_place_in_spec (filled : gset string) (cells : Cells) :
  can_place_in problem filled cells = true →
  ∀ rc, rc ∈ cells → key rc ∈ allowed ∧ key rc ∉ filled.
Proof.
  induction cells as [|c cells IH]; simpl; [by intros _ rc ?%elem_of_nil|].
  case_decide as Hc; [done|]. intros Hrest rc [->|Hrc]%elem_of_cons.
  - split.
    + destruct (decide (key c ∈ allowed)); [done|]. exfalso. apply Hc. by left.
    + intros Hf. apply Hc. by right.
  - by apply IH.
Qed.

Lemma first_empty_from_None (filled : gset string) (mask : list Coord) :
  first_empty_from filled mask = None → ∀ rc, rc ∈ mask → key rc ∈ filled.
Proof.
  induction mask as [|c mask IH]; simpl; [by intros _ rc ?%elem_of_nil|].
  case_decide as Hc; [done|]. intros Hrest rc [->|Hrc]%elem_of_cons.
  - by destruct (decide (key c ∈ filled)).
  - by apply IH.
Qed.

Lemma first_empty_from_Some (filled : gset string) (mask : list Coord)
    (rc : Coord) :
  first_empty_from filled mask = Some rc → rc ∈ mask ∧ key rc ∉ filled.
Proof.
  induction mask as [|c mask IH]; simpl; [done|].
  case_decide as Hc.
  - intros [= ->]. split; [apply elem_of_cons; by left|done].
  - intros [Hin Hf]%IH. split; [apply elem_of_cons; by right|done].
Qed.

(** **** The helpers leave the state as they found it *)

Lemma total_for_each_same {S A B} (l : list A) (body : A → M S (option B))
    (s : S) :
  (∀ x, x ∈ l → total (body x) s (fun _ s' => s' = s)) →
  total (for_each l body) s (fun _ s' => s' = s).
Proof.
  intros Hbody.
  apply (total_for_each (fun s' => s' = s) (fun _ s' => s' = s)); [done| |done].
  intros x s' Hx ->. eapply total_mono; [by apply Hbody|].
  by intros [b|] s' ->.
Qed.

(** Number of selected pieces not on the board. *)
Definition unused_count (p : Placed) : nat :=
  length (filter (fun name => name ∉ used p) (selected_pieces problem)).

Lemma unused_count_apply (name : string) (cells : Cells) (p : Placed) :
  name ∈ selected_pieces problem → name ∉ used p →
  (unused_count (apply_piece name cells p) < unused_count p)%nat.
Proof.
  intros Hsel Hused. unfold unused_count.
  apply (filter_length_lt _ _ _ name); [done|done| |].
  - intros Hn. apply Hn. rewrite apply_piece_used. apply elem_of_union.
    left. by apply elem_of_singleton.
  - intros x Hx Hin. apply Hx. rewrite apply_piece_used.
    apply elem_of_union. by right.
Qed.

(** A placement that [can_place] accepted, of a piece not in use. *)
Definition attempt_ok (p : Placed) (a : Attempt) : Prop :=
  a.1.2 ∉ used p ∧ NoDup a.2 ∧ length a.2 = 5%nat
  ∧ ∀ rc, rc ∈ a.2 → key rc ∈ allowed ∧ key rc ∉ filled_keys p.

Lemma unapply_after_apply (name : string) (cells : Cells) (s s1 : TraceState) :
  board_ok (placed s) → name ∉ used (placed s) → NoDup cells →
  (∀ rc, rc ∈ cells → key rc ∉ filled_keys (placed s)) →
  placed s1 = apply_piece name cells (placed s) →
  unapply_piece name cells (placed s1) = Ok (placed s).
Proof. intros Hok Hn Hnd Hfree ->. by apply unapply_apply. Qed.

Lemma solve_first_cell_total
    (rec : option Placement → M TraceState (option Placement))
    (first_move : option Placement) (spot : Coord) (sname : string)
    (os : list Cells) (sorient : Cells) (cell : Coord) (s : TraceState) :
  (∀ fm s1, board_ok (placed s1) →
            (unused_count (placed s1) < unused_count (placed s))%nat →
            total (rec fm) s1 (fun _ s' => s' = s1)) →
  board_ok (placed s) → sname ∈ selected_pieces problem →
  sname ∉ used (placed s) →
  dict_get ORIENTATIONS sname = Some os → sorient ∈ os →
  total (solve_first_cell problem enable_pruning rec first_move spot sname
           sorient cell) s (fun _ s' => s' = s).
Proof.
  intros Hrec Hok Hsel Hused Hos Ho. unfold solve_first_cell. cbn zeta.
  set (sshifted := shift sorient (spot.1 - cell.1) (spot.2 - cell.2)).
  apply total_bind, total_can_place.
  destruct (can_place_in problem (filled_keys (placed s)) sshifted) eqn:Hfits;
    cbn [negb]; [|by apply total_ret].
  pose proof (can_place_in_spec _ _ Hfits) as Hcells.
  destruct (ORIENTATIONS_facts _ _ _ Hos Ho) as (Hnd & _ & _).
  eapply total_bind, total_on_placed; [reflexivity|].
  apply total_bind, total_passes_oracle. intros ok. apply total_bind.
  set (s1 := set_placed (apply_piece sname sshifted (placed s)) s).
  assert (total (if ok
                 then rec (Some match first_move with
                                | Some mv => mv
                                | None => (sname, sshifted)
                                end)
                 else ret None) s1 (fun _ s' => s' = s1)) as Hgot.
  { destruct ok; [|by apply total_ret]. apply Hrec.
    - by apply apply_piece_board_ok.
    - by apply unused_count_apply. }
  eapply total_mono; [exact Hgot|]. intros got s' ->.
  eapply total_bind, total_on_placed.
  - apply (unapply_after_apply sname sshifted s s1); try done.
    + by apply shift_NoDup.
    + intros rc Hrc. by apply Hcells.
  - apply total_ret. by destruct s.
Qed.

Lemma solve_first_total (fuel : nat) (first_move : option Placement)
    (s : TraceState) :
  known_pieces → board_ok (placed s) →
  (unused_count (placed s) < fuel)%nat →
  total (solve_first problem enable_pruning fuel first_move) s
    (fun _ s' => s' = s).
Proof.
  intros Hknown. revert first_move s.
  induction fuel as [|fuel IH]; intros first_move s Hok Hfuel; [lia|].
  cbn [solve_first]. apply total_bind, total_first_empty.
  destruct (first_empty_from _ _) as [spot|]; [|by apply total_ret].
  apply total_for_each_same. intros sname Hsname.
  unfold solve_first_name. apply total_bind, total_get.
  case_decide as Hused; [by apply total_ret|].
  destruct (Hknown sname Hsname) as [os Hos].
  eapply total_bind, total_orientations_of; [exact Hos|].
  apply total_for_each_same. intros sorient Ho.
  apply total_for_each_same. intros cell _.
  apply (solve_first_cell_total _ _ _ _ os); try done.
  intros fm s1 Hok1 Hlt. apply IH; [done|lia].
Qed.

Lemma unused_count_le (p : Placed) :
  (unused_count p ≤ length (selected_pieces problem))%nat.
Proof. unfold unused_count. apply length_filter. Qed.

Lemma solution_next_move_total (s : TraceState) :
  known_pieces → board_ok (placed s) →
  total (solution_next_move problem enable_pruning) s (fun _ s' => s' = s).
Proof.
  intros Hknown Hok. unfold solution_next_move.
  apply solve_first_total; [done|done|].
  pose proof (unused_count_le (placed s)). lia.
Qed.

Lemma attempt_cell_total (anchor : Coord) (name : string) (os : list Cells)
    (orient : Cells) (attempts : list Attempt) (cell : Coord)
    (s : TraceState) :
  board_ok (placed s) → name ∉ used (placed s) →
  dict_get ORIENTATIONS name = Some os → orient ∈ os →
  Forall (attempt_ok (placed s)) attempts →
  total (attempt_cell problem enable_pruning anchor name orient attempts cell)
    s (fun attempts' s' => s' = s ∧ Forall (attempt_ok (placed s)) attempts').
Proof.
  intros Hok Hused Hos Ho Hall. unfold attempt_cell. cbn zeta.
  set (shifted := shift orient (anchor.1 - cell.1) (anchor.2 - cell.2)).
  apply total_bind, total_can_place.
  destruct (can_place_in problem (filled_keys (placed s)) shifted) eqn:Hfits;
    cbn [negb]; [|by apply total_ret].
  pose proof (can_place_in_spec _ _ Hfits) as Hcells.
  destruct (ORIENTATIONS_facts _ _ _ Hos Ho) as (Hnd & Hlen & _).
  eapply total_bind, total_on_placed; [reflexivity|].
  apply total_bind, total_passes_oracle. intros passes.
  eapply total_bind, total_on_placed.
  - apply (unapply_after_apply name shifted s); try done.
    + by apply shift_NoDup.
    + intros rc Hrc. by apply Hcells.
  - apply total_ret. split; [by destruct s|].
    apply Forall_app. split; [done|]. apply Forall_singleton.
    unfold attempt_ok. cbn [fst snd].
    split; [done|]. split; [by apply shift_NoDup|].
    split; [|done]. unfold shifted. by rewrite shift_length.
Qed.

Lemma collect_attempts_total (anchor : Coord) (s : TraceState) :
  known_pieces → board_ok (placed s) →
  total (collect_attempts problem enable_pruning anchor) s
    (fun attempts s' => s' = s ∧ Forall (attempt_ok (placed s)) attempts).
Proof.
  intros Hknown Hok. unfold collect_attempts.
  apply (total_foldM
           (fun acc s' => s' = s ∧ Forall (attempt_ok (placed s)) acc));
    [by split|].
  intros name acc s' Hname [-> Hacc]. unfold attempt_name.
  apply total_bind, total_get. case_decide as Hused; [by apply total_ret|].
  destruct (Hknown name Hname) as [os Hos].
  eapply total_bind, total_orientations_of; [exact Hos|].
  apply (total_foldM
           (fun acc s' => s' = s ∧ Forall (attempt_ok (placed s)) acc));
    [by split|].
  intros orient acc1 s1 Ho [-> Hacc1].
  apply (total_foldM
           (fun acc s' => s' = s ∧ Forall (attempt_ok (placed s)) acc));
    [by split|].
  intros cell acc2 s2 _ [-> Hacc2].
  by apply (attempt_cell_total _ _ os).
Qed.

(** **** Invariants of the recorder *)

(** The largest fan-out [display_indices] can have: [max_display_children]
    indices when the attempts are that few, three otherwise. *)
Definition max_fan_out : Z := Z.max 3 max_display_children.

Definition node_caps (n : NodeData.t) : Prop :=
  Z.of_nat (length (NodeData.children n)) ≤ max_fan_out
  ∧ (NodeData.depth n ≤ DEFAULT_DISPLAY_DEPTH
     ∨ NodeData.rightmost_chain n = true).

(** The node table holds the ids handed out so far, and every node keeps
    the display caps. *)
Definition nodes_ok (ns : gmap Z NodeData.t) (next : Z) : Prop :=
  (∀ id, is_Some (ns !! id) ↔ 0 ≤ id < next)
  ∧ ∀ id n, ns !! id = Some n → node_caps n.

Definition placed_ok (p : Placed) : Prop :=
  board_ok p ∧ filled_keys p ⊆ allowed
  ∧ Z.of_nat (size (filled_keys p)) mod 5 = 0.

Lemma nodes_ok_explored (ns : gmap Z NodeData.t) (next d k : Z)
    (n : NodeData.t) :
  nodes_ok ns next → ns !! d = Some n →
  nodes_ok (<[d := NodeData.set_explored k n]> ns) next.
Proof.
  intros [Hdom Hcaps] Hd. split.
  - intros id. rewrite <- Hdom. destruct (decide (id = d)) as [->|Hne].
    + rewrite lookup_insert_eq, Hd. split; by eauto.
    + by rewrite lookup_insert_ne.
  - intros id m. destruct (decide (id = d)) as [->|Hne].
    + rewrite lookup_insert_eq. intros [= <-]. exact (Hcaps d n Hd).
    + rewrite lookup_insert_ne by done. apply Hcaps.
Qed.

Lemma nodes_ok_child (ns : gmap Z NodeData.t) (next d : Z)
    (n child : NodeData.t) :
  nodes_ok ns next → ns !! d = Some n →
  Z.of_nat (length (NodeData.children n)) + 1 ≤ max_fan_out →
  NodeData.children child = [] →
  (NodeData.depth child ≤ DEFAULT_DISPLAY_DEPTH
   ∨ NodeData.rightmost_chain child = true) →
  nodes_ok (<[d := NodeData.append_child next n]> (<[next := child]> ns))
    (next + 1).
Proof.
  intros [Hdom Hcaps] Hd Hfan Hnil Hdepth.
  assert (0 ≤ d < next) as Hdr by (apply Hdom; by eauto).
  split.
  - intros id. destruct (decide (id = d)) as [->|Hne].
    + rewrite lookup_insert_eq. split; [lia|by eauto].
    + rewrite lookup_insert_ne by done.
      destruct (decide (id = next)) as [->|Hne'].
      * rewrite lookup_insert_eq. split; [lia|by eauto].
      * rewrite lookup_insert_ne by done. rewrite Hdom. lia.
  - intros id m. destruct (decide (id = d)) as [->|Hne].
    + rewrite lookup_insert_eq. intros [= <-].
      destruct (Hcaps d n Hd) as [_ Hdep]. split; [|done].
      simpl. rewrite length_app. simpl. lia.
    + rewrite lookup_insert_ne by done.
      destruct (decide (id = next)) as [->|Hne'].
      * rewrite lookup_insert_eq. intros [= <-]. split; [|done].
        rewrite Hnil. simpl. unfold max_fan_out. lia.
      * rewrite lookup_insert_ne by done. apply Hcaps.
Qed.

Lemma placed_ok_apply (p : Placed) (a : Attempt) :
  placed_ok p → attempt_ok p a → placed_ok (apply_piece a.1.2 a.2 p).
Proof.
  intros (Hb & Hsub & Hmod) (_ & Hnd & Hlen & Hcells).
  split; [by apply apply_piece_board_ok|]. rewrite apply_piece_filled.
  split.
  - intros k [Hk|Hk]%elem_of_union; [|by apply Hsub].
    apply elem_of_list_to_set, list_elem_of_fmap in Hk as (rc & -> & Hrc).
    by apply Hcells.
  - rewrite size_union.
    + rewrite size_keys by (by apply (NoDup_fmap_2 _)).
      rewrite Hlen, Nat2Z.inj_add, Z.add_mod, Hmod by lia. reflexivity.
    + intros k Hk Hf.
      apply elem_of_list_to_set, list_elem_of_fmap in Hk as (rc & -> & Hrc).
      by apply (Hcells rc).
Qed.

(** A full board: the filled keys are all of the allowed keys. *)
Lemma full_board_size (p : Placed) :
  placed_ok p →
  first_empty_from (filled_keys p) (sorted_mask problem) = None →
  Z.of_nat (size allowed) mod 5 = 0.
Proof.
  intros (_ & Hsub & Hmod) Hnone.
  replace allowed with (filled_keys p); [done|].
  apply set_eq. intros k. split; [apply Hsub|].
  intros Hk. apply elem_of_list_to_set, list_elem_of_fmap in Hk
    as (rc & -> & Hrc).
  apply (first_empty_from_None _ _ Hnone). unfold sorted_mask.
  by rewrite (sorted_perm (mask_cells problem)).
Qed.

(** **** The display plan *)

Lemma size_list_to_set_le (l : list Z) :
  (size (list_to_set l : gset Z) ≤ length l)%nat.
Proof.
  induction l as [|x l IH].
  - rewrite list_to_set_nil, size_empty. simpl. lia.
  - rewrite list_to_set_cons, size_union_alt, size_singleton.
    assert (size (list_to_set l ∖ {[x]} : gset Z)
            ≤ size (list_to_set l : gset Z))%nat
      by (apply subseteq_size; clear; set_solver).
    simpl. lia.
Qed.

Lemma size_three (a b c : Z) : (size ({[a; b; c]} : gset Z) ≤ 3)%nat.
Proof.
  pose proof (size_list_to_set_le [a; b; c]) as Hs.
  replace (list_to_set [a; b; c] : gset Z) with ({[a; b; c]} : gset Z)
    in Hs; [done|].
  rewrite !list_to_set_cons, list_to_set_nil. clear. set_solver.
Qed.

Lemma range_length (n : Z) : 0 ≤ n → Z.of_nat (length (range n)) = n.
Proof. intros Hn. unfold range. rewrite length_map, length_seq. lia. Qed.

(** What the loop over the attempts needs to know of the plan. *)
Definition plan_ok (depth : Z) (n : NodeData.t) (plan : gset Z * Z) : Prop :=
  Z.of_nat (size plan.1) ≤ max_fan_out
  ∧ ∀ i, i ∈ plan.1 →
         depth < (if NodeData.rightmost_chain n then RIGHTMOST_BRANCH_DEPTH
                  else DEFAULT_DISPLAY_DEPTH)
         ∧ (NodeData.rightmost_chain n = true → i = plan.2).

Lemma choose_display_size (n : NodeData.t) (attempts : list Attempt)
    (next_move : option Placement) :
  Z.of_nat (size (choose_display max_display_children n attempts next_move).1)
  ≤ max_fan_out.
Proof.
  unfold choose_display, max_fan_out. cbn zeta. cbn [fst].
  destruct (NodeData.rightmost_chain n).
  - rewrite size_singleton. lia.
  - case_decide as Hlen.
    + pose proof (size_list_to_set_le (range (Z.of_nat (length attempts)))).
      pose proof (range_length (Z.of_nat (length attempts))). lia.
    + match goal with
      | |- context [size ({[0; 1; ?r]})] => pose proof (size_three 0 1 r)
      end. lia.
Qed.

Lemma choose_display_chain (n : NodeData.t) (attempts : list Attempt)
    (next_move : option Placement) (i : Z) :
  NodeData.rightmost_chain n = true →
  i ∈ (choose_display max_display_children n attempts next_move).1 →
  i = (choose_display max_display_children n attempts next_move).2.
Proof.
  unfold choose_display. cbn zeta. cbn [fst snd]. intros ->.
  by intros ->%elem_of_singleton.
Qed.

Lemma plan_display_total (depth d : Z) (n : NodeData.t)
    (attempts : list Attempt) (s : TraceState) :
  known_pieces → board_ok (placed s) → nodes s !! d = Some n →
  total (plan_display problem enable_pruning max_display_children depth
           (Some d) attempts) s
    (fun plan s' => s' = s ∧ plan_ok depth n plan).
Proof.
  intros Hknown Hok Hd. unfold plan_display.
  eapply total_bind, total_node_at; [exact Hd|]. cbn zeta.
  destruct (bool_decide (depth < _)) eqn:Hcap; cbn [andb].
  2:{ apply total_ret. split; [done|]. split.
      - cbn [fst]. rewrite size_empty. unfold max_fan_out. lia.
      - intros i Hi. by apply elem_of_empty in Hi. }
  apply bool_decide_eq_true in Hcap.
  destruct (negb (bool_decide (attempts = []))).
  2:{ apply total_ret. split; [done|]. split.
      - cbn [fst]. rewrite size_empty. unfold max_fan_out. lia.
      - intros i Hi. by apply elem_of_empty in Hi. }
  apply total_bind.
  eapply total_mono; [by apply solution_next_move_total|].
  intros next_move s' ->. apply total_ret. split; [done|]. split.
  - apply choose_display_size.
  - intros i Hi. split; [done|]. intros Hchain.
    by apply choose_display_chain.
Qed.

(** **** What a call of [dfs] on a displayed node does *)

Lemma display_skip (D : gset Z) (item : Z * Attempt)
    (rest : list (Z * Attempt)) :
  (size (D ∩ list_to_set rest.*1) ≤ size (D ∩ list_to_set (item :: rest).*1))%nat.
Proof.
  apply subseteq_size. rewrite fmap_cons, list_to_set_cons. clear. set_solver.
Qed.

Lemma display_step (D : gset Z) (item : Z * Attempt)
    (rest : list (Z * Attempt)) :
  item.1 ∈ D → NoDup (item :: rest).*1 →
  (size (D ∩ list_to_set rest.*1) + 1
   ≤ size (D ∩ list_to_set (item :: rest).*1))%nat.
Proof.
  intros Hin Hnd. rewrite fmap_cons in Hnd. apply NoDup_cons in Hnd as [Hnew _].
  rewrite fmap_cons, list_to_set_cons.
  replace (D ∩ ({[item.1]} ∪ list_to_set rest.*1))
    with ({[item.1]} ∪ (D ∩ list_to_set rest.*1) : gset Z).
  - rewrite (size_union ({[item.1]} : gset Z) (D ∩ list_to_set rest.*1)).
    + rewrite size_singleton. lia.
    + intros k ->%elem_of_singleton [_ Hk]%elem_of_intersection.
      by apply elem_of_list_to_set in Hk.
  - apply set_eq. intros k. rewrite elem_of_union, !elem_of_intersection.
    rewrite elem_of_union, elem_of_singleton. split.
    + intros [->|[? ?]]; [by split; [|left]|by split; [|right]].
    + intros [? [->|?]]; [by left|by right].
Qed.

(** The result [r] of [dfs] is [((solved, child_count), aborted)]. *)
Definition dfs_post (s : TraceState) (d : Z) (r : bool * Z * bool)
    (s' : TraceState) : Prop :=
  placed s' = placed s
  ∧ nodes_ok (nodes s') (next_node_id s')
  ∧ next_node_id s ≤ next_node_id s'
  ∧ (∀ id, id < d → nodes s' !! id = nodes s !! id)
  ∧ (r.2 = true →
     r.1.1 = false
     ∧ node_counter s' = Z.max max_nodes (node_counter s) + 1)
  ∧ (r.2 = false →
     node_counter s < node_counter s' ≤ max_nodes
     ∧ ∃ mid, events s' = events s ++ mid ++ [Event.mk "exit" d]
              ∧ balanced mid)
  ∧ (r.1.1 = true → Z.of_nat (size allowed) mod 5 = 0).

(** The part of the state that a frame of [dfs] keeps while it runs. *)
Definition frame_ok (s : TraceState) (d : Z) (st : TraceState) : Prop :=
  placed st = placed s
  ∧ nodes_ok (nodes st) (next_node_id st)
  ∧ next_node_id s ≤ next_node_id st
  ∧ (∀ id, id < d → nodes st !! id = nodes s !! id).

Lemma close_node_total {A} (s : TraceState) (d k : Z) (n : NodeData.t)
    (r : bool * Z * bool) (st : TraceState) (v : A)
    (Q : A → TraceState → Prop) :
  frame_ok s d st → nodes st !! d = Some n →
  (r.2 = true →
   r.1.1 = false ∧ node_counter st = Z.max max_nodes (node_counter s) + 1) →
  (r.2 = false →
   node_counter s < node_counter st ≤ max_nodes
   ∧ ∃ mid, events st = events s ++ mid ∧ balanced mid) →
  (r.1.1 = true → Z.of_nat (size allowed) mod 5 = 0) →
  (∀ st', dfs_post s d r st' → Q v st') →
  total (do close_node (Some d) k then ret v) st Q.
Proof.
  intros (Hpl & Hnok & Hnext & Hunch) Hd Hab Hok Hsol HQ.
  eapply total_bind, total_close_node; [exact Hd|]. apply total_ret.
  apply HQ.
  unfold dfs_post. cbn [placed nodes events next_node_id node_counter].
  split; [done|]. split; [by apply nodes_ok_explored|]. split; [done|].
  split.
  { intros id Hid. rewrite lookup_insert_ne by lia. by apply Hunch. }
  split; [done|]. split; [|done].
  intros Hr. destruct (Hok Hr) as (Hcnt & mid & Hev & Hbal).
  split; [done|]. exists mid. split; [|done].
  by rewrite Hev, <- app_assoc.
Qed.

(** The loop over the attempts: [rem] are the attempts still to come. *)
Definition loop_inv (s : TraceState) (d : Z) (n : NodeData.t)
    (plan : gset Z * Z) (rem : list (Z * Attempt)) (acc : Z * bool)
    (st : TraceState) : Prop :=
  frame_ok s d st
  ∧ (∃ n', nodes st !! d = Some n'
           ∧ NodeData.rightmost_chain n' = NodeData.rightmost_chain n
           ∧ Z.of_nat (length (NodeData.children n'))
             + Z.of_nat (size (plan.1 ∩ list_to_set rem.*1)) ≤ max_fan_out)
  ∧ node_counter s < node_counter st ≤ max_nodes
  ∧ (acc.2 = true → Z.of_nat (size allowed) mod 5 = 0)
  ∧ (∃ mid, events st = events s ++ mid ∧ balanced mid)
  ∧ NoDup rem.*1
  ∧ Forall (attempt_ok (placed s)) rem.*2.

Lemma visit_attempt_total
    (rec : Z → option Z → M TraceState (bool * Z * bool))
    (depth d : Z) (n : NodeData.t) (plan : gset Z * Z) (s : TraceState)
    (item : Z * Attempt) (rest : list (Z * Attempt)) (acc : Z * bool)
    (st : TraceState) :
  (∀ c st2,
     depth < RIGHTMOST_BRANCH_DEPTH →
     placed_ok (placed st2) → nodes_ok (nodes st2) (next_node_id st2) →
     c = next_node_id st2 - 1 →
     (∃ m, nodes st2 !! c = Some m ∧ NodeData.children m = []) →
     total (rec (depth + 1) (Some c)) st2 (dfs_post st2 c)) →
  placed_ok (placed s) → plan_ok depth n plan →
  loop_inv s d n plan (item :: rest) acc st →
  total (visit_attempt rec depth (Some d) plan.1 plan.2 acc item) st
    (fun r st' =>
       match r with
       | inl acc' => loop_inv s d n plan rest acc' st'
       | inr res => dfs_post s d res st'
       end).
Proof.
  intros Hrec Hpok [Hsize Hplan]
    (Hframe & (n' & Hd & Hchain & Hfan) & Hcnt & Hsolved
     & (mid & Hev & Hbal) & Hnd & Hatt).
  pose proof Hframe as (Hpl & Hnok & Hnext & Hunch).
  assert (0 ≤ d < next_node_id st) as Hdr by (apply (proj1 Hnok); eauto).
  rewrite fmap_cons in Hatt. apply Forall_cons in Hatt as [Ha Hatt].
  pose proof Hnd as Hnd'. rewrite fmap_cons in Hnd'.
  apply NoDup_cons in Hnd' as [_ Hndrest].
  unfold visit_attempt.
  apply total_bind. eapply total_bind, total_node_at; [exact Hd|].
  apply total_ret. cbn beta iota zeta. rewrite Hchain.
  case_decide as Hdisp.
  { apply total_ret. split; [done|]. split.
    { exists n'. split; [done|]. split; [done|].
      pose proof (display_skip plan.1 item rest). lia. }
    split; [done|]. split; [done|]. split; [by exists mid|]. by split. }
  assert (item.1 ∈ plan.1) as Hin
    by (by destruct (decide (item.1 ∈ plan.1))).
  destruct (Hplan _ Hin) as [Hcap Hrm].
  pose proof (display_step plan.1 item rest Hin Hnd) as Hstep.
  assert (depth + 1 ≤ DEFAULT_DISPLAY_DEPTH
          ∨ (bool_decide (depth = 0) || NodeData.rightmost_chain n)
            && bool_decide (item.1 = plan.2) = true) as Hflag.
  { destruct (NodeData.rightmost_chain n); [right|left].
    - rewrite orb_true_r. cbn [andb]. apply bool_decide_eq_true. by apply Hrm.
    - unfold DEFAULT_DISPLAY_DEPTH in *. lia. }
  assert (depth < RIGHTMOST_BRANCH_DEPTH) as Hdeep.
  { destruct (NodeData.rightmost_chain n);
      unfold DEFAULT_DISPLAY_DEPTH, RIGHTMOST_BRANCH_DEPTH in *; lia. }
  pose proof Ha as (Hname & Hcnd & Hlen & Hcells).
  set (chain_c := (bool_decide (depth = 0) || NodeData.rightmost_chain n)
                  && bool_decide (item.1 = plan.2)) in *.
  set (c := next_node_id st) in *.
  set (st1 := set_placed (apply_piece item.2.1.2 item.2.2 (placed st)) st).
  assert (∀ b, nodes_ok
                 (<[d := NodeData.append_child c n']>
                    (<[c := fresh_node st1 (Some d) (depth + 1) b chain_c]>
                       (nodes st))) (c + 1)) as Hnok2.
  { intros b. apply nodes_ok_child; [done|done|lia|done|exact Hflag]. }
  assert (∀ st3, placed st3 = apply_piece item.2.1.2 item.2.2 (placed st) →
                 unapply_piece item.2.1.2 item.2.2 (placed st3)
                 = Ok (placed s)) as Hundo.
  { intros st3 ->. rewrite Hpl. apply unapply_apply; [apply Hpok|done|done|].
    intros rc Hrc. by apply Hcells. }
  assert (∀ b id, id < d →
            <[d := NodeData.append_child c n']>
              (<[c := fresh_node st1 (Some d) (depth + 1) b chain_c]>
                 (nodes st)) !! id = nodes s !! id) as Hunch2.
  { intros b id Hid. rewrite !lookup_insert_ne by lia. by apply Hunch. }
  case_decide as Hkind.
  - eapply total_bind, total_on_placed; [reflexivity|].
    eapply total_bind, total_create_child; [exact Hd|cbn; lia|].
    eapply total_bind, total_append_event.
    eapply total_bind, total_on_placed; [by apply Hundo|].
    apply total_ret.
    unfold loop_inv, frame_ok, set_placed.
    cbn [placed nodes events next_node_id node_counter].
    split; [split; [done|]; split; [apply Hnok2|]; split; [lia|apply Hunch2]|].
    split.
    { eexists. split; [apply lookup_insert_eq|]. split; [done|].
      cbn [NodeData.append_child NodeData.children]. rewrite length_app.
      simpl length. lia. }
    split; [done|]. split; [done|]. split; [|by split].
    exists (mid ++ [Event.mk "enter" c; Event.mk "exit" c]). split.
    + rewrite Hev, <- !app_assoc. reflexivity.
    + apply (balanced_snoc_node mid [] c); [done|apply balanced_nil].
  - eapply total_bind, total_on_placed; [reflexivity|].
    apply total_bind.
    eapply total_bind, total_create_child; [exact Hd|cbn; lia|].
    apply total_ret. apply total_bind.
    eapply total_mono.
    { apply Hrec; [done| | | |].
      - cbn [placed set_placed]. rewrite Hpl. by apply placed_ok_apply.
      - cbn [nodes next_node_id set_placed]. apply Hnok2.
      - cbn [next_node_id set_placed]. lia.
      - exists (fresh_node st1 (Some d) (depth + 1) false chain_c).
        cbn [nodes next_node_id set_placed]. fold c. split; [|reflexivity].
        rewrite lookup_insert_ne by lia. apply lookup_insert_eq. }
    intros r st3. unfold dfs_post at 1.
    cbn [placed nodes events next_node_id node_counter set_placed].
    intros (Hpl3 & Hnok3 & Hnext3 & Hunch3 & Hab3 & Hok3 & Hsol3).
    eapply total_bind, total_on_placed; [by apply Hundo|].
    assert (nodes st3 !! d = Some (NodeData.append_child c n')) as Hd3.
    { rewrite Hunch3 by lia. apply lookup_insert_eq. }
    assert (frame_ok s d (set_placed (placed s) st3)) as Hframe3.
    { unfold frame_ok, set_placed.
      cbn [placed nodes events next_node_id node_counter].
      split; [done|]. split; [done|]. split; [lia|].
      intros id Hid. rewrite Hunch3 by lia. by apply Hunch2. }
    destruct r as [[solved child_count] aborted]. cbn [fst snd] in *.
    destruct aborted.
    + eapply (close_node_total s d _ _ (false, acc.1 + child_count, true));
        [exact Hframe3|exact Hd3|..]; cbn [fst snd].
      * intros _. split; [done|]. destruct (Hab3 eq_refl) as [_ Hc3].
        cbn [node_counter set_placed]. lia.
      * intros [=].
      * intros [=].
      * done.
    + destruct (Hok3 eq_refl) as (Hcnt3 & cmid & Hev3 & Hbal3).
      assert (∃ mid', events (set_placed (placed s) st3) = events s ++ mid'
                      ∧ balanced mid') as Hev4.
      { exists (mid ++ Event.mk "enter" c :: cmid ++ [Event.mk "exit" c]).
        split; [|by apply balanced_snoc_node].
        cbn [events set_placed]. rewrite Hev3, Hev, <- !app_assoc.
        reflexivity. }
      assert (∀ flag, (flag = true → Z.of_nat (size allowed) mod 5 = 0) →
                loop_inv s d n plan rest (acc.1 + child_count, flag)
                  (set_placed (placed s) st3)) as Hloop.
      { intros flag Hflag'. split; [done|]. split.
        { exists (NodeData.append_child c n').
          split; [exact Hd3|]. split; [done|].
          cbn [NodeData.append_child NodeData.children]. rewrite length_app.
          simpl length. lia. }
        cbn [node_counter set_placed].
        split; [lia|]. split; [done|]. split; [done|]. by split. }
      destruct solved.
      * destruct (NodeData.rightmost_chain n).
        -- eapply (close_node_total s d _ _ (true, acc.1 + child_count, false));
             [exact Hframe3|exact Hd3|..]; cbn [fst snd].
           ++ intros [=].
           ++ intros _. cbn [node_counter set_placed]. split; [lia|done].
           ++ intros _. by apply Hsol3.
           ++ done.
        -- apply total_ret. apply Hloop. intros _. by apply Hsol3.
      * apply total_ret. by apply Hloop.
Qed.


(** [dfs] on a freshly created display node returns, whatever the budget,
    with the board as it found it and the node table within the caps. *)
Lemma dfs_total (fuel : nat) (depth d : Z) (s : TraceState) :
  known_pieces →
  (Z.to_nat (RIGHTMOST_BRANCH_DEPTH - depth) < fuel)%nat →
  placed_ok (placed s) → nodes_ok (nodes s) (next_node_id s) →
  d = next_node_id s - 1 →
  (∃ m, nodes s !! d = Some m ∧ NodeData.children m = []) →
  total (dfs problem enable_pruning max_display_children max_nodes fuel depth
           (Some d)) s (dfs_post s d).
Proof.
  intros Hknown. revert depth d s.
  induction fuel as [|fuel IH];
    intros depth d s Hfuel Hpok Hnok Hdeq (m & Hd & Hnil); [lia|].
  cbn [dfs]. eapply total_bind, total_bump_node_counter.
  apply total_bind, total_get. cbn [node_counter].
  set (s1 := mkTraceState (placed s) (nodes s) (events s) (next_node_id s)
               (node_counter s + 1)).
  assert (frame_ok s d s1) as Hframe1.
  { split; [done|]. split; [done|]. split; [cbn; lia|done]. }
  case_decide as Hbudget.
  { apply total_ret. unfold dfs_post.
    cbn [placed nodes events next_node_id node_counter s1 fst snd].
    split; [done|]. split; [done|]. split; [lia|]. split; [done|].
    split; [intros _; split; [done|lia]|]. split; [intros [=]|intros [=]]. }
  apply total_bind, total_first_empty. cbn [placed s1].
  destruct (first_empty_from (filled_keys (placed s)) (sorted_mask problem))
    as [anchor|] eqn:Hanchor.
  2:{ eapply (close_node_total s d _ m (true, 1, false));
        [exact Hframe1|exact Hd|..]; cbn [fst snd].
      - intros [=].
      - intros _. cbn [node_counter events s1]. split; [lia|].
        exists []. split; [by rewrite app_nil_r|apply balanced_nil].
      - intros _. by apply (full_board_size (placed s)).
      - done. }
  apply total_bind.
  eapply total_mono; [apply collect_attempts_total; [done|apply Hpok]|].
  intros attempts s' [-> Hatt]. apply total_bind.
  eapply total_mono;
    [apply (plan_display_total depth d m); [done|apply Hpok|exact Hd]|].
  intros plan s' [-> Hplan]. apply total_bind.
  eapply total_mono.
  { apply (total_for_acc (loop_inv s d m plan)
             (fun r st =>
                match r with
                | inl acc => loop_inv s d m plan [] acc st
                | inr res => dfs_post s d res st
                end)).
    - split; [exact Hframe1|]. split.
      { exists m. split; [exact Hd|]. split; [done|]. rewrite Hnil.
        destruct Hplan as [Hsize _].
        assert (size (plan.1 ∩ list_to_set (enumerate attempts).*1)
                ≤ size plan.1)%nat
          by (apply subseteq_size; clear; set_solver).
        simpl length. lia. }
      cbn [node_counter s1 events snd]. split; [lia|]. split; [intros [=]|].
      split; [exists []; split; [by rewrite app_nil_r|apply balanced_nil]|].
      split; [apply enumerate_from_fst|].
      unfold enumerate. by rewrite enumerate_from_snd.
    - intros item rest acc st Hinv.
      apply (visit_attempt_total _ depth d m plan s); [|done|done|done].
      intros c st2 Hdeep Hpok2 Hnok2 Hc Hfresh. apply IH; try done.
      unfold RIGHTMOST_BRANCH_DEPTH in *. lia.
    - intros acc st Hinv. exact Hinv. }
  intros [acc|res] st Hr; [|by apply total_ret].
  destruct Hr as (Hframe & (n' & Hd' & _ & _) & Hcnt & Hsolved & Hev & _).
  eapply (close_node_total s d _ n' (acc.2, acc.1, false));
    [exact Hframe|exact Hd'|..]; cbn [fst snd]; done.
Qed.

(** **** The run of [build_trace] *)

Definition root_post (r : bool * Z * bool) (s' : TraceState) : Prop :=
  placed s' = mkPlaced ∅ ∅ ∅
  ∧ nodes_ok (nodes s') (next_node_id s')
  ∧ (r.2 = true →
     r.1.1 = false ∧ node_counter s' = Z.max max_nodes 0 + 1)
  ∧ (r.2 = false →
     0 < node_counter s' ≤ max_nodes
     ∧ ∃ mid, events s' = Event.mk "enter" 0 :: mid ++ [Event.mk "exit" 0]
              ∧ balanced mid)
  ∧ (r.1.1 = true → Z.of_nat (size allowed) mod 5 = 0).

Lemma root_dfs_total :
  known_pieces →
  total (root_dfs problem enable_pruning max_display_children max_nodes)
    initial_state root_post.
Proof.
  intros Hknown. unfold root_dfs. eapply total_bind, total_create_root.
  cbn [next_node_id initial_state placed nodes events node_counter].
  eapply total_mono.
  { apply (dfs_total dfs_fuel 0 0); [done| | | |reflexivity|].
    - unfold dfs_fuel, RIGHTMOST_BRANCH_DEPTH. simpl. lia.
    - cbn [placed]. split; [|split].
      + intros rc. cbn [board filled_keys]. rewrite lookup_empty.
        split; [by intros [? ?]|by intros ?%elem_of_empty].
      + apply empty_subseteq.
      + cbn [filled_keys]. by rewrite size_empty.
    - cbn [nodes next_node_id]. split.
      + intros id. destruct (decide (id = 0)) as [->|Hne].
        * rewrite lookup_insert_eq. split; [lia|by eauto].
        * rewrite lookup_insert_ne, lookup_empty by done.
          split; [by intros [? ?]|lia].
      + intros id m.
        destruct (decide (id = 0)) as [->|Hne];
          [|by rewrite lookup_insert_ne, lookup_empty].
        rewrite lookup_insert_eq. intros [= <-]. split.
        * simpl. unfold max_fan_out. lia.
        * left. simpl. unfold DEFAULT_DISPLAY_DEPTH. lia.
    - eexists. cbn [nodes]. split; [apply lookup_insert_eq|reflexivity]. }
  intros r s'. unfold dfs_post, root_post.
  cbn [next_node_id initial_state placed nodes events node_counter].
  intros (Hpl & Hnok & _ & _ & Hab & Hok & Hsol).
  split; [done|]. split; [done|]. split; [done|]. split; [|done].
  intros Hr. destruct (Hok Hr) as (Hcnt & mid & Hev & Hbal).
  split; [done|]. exists mid. split; [|done]. by rewrite Hev.
Qed.

End TraceFacts.

(** *** [board_signature] and [add_pruned_descendants_from_unpruned] *)

(** [l[:n]] *)
Definition slice_to {A} (n : Z) (l : list A) : list A :=
  if decide (0 ≤ n) then take (Z.to_nat n) l
  else take (length l - Z.to_nat (- n)) l.

(** [sep.join(l)] *)
Definition join (sep : string) (l : list string) : string :=
  match l with
  | [] => ""
  | x :: l' => fold_left (fun acc y => acc +:+ sep +:+ y) l' x
  end.

Definition item_le (a b : Coord * string) : Prop := coord_le a.1 b.1.

#[global] Instance item_le_dec : RelDecision item_le.
Proof. intros a b. unfold item_le. apply _. Defined.

Definition board_signature (board : gmap Coord string) : string :=
  join "|" (map (fun it => key it.1 +:+ ":" +:+ it.2)
              (merge_sort item_le (map_to_list board))).

(** [max(nodes.keys())] for a table that is not empty. *)
Definition max_key (ns : gmap Z NodeData.t) : Z :=
  match map fst (map_to_list ns) with
  | [] => 0
  | k :: ks => fold_left Z.max ks k
  end.

Module Graft.

(** The variables that [clone_subtree] shares with the body. *)
Record state : Type := mk {
  nodes : gmap Z NodeData.t;
  events : list Event.t;
  next_id : Z;
}.

Section Run.

Variables pruned_trace unpruned_trace : TraceResult.t.
Variables max_display_depth max_display_children : Z.

(** [unpruned_by_sig]: the first entered node of the unpruned trace for
    each board. *)
Fixpoint index_events (evs : list Event.t) (by_sig : gmap string Z)
    : result (gmap string Z) :=
  match evs with
  | [] => Ok by_sig
  | ev :: rest =>
      if decide (Event.kind ev ≠ "enter"%string) then index_events rest by_sig
      else
        match TraceResult.nodes unpruned_trace !! Event.node_id ev with
        | None => Raise KeyError
        | Some un =>
            let sig := board_signature (NodeData.board un) in
            index_events rest
              (if decide (is_Some (by_sig !! sig)) then by_sig
               else <[sig := Event.node_id ev]> by_sig)
        end
  end.

Definition node_at (nid : Z) : M state NodeData.t :=
  query (fun s =>
    match nodes s !! nid with
    | Some n => Ok n
    | None => Raise KeyError
    end).

Definition unpruned_node (nid : Z) : M state NodeData.t :=
  query (fun _ =>
    match TraceResult.nodes unpruned_trace !! nid with
    | Some n => Ok n
    | None => Raise KeyError
    end).

Definition append_event (ev : Event.t) : M state unit :=
  update (fun s => Ok (mk (nodes s) (events s ++ [ev]) (next_id s))).

(** [new_id = next_id; next_id += 1] *)
Definition fresh_id : M state Z :=
  let* s := get in
  do update (fun s => Ok (mk (nodes s) (events s) (next_id s + 1))) then
  ret (next_id s).

(** [nodes[new_id] = node] *)
Definition add_node (new_id : Z) (node : NodeData.t) : M state unit :=
  update (fun s => Ok (mk (<[new_id := node]> (nodes s)) (events s) (next_id s))).

(** [parent.children.append(new_id)], where [parent] is the object stored
    under [parent_id]: the ids that [add_node] binds are new ones, so the
    object is still the stored one. *)
Definition append_child (parent_id new_id : Z) : M state unit :=
  update (fun s =>
    match nodes s !! parent_id with
    | Some parent =>
        Ok (mk (<[parent_id := NodeData.append_child new_id parent]> (nodes s))
              (events s) (next_id s))
    | None => Raise KeyError
    end).

(** The body of the loop of [clone_subtree]; [Some tt] is [break]. *)
Definition clone_child (rec : Z → Z → M state unit) (parent_id : Z)
    (parent : NodeData.t) (un_child_id : Z) : M state (option unit) :=
  let* parent_now := node_at parent_id in
  if decide (max_display_children
             ≤ Z.of_nat (length (NodeData.children parent_now)))
  then ret (Some tt)
  else
    let* un_child := unpruned_node un_child_id in
    let* new_id := fresh_id in
    do add_node new_id
         (NodeData.mk new_id (Some parent_id) (NodeData.depth parent + 1)
            (NodeData.board un_child) false true
            (NodeData.rightmost_chain un_child)
            (NodeData.step_at_enter un_child) [] 0) then
    do append_child parent_id new_id then
    do append_event (Event.mk "enter" new_id) then
    do rec un_child_id new_id then
    do append_event (Event.mk "exit" new_id) then
    ret None.

Fixpoint clone_subtree (fuel : nat) (un_id parent_id : Z) : M state unit :=
  match fuel with
  | O => out_of_fuel
  | S fuel' =>
      let* parent := node_at parent_id in
      if decide (max_display_depth ≤ NodeData.depth parent) then ret tt
      else
        let* un_node := unpruned_node un_id in
        do for_each (slice_to max_display_children (NodeData.children un_node))
             (clone_child (clone_subtree fuel') parent_id parent) then
        ret tt
  end.

(** The body of [for ev in pruned_trace.events]. Every level of
    [clone_subtree] is one deeper than the one above and stops at
    [max_display_depth]. *)
Definition graft_event (by_sig : gmap string Z) (_ : unit) (ev : Event.t)
    : M state unit :=
  do append_event ev then
  if decide (Event.kind ev ≠ "enter"%string) then ret tt
  else
    let* node := node_at (Event.node_id ev) in
    if negb (NodeData.pruned node) then ret tt
    else
      match by_sig !! board_signature (NodeData.board node) with
      | Some un_id =>
          clone_subtree
            (S (Z.to_nat (max_display_depth - NodeData.depth node)))
            un_id (Event.node_id ev)
      | None => ret tt
      end.

Definition initial : state :=
  mk (TraceResult.nodes pruned_trace) []
     (if decide (TraceResult.nodes pruned_trace = ∅) then 0
      else max_key (TraceResult.nodes pruned_trace) + 1).

Definition run : result TraceResult.t :=
  rbind (index_events (TraceResult.events unpruned_trace) ∅) (fun by_sig =>
    match (foldM (graft_event by_sig) (TraceResult.events pruned_trace) tt
             initial).2 with
    | Ok (_, s) =>
        Ok (TraceResult.mk (nodes s) (events s)
              (TraceResult.total_steps pruned_trace))
    | Raise e => Raise e
    | OutOfFuel => OutOfFuel
    end).

End Run.

End Graft.

Definition add_pruned_descendants_from_unpruned
    (pruned_trace unpruned_trace : TraceResult.t)
    (max_display_depth max_display_children : Z) : result TraceResult.t :=
  Graft.run pruned_trace unpruned_trace max_display_depth
    max_display_children.

(** *** Partial correctness of monadic code

    [post m s Q]: if [m], started in [s], returns normally, then its result
    and final state satisfy [Q]. *)
Definition post {S A} (m : M S A) (s : S) (Q : A → S → Prop) : Prop :=
  ∀ a s', (m s).2 = Ok (a, s') → Q a s'.

Lemma post_mono {S A} (m : M S A) (s : S) (Q Q' : A → S → Prop) :
  post m s Q → (∀ a s', Q a s' → Q' a s') → post m s Q'.
Proof. intros Hm Hw a s' Hr. by apply Hw, Hm. Qed.

Lemma post_ret {S A} (a : A) (s : S) (Q : A → S → Prop) :
  Q a s → post (ret a) s Q.
Proof. intros HQ a' s' [= <- <-]. done. Qed.

Lemma post_out_of_fuel {S A} (s : S) (Q : A → S → Prop) :
  post out_of_fuel s Q.
Proof. by intros a s' [=]. Qed.

Lemma post_get {S} (s : S) (Q : S → S → Prop) : Q s s → post get s Q.
Proof. intros HQ a s' [= <- <-]. done. Qed.

Lemma post_query {S A} (f : S → result A) (s : S) (Q : A → S → Prop) :
  (∀ a, f s = Ok a → Q a s) → post (query f) s Q.
Proof.
  intros HQ a s'. unfold query. destruct (f s) as [a0| |]; simpl; [|done|done].
  intros [= <- <-]. by apply HQ.
Qed.

Lemma post_update {S} (f : S → result S) (s : S) (Q : unit → S → Prop) :
  (∀ s', f s = Ok s' → Q tt s') → post (update f) s Q.
Proof.
  intros HQ a s'. unfold update. destruct (f s) as [s0| |]; simpl; [|done|done].
  intros [= <- <-]. by apply HQ.
Qed.

Lemma post_bind {S A B} (m : M S A) (k : A → M S B) (s : S)
    (Q : B → S → Prop) :
  post m s (fun a s1 => post (k a) s1 Q) → post (bind m k) s Q.
Proof.
  intros Hm b s2. unfold bind.
  destruct (m s) as [l1 [[a s1]| |]] eqn:Hms; [|done|done].
  destruct (k a s1) as [l2 r] eqn:Hk. simpl. intros ->.
  apply (Hm a s1); [by rewrite Hms|by rewrite Hk].
Qed.

Lemma post_for_each {S A B} (I : S → Prop) (Q : option B → S → Prop)
    (l : list A) (body : A → M S (option B)) (s : S) :
  I s →
  (∀ x s, I s →
     post (body x) s (fun r s' =>
       match r with None => I s' | Some b => Q (Some b) s' end)) →
  (∀ s, I s → Q None s) →
  post (for_each l body) s Q.
Proof.
  intros HI Hbody Hend. revert s HI. induction l as [|x l IH]; intros s HI.
  - apply post_ret. by apply Hend.
  - cbn [for_each]. apply post_bind.
    eapply post_mono; [by apply Hbody|].
    intros [b|] s' Hr; [by apply post_ret|by apply IH].
Qed.

Lemma post_foldM {S A B} (I : B → S → Prop) (f : B → A → M S B)
    (l : list A) (b : B) (s : S) :
  I b s →
  (∀ x b s, I b s → post (f b x) s I) →
  post (foldM f l b) s I.
Proof.
  revert b s. induction l as [|x l IH]; intros b s HI Hf.
  - by apply post_ret.
  - cbn [foldM]. apply post_bind.
    eapply post_mono; [by apply Hf|].
    intros b' s' HI'. by apply IH.
Qed.

(** *** Grafting keeps the display caps *)

Section GraftFacts.

Variables pruned_trace unpruned_trace : TraceResult.t.
Variables max_display_depth max_display_children : Z.
Variables fan_out depth_cap : Z.

Hypothesis fan_out_ok : max_display_children ≤ fan_out.
Hypothesis fan_out_pos : 0 ≤ fan_out.
Hypothesis depth_cap_ok : max_display_depth ≤ depth_cap.

Definition capped (ns : gmap Z NodeData.t) : Prop :=
  ∀ id n, ns !! id = Some n →
    Z.of_nat (length (NodeData.children n)) ≤ fan_out
    ∧ (NodeData.depth n ≤ depth_cap ∨ NodeData.rightmost_chain n = true).

Lemma clone_child_capped (rec : Z → Z → M Graft.state unit)
    (parent_id : Z) (parent : NodeData.t) (un_child_id : Z)
    (s : Graft.state) :
  (∀ un_id new_id s1, capped (Graft.nodes s1) →
     post (rec un_id new_id) s1 (fun _ s' => capped (Graft.nodes s'))) →
  NodeData.depth parent < max_display_depth →
  capped (Graft.nodes s) →
  post (Graft.clone_child unpruned_trace max_display_children rec parent_id
          parent un_child_id) s
    (fun _ s' => capped (Graft.nodes s')).
Proof.
  intros Hrec Hdepth Hcap. unfold Graft.clone_child.
  apply post_bind, post_query. intros parent_now Hnow.
  case_decide as Hfull; [by apply post_ret|].
  apply post_bind, post_query. intros un_child _.
  unfold Graft.fresh_id at 1. apply post_bind, post_bind, post_get.
  apply post_bind, post_update. intros s1 [= <-]. apply post_ret.
  apply post_bind, post_update. intros s2 [= <-].
  cbn [Graft.nodes Graft.events Graft.next_id].
  apply post_bind, post_update. intros s3. cbn [Graft.nodes].
  destruct (<[Graft.next_id s := _]> (Graft.nodes s) !! parent_id)
    as [pn|] eqn:Hpn; [|done].
  intros [= <-]. cbn [Graft.nodes Graft.events Graft.next_id].
  apply post_bind, post_update. intros s4 [= <-]. cbn [Graft.nodes].
  apply post_bind.
  eapply post_mono.
  { apply Hrec. cbn [Graft.nodes]. intros id m.
    destruct (decide (id = parent_id)) as [->|Hne].
    - rewrite lookup_insert_eq. intros [= <-].
      cbn [NodeData.append_child NodeData.children NodeData.depth
           NodeData.rightmost_chain].
      rewrite length_app. simpl length.
      destruct (decide (parent_id = Graft.next_id s)) as [Heq|Hne].
      + rewrite Heq, lookup_insert_eq in Hpn. injection Hpn as <-.
        cbn [NodeData.children NodeData.depth]. simpl length.
        split; [lia|]. left. lia.
      + rewrite lookup_insert_ne in Hpn by done.
        destruct (Hcap _ _ Hpn) as [_ Hd]. split; [|done].
        destruct (Graft.nodes s !! parent_id) as [pn'|] eqn:Hpn';
          [|done].
        injection Hpn as <-. injection Hnow as <-. lia.
    - rewrite lookup_insert_ne by done.
      destruct (decide (id = Graft.next_id s)) as [->|Hne'].
      + rewrite lookup_insert_eq. intros [= <-].
        cbn [NodeData.children NodeData.depth]. simpl length.
        split; [lia|]. left. lia.
      + rewrite lookup_insert_ne by done. apply Hcap. }
  intros [] s5 Hcap5. apply post_bind, post_update. intros s6 [= <-].
  by apply post_ret.
Qed.

Lemma clone_subtree_capped (fuel : nat) (un_id parent_id : Z)
    (s : Graft.state) :
  capped (Graft.nodes s) →
  post (Graft.clone_subtree unpruned_trace max_display_depth
          max_display_children fuel un_id parent_id) s
    (fun _ s' => capped (Graft.nodes s')).
Proof.
  revert un_id parent_id s.
  induction fuel as [|fuel IH]; intros un_id parent_id s Hcap;
    [apply post_out_of_fuel|].
  cbn [Graft.clone_subtree]. apply post_bind, post_query.
  intros parent _. case_decide as Hdeep; [by apply post_ret|].
  apply post_bind, post_query. intros un_node _. apply post_bind.
  eapply post_mono.
  { apply (post_for_each (fun s' => capped (Graft.nodes s'))
             (fun _ s' => capped (Graft.nodes s'))); [done| |done].
    intros x s1 Hcap1. eapply post_mono.
    - apply clone_child_capped; [|lia|done].
      intros u c s2 Hcap2. by apply IH.
    - by intros [[]|] s2 Hcap2. }
  intros r s1 Hcap1. by apply post_ret.
Qed.

Lemma graft_event_capped (by_sig : gmap string Z) (ev : Event.t)
    (s : Graft.state) :
  capped (Graft.nodes s) →
  post (Graft.graft_event unpruned_trace max_display_depth
          max_display_children by_sig tt ev) s
    (fun _ s' => capped (Graft.nodes s')).
Proof.
  intros Hcap. unfold Graft.graft_event.
  apply post_bind, post_update. intros s1 [= <-]. cbn [Graft.nodes].
  case_decide; [by apply post_ret|].
  apply post_bind, post_query. intros node _.
  destruct (negb (NodeData.pruned node)); [by apply post_ret|].
  destruct (by_sig !! _) as [un_id|]; [|by apply post_ret].
  by apply clone_subtree_capped.
Qed.

(** Counterfactual nodes are only added under the caps. *)
Lemma add_pruned_descendants_capped (tr : TraceResult.t) :
  capped (TraceResult.nodes pruned_trace) →
  add_pruned_descendants_from_unpruned pruned_trace unpruned_trace
    max_display_depth max_display_children = Ok tr →
  capped (TraceResult.nodes tr).
Proof.
  intros Hcap. unfold add_pruned_descendants_from_unpruned, Graft.run.
  destruct (Graft.index_events _ _ _) as [by_sig| |]; cbn [rbind];
    [|done|done].
  destruct (foldM _ _ _ _) as [l [[u s]| |]] eqn:Hrun; cbn [snd];
    [|done|done].
  intros [= <-]. cbn [TraceResult.nodes].
  apply (post_foldM (fun _ s' => capped (Graft.nodes s'))
           (Graft.graft_event unpruned_trace max_display_depth
              max_display_children by_sig)
           (TraceResult.events pruned_trace) tt
           (Graft.initial pruned_trace) Hcap) with (a := u).
  - intros ev [] s1 Hcap1. by apply graft_event_capped.
  - by rewrite Hrun.
Qed.

End GraftFacts.

(** *** The claims about the pruning oracle and the trace recorder *)

Definition known_piecesb (problem : Problem) : bool :=
  forallb (fun name => bool_decide (is_Some (dict_get ORIENTATIONS name)))
          (selected_pieces problem).

Lemma known_piecesb_correct (problem : Problem) :
  known_piecesb problem = true → known_pieces problem.
Proof.
  unfold known_piecesb. rewrite forallb_forall. intros Hall name Hname.
  apply list_elem_of_In in Hname. apply Hall in Hname.
  by apply bool_decide_eq_true in Hname.
Qed.

(** The display caps of the scenes: at most 3 children, depth at most 3
    unless the node is on the highlighted chain. *)
Definition within_caps (ns : gmap Z NodeData.t) : Prop := capped 3 3 ns.

(** A strip of five cells and the one piece that covers it. *)
Definition strip : list Coord := [(0, 0); (0, 1); (0, 2); (0, 3); (0, 4)].
Definition strip_problem : Problem := mkProblem 1 5 strip ["I"%string].

(** Two rows of three cells: six cells, not a multiple of 5. *)
Definition six_cells : list Coord :=
  [(0, 0); (0, 1); (0, 2); (1, 0); (1, 1); (1, 2)].
Definition six_problem : Problem :=
  mkProblem 2 3 six_cells ["P"; "L"]%string.

(** Two rows of six cells with two pieces: with pruning every first move is
    rejected, without it some have a second move. *)
Definition twelve_cells : list Coord :=
  [(0, 0); (0, 1); (0, 2); (0, 3); (0, 4); (0, 5);
   (1, 0); (1, 1); (1, 2); (1, 3); (1, 4); (1, 5)].
Definition twelve_problem : Problem :=
  mkProblem 2 6 twelve_cells ["I"; "L"]%string.

Lemma strip_in_bounds (rc : Coord) : rc ∈ strip → in_bounds 1 5 rc.
Proof.
  unfold strip. intros Hrc.
  repeat (apply elem_of_cons in Hrc as [->|Hrc]);
    [..|by apply elem_of_nil in Hrc]; unfold in_bounds; simpl; lia.
Qed.

Lemma strip_covered : covers_rest strip ∅ [("I"%string, strip)].
Proof.
  split; [|split].
  - apply Forall_singleton.
    eexists _, _, 0, 0. split; [reflexivity|].
    split; [apply elem_of_cons; left; reflexivity|reflexivity].
  - change (NoDup strip). apply (bool_decide_unpack _). vm_compute. exact I.
  - intros rc. change (concat (snd <$> [("I"%string, strip)])) with strip.
    split; [|tauto]. intros Hrc. split; [done|]. apply not_elem_of_empty.
Qed.

(** C2: the pruning oracle is sound. For a mask inside the [rows] x [cols]
    bounds and any set of filled keys, the oracle returns; it returns [True]
    whenever the cells of the mask that are not filled can be covered
    exactly by placed pentominoes (in particular at every state along a
    solution path); hence when it returns [False] there is no such cover,
    and there is none either as soon as some set of empty cells closed
    under 4-neighbourhood (such as a 4-connected component of the empty
    region) has a size that is not a multiple of 5. *)
Theorem pruning_oracle_sound (rows cols : Z) (mask : list Coord)
    (filled : gset string) :
  (∀ rc, rc ∈ mask → in_bounds rows cols rc) →
  (∃ b, has_only_five_multiple_void_regions rows cols (mask_keys mask) filled
          (sorted mask) = Ok b)
  ∧ (∀ rest, covers_rest mask filled rest →
       has_only_five_multiple_void_regions rows cols (mask_keys mask) filled
         (sorted mask) = Ok true)
  ∧ (has_only_five_multiple_void_regions rows cols (mask_keys mask) filled
       (sorted mask) = Ok false →
     ¬ ∃ rest, covers_rest mask filled rest)
  ∧ (∀ V, V ⊆ free (mask_keys mask) filled →
       closed rows cols (mask_keys mask) filled V →
       Z.of_nat (size V) mod 5 ≠ 0 →
       ¬ ∃ rest, covers_rest mask filled rest).
Proof.
  intros Hbounds. split; [apply oracle_total|]. split; [|split].
  - intros rest Hrest. by apply (oracle_accepts_cover _ _ _ _ rest).
  - intros Hfalse [rest Hrest].
    rewrite (oracle_accepts_cover _ _ _ _ rest Hbounds Hrest) in Hfalse.
    discriminate.
  - intros V HV Hcl Hsize [rest (Hpieces & Hnd & Hcells)]. apply Hsize.
    apply (closed_size_of_cover rows cols (mask_keys mask) filled
             (snd <$> rest)); [|done| | |done|done].
    + apply Forall_fmap. eapply Forall_impl; [exact Hpieces|].
      intros pl Hpl. by apply piece_placed_facts.
    + intros x [Hx Hnf]%Hcells. split; [by apply Hbounds|].
      apply elem_of_difference. split; [|done].
      apply elem_of_list_to_set, list_elem_of_fmap. by exists x.
    + intros k [Hk Hnf]%elem_of_difference.
      apply elem_of_list_to_set, list_elem_of_fmap in Hk as (x & -> & Hx).
      exists x. split; [|done]. by apply Hcells.
Qed.

Lemma pruning_oracle_sound_witness :
  has_only_five_multiple_void_regions 1 5 (mask_keys strip) ∅ (sorted strip)
  = Ok true.
Proof.
  apply (proj1 (proj2 (pruning_oracle_sound 1 5 strip ∅ strip_in_bounds))
           [("I"%string, strip)]).
  apply strip_covered.
Defined.

(** C3 (fails on the code): with a node budget of 1 on the strip, the call
    of [dfs] for node 1 is the one that exceeds the budget; it returns
    before any exit event, so node 1 is entered and never exited, and the
    exit of node 0 closes over an open child. *)
Theorem budget_abort_leaves_node_open :
  ∃ tr, build_trace strip_problem false 3 3 1 = Ok tr
        ∧ TraceResult.events tr
          = [Event.mk "enter" 0; Event.mk "enter" 1; Event.mk "exit" 0]
        ∧ TraceResult.total_steps tr = 2
        ∧ well_nested (TraceResult.events tr) = false.
Proof. eexists. split; [vm_compute; reflexivity|]. by vm_compute. Qed.

(** C5: [build_trace] returns, and when the budget is exceeded the abort
    reaches its caller: the root call of [dfs] reports [aborted] exactly
    when the [total_steps] of the returned trace exceed [max_nodes]; an
    aborted run reports no solution, and its counter stands at one more
    than the budget, so no call of [dfs] was made after the one that
    exceeded it. Every frame behaves so: a call of [dfs] on a fresh display
    node that reports [aborted] reports no solution and leaves the counter
    one above the larger of the budget and its value at the call. *)
Theorem budget_exceeded_reported (problem : Problem) (enable_pruning : bool)
    (max_display_depth max_display_children max_nodes : Z) :
  known_pieces problem →
  (∃ solved count aborted s tr,
     (root_dfs problem enable_pruning max_display_children max_nodes
        initial_state).2 = Ok ((solved, count, aborted), s)
     ∧ build_trace problem enable_pruning max_display_depth
         max_display_children max_nodes = Ok tr
     ∧ (aborted = true → solved = false)
     ∧ (aborted = true ↔ max_nodes < TraceResult.total_steps tr)
     ∧ (aborted = true →
        TraceResult.total_steps tr = Z.max max_nodes 0 + 1))
  ∧ ∀ fuel depth d s,
      (Z.to_nat (RIGHTMOST_BRANCH_DEPTH - depth) < fuel)%nat →
      placed_ok problem (placed s) →
      nodes_ok max_display_children (nodes s) (next_node_id s) →
      d = next_node_id s - 1 →
      (∃ m, nodes s !! d = Some m ∧ NodeData.children m = []) →
      total (dfs problem enable_pruning max_display_children max_nodes fuel
               depth (Some d)) s
        (fun r s' =>
           r.2 = true →
           r.1.1 = false
           ∧ node_counter s' = Z.max max_nodes (node_counter s) + 1).
Proof.
  intros Hknown. split.
  - destruct (root_dfs_total problem enable_pruning max_display_children
                max_nodes Hknown)
      as ([[solved count] aborted] & s & Hrun & _ & _ & Hab & Hok & _).
    cbn [fst snd] in *.
    exists solved, count, aborted, s,
      (TraceResult.mk (nodes s) (events s) (node_counter s)).
    split; [done|]. split; [unfold build_trace; by rewrite Hrun|].
    cbn [TraceResult.total_steps].
    split; [intros Ha; by destruct (Hab Ha)|]. split.
    + split.
      * intros Ha. destruct (Hab Ha) as [_ ->]. lia.
      * intros Hsteps. destruct aborted; [done|].
        destruct (Hok eq_refl) as [Hle _]. lia.
    + intros Ha. by destruct (Hab Ha).
  - intros fuel depth d s Hfuel Hpok Hnok Hd Hfresh.
    eapply total_mono; [by apply dfs_total|].
    intros r s' (_ & _ & _ & _ & Hab & _). exact Hab.
Qed.

Lemma strip_problem_known : known_pieces strip_problem.
Proof. apply known_piecesb_correct. reflexivity. Qed.

Lemma budget_exceeded_reported_witness :
  ∃ solved count aborted s tr,
    (root_dfs strip_problem false 3 1 initial_state).2
    = Ok ((solved, count, aborted), s)
    ∧ build_trace strip_problem false 3 3 1 = Ok tr
    ∧ (aborted = true → solved = false)
    ∧ (aborted = true ↔ 1 < TraceResult.total_steps tr)
    ∧ (aborted = true → TraceResult.total_steps tr = Z.max 1 0 + 1).
Proof.
  exact (proj1 (budget_exceeded_reported strip_problem false 3 3 1
                  strip_problem_known)).
Defined.

(** C6: with [max_display_depth = 3] and [max_display_children = 3],
    [build_trace] returns a node table in which no node has more than 3
    children and every node deeper than 3 is flagged as being on the
    rightmost chain; and whatever trace the counterfactual nodes are grafted
    from, the table that [add_pruned_descendants_from_unpruned] returns
    keeps both caps. *)
Theorem display_caps_hold (problem : Problem) (enable_pruning : bool)
    (max_nodes : Z) :
  known_pieces problem →
  ∃ tr, build_trace problem enable_pruning 3 3 max_nodes = Ok tr
        ∧ within_caps (TraceResult.nodes tr)
        ∧ ∀ unpruned_trace grafted,
            add_pruned_descendants_from_unpruned tr unpruned_trace 3 3
            = Ok grafted →
            within_caps (TraceResult.nodes grafted).
Proof.
  intros Hknown.
  destruct (root_dfs_total problem enable_pruning 3 max_nodes Hknown)
    as (r & s & Hrun & _ & [_ Hcaps] & _).
  exists (TraceResult.mk (nodes s) (events s) (node_counter s)).
  split; [unfold build_trace; by rewrite Hrun|].
  assert (within_caps (nodes s)) as Hwithin.
  { intros id n Hn. destruct (Hcaps id n Hn) as [Hfan Hdepth].
    unfold max_fan_out in Hfan. unfold DEFAULT_DISPLAY_DEPTH in Hdepth.
    split; [lia|done]. }
  split; [done|]. intros unpruned_trace grafted Hgraft.
  eapply (add_pruned_descendants_capped _ unpruned_trace 3 3 3 3);
    [lia|lia|lia| |exact Hgraft]. exact Hwithin.
Qed.

Lemma twelve_problem_known : known_pieces twelve_problem.
Proof. apply known_piecesb_correct. reflexivity. Qed.

Lemma display_caps_hold_witness :
  ∃ tr, build_trace twelve_problem true 3 3 100 = Ok tr
        ∧ within_caps (TraceResult.nodes tr)
        ∧ ∀ unpruned_trace grafted,
            add_pruned_descendants_from_unpruned tr unpruned_trace 3 3
            = Ok grafted →
            within_caps (TraceResult.nodes grafted).
Proof.
  exact (display_caps_hold twelve_problem true 100 twelve_problem_known).
Defined.

(** C8: when the number of cells of the mask is not a multiple of 5, the
    search of [build_trace] returns without reporting a solution, and the
    oracle answers [False] on the empty board. *)
Theorem non_multiple_of_five_mask (problem : Problem) (enable_pruning : bool)
    (max_display_children max_nodes : Z) :
  known_pieces problem →
  cell_count (mask_cells problem) mod 5 ≠ 0 →
  (∃ count aborted s,
     (root_dfs problem enable_pruning max_display_children max_nodes
        initial_state).2 = Ok ((false, count, aborted), s))
  ∧ has_only_five_multiple_void_regions (rows problem) (cols problem)
      (mask_keys (mask_cells problem)) ∅ (sorted (mask_cells problem))
    = Ok false.
Proof.
  intros Hknown Hcount. split; [|by apply oracle_rejects_empty_board].
  destruct (root_dfs_total problem enable_pruning max_display_children
              max_nodes Hknown)
    as ([[solved count] aborted] & s & Hrun & _ & _ & _ & _ & Hsol).
  cbn [fst snd] in *. destruct solved; [|by eauto].
  exfalso. apply Hcount. rewrite cell_count_keys. by apply Hsol.
Qed.

Lemma six_problem_known : known_pieces six_problem.
Proof. apply known_piecesb_correct. reflexivity. Qed.

Lemma non_multiple_of_five_mask_witness :
  (∃ count aborted s,
     (root_dfs six_problem true 3 100 initial_state).2
     = Ok ((false, count, aborted), s))
  ∧ has_only_five_multiple_void_regions 2 3 (mask_keys six_cells) ∅
      (sorted six_cells) = Ok false.
Proof.
  apply (non_multiple_of_five_mask six_problem true 3 100 six_problem_known).
  vm_compute. discriminate.
Defined.

End Rect6x10DfsTree.

(** ** Further properties of the grid solvers *)
Module GridFacts.

(** *** [normalize] is a canonical form *)

Lemma py_min_translate (l : list Z) (d : Z) :
  py_min (map (fun x => x + d) l) = (fun m => m + d) <$> py_min l.
Proof.
  destruct (py_min l) as [m|] eqn:Hm.
  - simpl. apply py_min_spec. apply py_min_spec in Hm as [Hin Hall]. split.
    + apply list_elem_of_fmap. by exists m.
    + intros y [x [-> Hx]]%list_elem_of_fmap. apply Hall in Hx. lia.
  - apply py_min_None in Hm. by subst.
Qed.

Lemma sorted_perm_eq (l1 l2 : Cells) : l1 ≡ₚ l2 → sorted l1 = sorted l2.
Proof.
  intros Hp. apply (Sorted_unique coord_le); [apply sorted_Sorted..|].
  by rewrite !sorted_perm.
Qed.

(** X1: [normalize] does not depend on where the cells lie nor on the order
    they come in: a reordering of a translated copy of [cells] has the same
    normal form as [cells] (the same [ValueError] when both are empty). *)
Theorem normalize_translation_order_invariant (cells cells' : Cells)
    (dr dc : Z) :
  cells' ≡ₚ shift cells dr dc → normalize cells' = normalize cells.
Proof.
  intros Hp. unfold normalize.
  rewrite (py_min_perm (map fst cells') (map fst (shift cells dr dc)))
    by (by apply Permutation_map).
  rewrite (py_min_perm (map snd cells') (map snd (shift cells dr dc)))
    by (by apply Permutation_map).
  unfold shift. rewrite !map_map. cbn [fst snd].
  rewrite <- (map_map fst (fun x => x + dr)).
  rewrite <- (map_map snd (fun x => x + dc)).
  rewrite !py_min_translate.
  destruct (py_min (map fst cells)) as [mr|]; [|done].
  destruct (py_min (map snd cells)) as [mc|]; [|done].
  cbn [fmap option_fmap option_map]. f_equal.
  apply sorted_perm_eq.
  rewrite (Permutation_map _ Hp). unfold shift. rewrite map_map.
  erewrite map_ext; [reflexivity|]. intros [r c]. cbn [fst snd].
  f_equal; lia.
Qed.

Lemma normalize_translation_order_invariant_witness :
  normalize [(12, 6); (13, 0)] = normalize [(3, -1); (2, 5)].
Proof.
  apply (normalize_translation_order_invariant _ _ 10 1).
  apply perm_swap.
Defined.

(** *** [unique_orientations] lists every image of the piece *)

Lemma transform_mod (cells : Cells) (k : Z) (reflect : bool) :
  transform cells k reflect = transform cells (k mod 4) reflect.
Proof. unfold transform, transform_cell. by rewrite Z.mod_mod. Qed.

Lemma orient_fold_None (cells : Cells) (order : list (bool * Z)) :
  fold_left (orient_step cells) order None = None.
Proof. by induction order. Qed.

Lemma orient_fold_spec (cells : Cells) (order : list (bool * Z))
    (seen : gset Cells) (variants : list Cells)
    (acc : gset Cells * list Cells) :
  seen = list_to_set variants →
  fold_left (orient_step cells) order (Some (seen, variants)) = Some acc →
  (∀ v, v ∈ variants → v ∈ acc.2)
  ∧ (∀ rk, rk ∈ order →
       ∃ v, transform cells rk.2 rk.1 = Some v ∧ v ∈ acc.2)
  ∧ (∀ v, v ∈ acc.2 →
       v ∈ variants ∨ ∃ rk, rk ∈ order ∧ transform cells rk.2 rk.1 = Some v).
Proof.
  revert seen variants. induction order as [|rk order IH];
    intros seen variants Hseen Hfold.
  - simpl in Hfold. injection Hfold as <-. simpl.
    split; [done|]. split; [by intros rk ?%elem_of_nil|]. by left.
  - cbn [fold_left] in Hfold. unfold orient_step at 2 in Hfold.
    destruct (transform cells rk.2 rk.1) as [v|] eqn:Hv;
      [|by rewrite orient_fold_None in Hfold].
    destruct (decide (v ∈ seen)) as [Hin|Hnew].
    + destruct (IH _ _ Hseen Hfold) as (H1 & H2 & H3).
      split; [done|]. split.
      * intros rk' [->|Hrk]%elem_of_cons; [|by apply H2].
        exists v. split; [done|]. apply H1. subst seen.
        by apply elem_of_list_to_set in Hin.
      * intros w Hw. destruct (H3 w Hw) as [?|(rk' & Hrk & Ht)]; [by left|].
        right. exists rk'. split; [|done]. apply elem_of_cons. by right.
    + destruct (IH ({[v]} ∪ seen) (variants ++ [v])) as (H1 & H2 & H3);
        [|done|].
      { subst seen. rewrite list_to_set_app_L. simpl. clear. set_solver. }
      split; [|split].
      * intros w Hw. apply H1. apply elem_of_app. by left.
      * intros rk' [->|Hrk]%elem_of_cons; [|by apply H2].
        exists v. split; [done|]. apply H1. apply elem_of_app. right.
        by apply list_elem_of_singleton.
      * intros w Hw. destruct (H3 w Hw) as [Hold|(rk' & Hrk & Ht)].
        -- apply elem_of_app in Hold as [?| ->%list_elem_of_singleton];
             [by left|].
           right. exists rk. split; [apply elem_of_cons; by left|done].
        -- right. exists rk'. split; [|done]. apply elem_of_cons. by right.
Qed.

Lemma orient_order_complete (k : Z) (reflect : bool) :
  (reflect, k mod 4) ∈ orient_order.
Proof.
  assert (0 ≤ k mod 4 < 4) as Hk by (apply Z.mod_pos_bound; lia).
  assert (k mod 4 = 0 ∨ k mod 4 = 1 ∨ k mod 4 = 2 ∨ k mod 4 = 3)
    as [H|[H|[H|H]]] by lia;
    rewrite H; destruct reflect; apply list_elem_of_In; vm_compute; tauto.
Qed.

(** X2: the list returned by [unique_orientations] holds the normal form of
    each of the eight images of the piece (any number [k] of quarter turns,
    reflected or not), and nothing else. *)
Theorem unique_orientations_all_images (cells : Cells) (os : list Cells) :
  unique_orientations cells = Some os →
  (∀ k reflect, ∃ v, transform cells k reflect = Some v ∧ v ∈ os)
  ∧ (∀ v, v ∈ os → ∃ k reflect, transform cells k reflect = Some v).
Proof.
  unfold unique_orientations.
  destruct (fold_left _ _ _) as [acc|] eqn:Hfold; [|done].
  simpl. intros [= <-].
  destruct (orient_fold_spec cells orient_order ∅ [] acc) as (_ & H2 & H3);
    [done|done|].
  split.
  - intros k reflect. rewrite transform_mod.
    apply (H2 (reflect, k mod 4)), orient_order_complete.
  - intros v Hv. destruct (H3 v Hv) as [?%elem_of_nil|(rk & _ & Ht)]; [done|].
    by exists rk.2, rk.1.
Qed.

Lemma unique_orientations_all_images_witness :
  (∀ k reflect,
     ∃ v, transform [(0,1); (1,0); (1,1); (1,2); (2,1)] k reflect = Some v
          ∧ v ∈ [[(0,1); (1,0); (1,1); (1,2); (2,1)]])
  ∧ (∀ v, v ∈ [[(0,1); (1,0); (1,1); (1,2); (2,1)]] →
       ∃ k reflect,
         transform [(0,1); (1,0); (1,1); (1,2); (2,1)] k reflect = Some v).
Proof.
  apply unique_orientations_all_images. reflexivity.
Defined.

(** *** The board methods shared by [SearchState] and [DFSSolver] *)

Lemma can_place_complete (g : Board.t) (cells : Cells) :
  Board.wf g → (∀ rc, rc ∈ cells → Board.is_empty g rc) →
  Board.can_place g cells = Ok true.
Proof.
  intros Hwf. induction cells as [|[r c] cells IH]; intros Hall; [done|].
  destruct (Hall (r, c)) as [[[Hr0 Hr1] [Hc0 Hc1]] Hcell];
    [apply elem_of_cons; by left|].
  cbn [fst snd] in *. cbn [Board.can_place].
  rewrite decide_False by lia.
  destruct (Board.getitem_in_range _ _ _ r c Hwf Hr0 Hr1 Hc0 Hc1)
    as (v & -> & Hv).
  rewrite Hcell in Hv. injection Hv as <-. cbn [rbind].
  apply IH. intros rc Hrc. apply Hall. apply elem_of_cons. by right.
Qed.

(** X3: on a grid of the declared dimensions [can_place] never raises, and
    it answers [True] exactly when every cell lies inside the grid and is
    empty. *)
Theorem can_place_iff_all_empty (g : Board.t) (cells : Cells) :
  Board.wf g →
  ∃ b, Board.can_place g cells = Ok b
       ∧ (b = true ↔ ∀ rc, rc ∈ cells → Board.is_empty g rc).
Proof.
  intros Hwf. destruct (Board.can_place_spec g cells Hwf) as (b & Hb & Htrue).
  exists b. split; [done|]. split; [done|].
  intros Hall. rewrite (can_place_complete g cells Hwf Hall) in Hb.
  by injection Hb.
Qed.

Lemma can_place_iff_all_empty_witness :
  ∃ b, Board.can_place (Board.init 6 10) [(0, 0); (5, 9); (6, 0)] = Ok b
       ∧ (b = true ↔
          ∀ rc, rc ∈ [(0, 0); (5, 9); (6, 0)] →
                Board.is_empty (Board.init 6 10) rc).
Proof.
  apply can_place_iff_all_empty. apply Board.init_wf.
Defined.

Lemma first_empty_cols_seq (g : Board.t) (r : Z) (a len : nat) :
  Board.wf g → 0 ≤ r → r < Board.rows g →
  (a + len ≤ Z.to_nat (Board.cols g))%nat →
  ∃ o, Board.first_empty_cols g r (map Z.of_nat (seq a len)) = Ok o
       ∧ match o with
         | Some rc =>
             rc.1 = r ∧ Z.of_nat a ≤ rc.2 ∧ rc.2 < Z.of_nat (a + len)
             ∧ Board.cell (Board.board g) rc = Some None
             ∧ ∀ c, Z.of_nat a ≤ c → c < rc.2 →
                    Board.cell (Board.board g) (r, c) ≠ Some None
         | None =>
             ∀ c, Z.of_nat a ≤ c → c < Z.of_nat (a + len) →
                  Board.cell (Board.board g) (r, c) ≠ Some None
         end.
Proof.
  intros Hwf Hr0 Hr1. revert a. induction len as [|len IH]; intros a Hlen.
  - exists None. split; [done|]. intros c H1 H2. lia.
  - cbn [seq map Board.first_empty_cols].
    destruct (Board.getitem_in_range _ _ _ r (Z.of_nat a) Hwf Hr0 Hr1)
      as (v & -> & Hv); [lia|lia|].
    cbn [rbind]. destruct v as [name|].
    + destruct (IH (S a)) as (o & -> & Ho); [lia|].
      exists o. split; [done|]. destruct o as [rc|].
      * destruct Ho as (H1 & H2 & H3 & H4 & H5).
        split; [done|]. split; [lia|]. split; [lia|]. split; [done|].
        intros c Hc1 Hc2.
        destruct (decide (c = Z.of_nat a)) as [->|Hne];
          [by rewrite Hv|apply H5; lia].
      * intros c Hc1 Hc2.
        destruct (decide (c = Z.of_nat a)) as [->|Hne];
          [by rewrite Hv|apply Ho; lia].
    + exists (Some (r, Z.of_nat a)). split; [done|]. cbn [fst snd].
      split; [done|]. split; [lia|]. split; [lia|]. split; [done|].
      intros c Hc1 Hc2. lia.
Qed.

Lemma first_empty_rows_seq (g : Board.t) (a len : nat) :
  Board.wf g → (a + len ≤ Z.to_nat (Board.rows g))%nat →
  ∃ o, Board.first_empty_rows g (map Z.of_nat (seq a len)) = Ok o
       ∧ match o with
         | Some rc =>
             Board.is_empty g rc ∧ Z.of_nat a ≤ rc.1
             ∧ ∀ rc', Board.is_empty g rc' → Z.of_nat a ≤ rc'.1 →
                      coord_le rc rc'
         | None =>
             ∀ rc, Board.is_empty g rc → Z.of_nat a ≤ rc.1 →
                   Z.of_nat (a + len) ≤ rc.1
         end.
Proof.
  intros Hwf. revert a. induction len as [|len IH]; intros a Hlen.
  - exists None. split; [done|]. intros rc _ H. lia.
  - cbn [seq map Board.first_empty_rows].
    destruct (first_empty_cols_seq g (Z.of_nat a) 0
                (Z.to_nat (Board.cols g)) Hwf) as (o & Ho & Hspec);
      [lia|lia|lia|].
    unfold range. rewrite Ho. cbn [rbind]. destruct o as [rc|].
    + exists (Some rc). split; [done|].
      destruct Hspec as (H1 & H2 & H3 & H4 & H5).
      split; [|split; [lia|]].
      * split; [|done]. unfold Board.in_range. lia.
      * intros rc' [[[Hr0 Hr1] [Hc0 Hc1]] Hcell] Hge. unfold coord_le.
        destruct (decide (rc.1 < rc'.1)) as [?|Hnlt]; [by left|].
        right. split; [lia|].
        destruct (decide (rc.2 ≤ rc'.2)) as [?|Hgt]; [done|]. exfalso.
        apply (H5 rc'.2); [lia|lia|].
        replace (Z.of_nat a, rc'.2) with rc'; [done|].
        destruct rc'. cbn [fst snd] in *. f_equal. lia.
    + destruct (IH (S a)) as (o & -> & Ho'); [lia|].
      exists o. split; [done|].
      assert (∀ rc, Board.is_empty g rc → rc.1 ≠ Z.of_nat a) as Hrow.
      { intros rc [[[Hr0 Hr1] [Hc0 Hc1]] Hcell] Heq.
        apply (Hspec rc.2); [lia|lia|].
        replace (Z.of_nat a, rc.2) with rc; [done|].
        destruct rc. cbn [fst snd] in *. f_equal. lia. }
      destruct o as [rc|].
      * destruct Ho' as (H1 & H2 & H3). split; [done|]. split; [lia|].
        intros rc' He Hge. apply H3; [done|].
        pose proof (Hrow rc' He). lia.
      * intros rc He Hge. pose proof (Hrow rc He).
        pose proof (Ho' rc He). lia.
Qed.

(** X4: on a grid of the declared dimensions [first_empty] never raises; it
    returns the empty cell that comes first in row-major order, and [None]
    exactly when no cell is empty. *)
Theorem first_empty_row_major (g : Board.t) :
  Board.wf g →
  ∃ o, Board.first_empty g = Ok o
       ∧ match o with
         | Some rc =>
             Board.is_empty g rc
             ∧ ∀ rc', Board.is_empty g rc' → coord_le rc rc'
         | None => ∀ rc, ¬ Board.is_empty g rc
         end.
Proof.
  intros Hwf.
  destruct (first_empty_rows_seq g 0 (Z.to_nat (Board.rows g)) Hwf)
    as (o & Ho & Hspec); [lia|].
  exists o. split; [exact Ho|]. destruct o as [rc|].
  - destruct Hspec as (H1 & _ & H3). split; [done|].
    intros rc' He. apply H3; [done|]. destruct He as [[[? ?] _] _]. lia.
  - intros rc He. pose proof (Hspec rc He) as Hge.
    destruct He as [[[? ?] _] _]. lia.
Qed.

Lemma first_empty_row_major_witness :
  ∃ o, Board.first_empty (Board.init 6 10) = Ok o
       ∧ match o with
         | Some rc =>
             Board.is_empty (Board.init 6 10) rc
             ∧ ∀ rc', Board.is_empty (Board.init 6 10) rc' → coord_le rc rc'
         | None => ∀ rc, ¬ Board.is_empty (Board.init 6 10) rc
         end.
Proof.
  apply first_empty_row_major. apply Board.init_wf.
Defined.

(** X5: placing a piece that is not in use on empty cells and removing it
    again gives the board back as it was. *)
Theorem place_then_remove_restores (name : string) (cells : Cells)
    (g : Board.t) :
  Board.wf g → (∀ rc, rc ∈ cells → Board.is_empty g rc) →
  name ∉ Board.used g →
  ∃ g1, Board.apply_place name cells g = Ok g1
        ∧ Board.used g1 = {[name]} ∪ Board.used g
        ∧ Board.apply_remove name cells g1 = Ok g.
Proof.
  intros Hwf Hempty Hname.
  destruct (Board.apply_place_spec name cells g Hwf)
    as (g1 & Hp & _ & _ & _ & Hu & _).
  { intros rc Hrc. by apply Hempty. }
  exists g1. split; [done|]. split; [done|].
  by apply (Board.place_remove_restore name cells g g1).
Qed.

Lemma place_then_remove_restores_witness :
  ∃ g1, Board.apply_place "F" [(0, 1); (1, 0); (1, 1); (1, 2); (2, 0)]
          (Board.init 6 10) = Ok g1
        ∧ Board.used g1 = {[ "F"%string ]} ∪ Board.used (Board.init 6 10)
        ∧ Board.apply_remove "F" [(0, 1); (1, 0); (1, 1); (1, 2); (2, 0)] g1
          = Ok (Board.init 6 10).
Proof.
  apply place_then_remove_restores.
  - apply Board.init_wf.
  - intros rc Hrc. apply Board.init_is_empty.
    repeat (apply elem_of_cons in Hrc as [->|Hrc]);
      [..|by apply elem_of_nil in Hrc]; simpl; lia.
  - apply not_elem_of_empty.
Defined.

(** X6: [apply_remove] of a piece that is not in use raises [KeyError]
    (from [self.used.remove(name)], after the cells have been cleared). *)
Theorem apply_remove_unused_raises (name : string) (cells : Cells)
    (g : Board.t) :
  Board.wf g → (∀ rc, rc ∈ cells → Board.in_range g rc) →
  name ∉ Board.used g →
  Board.apply_remove name cells g = Raise KeyError.
Proof.
  intros Hwf Hin Hname.
  destruct (Board.write_cells_in_range (Board.board g) (Board.rows g)
              (Board.cols g) cells None Hwf Hin) as (b' & Hw & _).
  unfold Board.apply_remove. rewrite Hw. cbn [rbind].
  by rewrite decide_False.
Qed.

Lemma apply_remove_unused_raises_witness :
  Board.apply_remove "I" [(0, 0); (0, 1)] (Board.init 6 10) = Raise KeyError.
Proof.
  apply apply_remove_unused_raises.
  - apply Board.init_wf.
  - intros rc Hrc.
    repeat (apply elem_of_cons in Hrc as [->|Hrc]);
      [..|by apply elem_of_nil in Hrc]; unfold Board.in_range; simpl; lia.
  - apply not_elem_of_empty.
Defined.

(** X7: [apply_place] itself checks no bounds. A row index at or beyond
    [rows] raises [IndexError], while a negative one counts from the last
    row, as list indices do: row [-1] is the last row. *)
Theorem apply_place_row_index (name : string) (c : Z) (cells : Cells)
    (g : Board.t) :
  Board.wf g → 0 < Board.rows g →
  (∀ r, Board.rows g ≤ r →
        Board.apply_place name ((r, c) :: cells) g = Raise IndexError)
  ∧ (∀ r, - Board.rows g ≤ r → r < 0 →
          Board.apply_place name ((r, c) :: cells) g
          = Board.apply_place name ((r + Board.rows g, c) :: cells) g).
Proof.
  intros [Hlen _] Hrows. split.
  - intros r Hr. unfold Board.apply_place. cbn [Board.write_cells].
    unfold Board.setitem, Board.py_pos.
    rewrite decide_True by lia. rewrite decide_False by lia. done.
  - intros r Hr0 Hr1. unfold Board.apply_place. cbn [Board.write_cells].
    unfold Board.setitem, Board.py_pos.
    rewrite (decide_False (P := 0 ≤ r)) by lia.
    rewrite (decide_True (P := - Z.of_nat (length (Board.board g)) ≤ r))
      by lia.
    rewrite (decide_True (P := 0 ≤ r + Board.rows g)) by lia.
    rewrite (decide_True
               (P := r + Board.rows g < Z.of_nat (length (Board.board g))))
      by lia.
    replace (Z.to_nat (Z.of_nat (length (Board.board g)) + r))
      with (Z.to_nat (r + Board.rows g)) by lia.
    done.
Qed.

Lemma apply_place_row_index_witness :
  (∀ r, Board.rows (Board.init 6 10) ≤ r →
        Board.apply_place "I" [(r, 0)] (Board.init 6 10) = Raise IndexError)
  ∧ (∀ r, - Board.rows (Board.init 6 10) ≤ r → r < 0 →
          Board.apply_place "I" [(r, 0)] (Board.init 6 10)
          = Board.apply_place "I" [(r + Board.rows (Board.init 6 10), 0)]
              (Board.init 6 10)).
Proof.
  apply apply_place_row_index; [apply Board.init_wf|simpl; lia].
Defined.

End GridFacts.

(** ** Further properties of the pruning oracle and the trace recorder *)
Module TraceFacts.

Import Rect6x10DfsTree.

(** X8: [key] tells cells apart: two cells have the same key only if they
    are the same cell, so the sets of keys stand for sets of cells. *)
Theorem key_separates_cells (a b : Coord) : key a = key b ↔ a = b.
Proof. split; [apply (inj key)|by intros ->]. Qed.

(** *** [apply] and [unapply] *)

Lemma unapply_cells_raise (cells : Cells) :
  fold_left unapply_cell cells (Raise KeyError) = Raise KeyError.
Proof. by induction cells. Qed.

Lemma unapply_cells_missing (cells : Cells) (p : Placed) (rc : Coord) :
  rc ∈ cells → key rc ∉ filled_keys p →
  fold_left unapply_cell cells (Ok p) = Raise KeyError.
Proof.
  revert p. induction cells as [|c cells IH]; intros p Hrc Hmiss;
    [by apply elem_of_nil in Hrc|].
  cbn [fold_left]. unfold unapply_cell at 2. cbn [rbind].
  destruct (decide (key c ∈ filled_keys p)) as [Hc|Hc];
    [|apply unapply_cells_raise].
  destruct (board p !! c); [|apply unapply_cells_raise].
  apply elem_of_cons in Hrc as [->|Hrc]; [done|].
  apply IH; [done|]. cbn [filled_keys]. intros Hin. apply Hmiss.
  by apply elem_of_difference in Hin as [? _].
Qed.

(** X9: [unapply] undoes [apply]: for a piece that is not in use and
    distinct cells that are not filled, on a board whose dictionary and key
    set agree, [apply] followed by [unapply] gives the three variables back
    unchanged. On its own [unapply] raises [KeyError] when the piece is not
    in use or when one of its cells is not filled. *)
Theorem unapply_undoes_apply (name : string) (cells : Cells) (p : Placed) :
  board_ok p → name ∉ used p → NoDup cells →
  (∀ rc, rc ∈ cells → key rc ∉ filled_keys p) →
  unapply_piece name cells (apply_piece name cells p) = Ok p
  ∧ board_ok (apply_piece name cells p)
  ∧ unapply_piece name cells p = Raise KeyError
  ∧ (∀ q rc, rc ∈ cells → key rc ∉ filled_keys q →
             unapply_piece name cells q = Raise KeyError).
Proof.
  intros Hok Hname Hnd Hfree.
  split; [by apply unapply_apply|].
  split; [by apply apply_piece_board_ok|].
  split; [by apply unapply_unused|].
  intros q rc Hrc Hmiss. unfold unapply_piece.
  case_decide; [|done]. by apply (unapply_cells_missing cells _ rc).
Qed.

Lemma unapply_undoes_apply_witness :
  unapply_piece "I" strip (apply_piece "I" strip (mkPlaced ∅ ∅ ∅))
  = Ok (mkPlaced ∅ ∅ ∅)
  ∧ board_ok (apply_piece "I" strip (mkPlaced ∅ ∅ ∅))
  ∧ unapply_piece "I" strip (mkPlaced ∅ ∅ ∅) = Raise KeyError
  ∧ (∀ q rc, rc ∈ strip → key rc ∉ filled_keys q →
             unapply_piece "I" strip q = Raise KeyError).
Proof.
  apply unapply_undoes_apply.
  - intros rc. cbn [board filled_keys]. rewrite lookup_empty.
    split; [by intros [? ?]|by intros ?%elem_of_empty].
  - apply not_elem_of_empty.
  - apply (bool_decide_unpack _). vm_compute. exact I.
  - intros rc _. apply not_elem_of_empty.
Defined.

(** *** [first_empty] and [can_place] of the trace recorder *)

Lemma can_place_in_complete (problem : Problem) (filled : gset string)
    (cells : Cells) :
  (∀ rc, rc ∈ cells → key rc ∈ allowed_keys problem ∧ key rc ∉ filled) →
  can_place_in problem filled cells = true.
Proof.
  induction cells as [|c cells IH]; intros Hall; [done|].
  cbn [can_place_in].
  destruct (Hall c) as [Hc1 Hc2]; [apply elem_of_cons; by left|].
  rewrite decide_False by tauto.
  apply IH. intros rc Hrc. apply Hall. apply elem_of_cons. by right.
Qed.

Lemma first_empty_from_first (filled : gset string) (mask : list Coord)
    (rc : Coord) :
  first_empty_from filled mask = Some rc →
  ∃ before after, mask = before ++ rc :: after
                  ∧ ∀ x, x ∈ before → key x ∈ filled.
Proof.
  induction mask as [|c mask IH]; [done|]. cbn [first_empty_from].
  case_decide as Hc.
  - intros [= ->]. exists [], mask. split; [done|].
    by intros x ?%elem_of_nil.
  - intros (before & after & -> & Hbefore)%IH.
    exists (c :: before), after. split; [done|].
    intros x [->|Hx]%elem_of_cons; [|by apply Hbefore].
    by destruct (decide (key c ∈ filled)).
Qed.

(** X10: [can_place] holds exactly when every cell is a cell of the mask
    that is not filled; [first_empty] returns the first cell of the sorted
    mask that is not filled, and [None] exactly when every cell of the mask
    is filled. *)
Theorem can_place_first_empty_spec (problem : Problem)
    (filled : gset string) (cells : Cells) :
  (can_place_in problem filled cells = true ↔
   ∀ rc, rc ∈ cells → key rc ∈ allowed_keys problem ∧ key rc ∉ filled)
  ∧ match first_empty_from filled (sorted_mask problem) with
    | Some rc =>
        key rc ∉ filled
        ∧ ∃ before after,
            sorted_mask problem = before ++ rc :: after
            ∧ ∀ x, x ∈ before → key x ∈ filled
    | None => ∀ rc, rc ∈ mask_cells problem → key rc ∈ filled
    end.
Proof.
  split.
  - split; [apply can_place_in_spec|apply can_place_in_complete].
  - destruct (first_empty_from filled (sorted_mask problem)) as [rc|] eqn:Hfe.
    + split; [by apply first_empty_from_Some in Hfe as [_ ?]|].
      by apply first_empty_from_first.
    + intros rc Hrc. apply (first_empty_from_None _ _ Hfe).
      unfold sorted_mask. by rewrite (sorted_perm (mask_cells problem)).
Qed.

(** *** The pruning oracle *)

Lemma regions_loop_returns (rows cols : Z) (allowed filled : gset string)
    (mask : list Coord) (visited : gset string) :
  ∃ b, regions_loop rows cols allowed filled (S (size allowed)) mask visited
       = Ok b.
Proof.
  revert visited. induction mask as [|rc rest IH]; intros visited;
    [by exists true|].
  cbn [regions_loop]. case_decide; [apply IH|].
  destruct (flood_spec rows cols allowed filled (S (size allowed))
              ({[key rc]} ∪ visited) [rc] 0) as (visited' & n & Hrun & _).
  { assert (size (free allowed filled ∖ ({[key rc]} ∪ visited))
            ≤ size allowed)%nat
      by (apply subseteq_size; unfold free; clear; set_solver).
    simpl. lia. }
  rewrite Hrun. case_decide; [by exists false|apply IH].
Qed.

(** X11: the flood fill of the oracle ends, whatever it is given: each cell
    is pushed at most once, so [1 + len(allowed_keys)] passes of its
    [while] loop suffice and the oracle returns a boolean. For a mask whose
    keys are allowed it returns [True] as soon as every set of empty cells
    that is closed under the four neighbour moves inside the bounds has a
    multiple of 5 cells. *)
Theorem oracle_returns (rows cols : Z) (allowed filled : gset string)
    (mask : list Coord) :
  (∃ b, has_only_five_multiple_void_regions rows cols allowed filled mask
        = Ok b)
  ∧ ((∀ rc, rc ∈ mask → key rc ∈ allowed) →
     (∀ V, V ⊆ free allowed filled → closed rows cols allowed filled V →
           Z.of_nat (size V) mod 5 = 0) →
     has_only_five_multiple_void_regions rows cols allowed filled mask
     = Ok true).
Proof.
  split; [apply regions_loop_returns|].
  intros Hmask Hfive. apply regions_loop_sound; [lia|done| | |done].
  - apply empty_subseteq.
  - intros x d Hx. by apply elem_of_empty in Hx.
Qed.

(** *** The trace of [build_trace] *)

(** X12: as long as the node budget is not exceeded the events of
    [build_trace] are well nested: the sequence starts by entering node 0,
    ends by exiting it, and in between every enter is closed by the exit of
    the same node, in stack order. *)
Theorem build_trace_well_nested (problem : Problem) (enable_pruning : bool)
    (max_display_depth max_display_children max_nodes : Z) :
  known_pieces problem →
  ∃ tr, build_trace problem enable_pruning max_display_depth
          max_display_children max_nodes = Ok tr
        ∧ (TraceResult.total_steps tr ≤ max_nodes →
           well_nested (TraceResult.events tr) = true
           ∧ ∃ mid, TraceResult.events tr
                    = Event.mk "enter" 0 :: mid ++ [Event.mk "exit" 0]).
Proof.
  intros Hknown.
  destruct (root_dfs_total problem enable_pruning max_display_children
              max_nodes Hknown) as (r & s & Hrun & _ & _ & Hab & Hok & _).
  exists (TraceResult.mk (nodes s) (events s) (node_counter s)).
  split; [unfold build_trace; by rewrite Hrun|].
  cbn [TraceResult.total_steps TraceResult.events]. intros Hsteps.
  destruct (r.2) eqn:Hr.
  - destruct (Hab eq_refl) as [_ Hc]. lia.
  - destruct (Hok eq_refl) as (_ & mid & Hev & Hbal).
    split; [|by exists mid]. rewrite Hev. apply balanced_well_nested.
    apply (balanced_node 0 mid []); [done|apply balanced_nil].
Qed.

Lemma build_trace_well_nested_witness :
  ∃ tr, build_trace strip_problem true 3 3 2 = Ok tr
        ∧ (TraceResult.total_steps tr ≤ 2 →
           well_nested (TraceResult.events tr) = true
           ∧ ∃ mid, TraceResult.events tr
                    = Event.mk "enter" 0 :: mid ++ [Event.mk "exit" 0]).
Proof.
  exact (build_trace_well_nested strip_problem true 3 3 2 strip_problem_known).
Defined.

(** The strip with a budget of 2: both calls of [dfs] fit. *)
Example strip_trace_events :
  ∃ tr, build_trace strip_problem true 3 3 2 = Ok tr
        ∧ TraceResult.total_steps tr = 2
        ∧ TraceResult.events tr
          = [Event.mk "enter" 0; Event.mk "enter" 1;
             Event.mk "exit" 1; Event.mk "exit" 0].
Proof. eexists. split; [vm_compute; reflexivity|]. by vm_compute. Qed.

(** X13: [build_trace] makes at least one call of [dfs] and at most one
    more than the budget allows; the ids of its node table are the
    numbers below the number of nodes, with node 0 among them. *)
Theorem build_trace_counts (problem : Problem) (enable_pruning : bool)
    (max_display_depth max_display_children max_nodes : Z) :
  known_pieces problem →
  ∃ tr, build_trace problem enable_pruning max_display_depth
          max_display_children max_nodes = Ok tr
        ∧ 1 ≤ TraceResult.total_steps tr
        ∧ TraceResult.total_steps tr ≤ Z.max max_nodes 0 + 1
        ∧ ∃ n, ∀ id, is_Some (TraceResult.nodes tr !! id) ↔ 0 ≤ id < n.
Proof.
  intros Hknown.
  destruct (root_dfs_total problem enable_pruning max_display_children
              max_nodes Hknown)
    as (r & s & Hrun & _ & [Hdom _] & Hab & Hok & _).
  exists (TraceResult.mk (nodes s) (events s) (node_counter s)).
  split; [unfold build_trace; by rewrite Hrun|].
  cbn [TraceResult.total_steps TraceResult.nodes].
  assert (1 ≤ node_counter s ∧ node_counter s ≤ Z.max max_nodes 0 + 1)
    as [H1 H2].
  { destruct (r.2) eqn:Hr.
    - destruct (Hab eq_refl) as [_ Hc]. lia.
    - destruct (Hok eq_refl) as (Hc & _). lia. }
  split; [done|]. split; [done|]. by exists (next_node_id s).
Qed.

Lemma build_trace_counts_witness :
  ∃ tr, build_trace twelve_problem false 3 3 100 = Ok tr
        ∧ 1 ≤ TraceResult.total_steps tr
        ∧ TraceResult.total_steps tr ≤ Z.max 100 0 + 1
        ∧ ∃ n, ∀ id, is_Some (TraceResult.nodes tr !! id) ↔ 0 ≤ id < n.
Proof.
  exact (build_trace_counts twelve_problem false 3 3 100 twelve_problem_known).
Defined.

(** *** Grafting counterfactual nodes *)

(** [out] is [evs] with a well-nested block inserted after each event. *)
Inductive expands : list Event.t → list Event.t → Prop :=
  | expands_nil : expands [] []
  | expands_cons (ev : Event.t) (blk evs out : list Event.t) :
      balanced blk → expands evs out →
      expands (ev :: evs) (ev :: blk ++ out).

Lemma expands_sublist (evs out : list Event.t) :
  expands evs out → evs `sublist_of` out.
Proof.
  induction 1 as [|ev blk evs out _ _ IH]; [constructor|].
  apply sublist_skip. by apply sublist_inserts_l.
Qed.

Lemma expands_nests (evs out : list Event.t) (open : list Z) :
  expands evs out → nests open out = nests open evs.
Proof.
  intros Hex. revert open.
  induction Hex as [|ev blk evs out Hblk _ IH]; intros open; [done|].
  cbn [nests]. case_decide.
  - by rewrite nests_balanced, IH.
  - destruct open as [|top open]; [done|].
    by rewrite nests_balanced, IH.
Qed.

(** A node of the pruned trace and what grafting makes of it: only its
    list of children may grow. *)
Definition grown_from (n n' : NodeData.t) : Prop :=
  ∃ extra,
    n' = NodeData.mk (NodeData.node_id n) (NodeData.parent_id n)
           (NodeData.depth n) (NodeData.board n) (NodeData.pruned n)
           (NodeData.counterfactual n) (NodeData.rightmost_chain n)
           (NodeData.step_at_enter n) (NodeData.children n ++ extra)
           (NodeData.explored_subnodes n).

Lemma grown_from_refl (n : NodeData.t) : grown_from n n.
Proof. exists []. rewrite app_nil_r. by destruct n. Qed.

Lemma grown_from_child (n n' : NodeData.t) (c : Z) :
  grown_from n n' → grown_from n (NodeData.append_child c n').
Proof.
  intros [extra ->]. exists (extra ++ [c]).
  unfold NodeData.append_child. cbn. by rewrite app_assoc.
Qed.

Lemma fold_left_max_spec (l : list Z) (x : Z) :
  x ≤ fold_left Z.max l x ∧ ∀ y, y ∈ l → y ≤ fold_left Z.max l x.
Proof.
  revert x. induction l as [|a l IH]; intros x.
  - split; [simpl; lia|by intros y ?%elem_of_nil].
  - cbn [fold_left]. destruct (IH (Z.max x a)) as [H1 H2].
    split; [lia|]. intros y [->|Hy]%elem_of_cons; [lia|by apply H2].
Qed.

Lemma max_key_bound (ns : gmap Z NodeData.t) (id : Z) :
  is_Some (ns !! id) → id ≤ max_key ns.
Proof.
  intros [n Hn]. unfold max_key.
  assert (id ∈ map fst (map_to_list ns)) as Hin.
  { apply list_elem_of_fmap. exists (id, n). split; [done|].
    by apply elem_of_map_to_list. }
  destruct (map fst (map_to_list ns)) as [|k ks]; [by apply elem_of_nil in Hin|].
  destruct (fold_left_max_spec ks k) as [H1 H2].
  apply elem_of_cons in Hin as [->|Hin]; [done|by apply H2].
Qed.

Section GraftInvariant.

Variables pruned_trace unpruned_trace : TraceResult.t.
Variables max_display_depth max_display_children : Z.

Notation ns0 := (TraceResult.nodes pruned_trace).
Notation first_new :=
  (Graft.next_id (Graft.initial pruned_trace)).

(** What the loop over the events keeps: ids in use are below [next_id];
    a node of the pruned trace is still there, with at most more children;
    every other node is a counterfactual one with a new id. *)
Definition graft_inv (s : Graft.state) : Prop :=
  (∀ id, is_Some (Graft.nodes s !! id) → id < Graft.next_id s)
  ∧ first_new ≤ Graft.next_id s
  ∧ (∀ id n, ns0 !! id = Some n →
       ∃ n', Graft.nodes s !! id = Some n' ∧ grown_from n n')
  ∧ (∀ id n', Graft.nodes s !! id = Some n' → ns0 !! id = None →
       first_new ≤ id ∧ NodeData.node_id n' = id
       ∧ NodeData.counterfactual n' = true ∧ NodeData.pruned n' = false).

Definition graft_step (s s' : Graft.state) : Prop :=
  graft_inv s'
  ∧ ∃ blk, Graft.events s' = Graft.events s ++ blk ∧ balanced blk.

Lemma graft_step_refl (s : Graft.state) : graft_inv s → graft_step s s.
Proof.
  intros Hinv. split; [done|]. exists [].
  split; [by rewrite app_nil_r|apply balanced_nil].
Qed.

Lemma graft_inv_initial : graft_inv (Graft.initial pruned_trace).
Proof.
  unfold graft_inv. cbn [Graft.initial Graft.nodes Graft.next_id].
  split; [|split; [lia|split]].
  - intros id Hid. case_decide as Hempty.
    + rewrite Hempty, lookup_empty in Hid. by destruct Hid.
    + pose proof (max_key_bound _ _ Hid). lia.
  - intros id n Hn. exists n. split; [done|apply grown_from_refl].
  - intros id n' Hn Hnone. congruence.
Qed.

Lemma clone_child_grafts (rec : Z → Z → M Graft.state unit)
    (parent_id : Z) (parent : NodeData.t) (un_child_id : Z)
    (s : Graft.state) :
  (∀ un_id new_id s1, graft_inv s1 →
     post (rec un_id new_id) s1 (fun _ s' => graft_step s1 s')) →
  graft_inv s →
  post (Graft.clone_child unpruned_trace max_display_children rec parent_id
          parent un_child_id) s
    (fun _ s' => graft_step s s').
Proof.
  intros Hrec Hinv. unfold Graft.clone_child.
  apply post_bind, post_query. intros parent_now Hnow.
  case_decide as Hfull; [by apply post_ret, graft_step_refl|].
  apply post_bind, post_query. intros un_child _.
  unfold Graft.fresh_id at 1. apply post_bind, post_bind, post_get.
  apply post_bind, post_update. intros s1 [= <-]. apply post_ret.
  apply post_bind, post_update. intros s2 [= <-].
  cbn [Graft.nodes Graft.events Graft.next_id].
  apply post_bind, post_update. intros s3. cbn [Graft.nodes].
  destruct (<[Graft.next_id s := _]> (Graft.nodes s) !! parent_id)
    as [pn|] eqn:Hpn; [|done].
  intros [= <-]. cbn [Graft.nodes Graft.events Graft.next_id].
  apply post_bind, post_update. intros s4 [= <-]. cbn [Graft.nodes].
  destruct Hinv as (Hkeys & Hfirst & Hold & Hnew).
  destruct (Graft.nodes s !! parent_id) as [pn'|] eqn:Hpn'; [|done].
  injection Hnow as <-.
  assert (parent_id < Graft.next_id s) as Hlt by (by apply Hkeys; eauto).
  rewrite lookup_insert_ne in Hpn by lia. rewrite Hpn' in Hpn.
  injection Hpn as <-.
  apply post_bind. eapply post_mono.
  { apply Hrec. split; [|split; [|split]];
      cbn [Graft.nodes Graft.events Graft.next_id].
    - intros id Hid. destruct (decide (id = parent_id)) as [->|Hne]; [lia|].
      rewrite lookup_insert_ne in Hid by done.
      destruct (decide (id = Graft.next_id s)) as [->|Hne']; [lia|].
      rewrite lookup_insert_ne in Hid by done. apply Hkeys in Hid. lia.
    - lia.
    - intros id n Hn. destruct (Hold id n Hn) as (n' & Hn' & Hgrown).
      assert (id < Graft.next_id s) as Hid by (by apply Hkeys; eauto).
      destruct (decide (id = parent_id)) as [->|Hne].
      + rewrite lookup_insert_eq. eexists. split; [done|].
        rewrite Hpn' in Hn'. injection Hn' as <-.
        by apply grown_from_child.
      + rewrite !lookup_insert_ne by lia. eauto.
    - intros id n' Hn' Hnone.
      destruct (decide (id = parent_id)) as [->|Hne].
      + rewrite lookup_insert_eq in Hn'. injection Hn' as <-.
        destruct (Hnew _ _ Hpn' Hnone) as (? & ? & ? & ?).
        by destruct pn'.
      + rewrite lookup_insert_ne in Hn' by done.
        destruct (decide (id = Graft.next_id s)) as [->|Hne'].
        * rewrite lookup_insert_eq in Hn'. injection Hn' as <-.
          cbn. done.
        * rewrite lookup_insert_ne in Hn' by done. by apply Hnew. }
  intros [] s5 (Hinv5 & blk & Hev5 & Hblk).
  cbn [Graft.events] in Hev5.
  apply post_bind, post_update. intros s6 [= <-]. apply post_ret.
  split.
  - destruct Hinv5 as (H1 & H2 & H3 & H4). by split; [|split; [|split]].
  - cbn [Graft.events]. rewrite Hev5.
    exists (Event.mk "enter" (Graft.next_id s) :: blk
            ++ [Event.mk "exit" (Graft.next_id s)]).
    split; [by rewrite <- !app_assoc|].
    apply balanced_node; [done|apply balanced_nil].
Qed.

Lemma graft_step_trans (s1 s2 s3 : Graft.state) :
  graft_step s1 s2 → graft_step s2 s3 → graft_step s1 s3.
Proof.
  intros (_ & b1 & He1 & Hb1) (Hinv & b2 & He2 & Hb2). split; [done|].
  exists (b1 ++ b2). split; [by rewrite He2, He1, app_assoc|].
  by apply balanced_app.
Qed.

Lemma clone_subtree_grafts (fuel : nat) (un_id parent_id : Z)
    (s : Graft.state) :
  graft_inv s →
  post (Graft.clone_subtree unpruned_trace max_display_depth
          max_display_children fuel un_id parent_id) s
    (fun _ s' => graft_step s s').
Proof.
  revert un_id parent_id s.
  induction fuel as [|fuel IH]; intros un_id parent_id s Hinv;
    [apply post_out_of_fuel|].
  cbn [Graft.clone_subtree]. apply post_bind, post_query.
  intros parent _.
  case_decide as Hdeep; [by apply post_ret, graft_step_refl|].
  apply post_bind, post_query. intros un_node _. apply post_bind.
  eapply post_mono.
  { apply (post_for_each (fun s' => graft_step s s')
             (fun _ s' => graft_step s s'));
      [by apply graft_step_refl| |done].
    intros x s1 Hstep1. eapply post_mono.
    - apply clone_child_grafts; [|by destruct Hstep1].
      intros u c s2 Hinv2. by apply IH.
    - intros [[]|] s2 Hstep2; by apply (graft_step_trans s s1 s2). }
  intros r s1 Hstep1. by apply post_ret.
Qed.

Lemma graft_event_grafts (by_sig : gmap string Z) (ev : Event.t)
    (s : Graft.state) :
  graft_inv s →
  post (Graft.graft_event unpruned_trace max_display_depth
          max_display_children by_sig tt ev) s
    (fun _ s' =>
       graft_inv s'
       ∧ ∃ blk, Graft.events s' = Graft.events s ++ ev :: blk
                ∧ balanced blk).
Proof.
  intros Hinv. unfold Graft.graft_event.
  apply post_bind, post_update. intros s1 [= <-].
  assert (graft_inv (Graft.mk (Graft.nodes s) (Graft.events s ++ [ev])
                       (Graft.next_id s))) as Hinv1.
  { destruct Hinv as (H1 & H2 & H3 & H4). by split; [|split; [|split]]. }
  assert (∀ s', graft_step
                  (Graft.mk (Graft.nodes s) (Graft.events s ++ [ev])
                     (Graft.next_id s)) s' →
                graft_inv s'
                ∧ ∃ blk, Graft.events s' = Graft.events s ++ ev :: blk
                         ∧ balanced blk) as Hdone.
  { intros s' (Hinv' & blk & Hev & Hblk). split; [done|]. exists blk.
    split; [|done]. rewrite Hev. cbn [Graft.events].
    by rewrite <- app_assoc. }
  case_decide; [by apply post_ret, Hdone, graft_step_refl|].
  apply post_bind, post_query. intros node _.
  destruct (negb (NodeData.pruned node));
    [by apply post_ret, Hdone, graft_step_refl|].
  destruct (by_sig !! _) as [un_id|];
    [|by apply post_ret, Hdone, graft_step_refl].
  eapply post_mono; [by apply clone_subtree_grafts|].
  intros [] s' Hstep. by apply Hdone.
Qed.

Lemma graft_loop (by_sig : gmap string Z) (evs : list Event.t)
    (s : Graft.state) :
  graft_inv s →
  post (foldM (Graft.graft_event unpruned_trace max_display_depth
                 max_display_children by_sig) evs tt) s
    (fun _ s' =>
       graft_inv s'
       ∧ ∃ out, Graft.events s' = Graft.events s ++ out ∧ expands evs out).
Proof.
  revert s. induction evs as [|ev evs IH]; intros s Hinv.
  - apply post_ret. split; [done|]. exists [].
    split; [by rewrite app_nil_r|constructor].
  - cbn [foldM]. apply post_bind.
    eapply post_mono; [by apply graft_event_grafts|].
    intros [] s1 (Hinv1 & blk & Hev1 & Hblk).
    eapply post_mono; [by apply IH|].
    intros [] s2 (Hinv2 & out & Hev2 & Hout). split; [done|].
    exists (ev :: blk ++ out). split; [|by constructor].
    rewrite Hev2, Hev1, <- app_assoc. by rewrite <- app_comm_cons.
Qed.

Lemma graft_run (tr : TraceResult.t) :
  add_pruned_descendants_from_unpruned pruned_trace unpruned_trace
    max_display_depth max_display_children = Ok tr →
  TraceResult.total_steps tr = TraceResult.total_steps pruned_trace
  ∧ expands (TraceResult.events pruned_trace) (TraceResult.events tr)
  ∧ ∃ next, graft_inv (Graft.mk (TraceResult.nodes tr)
                         (TraceResult.events tr) next).
Proof.
  unfold add_pruned_descendants_from_unpruned, Graft.run.
  destruct (Graft.index_events _ _ _) as [by_sig| |]; cbn [rbind];
    [|done|done].
  destruct (foldM _ _ _ _) as [l [[u s]| |]] eqn:Hrun; cbn [snd];
    [|done|done].
  intros [= <-]. cbn [TraceResult.nodes TraceResult.events
                      TraceResult.total_steps].
  split; [done|].
  destruct (graft_loop by_sig (TraceResult.events pruned_trace)
              (Graft.initial pruned_trace) graft_inv_initial u s)
    as (Hinv & out & Hev & Hout); [by rewrite Hrun|].
  cbn [Graft.initial Graft.events app] in Hev. rewrite Hev.
  split; [done|]. exists (Graft.next_id s). rewrite <- Hev. by destruct s.
Qed.

End GraftInvariant.

(** A pruned trace whose node 1 was cut by the oracle, and the trace of the
    same search without the oracle, which goes one node deeper. *)
Definition row_board (name : string) : gmap Coord string :=
  list_to_map (map (fun rc => (rc, name)) strip).

Definition cut_trace : TraceResult.t :=
  TraceResult.mk
    (list_to_map
       [ (0, NodeData.mk 0 None 0 ∅ false false false 0 [1] 1);
         (1, NodeData.mk 1 (Some 0) 1 (row_board "I") true false true 1 [] 0) ])
    [ Event.mk "enter" 0; Event.mk "enter" 1; Event.mk "exit" 1;
      Event.mk "exit" 0 ]
    1.

Definition full_trace : TraceResult.t :=
  TraceResult.mk
    (list_to_map
       [ (0, NodeData.mk 0 None 0 ∅ false false false 0 [1] 2);
         (1, NodeData.mk 1 (Some 0) 1 (row_board "I") false false true 1 [2] 1);
         (2, NodeData.mk 2 (Some 1) 2
               (<[(1, 0) := "L"%string]> (row_board "I")) false false true 2
               [] 0) ])
    [ Event.mk "enter" 0; Event.mk "enter" 1; Event.mk "enter" 2;
      Event.mk "exit" 2; Event.mk "exit" 1; Event.mk "exit" 0 ]
    2.

Definition grafted_trace : TraceResult.t :=
  TraceResult.mk
    (list_to_map
       [ (0, NodeData.mk 0 None 0 ∅ false false false 0 [1] 1);
         (1, NodeData.mk 1 (Some 0) 1 (row_board "I") true false true 1 [2] 0);
         (2, NodeData.mk 2 (Some 1) 2
               (<[(1, 0) := "L"%string]> (row_board "I")) false true true 2
               [] 0) ])
    [ Event.mk "enter" 0; Event.mk "enter" 1; Event.mk "enter" 2;
      Event.mk "exit" 2; Event.mk "exit" 1; Event.mk "exit" 0 ]
    1.

Lemma cut_trace_grafted :
  add_pruned_descendants_from_unpruned cut_trace full_trace 3 3
  = Ok grafted_trace.
Proof. vm_compute. reflexivity. Qed.

(** X14: the events that [add_pruned_descendants_from_unpruned] returns are
    the events of the pruned trace, in their order, with a well-nested
    block of enter and exit events inserted after some of them; so the
    pruned events are a subsequence of the result, the result nests
    properly exactly when the pruned events do, and [total_steps] is the
    one of the pruned trace. *)
Theorem graft_keeps_pruned_events (pruned_trace unpruned_trace : TraceResult.t)
    (max_display_depth max_display_children : Z) (tr : TraceResult.t) :
  add_pruned_descendants_from_unpruned pruned_trace unpruned_trace
    max_display_depth max_display_children = Ok tr →
  expands (TraceResult.events pruned_trace) (TraceResult.events tr)
  ∧ TraceResult.events pruned_trace `sublist_of` TraceResult.events tr
  ∧ well_nested (TraceResult.events tr)
    = well_nested (TraceResult.events pruned_trace)
  ∧ TraceResult.total_steps tr = TraceResult.total_steps pruned_trace.
Proof.
  intros Hrun. destruct (graft_run _ _ _ _ _ Hrun) as (Hsteps & Hex & _).
  split; [done|]. split; [by apply expands_sublist|].
  split; [by apply expands_nests|done].
Qed.

Lemma graft_keeps_pruned_events_witness :
  expands (TraceResult.events cut_trace) (TraceResult.events grafted_trace)
  ∧ TraceResult.events cut_trace `sublist_of` TraceResult.events grafted_trace
  ∧ well_nested (TraceResult.events grafted_trace)
    = well_nested (TraceResult.events cut_trace)
  ∧ TraceResult.total_steps grafted_trace = TraceResult.total_steps cut_trace.
Proof.
  apply (graft_keeps_pruned_events cut_trace full_trace 3 3 grafted_trace).
  vm_compute. reflexivity.
Defined.

(** X15: [add_pruned_descendants_from_unpruned] never replaces or removes a
    node of the pruned trace: in the result it has the same fields, with at
    most more children at the end of its list. Every node that is new has
    an id above all the ids of the pruned trace, carries that id, is
    flagged counterfactual and is not flagged pruned. *)
Theorem graft_keeps_pruned_nodes (pruned_trace unpruned_trace : TraceResult.t)
    (max_display_depth max_display_children : Z) (tr : TraceResult.t) :
  add_pruned_descendants_from_unpruned pruned_trace unpruned_trace
    max_display_depth max_display_children = Ok tr →
  (∀ id n, TraceResult.nodes pruned_trace !! id = Some n →
     ∃ n', TraceResult.nodes tr !! id = Some n' ∧ grown_from n n')
  ∧ (∀ id n', TraceResult.nodes tr !! id = Some n' →
       TraceResult.nodes pruned_trace !! id = None →
       (∀ old, is_Some (TraceResult.nodes pruned_trace !! old) → old < id)
       ∧ NodeData.node_id n' = id
       ∧ NodeData.counterfactual n' = true
       ∧ NodeData.pruned n' = false).
Proof.
  intros Hrun.
  destruct (graft_run _ _ _ _ _ Hrun) as (_ & _ & next & Hinv).
  destruct Hinv as (_ & _ & Hold & Hnew). cbn [Graft.nodes] in Hold, Hnew.
  split; [done|]. intros id n' Hn' Hnone.
  destruct (Hnew id n' Hn' Hnone) as (Hfirst & Hid & Hcf & Hpr).
  split; [|done]. intros old Hin.
  destruct (graft_inv_initial pruned_trace) as (Hkeys & _).
  specialize (Hkeys old Hin). lia.
Qed.

Lemma graft_keeps_pruned_nodes_witness :
  (∀ id n, TraceResult.nodes cut_trace !! id = Some n →
     ∃ n', TraceResult.nodes grafted_trace !! id = Some n' ∧ grown_from n n')
  ∧ (∀ id n', TraceResult.nodes grafted_trace !! id = Some n' →
       TraceResult.nodes cut_trace !! id = None →
       (∀ old, is_Some (TraceResult.nodes cut_trace !! old) → old < id)
       ∧ NodeData.node_id n' = id
       ∧ NodeData.counterfactual n' = true
       ∧ NodeData.pruned n' = false).
Proof.
  apply (graft_keeps_pruned_nodes cut_trace full_trace 3 3 grafted_trace).
  vm_compute. reflexivity.
Defined.

(** *** The node table of [build_trace] is a tree *)

Lemma post_of_total {S A} (m : M S A) (s : S) (Q : A → S → Prop) :
  total m s Q → post m s Q.
Proof. intros Ht a s' Hr. by apply (total_elim m s Q a s' Ht). Qed.

Lemma post_for_acc {S A C B} (I : C → S → Prop) (Q : C + B → S → Prop)
    (l : list A) (c : C) (body : C → A → M S (C + B)) (s : S) :
  I c s →
  (∀ x c s, I c s →
     post (body c x) s (fun r s' =>
       match r with inl c' => I c' s' | inr b => Q (inr b) s' end)) →
  (∀ c s, I c s → Q (inl c) s) →
  post (for_acc l c body) s Q.
Proof.
  intros HI Hbody Hend. revert c s HI.
  induction l as [|x l IH]; intros c s HI.
  - apply post_ret. by apply Hend.
  - cbn [for_acc]. apply post_bind.
    eapply post_mono; [by apply Hbody|].
    intros [c'|b] s' Hr; [by apply IH|by apply post_ret].
Qed.

(** The part of the state that holds the node table. *)
Definition table (s : TraceState) : gmap Z NodeData.t * Z :=
  (nodes s, next_node_id s).

Definition keeps_table {A} (m : M TraceState A) : Prop :=
  ∀ s, post m s (fun _ s' => table s' = table s).

Lemma keeps_ret {A} (a : A) : keeps_table (ret a).
Proof. intros s. by apply post_ret. Qed.

Lemma keeps_out_of_fuel {A} : keeps_table (A := A) out_of_fuel.
Proof. intros s. apply post_out_of_fuel. Qed.

Lemma keeps_get : keeps_table get.
Proof. intros s. by apply post_get. Qed.

Lemma keeps_query {A} (f : TraceState → result A) : keeps_table (query f).
Proof. intros s. by apply post_query. Qed.

Lemma keeps_bind {A B} (m : M TraceState A) (k : A → M TraceState B) :
  keeps_table m → (∀ a, keeps_table (k a)) → keeps_table (bind m k).
Proof.
  intros Hm Hk s. apply post_bind. eapply post_mono; [apply Hm|].
  intros a s1 H1. eapply post_mono; [apply Hk|].
  intros b s2 H2. congruence.
Qed.

Lemma keeps_on_placed (f : Placed → result Placed) :
  keeps_table (on_placed f).
Proof.
  intros s. unfold on_placed. apply post_update. intros s'.
  destruct (f (placed s)) as [p| |]; cbn [rbind]; [|done|done].
  by intros [= <-].
Qed.

Lemma keeps_foldM {A B} (f : B → A → M TraceState B) (l : list A) (b : B) :
  (∀ b x, keeps_table (f b x)) → keeps_table (foldM f l b).
Proof.
  intros Hf. revert b. induction l as [|x l IH]; intros b.
  - apply keeps_ret.
  - cbn [foldM]. apply keeps_bind; [apply Hf|]. intros b'. apply IH.
Qed.

Lemma keeps_for_each {A B} (l : list A)
    (body : A → M TraceState (option B)) :
  (∀ x, keeps_table (body x)) → keeps_table (for_each l body).
Proof.
  intros Hbody. induction l as [|x l IH].
  - apply keeps_ret.
  - cbn [for_each]. apply keeps_bind; [apply Hbody|].
    intros [b|]; [apply keeps_ret|apply IH].
Qed.

Section TreeShape.

Variable problem : Problem.
Variable enable_pruning : bool.
Variables max_display_children max_nodes : Z.

Lemma keeps_passes_oracle :
  keeps_table (passes_oracle problem enable_pruning).
Proof.
  unfold passes_oracle. destruct enable_pruning;
    [apply keeps_query|apply keeps_ret].
Qed.

Lemma keeps_collect_attempts (anchor : Coord) :
  keeps_table (collect_attempts problem enable_pruning anchor).
Proof.
  unfold collect_attempts. apply keeps_foldM. intros attempts name.
  unfold attempt_name. apply keeps_bind; [apply keeps_get|]. intros s.
  case_decide; [apply keeps_ret|].
  apply keeps_bind; [apply keeps_query|]. intros os.
  apply keeps_foldM. intros acc orient. apply keeps_foldM.
  intros acc' cell. unfold attempt_cell. cbn zeta.
  apply keeps_bind; [apply keeps_query|]. intros ok.
  destruct (negb ok); [apply keeps_ret|].
  apply keeps_bind; [apply keeps_on_placed|]. intros _.
  apply keeps_bind; [apply keeps_passes_oracle|]. intros passes.
  apply keeps_bind; [apply keeps_on_placed|]. intros _. apply keeps_ret.
Qed.

Lemma keeps_solve_first (fuel : nat) (first_move : option Placement) :
  keeps_table (solve_first problem enable_pruning fuel first_move).
Proof.
  revert first_move. induction fuel as [|fuel IH]; intros first_move;
    [apply keeps_out_of_fuel|].
  cbn [solve_first]. apply keeps_bind; [apply keeps_query|].
  intros [spot|]; [|apply keeps_ret].
  apply keeps_for_each. intros sname. unfold solve_first_name.
  apply keeps_bind; [apply keeps_get|]. intros s.
  case_decide; [apply keeps_ret|].
  apply keeps_bind; [apply keeps_query|]. intros os.
  apply keeps_for_each. intros sorient. apply keeps_for_each. intros cell.
  unfold solve_first_cell. cbn zeta.
  apply keeps_bind; [apply keeps_query|]. intros fits.
  destruct (negb fits); [apply keeps_ret|].
  apply keeps_bind; [apply keeps_on_placed|]. intros _.
  apply keeps_bind; [apply keeps_passes_oracle|]. intros ok.
  apply keeps_bind; [destruct ok; [apply IH|apply keeps_ret]|]. intros got.
  apply keeps_bind; [apply keeps_on_placed|]. intros _. apply keeps_ret.
Qed.

Lemma keeps_plan_display (depth : Z) (display_node_id : option Z)
    (attempts : list Attempt) :
  keeps_table (plan_display problem enable_pruning max_display_children
                 depth display_node_id attempts).
Proof.
  unfold plan_display. destruct display_node_id as [d|]; [|apply keeps_ret].
  apply keeps_bind; [apply keeps_query|]. intros parent. cbn zeta.
  destruct (_ && _); [|apply keeps_ret].
  apply keeps_bind; [apply keeps_solve_first|]. intros mv. apply keeps_ret.
Qed.

End TreeShape.

(** The table is a tree: a node is stored under its own id; the root, with
    id 0 and depth 0, is the only node without a parent; every other node
    is listed, once, among the children of its parent, which has a smaller
    id and is one level above. *)
Definition tree_ok (ns : gmap Z NodeData.t) : Prop :=
  ∀ id n, ns !! id = Some n →
    NodeData.node_id n = id
    ∧ NoDup (NodeData.children n)
    ∧ match NodeData.parent_id n with
      | None => id = 0 ∧ NodeData.depth n = 0
      | Some p =>
          p < id
          ∧ ∃ pn, ns !! p = Some pn
                  ∧ NodeData.depth n = NodeData.depth pn + 1
                  ∧ id ∈ NodeData.children pn
      end
    ∧ ∀ c, c ∈ NodeData.children n →
        ∃ cn, ns !! c = Some cn ∧ NodeData.parent_id cn = Some id.

Definition tree_inv (t : gmap Z NodeData.t * Z) : Prop :=
  (∀ id, is_Some (t.1 !! id) → 0 ≤ id < t.2) ∧ tree_ok t.1.

(** Nodes stay, at their depth. *)
Definition extends (t t' : gmap Z NodeData.t * Z) : Prop :=
  t.2 ≤ t'.2
  ∧ ∀ id n, t.1 !! id = Some n →
      ∃ n', t'.1 !! id = Some n' ∧ NodeData.depth n' = NodeData.depth n.

Lemma extends_refl (t : gmap Z NodeData.t * Z) : extends t t.
Proof. split; [lia|]. intros id n Hn. by exists n. Qed.

Lemma extends_trans (t1 t2 t3 : gmap Z NodeData.t * Z) :
  extends t1 t2 → extends t2 t3 → extends t1 t3.
Proof.
  intros [Hle1 H1] [Hle2 H2]. split; [lia|]. intros id n Hn.
  destruct (H1 id n Hn) as (n2 & Hn2 & Hd2).
  destruct (H2 id n2 Hn2) as (n3 & Hn3 & Hd3).
  exists n3. split; [done|congruence].
Qed.

Lemma tree_ok_child_above (ns : gmap Z NodeData.t) (id c : Z)
    (n : NodeData.t) :
  tree_ok ns → ns !! id = Some n → c ∈ NodeData.children n →
  id < c ∧ is_Some (ns !! c).
Proof.
  intros Htree Hn Hc. destruct (Htree id n Hn) as (_ & _ & _ & Hch).
  destruct (Hch c Hc) as (cn & Hcn & Hcp). split; [|by eauto].
  destruct (Htree c cn Hcn) as (_ & _ & Hpar & _). rewrite Hcp in Hpar.
  by destruct Hpar.
Qed.

Lemma tree_ok_parent_below (ns : gmap Z NodeData.t) (id p : Z)
    (n : NodeData.t) :
  tree_ok ns → ns !! id = Some n → NodeData.parent_id n = Some p →
  p < id ∧ is_Some (ns !! p).
Proof.
  intros Htree Hn Hp. destruct (Htree id n Hn) as (_ & _ & Hpar & _).
  rewrite Hp in Hpar. destruct Hpar as (Hlt & pn & Hpn & _). eauto.
Qed.

(** [close_node] changes a field that the shape does not read. *)
Lemma tree_ok_set_explored (ns : gmap Z NodeData.t) (d k : Z)
    (n : NodeData.t) :
  tree_ok ns → ns !! d = Some n →
  tree_ok (<[d := NodeData.set_explored k n]> ns).
Proof.
  intros Htree Hd id m Hm.
  assert (∀ q qn, ns !! q = Some qn →
            ∃ qn', <[d := NodeData.set_explored k n]> ns !! q = Some qn'
                   ∧ NodeData.depth qn' = NodeData.depth qn
                   ∧ NodeData.children qn' = NodeData.children qn
                   ∧ NodeData.parent_id qn' = NodeData.parent_id qn
                   ∧ NodeData.node_id qn' = NodeData.node_id qn) as Hsame.
  { intros q qn Hq. destruct (decide (q = d)) as [->|Hne].
    - rewrite lookup_insert_eq. rewrite Hd in Hq. injection Hq as <-.
      by eexists.
    - rewrite lookup_insert_ne by done. by exists qn. }
  assert (∃ m0, ns !! id = Some m0
                ∧ NodeData.depth m = NodeData.depth m0
                ∧ NodeData.children m = NodeData.children m0
                ∧ NodeData.parent_id m = NodeData.parent_id m0
                ∧ NodeData.node_id m = NodeData.node_id m0)
    as (m0 & Hm0 & Hdep & Hch & Hpar & Hid).
  { destruct (decide (id = d)) as [->|Hne].
    - rewrite lookup_insert_eq in Hm. injection Hm as <-. by exists n.
    - rewrite lookup_insert_ne in Hm by done. by exists m. }
  destruct (Htree id m0 Hm0) as (H1 & H2 & H3 & H4).
  rewrite Hid, Hch, Hpar, Hdep. split; [done|]. split; [done|]. split.
  - destruct (NodeData.parent_id m0) as [p|]; [|done].
    destruct H3 as (Hlt & pn & Hpn & Hdp & Hin). split; [done|].
    destruct (Hsame p pn Hpn) as (pn' & Hpn' & Hd' & Hc' & _).
    exists pn'. by rewrite Hd', Hc'.
  - intros c Hc. destruct (H4 c Hc) as (cn & Hcn & Hcp).
    destruct (Hsame c cn Hcn) as (cn' & Hcn' & _ & _ & Hp' & _).
    exists cn'. by rewrite Hp'.
Qed.

(** [create_node] under a parent: the new node goes under the next id and
    at the end of the children of its parent. *)
Lemma tree_ok_add_child (ns : gmap Z NodeData.t) (next p : Z)
    (pn node : NodeData.t) :
  tree_inv (ns, next) → ns !! p = Some pn →
  NodeData.node_id node = next → NodeData.parent_id node = Some p →
  NodeData.depth node = NodeData.depth pn + 1 →
  NodeData.children node = [] →
  tree_ok (<[p := NodeData.append_child next pn]> (<[next := node]> ns)).
Proof.
  intros [Hkeys Htree] Hp Hid Hpar Hdep Hch id m Hm. cbn [fst snd] in *.
  assert (p < next) as Hlt by (by apply Hkeys; eauto).
  destruct (decide (id = p)) as [->|Hne].
  - rewrite lookup_insert_eq in Hm. injection Hm as <-.
    destruct (Htree p pn Hp) as (Hn1 & Hn2 & Hn3 & Hn4).
    cbn [NodeData.append_child NodeData.node_id NodeData.children
         NodeData.parent_id NodeData.depth].
    split; [done|]. split; [|split].
    + apply NoDup_app. split; [done|]. split; [|apply NoDup_singleton].
      intros c Hc ->%list_elem_of_singleton.
      destruct (tree_ok_child_above ns p next pn Htree Hp Hc) as [_ Hin].
      apply Hkeys in Hin. lia.
    + destruct (NodeData.parent_id pn) as [q|]; [|done].
      destruct Hn3 as (Hq & qn & Hqn & Hd & Hin). split; [done|].
      exists qn. by rewrite !lookup_insert_ne by lia.
    + intros c [Hc| ->%list_elem_of_singleton]%elem_of_app.
      * destruct (tree_ok_child_above ns p c pn Htree Hp Hc) as [Hpc Hin].
        apply Hkeys in Hin. destruct (Hn4 c Hc) as (cn & Hcn & Hcp).
        exists cn. by rewrite !lookup_insert_ne by lia.
      * exists node. by rewrite lookup_insert_ne, lookup_insert_eq by lia.
  - rewrite lookup_insert_ne in Hm by done.
    destruct (decide (id = next)) as [->|Hne'].
    + rewrite lookup_insert_eq in Hm. injection Hm as <-.
      rewrite Hid, Hpar, Hdep, Hch. split; [done|].
      split; [constructor|]. split; [|by intros c ?%elem_of_nil].
      split; [done|]. exists (NodeData.append_child next pn).
      rewrite lookup_insert_eq. split; [done|]. split; [done|].
      cbn [NodeData.append_child NodeData.children].
      apply elem_of_app. right. by apply list_elem_of_singleton.
    + rewrite lookup_insert_ne in Hm by done.
      destruct (Htree id m Hm) as (H1 & H2 & H3 & H4).
      split; [done|]. split; [done|]. split.
      * destruct (NodeData.parent_id m) as [q|] eqn:Hq; [|done].
        destruct H3 as (Hlq & qn & Hqn & Hd & Hin). split; [done|].
        destruct (decide (q = p)) as [->|Hqp].
        -- exists (NodeData.append_child next pn). rewrite lookup_insert_eq.
           rewrite Hp in Hqn. injection Hqn as <-.
           split; [done|]. split; [done|].
           cbn [NodeData.append_child NodeData.children].
           apply elem_of_app. by left.
        -- exists qn.
           assert (q < next) by (by apply Hkeys; eauto).
           by rewrite !lookup_insert_ne by lia.
      * intros c Hc. destruct (H4 c Hc) as (cn & Hcn & Hcp).
        destruct (decide (c = p)) as [->|Hcne].
        -- exists (NodeData.append_child next pn). rewrite lookup_insert_eq.
           rewrite Hp in Hcn. by injection Hcn as <-.
        -- exists cn.
           assert (c < next) by (by apply Hkeys; eauto).
           by rewrite !lookup_insert_ne by lia.
Qed.

Section TreeWalk.

Variable problem : Problem.
Variable enable_pruning : bool.
Variables max_display_children max_nodes : Z.

(** What a call of [dfs] does to the table. *)
Definition grows (s s' : TraceState) : Prop :=
  tree_inv (table s') ∧ extends (table s) (table s').

Lemma grows_same (s s' : TraceState) :
  tree_inv (table s) → table s' = table s → grows s s'.
Proof.
  intros Hinv Ht. unfold grows. rewrite Ht.
  split; [done|apply extends_refl].
Qed.

Lemma grows_trans (s1 s2 s3 : TraceState) :
  grows s1 s2 → grows s2 s3 → grows s1 s3.
Proof.
  intros [_ H12] [Hinv H23]. split; [done|by eapply extends_trans].
Qed.

Lemma grows_same_r (s1 s2 s3 : TraceState) :
  grows s1 s2 → table s3 = table s2 → grows s1 s3.
Proof. intros [Hinv Hext] Ht. unfold grows. by rewrite Ht. Qed.

Lemma grows_node (s s' : TraceState) (d depth : Z) :
  grows s s' →
  (∃ n, nodes s !! d = Some n ∧ NodeData.depth n = depth) →
  ∃ n, nodes s' !! d = Some n ∧ NodeData.depth n = depth.
Proof.
  intros [_ [_ Hext]] (n & Hn & Hd). destruct (Hext d n Hn) as (n' & ? & ?).
  exists n'. split; [done|congruence].
Qed.

Lemma create_child_tree (d : Z) (pn : NodeData.t) (dep : Z)
    (pruned chain : bool) (s : TraceState) :
  tree_inv (table s) → nodes s !! d = Some pn →
  dep = NodeData.depth pn + 1 →
  post (create_node (Some d) dep pruned chain) s
    (fun c s' =>
       grows s s' ∧ ∃ cn, nodes s' !! c = Some cn ∧ NodeData.depth cn = dep).
Proof.
  intros Hinv Hd ->. pose proof Hinv as [Hkeys Htree].
  cbn [table fst snd] in Hkeys, Htree.
  assert (0 ≤ d < next_node_id s) as Hlt by (by apply Hkeys; eauto).
  apply post_of_total. eapply total_create_child; [done|lia|].
  split; [split; [split|]|].
  - cbn [table fst snd nodes next_node_id]. intros id Hid.
    destruct (decide (id = d)) as [->|Hne]; [lia|].
    rewrite lookup_insert_ne in Hid by done.
    destruct (decide (id = next_node_id s)) as [->|Hne']; [lia|].
    rewrite lookup_insert_ne in Hid by done. apply Hkeys in Hid. lia.
  - cbn [table fst snd nodes next_node_id].
    by apply (tree_ok_add_child (nodes s) (next_node_id s) d pn).
  - split; cbn [table fst snd nodes next_node_id]; [lia|].
    intros id n Hn. destruct (decide (id = d)) as [->|Hne].
    + rewrite lookup_insert_eq. eexists. split; [done|].
      rewrite Hd in Hn. by injection Hn as <-.
    + assert (id < next_node_id s) by (by apply Hkeys; eauto).
      rewrite !lookup_insert_ne by lia. by exists n.
  - cbn [nodes]. eexists.
    by rewrite lookup_insert_ne, lookup_insert_eq by lia.
Qed.

Lemma close_node_tree (d k : Z) (s : TraceState) :
  tree_inv (table s) → is_Some (nodes s !! d) →
  post (close_node (Some d) k) s (fun _ s' => grows s s').
Proof.
  intros [Hkeys Htree] [n Hn]. cbn [table fst snd] in Hkeys, Htree.
  apply post_of_total. eapply total_close_node; [done|].
  split; [split|split]; cbn [table fst snd nodes next_node_id].
  - intros id Hid. apply Hkeys.
    destruct (decide (id = d)) as [->|Hne]; [by eauto|].
    by rewrite lookup_insert_ne in Hid.
  - by apply tree_ok_set_explored.
  - lia.
  - intros id m Hm. destruct (decide (id = d)) as [->|Hne].
    + rewrite lookup_insert_eq. eexists. split; [done|].
      rewrite Hn in Hm. by injection Hm as <-.
    + rewrite lookup_insert_ne by done. by exists m.
Qed.

Lemma visit_attempt_tree
    (rec : Z → option Z → M TraceState (bool * Z * bool))
    (depth d : Z) (display_indices : gset Z) (rightmost_idx : Z)
    (acc : Z * bool) (item : Z * Attempt) (s : TraceState) :
  (∀ c s1, tree_inv (table s1) →
     (∃ n, nodes s1 !! c = Some n ∧ NodeData.depth n = depth + 1) →
     post (rec (depth + 1) (Some c)) s1 (fun _ s' => grows s1 s')) →
  tree_inv (table s) →
  (∃ n, nodes s !! d = Some n ∧ NodeData.depth n = depth) →
  post (visit_attempt rec depth (Some d) display_indices rightmost_idx acc
          item) s
    (fun _ s' => grows s s').
Proof.
  intros Hrec Hinv (n & Hn & Hdepth). unfold visit_attempt.
  apply post_bind, post_bind, post_query. intros n0 Hn0. apply post_ret.
  cbn zeta. case_decide; [by apply post_ret, grows_same|].
  case_decide.
  - apply post_bind. eapply post_mono; [apply keeps_on_placed|].
    intros [] s1 Ht1. pose proof Ht1 as [= Hns1 Hnext1].
    apply post_bind. eapply post_mono.
    { apply (create_child_tree d n); [by rewrite Ht1|by rewrite Hns1|lia]. }
    intros c s2 [Hg2 _]. apply post_bind, post_update. intros s3 [= <-].
    apply post_bind. eapply post_mono; [apply keeps_on_placed|].
    intros [] s4 Ht4. apply post_ret.
    apply (grows_trans s s1 s4); [by apply grows_same|].
    by apply (grows_same_r s1 s2 s4).
  - apply post_bind. eapply post_mono; [apply keeps_on_placed|].
    intros [] s1 Ht1. pose proof Ht1 as [= Hns1 Hnext1].
    apply post_bind, post_bind. eapply post_mono.
    { apply (create_child_tree d n); [by rewrite Ht1|by rewrite Hns1|lia]. }
    intros c s2 [Hg2 Hc]. apply post_ret. apply post_bind.
    eapply post_mono; [apply Hrec; [by destruct Hg2|done]|].
    intros r s3 Hg3. apply post_bind.
    eapply post_mono; [apply keeps_on_placed|].
    intros [] s4 Ht4.
    assert (grows s s4) as Hg4.
    { apply (grows_trans s s1 s4); [by apply grows_same|].
      apply (grows_trans s1 s2 s4); [done|].
      by apply (grows_same_r s2 s3 s4). }
    assert (∀ k, post (close_node (Some d) k) s4
                   (fun _ s' => grows s s')) as Hclose.
    { intros k. eapply post_mono.
      - apply close_node_tree; [by destruct Hg4|].
        destruct (grows_node s s4 d depth Hg4) as (n4 & Hn4 & _);
          by eauto.
      - intros [] s5 Hg5. by apply (grows_trans s s4 s5). }
    destruct (r.2).
    { apply post_bind. eapply post_mono; [apply Hclose|].
      intros [] s5 Hg5. by apply post_ret. }
    destruct (r.1.1); [|by apply post_ret].
    destruct (NodeData.rightmost_chain n0); [|by apply post_ret].
    apply post_bind. eapply post_mono; [apply Hclose|].
    intros [] s5 Hg5. by apply post_ret.
Qed.

Lemma dfs_tree (fuel : nat) (depth d : Z) (s : TraceState) :
  tree_inv (table s) →
  (∃ n, nodes s !! d = Some n ∧ NodeData.depth n = depth) →
  post (dfs problem enable_pruning max_display_children max_nodes fuel depth
          (Some d)) s
    (fun _ s' => grows s s').
Proof.
  revert depth d s.
  induction fuel as [|fuel IH]; intros depth d s Hinv Hd;
    [apply post_out_of_fuel|].
  cbn [dfs]. apply post_bind, post_update. intros s1 [= <-].
  set (s1 := mkTraceState _ _ _ _ _).
  assert (grows s s1) as Hg1 by (by apply grows_same).
  apply post_bind, post_get. case_decide; [by apply post_ret|].
  apply post_bind, post_query. intros anchor _.
  destruct anchor as [anchor|].
  2:{ apply post_bind. eapply post_mono.
      - apply close_node_tree; [done|].
        destruct Hd as (n & Hn & _). by eauto.
      - intros [] s2 Hg2. by apply post_ret. }
  apply post_bind. eapply post_mono; [apply keeps_collect_attempts|].
  intros attempts s2 Ht2. apply post_bind.
  eapply post_mono; [apply keeps_plan_display|].
  intros plan s3 Ht3.
  assert (grows s s3) as Hg3.
  { apply (grows_same_r s s2 s3); [|done].
    by apply (grows_same_r s s1 s2). }
  apply post_bind. eapply post_mono.
  { apply (post_for_acc (fun _ s' => grows s s') (fun _ s' => grows s s'));
      [done| |done].
    intros item acc s4 Hg4. eapply post_mono.
    - apply visit_attempt_tree; [|by destruct Hg4|by eapply grows_node].
      intros c s5 Hinv5 Hc. by apply IH.
    - intros [acc'|res] s5 Hg5; by apply (grows_trans s s4 s5). }
  intros [acc|res] s4 Hg4; [|by apply post_ret].
  apply post_bind. eapply post_mono.
  - apply close_node_tree; [by destruct Hg4|].
    destruct (grows_node s s4 d depth Hg4 Hd) as (n4 & Hn4 & _); by eauto.
  - intros [] s5 Hg5. apply post_ret. by apply (grows_trans s s4 s5).
Qed.

(** The table when [build_trace] returns: a tree with root 0 whose ids are
    the numbers below [next_node_id]. *)
Lemma root_dfs_tree :
  post (root_dfs problem enable_pruning max_display_children max_nodes)
    initial_state
    (fun _ s' => tree_inv (table s') ∧ is_Some (nodes s' !! 0)).
Proof.
  unfold root_dfs. apply post_bind, post_of_total, total_create_root.
  cbn [initial_state next_node_id placed nodes events node_counter].
  set (s1 := mkTraceState _ _ _ _ _).
  assert (tree_inv (table s1)) as Hinv1.
  { split; cbn [table fst snd s1 nodes next_node_id].
    - intros id Hid. destruct (decide (id = 0)) as [->|Hne]; [lia|].
      rewrite lookup_insert_ne, lookup_empty in Hid by done.
      by destruct Hid.
    - intros id n Hn. destruct (decide (id = 0)) as [->|Hne].
      + rewrite lookup_insert_eq in Hn. injection Hn as <-.
        cbn. split; [done|]. split; [constructor|].
        split; [done|]. by intros c ?%elem_of_nil.
      + by rewrite lookup_insert_ne, lookup_empty in Hn. }
  eapply post_mono.
  - apply (dfs_tree dfs_fuel 0 0 s1 Hinv1). eexists.
    cbn [s1 nodes]. by rewrite lookup_insert_eq.
  - intros r s2 Hg2. split; [by destruct Hg2|].
    destruct (grows_node s1 s2 0 0 Hg2) as (n & Hn & _); [|by eauto].
    eexists. cbn [s1 nodes]. by rewrite lookup_insert_eq.
Qed.

End TreeWalk.

(** X16: the node table that [build_trace] returns is a tree. Every node is
    stored under its own id and lists each child once; node 0 is the root,
    the only node without a parent, at depth 0; every other node has a
    parent with a smaller id that is in the table, lists it among its
    children and is one level above it; and every id in a list of children
    is a node of the table whose parent is the owner of the list. *)
Theorem build_trace_nodes_form_tree (problem : Problem)
    (enable_pruning : bool)
    (max_display_depth max_display_children max_nodes : Z) :
  known_pieces problem →
  ∃ tr, build_trace problem enable_pruning max_display_depth
          max_display_children max_nodes = Ok tr
        ∧ tree_ok (TraceResult.nodes tr)
        ∧ ∃ root, TraceResult.nodes tr !! 0 = Some root
                  ∧ NodeData.parent_id root = None.
Proof.
  intros Hknown.
  destruct (root_dfs_total problem enable_pruning max_display_children
              max_nodes Hknown) as (r & s & Hrun & _).
  exists (TraceResult.mk (nodes s) (events s) (node_counter s)).
  split; [unfold build_trace; by rewrite Hrun|].
  destruct (root_dfs_tree problem enable_pruning max_display_children
              max_nodes r s Hrun) as [[Hkeys Htree] [root Hroot]].
  cbn [table fst snd] in Hkeys, Htree. cbn [TraceResult.nodes].
  split; [done|]. exists root. split; [done|].
  destruct (NodeData.parent_id root) as [p|] eqn:Hp; [|done].
  destruct (tree_ok_parent_below _ _ _ _ Htree Hroot Hp) as [Hlt Hin].
  apply Hkeys in Hin. lia.
Qed.

Lemma build_trace_nodes_form_tree_witness :
  ∃ tr, build_trace twelve_problem true 3 3 100 = Ok tr
        ∧ tree_ok (TraceResult.nodes tr)
        ∧ ∃ root, TraceResult.nodes tr !! 0 = Some root
                  ∧ NodeData.parent_id root = None.
Proof.
  exact (build_trace_nodes_form_tree twelve_problem true 3 3 100
           twelve_problem_known).
Defined.

(** *** Grafting keeps the table a tree *)

Lemma add_child_grows (ns : gmap Z NodeData.t) (next p : Z)
    (pn node : NodeData.t) :
  tree_inv (ns, next) → ns !! p = Some pn →
  NodeData.node_id node = next → NodeData.parent_id node = Some p →
  NodeData.depth node = NodeData.depth pn + 1 →
  NodeData.children node = [] →
  tree_inv (<[p := NodeData.append_child next pn]> (<[next := node]> ns),
            next + 1)
  ∧ extends (ns, next)
      (<[p := NodeData.append_child next pn]> (<[next := node]> ns),
       next + 1).
Proof.
  intros Hinv Hp Hid Hpar Hdep Hch. pose proof Hinv as [Hkeys Htree].
  cbn [fst snd] in Hkeys, Htree.
  assert (0 ≤ p < next) as Hlt by (by apply Hkeys; eauto).
  split; [split|split]; cbn [fst snd].
  - intros id Hin. destruct (decide (id = p)) as [->|Hne]; [lia|].
    rewrite lookup_insert_ne in Hin by done.
    destruct (decide (id = next)) as [->|Hne']; [lia|].
    rewrite lookup_insert_ne in Hin by done. apply Hkeys in Hin. lia.
  - by apply tree_ok_add_child.
  - lia.
  - intros id n Hn. destruct (decide (id = p)) as [->|Hne].
    + rewrite lookup_insert_eq. eexists. split; [done|].
      rewrite Hp in Hn. by injection Hn as <-.
    + assert (id < next) by (by apply Hkeys; eauto).
      rewrite !lookup_insert_ne by lia. by exists n.
Qed.

Section GraftTree.

Variables pruned_trace unpruned_trace : TraceResult.t.
Variables max_display_depth max_display_children : Z.

Definition gtable (s : Graft.state) : gmap Z NodeData.t * Z :=
  (Graft.nodes s, Graft.next_id s).

Definition ggrows (s s' : Graft.state) : Prop :=
  tree_inv (gtable s') ∧ extends (gtable s) (gtable s').

Lemma ggrows_refl (s : Graft.state) : tree_inv (gtable s) → ggrows s s.
Proof. intros Hinv. split; [done|apply extends_refl]. Qed.

Lemma ggrows_trans (s1 s2 s3 : Graft.state) :
  ggrows s1 s2 → ggrows s2 s3 → ggrows s1 s3.
Proof.
  intros [_ H12] [Hinv H23]. split; [done|by eapply extends_trans].
Qed.

Lemma clone_child_tree (rec : Z → Z → M Graft.state unit)
    (parent_id : Z) (parent : NodeData.t) (un_child_id : Z)
    (s : Graft.state) :
  (∀ un_id new_id s1, tree_inv (gtable s1) →
     post (rec un_id new_id) s1 (fun _ s' => ggrows s1 s')) →
  tree_inv (gtable s) →
  (∃ pn, Graft.nodes s !! parent_id = Some pn
         ∧ NodeData.depth pn = NodeData.depth parent) →
  post (Graft.clone_child unpruned_trace max_display_children rec parent_id
          parent un_child_id) s
    (fun _ s' => ggrows s s').
Proof.
  intros Hrec Hinv (pn & Hpn & Hdepth). unfold Graft.clone_child.
  apply post_bind, post_query. intros parent_now Hnow.
  case_decide as Hfull; [by apply post_ret, ggrows_refl|].
  apply post_bind, post_query. intros un_child _.
  unfold Graft.fresh_id at 1. apply post_bind, post_bind, post_get.
  apply post_bind, post_update. intros s1 [= <-]. apply post_ret.
  apply post_bind, post_update. intros s2 [= <-].
  cbn [Graft.nodes Graft.events Graft.next_id].
  apply post_bind, post_update. intros s3. cbn [Graft.nodes].
  assert (0 ≤ parent_id < Graft.next_id s) as Hlt.
  { destruct Hinv as [Hkeys _]. apply Hkeys. cbn [gtable fst]. by eauto. }
  rewrite lookup_insert_ne, Hpn by lia.
  intros [= <-]. cbn [Graft.nodes Graft.events Graft.next_id].
  apply post_bind, post_update. intros s4 [= <-]. cbn [Graft.nodes].
  set (s4 := Graft.mk _ _ _).
  assert (ggrows s s4) as Hg4.
  { apply (add_child_grows (Graft.nodes s) (Graft.next_id s) parent_id pn);
      [done|done|done|done| |done].
    cbn [NodeData.depth]. lia. }
  apply post_bind. eapply post_mono; [apply Hrec; by destruct Hg4|].
  intros [] s5 Hg5. apply post_bind, post_update. intros s6 [= <-].
  apply post_ret. by apply (ggrows_trans s s4).
Qed.

Lemma clone_subtree_tree (fuel : nat) (un_id parent_id : Z)
    (s : Graft.state) :
  tree_inv (gtable s) →
  post (Graft.clone_subtree unpruned_trace max_display_depth
          max_display_children fuel un_id parent_id) s
    (fun _ s' => ggrows s s').
Proof.
  revert un_id parent_id s.
  induction fuel as [|fuel IH]; intros un_id parent_id s Hinv;
    [apply post_out_of_fuel|].
  cbn [Graft.clone_subtree]. apply post_bind, post_query.
  intros parent Hparent.
  destruct (Graft.nodes s !! parent_id) as [pn|] eqn:Hpn; [|done].
  injection Hparent as ->.
  case_decide as Hdeep; [by apply post_ret, ggrows_refl|].
  apply post_bind, post_query. intros un_node _. apply post_bind.
  eapply post_mono.
  { apply (post_for_each (fun s' => ggrows s s')
             (fun _ s' => ggrows s s'));
      [by apply ggrows_refl| |done].
    intros x s1 Hg1. eapply post_mono.
    - apply clone_child_tree; [|by destruct Hg1|].
      + intros u c s2 Hinv2. by apply IH.
      + destruct Hg1 as [_ [_ Hext]].
        destruct (Hext parent_id parent Hpn) as (pn1 & Hpn1 & Hd1).
        by exists pn1.
    - intros [[]|] s2 Hg2; by apply (ggrows_trans s s1 s2). }
  intros r s1 Hg1. by apply post_ret.
Qed.

Lemma graft_event_tree (by_sig : gmap string Z) (ev : Event.t)
    (s : Graft.state) :
  tree_inv (gtable s) →
  post (Graft.graft_event unpruned_trace max_display_depth
          max_display_children by_sig tt ev) s
    (fun _ s' => tree_inv (gtable s')).
Proof.
  intros Hinv. unfold Graft.graft_event.
  apply post_bind, post_update. intros s1 [= <-].
  case_decide; [by apply post_ret|].
  apply post_bind, post_query. intros node _.
  destruct (negb (NodeData.pruned node)); [by apply post_ret|].
  destruct (by_sig !! _) as [un_id|]; [|by apply post_ret].
  eapply post_mono; [by apply clone_subtree_tree|].
  by intros [] s' [Hinv' _].
Qed.

End GraftTree.

Lemma cut_trace_tree : tree_ok (TraceResult.nodes cut_trace).
Proof.
  intros id n. cbn [cut_trace TraceResult.nodes list_to_map foldr uncurry].
  destruct (decide (id = 0)) as [->|Hne0].
  { rewrite lookup_insert_eq. intros [= <-]. cbn.
    split; [done|]. split; [apply NoDup_singleton|]. split; [done|].
    intros c ->%list_elem_of_singleton. eexists.
    by rewrite lookup_insert_ne, lookup_insert_eq. }
  rewrite lookup_insert_ne by done.
  destruct (decide (id = 1)) as [->|Hne1].
  { rewrite lookup_insert_eq. intros [= <-]. cbn.
    split; [done|]. split; [constructor|].
    split; [|by intros c ?%elem_of_nil]. split; [lia|]. eexists.
    rewrite lookup_insert_eq. split; [done|]. split; [done|].
    by apply list_elem_of_singleton. }
  by rewrite lookup_insert_ne, lookup_empty.
Qed.

(** X17: grafting keeps a tree a tree. When the node table of the pruned
    trace is a tree in the sense of [tree_ok] and has no negative id, so is
    the table that [add_pruned_descendants_from_unpruned] returns: every
    counterfactual node is stored under its own id, sits at the end of the
    children of its parent and one level below it. *)
Theorem graft_keeps_tree (pruned_trace unpruned_trace : TraceResult.t)
    (max_display_depth max_display_children : Z) (tr : TraceResult.t) :
  tree_ok (TraceResult.nodes pruned_trace) →
  (∀ id, is_Some (TraceResult.nodes pruned_trace !! id) → 0 ≤ id) →
  add_pruned_descendants_from_unpruned pruned_trace unpruned_trace
    max_display_depth max_display_children = Ok tr →
  tree_ok (TraceResult.nodes tr).
Proof.
  intros Htree Hpos.
  unfold add_pruned_descendants_from_unpruned, Graft.run.
  destruct (Graft.index_events _ _ _) as [by_sig| |]; cbn [rbind];
    [|done|done].
  destruct (foldM _ _ _ _) as [l [[u s]| |]] eqn:Hrun; cbn [snd];
    [|done|done].
  intros [= <-]. cbn [TraceResult.nodes].
  assert (tree_inv (gtable (Graft.initial pruned_trace))) as Hinit.
  { split; [|done]. intros id Hid. split; [by apply Hpos|].
    cbn [gtable Graft.initial Graft.nodes Graft.next_id fst snd] in *.
    case_decide as Hempty.
    - rewrite Hempty, lookup_empty in Hid. by destruct Hid.
    - pose proof (max_key_bound _ _ Hid). lia. }
  apply (post_foldM (fun _ s' => tree_inv (gtable s'))
           (Graft.graft_event unpruned_trace max_display_depth
              max_display_children by_sig)
           (TraceResult.events pruned_trace) tt
           (Graft.initial pruned_trace) Hinit) with (a := u).
  - intros ev [] s1 Hinv1. by apply graft_event_tree.
  - by rewrite Hrun.
Qed.

Lemma graft_keeps_tree_witness : tree_ok (TraceResult.nodes grafted_trace).
Proof.
  apply (graft_keeps_tree cut_trace full_trace 3 3 grafted_trace).
  - exact cut_trace_tree.
  - intros id [n Hn]. cbn in Hn.
    destruct (decide (id = 0)) as [->|Hne0]; [lia|].
    rewrite lookup_insert_ne in Hn by done.
    destruct (decide (id = 1)) as [->|Hne1]; [lia|].
    by rewrite lookup_insert_ne, lookup_empty in Hn.
  - vm_compute. reflexivity.
Defined.

End TraceFacts.

(** ** [manim/pentomino_6x10.py]: the budgeted search and its journal *)
Module SearchFacts.
Import Pentomino6x10.

(** The bookkeeping of the loop of [PentominoFillAnimation.construct] over
    [state.events]: [placed_map[name] = piece] for a ["place"] event,
    [del placed_map[name]] (when present) for any other one. The piece is
    kept as the cells it is built from. *)
Definition show_event (placed_map : gmap string Cells)
    (ev : string * Placement) : gmap string Cells :=
  if decide (ev.1 = "place"%string) then <[ev.2.1 := ev.2.2]> placed_map
  else delete ev.2.1 placed_map.

Definition placed_map (events : list (string * Placement))
    : gmap string Cells :=
  fold_left show_event events ∅.

(** The pieces shown are the pieces on the grid, cell for cell. *)
Definition shows (pm : gmap string Cells) (g : Board.t) : Prop :=
  (∀ name, is_Some (pm !! name) ↔ name ∈ Board.used g)
  ∧ ∀ rc name, 0 ≤ rc.1 → 0 ≤ rc.2 →
      (Board.cell (Board.board g) rc = Some (Some name)
       ↔ ∃ cells, pm !! name = Some cells ∧ rc ∈ cells).

Lemma shows_init (rows cols : Z) : shows ∅ (Board.init rows cols).
Proof.
  split.
  - intros name. rewrite lookup_empty. cbn [Board.init Board.used].
    split; [by intros [? ?]|by intros ?%elem_of_empty].
  - intros rc name _ _. split.
    + unfold Board.cell, Board.init. cbn [Board.board].
      destruct (replicate _ _ !! Z.to_nat rc.1) as [row|] eqn:Hrow; [|done].
      apply lookup_replicate in Hrow as [-> _].
      intros [? _]%lookup_replicate. done.
    + intros (cells & Hc & _). by rewrite lookup_empty in Hc.
Qed.

Section PlaceRemove.

Variables (g g1 : Board.t) (name : string) (cells : Cells).
Hypothesis name_new : name ∉ Board.used g.
Hypothesis cells_empty : ∀ rc, rc ∈ cells → Board.is_empty g rc.
Hypothesis used_g1 : Board.used g1 = {[name]} ∪ Board.used g.
Hypothesis cell_g1 :
  ∀ rc, 0 ≤ rc.1 → 0 ≤ rc.2 →
    Board.cell (Board.board g1) rc
    = if decide (rc ∈ cells) then Some (Some name)
      else Board.cell (Board.board g) rc.

Lemma shows_place (pm : gmap string Cells) :
  shows pm g → shows (<[name := cells]> pm) g1.
Proof.
  intros [Hnames Hcells]. split.
  - intros n. rewrite used_g1. destruct (decide (n = name)) as [->|Hne].
    + rewrite lookup_insert_eq. split; [set_solver|by eauto].
    + rewrite lookup_insert_ne, Hnames by done. set_solver.
  - intros rc n H1 H2. rewrite cell_g1 by done.
    destruct (decide (n = name)) as [->|Hne].
    + rewrite lookup_insert_eq. case_decide as Hin.
      * split; [by eauto|done].
      * rewrite (Hcells rc name H1 H2). split.
        -- intros (cs & Hcs & _). destruct name_new. apply Hnames. by eauto.
        -- intros (cs & [= <-] & Hrc). done.
    + rewrite lookup_insert_ne by done. case_decide as Hin.
      * split; [intros [=]; congruence|].
        intros Hn. apply Hcells in Hn; [|done|done].
        destruct (cells_empty rc Hin) as [_ He]. congruence.
      * by apply Hcells.
Qed.

Lemma shows_remove (pm0 pm2 : gmap string Cells) :
  shows pm0 g → shows pm2 g1 → shows (delete name pm2) g.
Proof.
  intros [Hnames0 Hcells0] [Hnames2 Hcells2]. split.
  - intros n. destruct (decide (n = name)) as [->|Hne].
    + rewrite lookup_delete_eq. split; [by intros [? ?]|done].
    + rewrite lookup_delete_ne, Hnames2, used_g1 by done. set_solver.
  - intros rc n H1 H2. split.
    + intros Hn.
      assert (n ≠ name) as Hne.
      { intros ->. apply name_new, Hnames0.
        apply Hcells0 in Hn as (cs & Hcs & _); by eauto. }
      assert (rc ∉ cells) as Hout.
      { intros Hin. destruct (cells_empty rc Hin) as [_ He]. congruence. }
      rewrite lookup_delete_ne by done. apply Hcells2; [done|done|].
      rewrite cell_g1 by done. by rewrite decide_False.
    + intros (cs & Hcs & Hrc).
      destruct (decide (n = name)) as [->|Hne];
        [by rewrite lookup_delete_eq in Hcs|].
      rewrite lookup_delete_ne in Hcs by done.
      assert (Board.cell (Board.board g1) rc = Some (Some n)) as Hn
        by (apply Hcells2; by eauto).
      rewrite cell_g1 in Hn by done. case_decide; [congruence|done].
Qed.

End PlaceRemove.

Lemma total_record (op : string) (piece : Placement) (s : SearchState)
    (Q : bool → SearchState → Prop) :
  ¬ capped s →
  Q (bool_decide
       (capped (mkSearchState (grid s) (max_steps s)
                  (events s ++ [(op, piece)]))))
    (mkSearchState (grid s) (max_steps s) (events s ++ [(op, piece)])) →
  total (record op piece) s Q.
Proof.
  intros Hc HQ. pose proof (record_below_cap op piece s Hc) as Heq.
  cbv zeta in Heq. unfold total. rewrite Heq. by eexists _, _.
Qed.

(** What has happened between two states of a run: the cap is the same,
    the grid is still well formed, events were only appended, and playing
    the new events keeps the pieces shown in step with the grid. *)
Definition logged (s s' : SearchState) : Prop :=
  max_steps s' = max_steps s ∧ Board.wf (grid s')
  ∧ ∃ new, events s' = events s ++ new
      ∧ ∀ pm, shows pm (grid s) →
              shows (fold_left show_event new pm) (grid s').

Lemma logged_refl (s : SearchState) : Board.wf (grid s) → logged s s.
Proof.
  intros Hwf. split; [done|]. split; [done|]. exists [].
  split; [by rewrite app_nil_r|done].
Qed.

Lemma logged_trans (s1 s2 s3 : SearchState) :
  logged s1 s2 → logged s2 s3 → logged s1 s3.
Proof.
  intros (Hm1 & _ & n1 & He1 & Hs1) (Hm2 & Hwf & n2 & He2 & Hs2).
  split; [congruence|]. split; [done|]. exists (n1 ++ n2).
  split; [by rewrite He2, He1, app_assoc|].
  intros pm Hpm. rewrite fold_left_app. by apply Hs2, Hs1.
Qed.

Lemma logged_event (s : SearchState) (g' : Board.t)
    (ev : string * Placement) :
  Board.wf g' →
  (∀ pm, shows pm (grid s) → shows (show_event pm ev) g') →
  logged s (mkSearchState g' (max_steps s) (events s ++ [ev])).
Proof.
  intros Hwf Hshow. split; [done|]. split; [done|]. exists [ev].
  split; [done|]. intros pm Hpm. by apply Hshow.
Qed.

(** The outcome of [search]: [False] means that every placement was taken
    back below the cap; [True] that the cap is reached or the grid is
    full. *)
Definition search_post (s : SearchState) (b : bool) (s' : SearchState)
    : Prop :=
  logged s s'
  ∧ (b = false → grid s' = grid s ∧ ¬ capped s')
  ∧ (b = true → capped s' ∨ ∀ rc, ¬ Board.is_empty (grid s') rc).

(** The outcome of a loop body: fall through with the grid as it was, or
    [return True]. *)
Definition loop_post (s : SearchState) (r : option bool) (s' : SearchState)
    : Prop :=
  match r with
  | None => logged s s' ∧ grid s' = grid s ∧ ¬ capped s'
  | Some b => b = true ∧ search_post s true s'
  end.

Section Loops.

Variable fuel : nat.
Variable rec : M SearchState bool.
Hypothesis rec_spec :
  ∀ s, Board.wf (grid s) → (unused (grid s) < fuel)%nat →
       total rec s (search_post s).

Variable s0 : SearchState.
Hypothesis s0_wf : Board.wf (grid s0).
Hypothesis s0_fuel : (unused (grid s0) < S fuel)%nat.

Lemma search_try_cell (anchor : Coord) (name : string) (orient : Cells)
    (cell : Coord) (s : SearchState) :
  name ∈ sorted_names → name ∉ Board.used (grid s0) →
  loop_post s0 None s →
  total (try_cell rec anchor name orient cell) s (loop_post s0).
Proof.
  intros Hin Hname (Hlog & Hg & Hcap). unfold try_cell. cbn zeta.
  set (shifted := shift orient _ _).
  destruct (Board.can_place_spec (grid s0) shifted s0_wf)
    as (ok & Hok & Hempty).
  apply total_bind. eapply total_query; [by rewrite Hg|].
  destruct ok; cbn [negb]; [|by apply total_ret].
  specialize (Hempty eq_refl).
  destruct (Board.apply_place_spec name shifted (grid s0) s0_wf)
    as (g1 & Hp & Hwf1 & Hr1 & Hc1 & Hu1 & Hcell1).
  { intros rc Hrc. by apply Hempty. }
  apply total_bind. unfold on_grid at 1. eapply total_update.
  { unfold rbind. rewrite Hg, Hp. reflexivity. }
  apply total_bind, total_record; [done|].
  cbn [grid max_steps events].
  set (s3 := mkSearchState g1 _ _).
  assert (logged s s3) as Hlog3.
  { apply logged_event; [done|]. intros pm Hpm. rewrite Hg in Hpm.
    unfold show_event. cbn [fst snd]. rewrite decide_True by done.
    by apply (shows_place (grid s0) g1). }
  destruct (bool_decide (capped s3)) eqn:Hfull.
  { apply bool_decide_eq_true in Hfull. apply total_ret.
    split; [done|]. split; [by apply (logged_trans s0 s s3)|].
    split; [done|]. intros _. by left. }
  apply bool_decide_eq_false in Hfull. apply total_bind.
  eapply total_mono.
  { apply rec_spec; cbn [s3 grid]; [done|].
    pose proof (unused_place (grid s0) g1 name Hin Hname Hu1). lia. }
  intros found s4 (Hlog4 & Hfalse & Htrue). destruct found.
  { apply total_ret. split; [done|]. split.
    - apply (logged_trans s0 s s4); [done|].
      by apply (logged_trans s s3 s4).
    - split; [done|]. intros _. by apply Htrue. }
  destruct (Hfalse eq_refl) as [Hg4 Hcap4]. cbn [s3 grid] in Hg4.
  apply total_bind. unfold on_grid at 1. eapply total_update.
  { unfold rbind. rewrite Hg4.
    rewrite (Board.place_remove_restore name shifted (grid s0) g1 s0_wf
               Hempty Hname Hp). reflexivity. }
  apply total_bind, total_record; [done|].
  cbn [grid max_steps events].
  set (s6 := mkSearchState (grid s0) _ _).
  assert (logged s s6) as Hlog6.
  { destruct Hlog3 as (_ & _ & n3 & He3 & Hs3).
    destruct Hlog4 as (Hm4 & _ & n4 & He4 & Hs4).
    split; [cbn [s6 max_steps]; by rewrite Hm4|]. split; [done|].
    exists (n3 ++ n4 ++ [("remove"%string, (name, shifted))]).
    split; [cbn [s6 events]; by rewrite He4, He3, <- !app_assoc|].
    intros pm Hpm. rewrite !fold_left_app. cbn [fold_left s6 grid].
    unfold show_event at 1. cbn [fst snd]. rewrite decide_False by done.
    pose proof (Hs3 pm Hpm) as Hpm3. cbn [s3 grid] in Hpm3.
    pose proof (Hs4 _ Hpm3) as Hpm4. rewrite Hg4 in Hpm4.
    rewrite Hg in Hpm.
    assert (shows (fold_left show_event n3 pm) g1) as Hpm3' by done.
    clear Hpm3'.
    apply (shows_remove (grid s0) g1 name shifted Hname Hempty Hu1 Hcell1
             pm); done. }
  destruct (bool_decide (capped s6)) eqn:Hfull'.
  { apply bool_decide_eq_true in Hfull'. apply total_ret.
    split; [done|]. split; [by apply (logged_trans s0 s s6)|].
    split; [done|]. intros _. by left. }
  apply bool_decide_eq_false in Hfull'. apply total_ret.
  split; [by apply (logged_trans s0 s s6)|]. by split.
Qed.

Lemma search_try_name (anchor : Coord) (name : string) (s : SearchState) :
  name ∈ sorted_names → loop_post s0 None s →
  total (try_name rec anchor name) s (loop_post s0).
Proof.
  intros Hin Hinv. unfold try_name. apply total_bind, total_get.
  case_decide as Hused; [by apply total_ret|].
  destruct Hinv as (Hlog & Hg & Hcap). rewrite Hg in Hused.
  destruct (orientations_lookup name Hin) as (os & -> & _).
  apply (total_for_each (loop_post s0 None) (loop_post s0)); [done| |done].
  intros orient s1 _ Hinv1.
  apply (total_for_each (loop_post s0 None) (loop_post s0)); [done| |done].
  intros cell s2 _ Hinv2. by apply search_try_cell.
Qed.

End Loops.

Lemma search_total (fuel : nat) (s : SearchState) :
  Board.wf (grid s) → (unused (grid s) < fuel)%nat →
  total (search fuel) s (search_post s).
Proof.
  revert s. induction fuel as [|fuel IH]; intros s Hwf Hfuel; [lia|].
  cbn [search]. apply total_bind, total_get.
  case_decide as Hcap.
  { apply total_ret. split; [by apply logged_refl|].
    split; [done|]. intros _. by left. }
  destruct (Board.first_empty_spec (grid s) Hwf) as (o & Ho & Hnone).
  apply total_bind. eapply total_query; [exact Ho|].
  destruct o as [anchor|].
  2:{ apply total_ret. split; [by apply logged_refl|].
      split; [done|]. intros _. right. by apply Hnone. }
  apply total_bind. eapply total_mono.
  { apply (total_for_each (loop_post s None) (loop_post s)).
    - split; [by apply logged_refl|done].
    - intros name s1 Hname Hinv1.
      by apply (search_try_name fuel (search fuel) IH s Hwf).
    - done. }
  intros [b|] s1 Hpost; apply total_ret.
  - by destruct Hpost as [-> Hpost].
  - destruct Hpost as (Hlog1 & Hg1 & Hcap1). by split.
Qed.

(** X18: [search] returns, for every well-formed grid, within a recursion
    depth of one more than the number of unused pieces. It keeps the cap
    and only appends events. When it returns [False] the grid is the one
    it started with and the cap is not reached; when it returns [True]
    the cap is reached or no cell of the grid is empty. *)
Theorem search_returns (fuel : nat) (s : SearchState) :
  Board.wf (grid s) → (unused (grid s) < fuel)%nat →
  ∃ b s', (search fuel s).2 = Ok (b, s')
          ∧ max_steps s' = max_steps s
          ∧ (∃ new, events s' = events s ++ new)
          ∧ (b = false → grid s' = grid s ∧ ¬ capped s')
          ∧ (b = true →
             capped s' ∨ ∀ rc, ¬ Board.is_empty (grid s') rc).
Proof.
  intros Hwf Hfuel.
  destruct (search_total fuel s Hwf Hfuel)
    as (b & s' & Hrun & (Hmax & _ & new & Hev & _) & Hfalse & Htrue).
  exists b, s'. split; [done|]. split; [done|]. split; [by exists new|].
  by split.
Qed.

Lemma search_returns_witness :
  ∃ b s', (search 13 (init 6 10 100)).2 = Ok (b, s')
          ∧ max_steps s' = max_steps (init 6 10 100)
          ∧ (∃ new, events s' = events (init 6 10 100) ++ new)
          ∧ (b = false →
             grid s' = grid (init 6 10 100) ∧ ¬ capped s')
          ∧ (b = true →
             capped s' ∨ ∀ rc, ¬ Board.is_empty (grid s') rc).
Proof.
  apply (search_returns 13 (init 6 10 100)).
  - apply Board.init_wf.
  - vm_compute. lia.
Defined.

(** X19: the animation shows the grid that the search ended with. After
    [search] on a fresh state, whatever the size of the grid and the cap,
    playing [state.events] as [construct] does leaves in [placed_map]
    exactly the pieces that are on the grid: a name is a key of
    [placed_map] iff it is in [used], and a cell of the grid holds a name
    iff it is one of the cells stored under that name. *)
Theorem search_events_replay (fuel : nat) (rows cols max_steps : Z) :
  (12 < fuel)%nat →
  ∃ b s', (search fuel (init rows cols max_steps)).2 = Ok (b, s')
          ∧ shows (placed_map (events s')) (grid s').
Proof.
  intros Hfuel.
  destruct (search_total fuel (init rows cols max_steps))
    as (b & s' & Hrun & (_ & _ & new & Hev & Hshow) & _).
  - apply Board.init_wf.
  - pose proof (unused_le (grid (init rows cols max_steps))) as Hle.
    change (length sorted_names) with 12%nat in Hle. lia.
  - exists b, s'. split; [done|]. unfold placed_map. rewrite Hev.
    cbn [init events app]. apply Hshow. apply shows_init.
Qed.

Lemma search_events_replay_witness :
  ∃ b s', (search 13 (init 6 10 100)).2 = Ok (b, s')
          ∧ shows (placed_map (events s')) (grid s').
Proof. apply (search_events_replay 13 6 10 100). lia. Defined.

End SearchFacts.

(** ** [manim/pentomino_6x10_five.py]: what [solve] returns *)
Module SolverFacts.
Import Pentomino6x10Five.

Lemma post_for_each_in {S A B} (I : S → Prop) (Q : option B → S → Prop)
    (l : list A) (body : A → M S (option B)) (s : S) :
  I s →
  (∀ x s, x ∈ l → I s →
     Rect6x10DfsTree.post (body x) s (fun r s' =>
       match r with None => I s' | Some b => Q (Some b) s' end)) →
  (∀ s, I s → Q None s) →
  Rect6x10DfsTree.post (for_each l body) s Q.
Proof.
  intros HI Hbody Hend. revert s HI. induction l as [|x l IH]; intros s HI.
  - apply Rect6x10DfsTree.post_ret. by apply Hend.
  - cbn [for_each]. apply Rect6x10DfsTree.post_bind.
    eapply Rect6x10DfsTree.post_mono.
    { apply Hbody; [by apply elem_of_cons; left|done]. }
    intros [b|] s' Hr; [by apply Rect6x10DfsTree.post_ret|].
    apply IH; [|done]. intros y s0 Hy. apply Hbody.
    by apply elem_of_cons; right.
Qed.

(** All the cells of a [rows] x [cols] grid. *)
Lemma NoDup_list_prod {A B} (l : list A) (k : list B) :
  NoDup l → NoDup k → NoDup (list_prod l k).
Proof.
  intros Hl Hk. induction Hl as [|a l Ha Hl IH]; [constructor|].
  cbn [list_prod]. apply NoDup_app. split; [|split; [|done]].
  - assert (Inj (=) (=) (pair (B := B) a)) by (by intros x y [=]).
    by apply (NoDup_fmap_2 (pair a)).
  - intros [x y] Hin Hin'. apply list_elem_of_fmap in Hin as (z & [= -> ->] & _).
    apply list_elem_of_In, in_prod_iff in Hin' as [Hx _].
    by apply Ha, list_elem_of_In.
Qed.

Lemma grid_cells_length (rows cols : Z) (l : list Coord) :
  NoDup l →
  (∀ rc, rc ∈ l ↔ (0 ≤ rc.1 ∧ rc.1 < rows) ∧ (0 ≤ rc.2 ∧ rc.2 < cols)) →
  length l = (Z.to_nat rows * Z.to_nat cols)%nat.
Proof.
  intros Hnd Hl.
  assert (l ≡ₚ list_prod (range rows) (range cols)) as Hperm.
  { apply NoDup_Permutation; [done| |].
    - apply NoDup_list_prod; unfold range;
        apply (NoDup_fmap_2 Z.of_nat), NoDup_seq.
    - intros [r c]. rewrite Hl. cbn [fst snd].
      rewrite <- (Board.elem_of_range rows r), <- (Board.elem_of_range cols c).
      rewrite !list_elem_of_In. symmetry. apply in_prod_iff. }
  apply Permutation_length in Hperm. rewrite Hperm.
  etransitivity; [apply (length_prod (range rows) (range cols))|].
  unfold range. by rewrite !length_map, !length_seq.
Qed.

(** A placement of a piece: the name of a pentomino with one of its
    orientations, moved on the grid. *)
Definition placement_ok (p : Placement) : Prop :=
  p.1 ∈ sorted_names
  ∧ ∃ os o dr dc, dict_get ORIENTATIONS p.1 = Some os ∧ o ∈ os
                  ∧ p.2 = shift o dr dc.

Lemma placement_ok_cells (p : Placement) :
  placement_ok p → length p.2 = 5%nat ∧ NoDup p.2.
Proof.
  intros (Hin & os & o & dr & dc & Hos & Ho & ->).
  destruct (orientations_lookup p.1 Hin) as (os' & Hos' & Hall).
  rewrite Hos in Hos'. injection Hos' as <-.
  destruct (Hall o Ho) as [Hnd Hlen].
  split; [by rewrite shift_length|by apply shift_NoDup].
Qed.

Lemma concat_length_five (sol : list Placement) :
  Forall placement_ok sol →
  length (concat (map snd sol)) = (5 * length sol)%nat.
Proof.
  induction 1 as [|p sol Hp _ IH]; [done|].
  cbn [map concat length]. rewrite length_app, IH.
  destruct (placement_ok_cells p Hp) as [-> _]. lia.
Qed.

(** Loops whose body, when it falls through, has established a fact
    [P x] about the element tried: after the loop [P] holds of all. *)
Lemma total_for_each_all {S A B} (I : S → Prop) (P : A → Prop)
    (Q : option B → S → Prop) (l : list A) (body : A → M S (option B))
    (s : S) :
  I s →
  (∀ x s, x ∈ l → I s →
     total (body x) s (fun r s' =>
       match r with None => I s' ∧ P x | Some b => Q (Some b) s' end)) →
  (∀ s, I s → (∀ x, x ∈ l → P x) → Q None s) →
  total (for_each l body) s Q.
Proof.
  revert s. induction l as [|x l IH]; intros s HI Hbody Hend.
  - apply total_ret. apply Hend; [done|]. by intros x ?%elem_of_nil.
  - cbn [for_each]. apply total_bind.
    eapply total_mono; [apply Hbody; [by apply elem_of_cons; left|done]|].
    intros [b|] s' Hr; cbv beta iota in Hr.
    + by apply total_ret.
    + destruct Hr as [HI' HP]. apply IH; [done| |].
      * intros y s0 Hy. apply Hbody. by apply elem_of_cons; right.
      * intros s0 HI0 Hall. apply Hend; [done|].
        intros y [->|Hy]%elem_of_cons; auto.
Qed.

(** *** Tilings of the empty cells by pentominoes *)

(** [sol] tiles the empty cells of [g] with unused pentominoes. *)
Definition pento_cover (g : Board.t) (sol : list Placement) : Prop :=
  exact_cover g sol ∧ Forall placement_ok sol.

(** Some tiling of the empty cells of [g] contains the placement [p]. *)
Definition starts (g : Board.t) (p : Placement) : Prop :=
  ∃ rest, pento_cover g (p :: rest).

Lemma concat_respects_perm {A} (l k : list (list A)) :
  l ≡ₚ k → concat l ≡ₚ concat k.
Proof.
  induction 1 as [|x l k _ IH|x y l|l k m _ IH1 _ IH2]; cbn [concat].
  - done.
  - by rewrite IH.
  - rewrite !app_assoc. by rewrite (Permutation_app_comm y x).
  - by rewrite IH1.
Qed.

Lemma pento_cover_perm (g : Board.t) (sol sol' : list Placement) :
  sol ≡ₚ sol' → pento_cover g sol → pento_cover g sol'.
Proof.
  intros Hp [(Hnd & Hcov & Hnames & Hunused) Hok].
  assert (concat (map snd sol) ≡ₚ concat (map snd sol')) as Hc
    by (by apply concat_respects_perm, fmap_Permutation).
  assert (map fst sol ≡ₚ map fst sol') as Hn by (by apply fmap_Permutation).
  split; [split; [|split; [|split]]|].
  - by rewrite <- Hc.
  - intros rc. rewrite <- Hc. apply Hcov.
  - by rewrite <- Hn.
  - intros n Hin. apply Hunused. by rewrite Hn.
  - by rewrite <- Hp.
Qed.

(** In a tiling the placement that covers a given empty cell is a piece
    not yet used, in one of its orientations, with one of its cells put
    on that cell: one of the candidates that [solve] tries there. *)
Lemma pento_cover_anchor (g : Board.t) (sol : list Placement)
    (anchor : Coord) :
  pento_cover g sol → Board.is_empty g anchor →
  ∃ name os orient cell,
    name ∈ sorted_names ∧ name ∉ Board.used g
    ∧ dict_get ORIENTATIONS name = Some os ∧ orient ∈ os ∧ cell ∈ orient
    ∧ starts g (name, shift orient (anchor.1 - cell.1) (anchor.2 - cell.2)).
Proof.
  intros Hcover Hempty. pose proof Hcover as [(_ & Hcov & _ & Hunused) Hok].
  apply Hcov in Hempty.
  apply list_elem_of_In, in_concat in Hempty as (cells & Hcells & Ha).
  apply list_elem_of_In, list_elem_of_fmap in Hcells as (p & -> & Hp).
  apply list_elem_of_In in Ha.
  rewrite Forall_forall in Hok.
  destruct (Hok p Hp) as (Hin & os & o & dr & dc & Hos & Ho & Hcells).
  rewrite Hcells in Ha. unfold shift in Ha.
  apply list_elem_of_fmap in Ha as (cell & Hanchor & Hcell).
  exists p.1, os, o, cell. split; [done|]. split.
  { apply Hunused. apply list_elem_of_fmap. by exists p. }
  split; [done|]. split; [done|]. split; [done|].
  apply elem_of_Permutation in Hp as [rest Hrest]. exists rest.
  apply (pento_cover_perm g sol); [|done]. rewrite Hrest.
  replace (p.1, shift o (anchor.1 - cell.1) (anchor.2 - cell.2)) with p;
    [done|].
  destruct p as [name cells]. cbn [fst snd] in *. f_equal. rewrite Hcells.
  rewrite Hanchor. cbn [fst snd]. f_equal; lia.
Qed.

Lemma starts_cells_empty (g : Board.t) (p : Placement) :
  starts g p → ∀ rc, rc ∈ p.2 → Board.is_empty g rc.
Proof.
  intros [rest [(_ & Hcov & _) _]] rc Hrc. apply Hcov.
  cbn [map concat]. apply elem_of_app. by left.
Qed.

(** What is left of a tiling once its first placement is on the grid. *)
Lemma starts_rest (g g1 : Board.t) (name : string) (cells : Cells) :
  starts g (name, cells) →
  Board.rows g1 = Board.rows g → Board.cols g1 = Board.cols g →
  Board.used g1 = {[name]} ∪ Board.used g →
  (∀ rc, 0 ≤ rc.1 → 0 ≤ rc.2 →
     Board.cell (Board.board g1) rc =
       if decide (rc ∈ cells) then Some (Some name)
       else Board.cell (Board.board g) rc) →
  ∃ rest, pento_cover g1 rest.
Proof.
  intros [rest [(Hnd & Hcov & Hnames & Hunused) Hok]] Hr Hc Hu Hcell.
  exists rest. cbn [map concat fst snd] in *.
  apply NoDup_app in Hnd as (Hnd1 & Hdisj & Hnd2).
  apply NoDup_cons in Hnames as [Hname Hnames].
  apply Forall_cons in Hok as [_ Hok].
  assert (∀ rc, Board.is_empty g1 rc ↔ Board.is_empty g rc ∧ rc ∉ cells)
    as Hiff.
  { intros rc. unfold Board.is_empty, Board.in_range. rewrite Hr, Hc.
    split.
    - intros [Hin Hce]. rewrite Hcell in Hce by lia.
      case_decide; [done|]. done.
    - intros [[Hin Hce] Hnot]. split; [done|]. rewrite Hcell by lia.
      case_decide; [contradiction|done]. }
  split; [split; [done|split; [|split; [done|]]]|done].
  - intros rc. rewrite Hiff, <- Hcov, elem_of_app. split.
    + intros Hin. split; [by right|]. intros Hin'. by apply (Hdisj rc).
    + intros [[?|?] ?]; [contradiction|done].
  - intros n Hn. rewrite Hu. intros [->%elem_of_singleton|Hused]%elem_of_union.
    + contradiction.
    + revert Hused. apply Hunused. by apply elem_of_cons; right.
Qed.

Lemma first_empty_is_empty (g : Board.t) (anchor : Coord) :
  Board.wf g → Board.first_empty g = Ok (Some anchor) →
  Board.is_empty g anchor.
Proof.
  intros Hwf Hfirst.
  destruct (GridFacts.first_empty_rows_seq g 0 (Z.to_nat (Board.rows g)) Hwf)
    as (o & Ho & Hspec); [lia|].
  unfold Board.first_empty, range in Hfirst. rewrite Ho in Hfirst.
  injection Hfirst as ->. by destruct Hspec as [? _].
Qed.

(** A tiling of the 6 x 10 grid by the twelve pieces. *)
Definition tiling_6x10 : list Placement :=
  [ ("F"%string, [(0, 0); (0, 1); (1, 1); (1, 2); (2, 1)]);
    ("I"%string, [(0, 2); (0, 3); (0, 4); (0, 5); (0, 6)]);
    ("L"%string, [(0, 7); (1, 4); (1, 5); (1, 6); (1, 7)]);
    ("Z"%string, [(0, 8); (0, 9); (1, 8); (2, 7); (2, 8)]);
    ("V"%string, [(1, 0); (2, 0); (3, 0); (3, 1); (3, 2)]);
    ("Y"%string, [(1, 3); (2, 2); (2, 3); (2, 4); (2, 5)]);
    ("N"%string, [(1, 9); (2, 9); (3, 8); (3, 9); (4, 8)]);
    ("X"%string, [(2, 6); (3, 5); (3, 6); (3, 7); (4, 6)]);
    ("T"%string, [(3, 3); (4, 3); (5, 2); (5, 3); (5, 4)]);
    ("W"%string, [(3, 4); (4, 4); (4, 5); (5, 5); (5, 6)]);
    ("P"%string, [(4, 0); (4, 1); (4, 2); (5, 0); (5, 1)]);
    ("U"%string, [(4, 7); (4, 9); (5, 7); (5, 8); (5, 9)]) ].

(** Decides [placement_ok] for a placement whose cells are listed in the
    order of the orientation. *)
Definition placement_check (p : Placement) : bool :=
  bool_decide (p.1 ∈ sorted_names)
  && match dict_get ORIENTATIONS p.1 with
     | Some os =>
         existsb (fun o : Cells =>
           match o, p.2 with
           | c0 :: _, d0 :: _ =>
               bool_decide (p.2 = shift o (d0.1 - c0.1) (d0.2 - c0.2))
           | _, _ => false
           end) os
     | None => false
     end.

Lemma placement_check_ok (p : Placement) :
  placement_check p = true → placement_ok p.
Proof.
  unfold placement_check. intros [Hin Hex]%andb_true_iff.
  apply bool_decide_eq_true in Hin. split; [done|].
  destruct (dict_get ORIENTATIONS p.1) as [os|]; [|done].
  apply existsb_exists in Hex as (o & Ho & Heq).
  exists os, o. destruct o as [|c0 o']; [done|].
  destruct (p.2) as [|d0 cells]; [done|].
  apply bool_decide_eq_true in Heq.
  exists (d0.1 - c0.1), (d0.2 - c0.2).
  split; [done|]. split; [by apply list_elem_of_In|done].
Qed.

Lemma tiling_6x10_cover : pento_cover (Board.init 6 10) tiling_6x10.
Proof.
  split; [split; [|split; [|split]]|].
  - apply (bool_decide_unpack _). vm_compute. exact I.
  - intros rc. rewrite Board.init_is_empty. split.
    + assert (Forall (fun rc : Coord =>
                (0 ≤ rc.1 ∧ rc.1 < 6) ∧ (0 ≤ rc.2 ∧ rc.2 < 10))
                (concat (map snd tiling_6x10))) as Hall
        by (apply (bool_decide_unpack _); vm_compute; exact I).
      rewrite Forall_forall in Hall. apply Hall.
    + intros [Hr Hc].
      assert (Forall (fun rc : Coord => rc ∈ concat (map snd tiling_6x10))
                (list_prod (range 6) (range 10))) as Hall
        by (apply (bool_decide_unpack _); vm_compute; exact I).
      rewrite Forall_forall in Hall. apply Hall.
      destruct rc as [r c]. apply list_elem_of_In, in_prod_iff.
      split; apply list_elem_of_In, Board.elem_of_range; done.
  - apply (bool_decide_unpack _). vm_compute. exact I.
  - intros n _. apply not_elem_of_empty.
  - assert (forallb placement_check tiling_6x10 = true) as Hall
      by (vm_compute; reflexivity).
    rewrite forallb_forall in Hall. apply Forall_forall. intros p Hp.
    apply placement_check_ok, Hall. by apply list_elem_of_In.
Qed.

Section Solver.

Context {RNG : Type}.
Variable Random : Z → RNG.
Variable shuffle : ∀ A : Type, list A → RNG → list A * RNG.
Hypothesis shuffle_perm :
  ∀ (A : Type) (l : list A) (g : RNG), (shuffle A l g).1 ≡ₚ l.

Lemma post_rng_shuffle {A} (l : list A) (s : DFSSolver)
    (Q : list A → DFSSolver → Prop) :
  (∀ l' s', l' ≡ₚ l → Q l' s') →
  Rect6x10DfsTree.post (rng_shuffle shuffle l) s Q.
Proof.
  intros HQ l' s' Hr. unfold rng_shuffle in Hr.
  pose proof (shuffle_perm A l (rng s)) as Hp.
  destruct (shuffle A l (rng s)) as [l0 g0]. cbn [fst snd] in *.
  injection Hr as <- <-. by apply HQ.
Qed.

Definition pieces_post (r : option (list Placement))
    (_ : DFSSolver (RNG := RNG)) : Prop :=
  match r with
  | Some sol => Forall placement_ok sol
  | None => True
  end.

Lemma solve_rec_pieces (fuel : nat) (s : DFSSolver) :
  Rect6x10DfsTree.post (solve_rec shuffle fuel) s pieces_post.
Proof.
  revert s. induction fuel as [|fuel IH]; intros s;
    [apply Rect6x10DfsTree.post_out_of_fuel|].
  cbn [solve_rec]. apply Rect6x10DfsTree.post_bind, Rect6x10DfsTree.post_query.
  intros empty _. destruct empty as [anchor|];
    [|apply Rect6x10DfsTree.post_ret; constructor].
  apply Rect6x10DfsTree.post_bind, Rect6x10DfsTree.post_get.
  apply Rect6x10DfsTree.post_bind, post_rng_shuffle. intros names s1 Hnames.
  apply (post_for_each_in (fun _ => True) pieces_post); [done| |done].
  intros name s2 Hname _. rewrite Hnames in Hname.
  apply list_elem_of_filter in Hname as [_ Hin].
  unfold try_name. destruct (dict_get ORIENTATIONS name) as [os|] eqn:Hos;
    [|by intros r s' [=]].
  apply Rect6x10DfsTree.post_bind, post_rng_shuffle. intros os' s3 Hos'.
  apply (post_for_each_in (fun _ => True) pieces_post); [done| |done].
  intros orient s4 Horient _. rewrite Hos' in Horient. unfold try_orient.
  apply Rect6x10DfsTree.post_bind, post_rng_shuffle. intros anchors s5 _.
  apply (post_for_each_in (fun _ => True) pieces_post); [done| |done].
  intros cell s6 _ _. unfold try_anchor. cbn zeta.
  apply Rect6x10DfsTree.post_bind, Rect6x10DfsTree.post_query. intros ok _.
  destruct (negb ok); [by apply Rect6x10DfsTree.post_ret|].
  apply Rect6x10DfsTree.post_bind. unfold on_grid at 1.
  apply Rect6x10DfsTree.post_update. intros s7 _.
  apply Rect6x10DfsTree.post_bind.
  eapply Rect6x10DfsTree.post_mono; [apply IH|].
  intros [rest|] s8 Hrest.
  - apply Rect6x10DfsTree.post_ret. apply Forall_cons. split; [|done].
    split; [done|]. cbn [fst snd]. by eexists os, orient, _, _.
  - apply Rect6x10DfsTree.post_bind. unfold on_grid at 1.
    apply Rect6x10DfsTree.post_update. intros s9 _.
    by apply Rect6x10DfsTree.post_ret.
Qed.

(** What is known of a solution that [solve] returns on a fresh grid. *)
Lemma solve_solution_facts (rows cols sd : Z) (sol : list Placement)
    (s' : DFSSolver) :
  (solve shuffle (init Random rows cols sd)).2 = Ok (Some sol, s') →
  Forall placement_ok sol
  ∧ NoDup (map fst sol)
  ∧ (5 * length sol = Z.to_nat rows * Z.to_nat cols)%nat.
Proof.
  intros Hrun.
  pose proof (solve_rec_pieces _ _ _ _ Hrun) as Hpieces.
  pose proof (total_elim _ _ _ _ _
                (solve_total Random shuffle shuffle_perm rows cols sd) Hrun)
    as (Hnd & Hcov & Hnames & _).
  cbn [pieces_post] in Hpieces. split; [done|]. split; [done|].
  rewrite <- (concat_length_five sol Hpieces).
  apply grid_cells_length; [done|]. intros rc. rewrite Hcov.
  apply Board.init_is_empty.
Qed.


(** X20: a solution returned by [solve] on a fresh grid is made of
    pentominoes: each placement names one of the twelve pieces and its
    cells are one of the orientations of that piece moved on the grid, so
    five distinct cells; no piece is named twice, and the solution has
    [rows * cols / 5] placements. *)
Theorem solve_places_pentominoes (rows cols sd : Z) (sol : list Placement)
    (s' : DFSSolver) :
  (solve shuffle (init Random rows cols sd)).2 = Ok (Some sol, s') →
  Forall placement_ok sol
  ∧ Forall (fun p : Placement => length p.2 = 5%nat ∧ NoDup p.2) sol
  ∧ NoDup (map fst sol)
  ∧ (5 * length sol = Z.to_nat rows * Z.to_nat cols)%nat.
Proof.
  intros Hrun.
  destruct (solve_solution_facts rows cols sd sol s' Hrun)
    as (Hpieces & Hnames & Hlen).
  split; [done|]. split; [|by split].
  eapply Forall_impl; [exact Hpieces|]. apply placement_ok_cells.
Qed.

(** X21: on a grid whose number of cells is not a multiple of 5, or is
    above 60, [solve] returns [None], and it leaves the grid as it was:
    every placement it tried has been removed again. *)
Theorem solve_none_on_bad_area (rows cols sd : Z) :
  ((Z.to_nat rows * Z.to_nat cols) mod 5 ≠ 0
   ∨ 60 < Z.to_nat rows * Z.to_nat cols)%nat →
  ∃ s', (solve shuffle (init Random rows cols sd)).2 = Ok (None, s')
        ∧ grid s' = Board.init rows cols.
Proof.
  intros Harea.
  destruct (solve_total Random shuffle shuffle_perm rows cols sd)
    as (r & s' & Hrun & Hpost).
  destruct r as [sol|]; [exfalso|by exists s'].
  destruct (solve_solution_facts rows cols sd sol s' Hrun)
    as (Hpieces & Hnames & Hlen).
  assert (length sol ≤ 12)%nat as Hle.
  { replace (length sol) with (length (map fst sol)) by apply length_map.
    change 12%nat with (length sorted_names).
    apply submseteq_length, NoDup_submseteq; [done|].
    intros name (p & -> & Hp)%list_elem_of_fmap.
    rewrite Forall_forall in Hpieces. by destruct (Hpieces p Hp). }
  rewrite <- Hlen in Harea. destruct Harea as [Hmod|Hbig]; [|lia].
  apply Hmod. rewrite Nat.mul_comm. apply Nat.Div0.mod_mul.
Qed.

(** *** Completeness of [solve] *)

(** Outcome of a call entered with grid [g]: a cover of the empty cells,
    or [None] with the grid as it was when no tiling exists. *)
Definition complete_post (g : Board.t) (r : option (list Placement))
    (s' : DFSSolver (RNG := RNG)) : Prop :=
  match r with
  | None => grid s' = g ∧ ∀ sol, ¬ pento_cover g sol
  | Some sol => exact_cover g sol
  end.

Section Complete.

Variable fuel : nat.
Variable rec : M (DFSSolver (RNG := RNG)) (option (list Placement)).
Hypothesis rec_spec :
  ∀ s : DFSSolver (RNG := RNG),
    Board.wf (grid s) → (unused (grid s) < fuel)%nat →
    total rec s (complete_post (grid s)).

Variable g0 : Board.t.
Hypothesis g0_wf : Board.wf g0.
Hypothesis g0_fuel : (unused g0 < S fuel)%nat.

Variable anchor : Coord.
Variable name : string.
Hypothesis name_piece : name ∈ sorted_names.
Hypothesis name_unused : name ∉ Board.used g0.

(** The candidate that puts cell [cell] of [orient] on the anchor. *)
Definition candidate (orient : Cells) (cell : Coord) : Placement :=
  (name, shift orient (anchor.1 - cell.1) (anchor.2 - cell.2)).

Lemma try_anchor_complete (orient : Cells) (cell : Coord) (s : DFSSolver) :
  grid s = g0 → NoDup orient →
  total (try_anchor rec anchor name orient cell) s (fun r s' =>
    match r with
    | None => grid s' = g0 ∧ ¬ starts g0 (candidate orient cell)
    | Some sol => exact_cover g0 sol
    end).
Proof.
  intros Hg Hnd. unfold try_anchor, candidate.
  set (shifted := shift orient _ _).
  destruct (Board.can_place_spec g0 shifted g0_wf) as (ok & Hok & Hempty).
  apply total_bind. eapply total_query; [by rewrite Hg|].
  destruct ok; cbn [negb].
  2:{ apply total_ret. split; [done|]. intros Hstarts.
      pose proof (starts_cells_empty _ _ Hstarts) as Hall. cbn [snd] in Hall.
      rewrite (GridFacts.can_place_complete g0 shifted g0_wf Hall) in Hok.
      done. }
  specialize (Hempty eq_refl).
  destruct (Board.apply_place_spec name shifted g0 g0_wf)
    as (g1 & Hp & Hwf1 & Hr1 & Hc1 & Hu1 & Hcell1).
  { intros rc Hrc. by apply Hempty. }
  apply total_bind. eapply total_update.
  { unfold rbind. rewrite Hg, Hp. reflexivity. }
  apply total_bind.
  eapply total_mono.
  { apply rec_spec; cbn [grid]; [done|].
    pose proof (unused_place g0 g1 name name_piece name_unused Hu1). lia. }
  cbn [grid]. intros [rest|] s2 Hpost; cbn [complete_post] in Hpost.
  - apply total_ret.
    eapply exact_cover_cons; eauto. by apply shift_NoDup.
  - destruct Hpost as [Hg2 Hnone].
    apply total_bind. eapply total_update.
    { rewrite Hg2.
      by rewrite (Board.place_remove_restore name shifted g0 g1
                    g0_wf Hempty name_unused Hp). }
    apply total_ret. cbn [grid]. split; [done|]. intros Hstarts.
    destruct (starts_rest g0 g1 name shifted Hstarts Hr1 Hc1 Hu1 Hcell1)
      as [rest Hrest].
    by apply (Hnone rest).
Qed.

Lemma try_orient_complete (orient : Cells) (s : DFSSolver) :
  grid s = g0 → NoDup orient →
  total (try_orient shuffle rec anchor name orient) s (fun r s' =>
    match r with
    | None => grid s' = g0
              ∧ ∀ cell, cell ∈ orient → ¬ starts g0 (candidate orient cell)
    | Some sol => exact_cover g0 sol
    end).
Proof.
  intros Hg Hnd. unfold try_orient.
  apply total_bind.
  apply (total_rng_shuffle shuffle shuffle_perm).
  intros anchors s1 Hperm Hg1.
  apply (total_for_each_all (fun s => grid s = g0)
           (fun cell => ¬ starts g0 (candidate orient cell))).
  - congruence.
  - intros cell s2 _ Hg2. by apply try_anchor_complete.
  - intros s2 Hg2 Hall. split; [done|]. intros cell Hcell.
    apply Hall. by rewrite Hperm.
Qed.

Lemma try_name_complete (s : DFSSolver) :
  grid s = g0 →
  total (try_name shuffle rec anchor name) s (fun r s' =>
    match r with
    | None => grid s' = g0
              ∧ ∀ os orient cell,
                  dict_get ORIENTATIONS name = Some os → orient ∈ os →
                  cell ∈ orient → ¬ starts g0 (candidate orient cell)
    | Some sol => exact_cover g0 sol
    end).
Proof.
  intros Hg. unfold try_name.
  destruct (orientations_lookup name name_piece) as (os & Hos & Hall).
  rewrite Hos. apply total_bind.
  apply (total_rng_shuffle shuffle shuffle_perm).
  intros os' s1 Hperm Hg1.
  apply (total_for_each_all (fun s => grid s = g0)
           (fun orient =>
              ∀ cell, cell ∈ orient → ¬ starts g0 (candidate orient cell))).
  - congruence.
  - intros orient s2 Ho Hg2. apply try_orient_complete; [done|].
    rewrite Hperm in Ho. by apply Hall.
  - intros s2 Hg2 Hnone. split; [done|].
    intros os0 orient cell [= <-] Ho Hcell.
    apply (Hnone orient); [by rewrite Hperm|done].
Qed.

End Complete.

Lemma solve_rec_complete (fuel : nat) (s : DFSSolver) :
  Board.wf (grid s) → (unused (grid s) < fuel)%nat →
  total (solve_rec shuffle fuel) s (complete_post (grid s)).
Proof.
  revert s. induction fuel as [|fuel IH]; intros s Hwf Hfuel; [lia|].
  cbn [solve_rec].
  destruct (Board.first_empty_spec (grid s) Hwf) as (o & Ho & Hnone).
  apply total_bind. eapply total_query; [exact Ho|].
  destruct o as [anchor|].
  - apply total_bind. apply total_get.
    apply total_bind.
    apply (total_rng_shuffle shuffle shuffle_perm).
    intros names s1 Hperm Hg1.
    apply (total_for_each_all (fun s' => grid s' = grid s)
             (fun name =>
                ∀ os orient cell,
                  dict_get ORIENTATIONS name = Some os → orient ∈ os →
                  cell ∈ orient →
                  ¬ starts (grid s) (candidate anchor name orient cell))).
    + done.
    + intros name s2 Hname Hg2. rewrite Hperm in Hname.
      apply list_elem_of_filter in Hname as [Hunused Hin].
      by apply (try_name_complete fuel (solve_rec shuffle fuel) IH (grid s)).
    + intros s2 Hg2 Hall. split; [done|]. intros sol Hsol.
      destruct (pento_cover_anchor (grid s) sol anchor Hsol)
        as (name & os & orient & cell & Hin & Hunused & Hos & Horient
            & Hcell & Hstarts).
      { by apply first_empty_is_empty. }
      apply (Hall name) with (os := os) in Hstarts; [done| |done|done|done].
      rewrite Hperm. by apply list_elem_of_filter.
  - apply total_ret. cbn [complete_post]. apply exact_cover_nil.
    by apply Hnone.
Qed.

(** On a fresh grid that the pentominoes can tile, [solve] finds a
    tiling, whatever the generator does. *)
Lemma solve_finds (rows cols sd : Z) (tiling : list Placement) :
  pento_cover (Board.init rows cols) tiling →
  ∃ sol s', (solve shuffle (init Random rows cols sd)).2 = Ok (Some sol, s').
Proof.
  intros Htiling.
  destruct (solve_rec_complete (S (length sorted_names))
              (init Random rows cols sd)) as (r & s' & Hrun & Hpost).
  { apply Board.init_wf. }
  { pose proof (unused_le (grid (init Random rows cols sd))). lia. }
  destruct r as [sol|]; [by exists sol, s'|].
  destruct Hpost as [_ Hnone]. by destruct (Hnone tiling).
Qed.

(** X27: [solve] is complete.  On a fresh grid it returns; what it
    returns is a tiling of the grid by unused pentominoes, or [None] with
    the grid as it was, and [None] only when the pentominoes cannot tile
    the grid.  The 6 x 10 grid of the scene can be tiled, so there every
    run finds a solution, whatever the seed and the generator. *)
Theorem solve_complete (rows cols sd : Z) :
  (∃ r s', (solve shuffle (init Random rows cols sd)).2 = Ok (r, s')
           ∧ match r with
             | Some sol => pento_cover (Board.init rows cols) sol
             | None =>
                 grid s' = Board.init rows cols
                 ∧ ∀ tiling, ¬ pento_cover (Board.init rows cols) tiling
             end)
  ∧ (∃ sol s', (solve shuffle (init Random 6 10 sd)).2 = Ok (Some sol, s')).
Proof.
  split; [|exact (solve_finds 6 10 sd tiling_6x10 tiling_6x10_cover)].
  destruct (solve_rec_complete (S (length sorted_names))
              (init Random rows cols sd)) as (r & s' & Hrun & Hpost).
  { apply Board.init_wf. }
  { pose proof (unused_le (grid (init Random rows cols sd))). lia. }
  exists r, s'. split; [exact Hrun|].
  destruct r as [sol|]; [|exact Hpost].
  split; [exact Hpost|]. exact (solve_rec_pieces _ _ _ _ Hrun).
Qed.

(** The 6 x 10 grid can be tiled, so every attempt of
    [find_unique_solutions] finds a solution. *)
Lemma attempt_solution_found (attempt : Z) :
  ∃ sol s', (solve shuffle (init Random 6 10 (attempt + 1))).2
            = Ok (Some sol, s')
            ∧ attempt_solution Random shuffle attempt = Some sol.
Proof.
  destruct (solve_finds 6 10 (attempt + 1) tiling_6x10 tiling_6x10_cover)
    as (sol & s' & Hrun).
  exists sol, s'. split; [done|]. unfold attempt_solution. by rewrite Hrun.
Qed.

Lemma take_one_first_of_each (solutions : list (list Placement)) :
  take 1 (first_of_each [] solutions) = take 1 solutions.
Proof.
  destruct solutions as [|solution rest]; [done|]. cbn [first_of_each].
  by rewrite decide_False by (by intros ?%elem_of_nil).
Qed.

Lemma enough_small (count : Z) : count ≤ 1 → enough count = 1%nat.
Proof. unfold enough. lia. Qed.

(** With [count <= 1] and at least one attempt, what is collected is the
    solution of the first attempt. *)
Lemma collected_first (count max_attempts : Z) :
  count ≤ 1 → 1 ≤ max_attempts →
  ∃ sol s', (solve shuffle (init Random 6 10 1)).2 = Ok (Some sol, s')
            ∧ collected Random shuffle count max_attempts = [sol].
Proof.
  intros Hcount Hattempts.
  destruct (attempt_solution_found 0) as (sol & s' & Hrun & Hsol).
  exists sol, s'. split; [exact Hrun|].
  unfold collected. rewrite (enough_small count Hcount).
  rewrite take_one_first_of_each.
  destruct (range_app 1 max_attempts) as [later ->]; [lia|lia|].
  change (range 1) with [0]. cbn [app solutions_found]. by rewrite Hsol.
Qed.



(** X22: a [count] below 1 does not make [find_unique_solutions] return
    nothing: the test [len(unique) >= count] comes after the insertion,
    so for every [count <= 1] the result is the first solution that an
    attempt finds, and the empty list only when no attempt finds one.
    The 6 x 10 grid can be tiled, so the first attempt (seed 1) finds
    one: with at least one attempt the result is the list of exactly
    that solution, whatever the generator does. *)
Theorem find_unique_solutions_small_count (count max_attempts : Z) :
  count ≤ 1 →
  find_unique_solutions Random shuffle count max_attempts
  = Ok (take 1 (solutions_found Random shuffle (range max_attempts)))
  ∧ (1 ≤ max_attempts →
     ∃ sol s', (solve shuffle (init Random 6 10 1)).2 = Ok (Some sol, s')
               ∧ find_unique_solutions Random shuffle count max_attempts
                 = Ok [sol]).
Proof.
  intros Hcount.
  rewrite (find_unique_solutions_collects Random shuffle shuffle_perm).
  split.
  - unfold collected. rewrite (enough_small count Hcount).
    by rewrite take_one_first_of_each.
  - intros Hattempts.
    destruct (collected_first count max_attempts Hcount Hattempts)
      as (sol & s' & Hrun & ->).
    by exists sol, s'.
Qed.

End Solver.

Lemma solve_places_pentominoes_witness :
  Forall placement_ok strip_solution
  ∧ Forall (fun p : Placement => length p.2 = 5%nat ∧ NoDup p.2)
      strip_solution
  ∧ NoDup (map fst strip_solution)
  ∧ (5 * length strip_solution = Z.to_nat 1 * Z.to_nat 5)%nat.
Proof.
  destruct (fixed_solve_run 0) as [s' Hrun].
  exact (solve_places_pentominoes fixed_random fixed_shuffle
           fixed_shuffle_perm 1 5 0 strip_solution s' Hrun).
Defined.

Lemma solve_none_on_bad_area_witness :
  ∃ s', (solve fixed_shuffle (init fixed_random 2 3 0)).2 = Ok (None, s')
        ∧ grid s' = Board.init 2 3.
Proof.
  apply (solve_none_on_bad_area fixed_random fixed_shuffle
           fixed_shuffle_perm 2 3 0).
  left. vm_compute. lia.
Defined.

Lemma solve_complete_witness :
  ∃ sol s', (solve fixed_shuffle (init fixed_random 6 10 0)).2
            = Ok (Some sol, s').
Proof.
  exact (proj2 (solve_complete fixed_random fixed_shuffle fixed_shuffle_perm
                  6 10 0)).
Defined.


Lemma find_unique_solutions_small_count_witness :
  ∃ sol s', (solve fixed_shuffle (init fixed_random 6 10 1)).2
            = Ok (Some sol, s')
            ∧ find_unique_solutions fixed_random fixed_shuffle 0 1 = Ok [sol].
Proof.
  refine (proj2 (find_unique_solutions_small_count fixed_random
                   fixed_shuffle fixed_shuffle_perm 0 1 _) _); lia.
Defined.


End SolverFacts.

(** ** Two runs of a solver *)
Module Determinism.
Import Pentomino6x10Five.

(** *** The recursion budget of the model does not enter the result *)








Section OneGenerator.

Context {RNG : Type}.
Variable shuffle : ∀ A : Type, list A → RNG → list A * RNG.



End OneGenerator.

(** *** Two runs side by side *)










Section TwoRuns.

(** Each run has a generator object of its own.  The library is not part
    of the repository; what is assumed of it is that two generators seeded
    with the same integer are [alike], and that generators that are alike
    shuffle a list the same way and stay alike. *)
Context {RNG1 RNG2 : Type}.
Variable Random1 : Z → RNG1.
Variable Random2 : Z → RNG2.
Variable shuffle1 : ∀ A : Type, list A → RNG1 → list A * RNG1.
Variable shuffle2 : ∀ A : Type, list A → RNG2 → list A * RNG2.
Variable alike : RNG1 → RNG2 → Prop.
Hypothesis seeded_alike : ∀ seed, alike (Random1 seed) (Random2 seed).
Hypothesis shuffle_alike :
  ∀ (A : Type) (l : list A) (g1 : RNG1) (g2 : RNG2),
    alike g1 g2 →
    (shuffle1 A l g1).1 = (shuffle2 A l g2).1
    ∧ alike (shuffle1 A l g1).2 (shuffle2 A l g2).2.
Hypothesis shuffle1_perm :
  ∀ (A : Type) (l : list A) (g : RNG1), (shuffle1 A l g).1 ≡ₚ l.







End TwoRuns.




End Determinism.

(** ** [manim/triplication_dfs_tree.py]: the search on a tripled piece

    The file has, word for word, the [PIECES] table, [normalize],
    [unique_orientations], [ORIENTATIONS], [Problem], [Event], [key],
    [triplicate_piece_cells] and [has_only_five_multiple_void_regions] of
    [rect_6x10_dfs_tree.py], and the inner functions [first_empty],
    [can_place], [apply] and [unapply] of its [build_trace]; their
    definitions above are used again. *)
Module TriplicationDfsTree.
Import Rect6x10DfsTree.

(** [max(...)] over a list of integers; the empty case raises. *)
Definition py_max (l : list Z) : option Z :=
  match l with
  | [] => None
  | x :: l' => Some (fold_left Z.max l' x)
  end.

(** The nine cells that stand for one cell of the piece. *)
Definition triple_cell (rc : Coord) : Cells :=
  flat_map (fun dr => map (fun dc => (rc.1 * 3 + dr, rc.2 * 3 + dc)) (range 3))
           (range 3).

Definition triplicate_piece_cells (piece : string)
    : result (Z * Z * Cells) :=
  match dict_get PIECES piece with
  | None => Raise KeyError
  | Some base =>
      match py_max (map fst base), py_max (map snd base) with
      | Some mr, Some mc =>
          Ok ((mr + 1) * 3, (mc + 1) * 3, flat_map triple_cell base)
      | _, _ => Raise ValueError
      end
  end.

(** The wall-clock field [elapsed_ms] is left out. *)
Module NodeData.
Record t : Type := mk {
  node_id : Z;
  parent_id : option Z;
  depth : Z;
  board : gmap Coord string;
  children : list Z;
  explored_subnodes : Z;
}.

(** [node.children.append(nid)] *)
Definition append_child (nid : Z) (n : t) : t :=
  mk (node_id n) (parent_id n) (depth n) (board n) (children n ++ [nid])
     (explored_subnodes n).

(** [node.explored_subnodes = k] *)
Definition set_explored (k : Z) (n : t) : t :=
  mk (node_id n) (parent_id n) (depth n) (board n) (children n) k.
End NodeData.

Module TraceResult.
Record t : Type := mk {
  nodes : gmap Z NodeData.t;
  events : list Event.t;
}.
End TraceResult.

(** The variables of [build_trace] that its inner functions share. *)
Record TraceState : Type := mkTraceState {
  placed : Placed;
  nodes : gmap Z NodeData.t;
  events : list Event.t;
  next_node_id : Z;
  node_counter : Z;
}.

Definition on_placed (f : Placed → result Placed) : M TraceState unit :=
  update (fun s =>
    rbind (f (placed s)) (fun p =>
      Ok (mkTraceState p (nodes s) (events s) (next_node_id s)
            (node_counter s)))).

(** [ORIENTATIONS[name]] *)
Definition orientations_of (name : string) : M TraceState (list Cells) :=
  query (fun _ =>
    match dict_get ORIENTATIONS name with
    | Some os => Ok os
    | None => Raise KeyError
    end).

(** The exits of [dfs] that close the displayed node:
    [node = nodes[display_node_id]; node.explored_subnodes = k;
     events.append(Event("exit", display_node_id))]
    under [if display_node_id is not None]. *)
Definition close_node (display_node_id : option Z) (k : Z)
    : M TraceState unit :=
  match display_node_id with
  | None => ret tt
  | Some d =>
      update (fun s =>
        match nodes s !! d with
        | None => Raise KeyError
        | Some node =>
            Ok (mkTraceState (placed s)
                  (<[d := NodeData.set_explored k node]> (nodes s))
                  (events s ++ [Event.mk "exit" d])
                  (next_node_id s) (node_counter s))
        end)
  end.

Definition create_node (parent_id : option Z) (depth : Z)
    : M TraceState Z :=
  let* s0 := get in
  let nid := next_node_id s0 in
  do update (fun s =>
       let node :=
         NodeData.mk nid parent_id depth (board (placed s)) [] 0 in
       let nodes1 := <[nid := node]> (nodes s) in
       let events1 := events s ++ [Event.mk "enter" nid] in
       match parent_id with
       | None =>
           Ok (mkTraceState (placed s) nodes1 events1 (nid + 1)
                 (node_counter s))
       | Some p =>
           match nodes1 !! p with
           | None => Raise KeyError
           | Some pn =>
               Ok (mkTraceState (placed s)
                     (<[p := NodeData.append_child nid pn]> nodes1)
                     events1 (nid + 1) (node_counter s))
           end
       end) then
  ret nid.

Definition bump_node_counter : M TraceState unit :=
  update (fun s =>
    Ok (mkTraceState (placed s) (nodes s) (events s) (next_node_id s)
          (node_counter s + 1))).

Section Trace.

Variable problem : Problem.
Variable enable_pruning : bool.
Variables max_display_depth max_display_children max_nodes : Z.

Definition first_empty : M TraceState (option Coord) :=
  query (fun s =>
    Ok (first_empty_from (filled_keys (placed s)) (sorted_mask problem))).

Definition can_place (cells : Cells) : M TraceState bool :=
  query (fun s => Ok (can_place_in problem (filled_keys (placed s)) cells)).

(** [not (enable_pruning and not has_only_...(...))] *)
Definition passes_oracle : M TraceState bool :=
  if enable_pruning then
    query (fun s =>
      has_only_five_multiple_void_regions (rows problem) (cols problem)
        (allowed_keys problem) (filled_keys (placed s)) (sorted_mask problem))
  else ret true.

(** The body of the innermost loop of [dfs]. The local variables [acc] are
    [(subtree_nodes, shown_children)]; the result [r] of the recursive call
    is [((solved, child_count), aborted)]. *)
Definition try_cell
    (rec : Z → option Z → M TraceState (bool * Z * bool))
    (depth : Z) (display_node_id : option Z) (anchor : Coord)
    (name : string) (orient : Cells) (acc : Z * Z) (cell : Coord)
    : M TraceState ((Z * Z) + (bool * Z * bool)) :=
  let shifted := shift orient (anchor.1 - cell.1) (anchor.2 - cell.2) in
  let* ok := can_place shifted in
  if negb ok then ret (inl acc)
  else
    do on_placed (fun p => Ok (apply_piece name shifted p)) then
    let* passes := passes_oracle in
    if negb passes then
      do on_placed (unapply_piece name shifted) then
      ret (inl acc)
    else
      let* child_display_id :=
        (match display_node_id with
         | Some d =>
             if decide (depth < max_display_depth
                        ∧ acc.2 < max_display_children)
             then let* c := create_node (Some d) (depth + 1) in ret (Some c)
             else ret None
         | None => ret None
         end) in
      let shown_children :=
        match child_display_id with
        | Some _ => acc.2 + 1
        | None => acc.2
        end in
      let* r := rec (depth + 1) child_display_id in
      let subtree_nodes := acc.1 + r.1.2 in
      do on_placed (unapply_piece name shifted) then
      if r.2 then
        do close_node display_node_id (Z.max 0 (subtree_nodes - 1)) then
        ret (inr (false, subtree_nodes, true))
      else if r.1.1 then
        do close_node display_node_id (Z.max 0 (subtree_nodes - 1)) then
        ret (inr (true, subtree_nodes, false))
      else ret (inl (subtree_nodes, shown_children)).

(** The body of [for name in problem.selected_pieces]. *)
Definition try_name
    (rec : Z → option Z → M TraceState (bool * Z * bool))
    (depth : Z) (display_node_id : option Z) (anchor : Coord)
    (acc : Z * Z) (name : string)
    : M TraceState ((Z * Z) + (bool * Z * bool)) :=
  let* s := get in
  if decide (name ∈ used (placed s)) then ret (inl acc)
  else
    let* os := orientations_of name in
    for_acc os acc (fun acc orient =>
      for_acc orient acc
        (try_cell rec depth display_node_id anchor name orient)).

Fixpoint dfs (fuel : nat) (depth : Z) (display_node_id : option Z)
    : M TraceState (bool * Z * bool) :=
  match fuel with
  | O => out_of_fuel
  | S fuel' =>
      do bump_node_counter then
      let* s := get in
      if decide (max_nodes < node_counter s) then ret (false, 1, true)
      else
        let* anchor := first_empty in
        match anchor with
        | None =>
            do close_node display_node_id 0 then
            ret (true, 1, false)
        | Some anchor =>
            let* r :=
              for_acc (selected_pieces problem) (1, 0)
                (try_name (dfs fuel') depth display_node_id anchor) in
            match r with
            | inr res => ret res
            | inl acc =>
                do close_node display_node_id (Z.max 0 (acc.1 - 1)) then
                ret (false, acc.1, false)
            end
        end
  end.

Definition initial_state : TraceState :=
  mkTraceState (mkPlaced ∅ ∅ ∅) ∅ [] 0 0.

(** Every level of [dfs] below the first has one more of the selected
    pieces on the board. *)
Definition dfs_fuel : nat := S (length (selected_pieces problem)).

(** The body of [build_trace] up to the call of [dfs], whose result
    [build_trace] drops. *)
Definition root_dfs : M TraceState (bool * Z * bool) :=
  let* root_id := create_node None 0 in
  dfs dfs_fuel 0 (Some root_id).

Definition build_trace : result TraceResult.t :=
  match (root_dfs initial_state).2 with
  | Ok (_, s) => Ok (TraceResult.mk (nodes s) (events s))
  | Raise e => Raise e
  | OutOfFuel => OutOfFuel
  end.

End Trace.

(** *** [triplicate_piece_cells] *)

Lemma triple_cell_elem (rc x : Coord) :
  x ∈ triple_cell rc ↔ x.1 / 3 = rc.1 ∧ x.2 / 3 = rc.2.
Proof.
  destruct rc as [r c], x as [a b]. unfold triple_cell. cbn [fst snd].
  change (range 3) with [0; 1; 2]. cbn [flat_map map app].
  rewrite !elem_of_cons, elem_of_nil. split.
  - intros H. repeat destruct H as [H|H]; try done;
      injection H as -> ->; split; Z.div_mod_to_equations; lia.
  - intros [Ha Hb].
    pose proof (Z.div_mod a 3) as Ha'. pose proof (Z.mod_pos_bound a 3) as Ha2.
    pose proof (Z.div_mod b 3) as Hb'. pose proof (Z.mod_pos_bound b 3) as Hb2.
    rewrite Ha in Ha'. rewrite Hb in Hb'.
    assert (a mod 3 = 0 ∨ a mod 3 = 1 ∨ a mod 3 = 2) as Hra by lia.
    assert (b mod 3 = 0 ∨ b mod 3 = 1 ∨ b mod 3 = 2) as Hrb by lia.
    destruct Hra as [Hra|[Hra|Hra]], Hrb as [Hrb|[Hrb|Hrb]];
      rewrite Hra in Ha'; rewrite Hrb in Hb';
      [left|do 1 right; left|do 2 right; left|do 3 right; left
      |do 4 right; left|do 5 right; left|do 6 right; left
      |do 7 right; left|do 8 right; left]; f_equal; lia.
Qed.

(** What can be checked piece by piece. *)
Definition triplicate_ok (p : string * Cells) : bool :=
  match triplicate_piece_cells p.1 with
  | Ok (rows, cols, cells) =>
      bool_decide (cells = flat_map triple_cell p.2)
      && bool_decide (NoDup cells)
      && bool_decide (length cells = 45%nat)
      && forallb (fun rc : Coord =>
                    bool_decide (0 ≤ rc.1 < rows ∧ 0 ≤ rc.2 < cols)) cells
  | _ => false
  end.

Lemma triplicate_table_ok : forallb triplicate_ok PIECES = true.
Proof. vm_compute. reflexivity. Qed.

(** X23: [triplicate_piece_cells] raises [KeyError] for a name that is not
    in [PIECES]; for each of the twelve pieces it returns the piece at
    scale 3: 45 distinct cells, a cell [(r, c)] being one of them exactly
    when [(r // 3, c // 3)] is a cell of the piece, all of them inside the
    [rows] x [cols] bounds that it returns with them. *)
Theorem triplicate_piece_cells_spec (piece : string) :
  match dict_get PIECES piece with
  | None => triplicate_piece_cells piece = Raise KeyError
  | Some base =>
      ∃ rows cols cells,
        triplicate_piece_cells piece = Ok (rows, cols, cells)
        ∧ NoDup cells ∧ length cells = 45%nat
        ∧ (∀ x, x ∈ cells ↔ (x.1 / 3, x.2 / 3) ∈ base)
        ∧ (∀ x, x ∈ cells → in_bounds rows cols x)
  end.
Proof.
  destruct (dict_get PIECES piece) as [base|] eqn:Hbase.
  2:{ unfold triplicate_piece_cells. by rewrite Hbase. }
  pose proof triplicate_table_ok as Hok. rewrite forallb_forall in Hok.
  apply dict_get_elem, list_elem_of_In in Hbase.
  specialize (Hok _ Hbase). unfold triplicate_ok in Hok. cbn [fst snd] in Hok.
  destruct (triplicate_piece_cells piece) as [[[rows cols] cells]| |];
    [|done|done].
  apply andb_true_iff in Hok as [[[H1 H2]%andb_true_iff H3]%andb_true_iff H4].
  apply bool_decide_eq_true in H1, H2, H3.
  exists rows, cols, cells. split; [done|]. split; [done|]. split; [done|].
  split.
  - intros x. rewrite H1, list_elem_of_In, in_flat_map. split.
    + intros (rc & Hrc & Hx). apply list_elem_of_In in Hrc, Hx.
      apply triple_cell_elem in Hx as [-> ->]. by destruct rc.
    + intros Hx. exists (x.1 / 3, x.2 / 3).
      split; [by apply list_elem_of_In|].
      apply list_elem_of_In, triple_cell_elem. done.
  - intros x Hx. rewrite forallb_forall in H4.
    apply list_elem_of_In, H4, bool_decide_eq_true in Hx.
    unfold in_bounds. lia.
Qed.

(** *** Tilings of what is left of the mask *)

Lemma concat_Permutation {A} (l k : list (list A)) :
  l ≡ₚ k → concat l ≡ₚ concat k.
Proof.
  induction 1 as [|x l k _ IH|x y l|l k m _ IH1 _ IH2]; cbn [concat].
  - done.
  - by rewrite IH.
  - rewrite !app_assoc. by rewrite (Permutation_app_comm y x).
  - by rewrite IH1.
Qed.

Section Tilings.

Variable problem : Problem.

Notation mask := (mask_cells problem).
Notation allowed := (allowed_keys problem).

Lemma allowed_elem (rc : Coord) : key rc ∈ allowed ↔ rc ∈ mask.
Proof.
  unfold allowed_keys, mask_keys.
  rewrite elem_of_list_to_set, list_elem_of_fmap. split.
  - by intros (x & ->%(inj key) & Hx).
  - intros Hrc. by exists rc.
Qed.

(** [T] tiles the free cells of the mask with selected pieces that are
    not on the board, each at most once. *)
Definition tiling (p : Placed) (T : list Placement) : Prop :=
  covers_rest mask (filled_keys p) T
  ∧ NoDup T.*1
  ∧ Forall (fun pl : Placement =>
              pl.1 ∈ selected_pieces problem ∧ pl.1 ∉ used p) T.

Definition solvable (p : Placed) : Prop := ∃ T, tiling p T.

Lemma tiling_nil (p : Placed) :
  first_empty_from (filled_keys p) (sorted_mask problem) = None →
  tiling p [].
Proof.
  intros Hnone. split; [split; [constructor|split; [constructor|]]|].
  - intros rc. cbn. split; [by intros ?%elem_of_nil|].
    intros [Hrc Hfree]. destruct Hfree.
    apply (first_empty_from_None _ _ Hnone). unfold sorted_mask.
    by rewrite (sorted_perm mask).
  - split; constructor.
Qed.

Lemma tiling_full (p : Placed) (T : list Placement) :
  first_empty_from (filled_keys p) (sorted_mask problem) = None →
  tiling p T → Forall (fun pl : Placement => pl.2 = []) T.
Proof.
  intros Hnone ((_ & _ & Hcells) & _). apply Forall_forall. intros pl Hpl.
  destruct pl.2 as [|rc cells] eqn:Hpl2; [done|]. exfalso.
  assert (rc ∈ concat (snd <$> T)) as Hin.
  { apply list_elem_of_In, in_concat. exists pl.2. split.
    - apply list_elem_of_In, list_elem_of_fmap. by exists pl.
    - rewrite Hpl2. by left. }
  apply Hcells in Hin as [Hrc Hfree]. apply Hfree.
  apply (first_empty_from_None _ _ Hnone). unfold sorted_mask.
  by rewrite (sorted_perm mask).
Qed.

Lemma tiling_cons (p : Placed) (name : string) (cells : Cells)
    (T : list Placement) :
  name ∈ selected_pieces problem → name ∉ used p →
  piece_placed (name, cells) →
  (∀ rc, rc ∈ cells → key rc ∈ allowed ∧ key rc ∉ filled_keys p) →
  tiling (apply_piece name cells p) T →
  tiling p ((name, cells) :: T).
Proof.
  intros Hsel Hused Hpiece Hfree ((Hpieces & Hnd & Hcells) & Hnames & Hall).
  rewrite apply_piece_filled in Hcells.
  destruct (piece_placed_facts _ Hpiece) as (Hndc & _ & _).
  cbn [snd] in Hndc.
  assert (∀ rc, key rc ∈ (list_to_set (key <$> cells) : gset string)
                ↔ rc ∈ cells) as Hkeys.
  { intros rc. rewrite elem_of_list_to_set, list_elem_of_fmap. split.
    - by intros (x & ->%(inj key) & Hx).
    - intros Hrc. by exists rc. }
  split; [split; [|split]|split].
  - by apply Forall_cons.
  - cbn [fmap list_fmap concat snd]. apply NoDup_app. split; [done|].
    split; [|done]. intros rc Hrc [_ Hnot]%Hcells. apply Hnot.
    apply elem_of_union. left. by apply Hkeys.
  - intros rc. cbn [fmap list_fmap concat snd]. rewrite elem_of_app, Hcells.
    rewrite not_elem_of_union, Hkeys. split.
    + intros [Hrc|(Hrc & _ & Hf)]; [|done].
      destruct (Hfree rc Hrc) as [Ha Hf]. split; [by apply allowed_elem|done].
    + intros [Hrc Hf]. destruct (decide (rc ∈ cells)); [by left|by right].
  - cbn [fmap list_fmap fst]. apply NoDup_cons. split; [|done].
    intros (pl & Heq & Hpl)%list_elem_of_fmap.
    rewrite Forall_forall in Hall. destruct (Hall pl Hpl) as [_ Hn].
    apply Hn. rewrite apply_piece_used, <- Heq. set_solver.
  - apply Forall_cons. split; [done|].
    eapply Forall_impl; [exact Hall|]. intros pl [H1 H2]. split; [done|].
    intros Hu. apply H2. rewrite apply_piece_used. set_solver.
Qed.

Lemma tiling_head (p : Placed) (pl : Placement) (T : list Placement) :
  tiling p (pl :: T) →
  pl.1 ∈ selected_pieces problem ∧ pl.1 ∉ used p ∧ piece_placed pl
  ∧ ∀ rc, rc ∈ pl.2 → key rc ∈ allowed ∧ key rc ∉ filled_keys p.
Proof.
  intros ((Hpieces & Hnd & Hcells) & Hnames & Hall).
  apply Forall_cons in Hall as [[H1 H2] _].
  apply Forall_cons in Hpieces as [Hp _].
  split; [done|]. split; [done|]. split; [done|]. intros rc Hrc.
  destruct (Hcells rc) as [[Hm Hf] _].
  { cbn [fmap list_fmap concat]. apply elem_of_app. by left. }
  split; [by apply allowed_elem|done].
Qed.

Lemma tiling_tail (p : Placed) (pl : Placement) (T : list Placement) :
  tiling p (pl :: T) → tiling (apply_piece pl.1 pl.2 p) T.
Proof.
  intros ((Hpieces & Hnd & Hcells) & Hnames & Hall).
  cbn [fmap list_fmap concat] in Hnd, Hcells.
  apply NoDup_app in Hnd as (Hnd1 & Hdisj & Hnd2).
  apply Forall_cons in Hall as [[H1 H2] Hall].
  apply Forall_cons in Hpieces as [Hp Hpieces].
  cbn [fmap list_fmap] in Hnames. apply NoDup_cons in Hnames as [Hnew Hnames].
  assert (∀ rc, key rc ∈ (list_to_set (key <$> pl.2) : gset string)
                ↔ rc ∈ pl.2) as Hkeys.
  { intros rc. rewrite elem_of_list_to_set, list_elem_of_fmap. split.
    - by intros (x & ->%(inj key) & Hx).
    - intros Hrc. by exists rc. }
  split; [split; [done|split; [done|]]|split; [done|]].
  - intros rc. rewrite apply_piece_filled, not_elem_of_union, Hkeys. split.
    + intros Hrc. destruct (Hcells rc) as [[Hm Hf] _].
      { apply elem_of_app. by right. }
      split; [done|]. split; [|done]. intros Hin. by apply (Hdisj rc).
    + intros (Hm & Hout & Hf). destruct (Hcells rc) as [_ Hin].
      by apply elem_of_app in Hin as [?|?].
  - apply Forall_forall. intros q Hq. rewrite Forall_forall in Hall.
    destruct (Hall q Hq) as [Hq1 Hq2]. split; [done|].
    rewrite apply_piece_used, not_elem_of_union, not_elem_of_singleton.
    split; [|done]. intros Heq. apply Hnew, list_elem_of_fmap. by exists q.
Qed.

Lemma tiling_Permutation (p : Placed) (T T' : list Placement) :
  T ≡ₚ T' → tiling p T → tiling p T'.
Proof.
  intros HT ((Hpieces & Hnd & Hcells) & Hnames & Hall).
  assert (concat (snd <$> T) ≡ₚ concat (snd <$> T')) as Hc
    by (by apply concat_Permutation, fmap_Permutation).
  split; [split; [by rewrite <- HT|split]|split].
  - by rewrite <- Hc.
  - intros rc. rewrite <- Hc. apply Hcells.
  - by rewrite <- HT.
  - by rewrite <- HT.
Qed.

(** The piece of a tiling that covers the first free cell is one of the
    candidates that [dfs] tries there. *)
Lemma tiling_anchor (p : Placed) (T : list Placement) (anchor : Coord) :
  tiling p T → anchor ∈ mask → key anchor ∉ filled_keys p →
  ∃ name os orient cell T',
    dict_get ORIENTATIONS name = Some os ∧ orient ∈ os ∧ cell ∈ orient
    ∧ tiling p ((name, shift orient (anchor.1 - cell.1)
                         (anchor.2 - cell.2)) :: T').
Proof.
  intros HT Hm Hf. pose proof HT as ((_ & _ & Hcells) & _).
  destruct (Hcells anchor) as [_ Hin]. specialize (Hin (conj Hm Hf)).
  apply list_elem_of_In, in_concat in Hin as (cells & Hcs & Ha).
  apply list_elem_of_In, list_elem_of_fmap in Hcs as (pl & -> & Hpl).
  apply list_elem_of_In in Ha.
  apply elem_of_Permutation in Hpl as [T' HT'].
  apply (tiling_Permutation p T (pl :: T') HT') in HT.
  destruct (tiling_head p pl T' HT)
    as (_ & _ & (os & orient & dr & dc & Hos & Ho & Hshift) & _).
  rewrite Hshift in Ha. unfold shift in Ha.
  apply list_elem_of_fmap in Ha as (cell & Heq & Hcell).
  exists pl.1, os, orient, cell, T'. split; [done|]. split; [done|].
  split; [done|].
  replace (anchor.1 - cell.1) with dr by (rewrite Heq; cbn; lia).
  replace (anchor.2 - cell.2) with dc by (rewrite Heq; cbn; lia).
  rewrite <- Hshift. by destruct pl.
Qed.

End Tilings.

(** *** What [dfs] does *)

Definition set_placed (p : Placed) (s : TraceState) : TraceState :=
  mkTraceState p (nodes s) (events s) (next_node_id s) (node_counter s).

Lemma tri_set_placed_same (s : TraceState) : set_placed (placed s) s = s.
Proof. by destruct s. Qed.

Lemma tri_set_placed_back (p : Placed) (st s : TraceState) :
  placed st = placed s → set_placed (placed s) (set_placed p st) = st.
Proof. intros <-. by destruct st. Qed.

Lemma tri_total_on_placed (f : Placed → result Placed) (s : TraceState)
    (p' : Placed) (Q : unit → TraceState → Prop) :
  f (placed s) = Ok p' → Q tt (set_placed p' s) → total (on_placed f) s Q.
Proof.
  intros Hf HQ. unfold on_placed. eapply total_update; [|exact HQ].
  by rewrite Hf.
Qed.

Lemma tri_total_close_node (d k : Z) (n : NodeData.t) (s : TraceState)
    (Q : unit → TraceState → Prop) :
  nodes s !! d = Some n →
  Q tt (mkTraceState (placed s)
          (<[d := NodeData.set_explored k n]> (nodes s))
          (events s ++ [Event.mk "exit" d])
          (next_node_id s) (node_counter s)) →
  total (close_node (Some d) k) s Q.
Proof.
  intros Hd HQ. unfold close_node. eapply total_update; [|exact HQ].
  by rewrite Hd.
Qed.

(** The node that [create_node] makes. *)
Definition fresh_node (s : TraceState) (parent_id : option Z) (depth : Z)
    : NodeData.t :=
  NodeData.mk (next_node_id s) parent_id depth (board (placed s)) [] 0.

Lemma tri_total_create_root (depth : Z) (s : TraceState)
    (Q : Z → TraceState → Prop) :
  Q (next_node_id s)
    (mkTraceState (placed s)
       (<[next_node_id s := fresh_node s None depth]> (nodes s))
       (events s ++ [Event.mk "enter" (next_node_id s)])
       (next_node_id s + 1) (node_counter s)) →
  total (create_node None depth) s Q.
Proof.
  intros HQ. unfold create_node. apply total_bind, total_get.
  apply total_bind. eapply total_update; [reflexivity|].
  by apply total_ret.
Qed.

Lemma tri_total_create_child (p : Z) (pn : NodeData.t) (depth : Z)
    (s : TraceState) (Q : Z → TraceState → Prop) :
  nodes s !! p = Some pn → p ≠ next_node_id s →
  Q (next_node_id s)
    (mkTraceState (placed s)
       (<[p := NodeData.append_child (next_node_id s) pn]>
          (<[next_node_id s := fresh_node s (Some p) depth]> (nodes s)))
       (events s ++ [Event.mk "enter" (next_node_id s)])
       (next_node_id s + 1) (node_counter s)) →
  total (create_node (Some p) depth) s Q.
Proof.
  intros Hp Hne HQ. unfold create_node. apply total_bind, total_get.
  apply total_bind. eapply total_update; [|by apply total_ret].
  cbn zeta. rewrite lookup_insert_ne by done. by rewrite Hp.
Qed.

Section TriFacts.

Variable problem : Problem.
Variable enable_pruning : bool.
Variables max_display_depth max_display_children max_nodes : Z.

Notation allowed := (allowed_keys problem).

Lemma tri_total_passes_oracle (s : TraceState)
    (Q : bool → TraceState → Prop) :
  (∀ b, (if enable_pruning then
           has_only_five_multiple_void_regions (rows problem) (cols problem)
             allowed (filled_keys (placed s)) (sorted_mask problem) = Ok b
         else b = true) → Q b s) →
  total (passes_oracle problem enable_pruning) s Q.
Proof.
  intros HQ. unfold passes_oracle. destruct enable_pruning.
  - destruct (oracle_total (rows problem) (cols problem) (mask_cells problem)
                (filled_keys (placed s))) as [b Hb].
    eapply total_query; [exact Hb|by apply HQ].
  - apply total_ret. by apply HQ.
Qed.

(** The oracle looks for neighbours inside the bounds only: what it says
    is about the mask when the mask lies inside them. *)
Definition mask_ok : Prop :=
  enable_pruning = true →
  ∀ rc, rc ∈ mask_cells problem →
        in_bounds (rows problem) (cols problem) rc.

(** The display caps of a node. *)
Definition node_caps (n : NodeData.t) : Prop :=
  Z.of_nat (length (NodeData.children n)) ≤ Z.max 0 max_display_children
  ∧ NodeData.depth n ≤ Z.max 0 max_display_depth.

(** The node table holds the ids handed out so far, and every node keeps
    the display caps. *)
Definition nodes_ok (ns : gmap Z NodeData.t) (next : Z) : Prop :=
  (∀ id, is_Some (ns !! id) ↔ 0 ≤ id < next)
  ∧ ∀ id n, ns !! id = Some n → node_caps n.

Lemma tri_nodes_ok_explored (ns : gmap Z NodeData.t) (next d k : Z)
    (n : NodeData.t) :
  nodes_ok ns next → ns !! d = Some n →
  nodes_ok (<[d := NodeData.set_explored k n]> ns) next.
Proof.
  intros [Hdom Hcaps] Hd. split.
  - intros id. rewrite <- Hdom. destruct (decide (id = d)) as [->|Hne].
    + rewrite lookup_insert_eq, Hd. split; by eauto.
    + by rewrite lookup_insert_ne.
  - intros id m. destruct (decide (id = d)) as [->|Hne].
    + rewrite lookup_insert_eq. intros [= <-]. exact (Hcaps d n Hd).
    + rewrite lookup_insert_ne by done. apply Hcaps.
Qed.

Lemma tri_nodes_ok_child (ns : gmap Z NodeData.t) (next d : Z)
    (n child : NodeData.t) :
  nodes_ok ns next → ns !! d = Some n →
  Z.of_nat (length (NodeData.children n)) + 1 ≤ max_display_children →
  NodeData.children child = [] →
  NodeData.depth child ≤ max_display_depth →
  nodes_ok (<[d := NodeData.append_child next n]> (<[next := child]> ns))
    (next + 1).
Proof.
  intros [Hdom Hcaps] Hd Hfan Hnil Hdepth.
  assert (0 ≤ d < next) as Hdr by (apply Hdom; by eauto).
  split.
  - intros id. destruct (decide (id = d)) as [->|Hne].
    + rewrite lookup_insert_eq. split; [lia|by eauto].
    + rewrite lookup_insert_ne by done.
      destruct (decide (id = next)) as [->|Hne'].
      * rewrite lookup_insert_eq. split; [lia|by eauto].
      * rewrite lookup_insert_ne by done. rewrite Hdom. lia.
  - intros id m. destruct (decide (id = d)) as [->|Hne].
    + rewrite lookup_insert_eq. intros [= <-].
      destruct (Hcaps d n Hd) as [_ Hdep]. split; [|done].
      cbn [NodeData.append_child NodeData.children]. rewrite length_app.
      cbn [length]. lia.
    + rewrite lookup_insert_ne by done.
      destruct (decide (id = next)) as [->|Hne'].
      * rewrite lookup_insert_eq. intros [= <-]. split; [|lia].
        rewrite Hnil. cbn [length]. lia.
      * rewrite lookup_insert_ne by done. apply Hcaps.
Qed.

(** What a frame of [dfs] that displays [display] keeps of the table. *)
Definition frame_ok (s : TraceState) (display : option Z) (st : TraceState)
    : Prop :=
  placed st = placed s
  ∧ nodes_ok (nodes st) (next_node_id st)
  ∧ next_node_id s ≤ next_node_id st
  ∧ match display with
    | Some d => ∀ id, id < d → nodes st !! id = nodes s !! id
    | None =>
        nodes st = nodes s ∧ events st = events s
        ∧ next_node_id st = next_node_id s
    end.

(** The events of a frame so far, or of a whole call. *)
Definition events_ok (s : TraceState) (display : option Z)
    (tail : list Event.t) (st : TraceState) : Prop :=
  match display with
  | Some d => ∃ mid, events st = events s ++ mid ++ tail ∧ balanced mid
  | None => True
  end.

(** The result [r] of [dfs] is [((solved, child_count), aborted)]. *)
Definition dfs_post (s : TraceState) (display : option Z)
    (r : bool * Z * bool) (s' : TraceState) : Prop :=
  frame_ok s display s'
  ∧ (r.2 = true →
     r.1.1 = false
     ∧ node_counter s' = Z.max max_nodes (node_counter s) + 1)
  ∧ (r.2 = false →
     node_counter s < node_counter s' ≤ max_nodes
     ∧ events_ok s display
         (match display with Some d => [Event.mk "exit" d] | None => [] end)
         s')
  ∧ (r.1.1 = true → solvable problem (placed s))
  ∧ (r.1.1 = false → r.2 = false → mask_ok →
     ¬ solvable problem (placed s)).

Definition dfs_pre (fuel : nat) (display : option Z) (s : TraceState)
    : Prop :=
  board_ok (placed s)
  ∧ nodes_ok (nodes s) (next_node_id s)
  ∧ (unused_count problem (placed s) < fuel)%nat
  ∧ match display with
    | Some d => ∃ m, nodes s !! d = Some m ∧ NodeData.children m = []
    | None => True
    end.

(** The loops of a frame: the local variables are
    [(subtree_nodes, shown_children)]. *)
Definition loop_ok (s : TraceState) (display : option Z) (acc : Z * Z)
    (st : TraceState) : Prop :=
  frame_ok s display st
  ∧ match display with
    | Some d =>
        ∃ n', nodes st !! d = Some n'
              ∧ Z.of_nat (length (NodeData.children n')) = acc.2
    | None => True
    end
  ∧ node_counter s < node_counter st ≤ max_nodes
  ∧ events_ok s display [] st.


Lemma tri_close_frame {A} (s : TraceState) (display : option Z) (k : Z)
    (r : bool * Z * bool) (st : TraceState) (v : A)
    (Q : A → TraceState → Prop) :
  frame_ok s display st →
  match display with
  | Some d => is_Some (nodes st !! d)
  | None => True
  end →
  (r.2 = true →
   r.1.1 = false ∧ node_counter st = Z.max max_nodes (node_counter s) + 1) →
  (r.2 = false →
   node_counter s < node_counter st ≤ max_nodes ∧ events_ok s display [] st) →
  (r.1.1 = true → solvable problem (placed s)) →
  (r.1.1 = false → r.2 = false → mask_ok → ¬ solvable problem (placed s)) →
  (∀ st', dfs_post s display r st' → Q v st') →
  total (do close_node display k then ret v) st Q.
Proof.
  intros (Hpl & Hnok & Hnext & Hunch) Hd Hab Hok Hsol Hnosol HQ.
  destruct display as [d|].
  - destruct Hd as [n Hd].
    eapply total_bind, tri_total_close_node; [exact Hd|]. apply total_ret.
    apply HQ. split; [|split; [done|split; [|done]]].
    + split; [done|]. cbn [nodes next_node_id].
      split; [by apply tri_nodes_ok_explored|]. split; [done|].
      intros id Hid. rewrite lookup_insert_ne by lia. by apply Hunch.
    + intros Hr. destruct (Hok Hr) as (Hcnt & mid & Hev & Hbal).
      split; [done|]. exists mid. cbn [events]. split; [|done].
      rewrite Hev, app_nil_r. by rewrite <- app_assoc.
  - cbn [close_node]. apply total_bind, total_ret, total_ret. apply HQ.
    split; [done|]. split; [done|]. split; [|done].
    intros Hr. by destruct (Hok Hr).
Qed.

Section Frame.

Variable fuel : nat.
Variable rec : Z → option Z → M TraceState (bool * Z * bool).
Hypothesis rec_spec :
  ∀ depth display st,
    dfs_pre fuel display st → total (rec depth display) st (dfs_post st display).

Variable s : TraceState.
Variable depth : Z.
Variable anchor : Coord.
Hypothesis s_board : board_ok (placed s).
Hypothesis s_fuel : (unused_count problem (placed s) < S fuel)%nat.

(** The placements with which a tiling of the free cells can start (of
    interest when the oracle can be trusted). *)
Definition starts (pl : Placement) : Prop :=
  mask_ok ∧ ∃ T', tiling problem (placed s) (pl :: T').

(** The state in which [dfs] is called for a placement: the piece is on
    the board and the child node, if there is one, is entered. *)
Definition child_ok (display : option Z) (acc : Z * Z) (st : TraceState)
    (p1 : Placed) (child : option Z) (st2 : TraceState) : Prop :=
  placed st2 = p1
  ∧ nodes_ok (nodes st2) (next_node_id st2)
  ∧ next_node_id st ≤ next_node_id st2
  ∧ node_counter st2 = node_counter st
  ∧ match child with
    | Some c =>
        (∃ m, nodes st2 !! c = Some m ∧ NodeData.children m = [])
        ∧ events st2 = events st ++ [Event.mk "enter" c]
        ∧ ∃ d n', display = Some d ∧ d < c
                  ∧ (∀ id, id < d → nodes st2 !! id = nodes st !! id)
                  ∧ nodes st2 !! d = Some n'
                  ∧ Z.of_nat (length (NodeData.children n')) = acc.2 + 1
    | None =>
        nodes st2 = nodes st ∧ events st2 = events st
        ∧ next_node_id st2 = next_node_id st
    end.

Lemma tri_create_child_total (display : option Z) (acc : Z * Z)
    (st : TraceState) (p1 : Placed) :
  loop_ok s display acc st →
  total (match display with
         | Some d =>
             if decide (depth < max_display_depth
                        ∧ acc.2 < max_display_children)
             then let* c := create_node (Some d) (depth + 1) in ret (Some c)
             else ret None
         | None => ret None
         end) (set_placed p1 st)
    (child_ok display acc st p1).
Proof.
  intros ((Hpl & Hnok & Hnext & Hunch) & Hnode & Hcnt & Hev).
  assert (child_ok display acc st p1 None (set_placed p1 st)) as Hnone.
  { split; [done|]. split; [done|]. split; [cbn; lia|]. by split. }
  destruct display as [d|]; [|by apply total_ret].
  case_decide as Hshow; [|by apply total_ret].
  destruct Hnode as (n' & Hn' & Hlen). destruct Hshow as [Hdepth Hshown].
  assert (0 ≤ d < next_node_id st) as Hd
    by (apply (proj1 Hnok); by eauto).
  apply total_bind.
  eapply tri_total_create_child; [exact Hn'|cbn; lia|].
  apply total_ret. unfold child_ok.
  cbn [set_placed placed nodes events next_node_id node_counter].
  split; [done|]. split.
  { apply tri_nodes_ok_child; [done|done|lia|done|cbn; lia]. }
  split; [lia|]. split; [done|]. split.
  { eexists. rewrite lookup_insert_ne by lia.
    rewrite lookup_insert_eq. by split. }
  split; [done|]. exists d, (NodeData.append_child (next_node_id st) n').
  split; [done|]. split; [lia|]. split.
  { intros id Hid. by rewrite !lookup_insert_ne by lia. }
  split; [by rewrite lookup_insert_eq|].
  cbn [NodeData.append_child NodeData.children]. rewrite length_app.
  cbn [length]. lia.
Qed.

Lemma tri_try_cell_total (display : option Z) (name : string)
    (os : list Cells) (orient : Cells) (acc : Z * Z) (cell : Coord)
    (st : TraceState) :
  name ∈ selected_pieces problem → name ∉ used (placed s) →
  dict_get ORIENTATIONS name = Some os → orient ∈ os →
  loop_ok s display acc st →
  total (try_cell problem enable_pruning max_display_depth
           max_display_children rec depth display anchor name orient acc
           cell) st
    (fun r st' =>
       match r with
       | inl acc' =>
           loop_ok s display acc' st'
           ∧ ¬ starts (name, shift orient (anchor.1 - cell.1)
                              (anchor.2 - cell.2))
       | inr res => dfs_post s display res st'
       end).
Proof.
  intros Hsel Hused Hos Ho Hloop. unfold try_cell. cbn zeta.
  set (shifted := shift orient (anchor.1 - cell.1) (anchor.2 - cell.2)).
  pose proof Hloop as ((Hpl & Hnok & Hnext & Hunch) & Hnode & Hcnt & Hev).
  apply total_bind. eapply total_query; [reflexivity|]. rewrite Hpl.
  destruct (can_place_in problem (filled_keys (placed s)) shifted) eqn:Hfits;
    cbn [negb].
  2:{ apply total_ret. split; [done|]. intros [_ [T' HT]].
      destruct (tiling_head problem _ _ _ HT) as (_ & _ & _ & Hcells).
      pose proof (TraceFacts.can_place_in_complete problem _ _ Hcells)
        as Hyes. cbn [snd] in Hyes. congruence. }
  pose proof (can_place_in_spec problem _ _ Hfits) as Hcells.
  destruct (ORIENTATIONS_facts _ _ _ Hos Ho) as (Hnd & Hlen & _).
  assert (NoDup shifted) as Hnds by (by apply shift_NoDup).
  assert (piece_placed (name, shifted)) as Hpiece.
  { exists os, orient, (anchor.1 - cell.1), (anchor.2 - cell.2). by split. }
  assert (unapply_piece name shifted (apply_piece name shifted (placed s))
          = Ok (placed s)) as Hundo.
  { apply unapply_apply; [done|done|done|]. intros rc Hrc.
    by apply Hcells. }
  eapply total_bind, tri_total_on_placed; [reflexivity|]. rewrite Hpl.
  apply total_bind, tri_total_passes_oracle. intros passes Hpasses.
  cbn [set_placed placed] in Hpasses.
  destruct passes; cbn [negb].
  2:{ eapply total_bind, tri_total_on_placed; [exact Hundo|].
      apply total_ret. rewrite (tri_set_placed_back _ st s Hpl).
      split; [done|]. intros [Hmask [T' HT]].
      apply tiling_tail in HT as [Hcov _]. cbn [fst snd] in Hcov.
      unfold mask_ok in Hmask.
      destruct enable_pruning eqn:Hprune; [|done].
      pose proof (oracle_accepts_cover _ _ _ _ T' (Hmask eq_refl)
                    Hcov) as Hyes.
      unfold allowed_keys, sorted_mask in Hpasses. congruence. }
  set (p1 := apply_piece name shifted (placed s)).
  assert (board_ok p1) as Hb1 by (by apply apply_piece_board_ok).
  assert (unused_count problem p1 < fuel)%nat as Hfuel1.
  { pose proof (unused_count_apply problem name shifted (placed s) Hsel Hused).
    fold p1 in H. lia. }
  apply total_bind. eapply total_mono; [by apply tri_create_child_total|].
  intros child st2 (Hpl2 & Hnok2 & Hnext2 & Hcnt2 & Hchild).
  apply total_bind. eapply total_mono.
  { apply rec_spec. split; [by rewrite Hpl2|]. split; [done|].
    split; [by rewrite Hpl2|]. destruct child as [c|]; [|done].
    by destruct Hchild as (Hc & _). }
  intros r st3 ((Hpl3 & Hnok3 & Hnext3 & Hunch3) & Hab3 & Hok3 & Hsol3 & Hno3).
  eapply total_bind, tri_total_on_placed.
  { rewrite Hpl3, Hpl2. exact Hundo. }
  set (st4 := set_placed (placed s) st3).
  set (shown := match child with Some _ => acc.2 + 1 | None => acc.2 end).
  assert (frame_ok s display st4) as Hframe4.
  { split; [done|]. split; [done|]. split; [cbn; lia|].
    cbn [st4 set_placed nodes events next_node_id].
    destruct child as [c|].
    - destruct Hchild as (_ & _ & d & n' & -> & Hdc & Hsame & _).
      intros id Hid. rewrite Hunch3, Hsame by lia. by apply Hunch.
    - destruct Hchild as (Hn2 & He2 & Hx2).
      destruct Hunch3 as (Hn3 & He3 & Hx3).
      destruct display as [d|].
      + intros id Hid. rewrite Hn3, Hn2. by apply Hunch.
      + destruct Hunch as (Hn & He & Hx).
        split; [congruence|]. split; [congruence|lia]. }
  assert (match display with
          | Some d =>
              ∃ n', nodes st4 !! d = Some n'
                    ∧ Z.of_nat (length (NodeData.children n')) = shown
          | None => True
          end) as Hnode4.
  { cbn [st4 set_placed nodes]. destruct display as [d|]; [|done].
    destruct child as [c|].
    - destruct Hchild as (_ & _ & d' & n' & [= <-] & Hdc & _ & Hn' & Hlen').
      exists n'. split; [|done]. by rewrite Hunch3 by lia.
    - destruct Hchild as (Hn2 & _). destruct Hunch3 as (Hn3 & _).
      rewrite Hn3, Hn2. exact Hnode. }
  assert (r.2 = false →
          node_counter s < node_counter st4 ≤ max_nodes
          ∧ events_ok s display [] st4) as Hrun4.
  { intros Hr. destruct (Hok3 Hr) as [Hc3 He3].
    split; [cbn [st4 set_placed node_counter]; lia|].
    unfold events_ok in *. change (events st4) with (events st3).
    destruct display as [d|]; [|done]. destruct Hev as (mid & Hmid & Hbal).
    destruct child as [c|].
    - destruct Hchild as (_ & He2 & _). destruct He3 as (mid3 & Hmid3 & Hbal3).
      exists (mid ++ Event.mk "enter" c :: mid3 ++ [Event.mk "exit" c]).
      split; [|by apply balanced_snoc_node].
      rewrite Hmid3, He2, Hmid, !app_nil_r, <- !app_assoc. done.
    - destruct Hchild as (_ & He2 & _). destruct Hunch3 as (_ & He3' & _).
      exists mid. split; [|done]. by rewrite He3', He2. }
  assert (match display with
          | Some d => is_Some (nodes st4 !! d)
          | None => True
          end) as Hd4.
  { destruct display as [d|]; [|done].
    destruct Hnode4 as (n' & Hn' & _). by eauto. }
  destruct r as [[solved count] aborted]. cbn [fst snd] in *.
  destruct aborted.
  { apply (tri_close_frame s display _ (false, acc.1 + count, true) st4);
      [done|done| |done|done|done|done].
    intros _. split; [done|]. destruct (Hab3 eq_refl) as [_ Hc3].
    cbn [st4 set_placed node_counter]. lia. }
  destruct solved.
  { apply (tri_close_frame s display _ (true, acc.1 + count, false) st4);
      [done|done|done|by apply Hrun4| |done|done].
    intros _. destruct (Hsol3 eq_refl) as [T' HT']. rewrite Hpl2 in HT'.
    exists ((name, shifted) :: T'). by apply tiling_cons. }
  apply total_ret. split.
  - split; [done|]. split; [done|]. by apply Hrun4.
  - intros [Hmask [T' HT]]. apply tiling_tail in HT. cbn [fst snd] in HT.
    apply (Hno3 eq_refl eq_refl Hmask). rewrite Hpl2. by exists T'.
Qed.


Lemma tri_try_name_total (display : option Z) (acc : Z * Z) (name : string)
    (st : TraceState) :
  known_pieces problem → name ∈ selected_pieces problem →
  loop_ok s display acc st →
  total (try_name problem enable_pruning max_display_depth
           max_display_children rec depth display anchor acc name) st
    (fun r st' =>
       match r with
       | inl acc' =>
           loop_ok s display acc' st'
           ∧ ∀ os orient cell,
               dict_get ORIENTATIONS name = Some os → orient ∈ os →
               cell ∈ orient →
               ¬ starts (name, shift orient (anchor.1 - cell.1)
                                  (anchor.2 - cell.2))
       | inr res => dfs_post s display res st'
       end).
Proof.
  intros Hknown Hsel Hloop. unfold try_name. apply total_bind, total_get.
  pose proof Hloop as ((Hpl & _) & _). rewrite Hpl.
  case_decide as Hused.
  { apply total_ret. split; [done|]. intros os orient cell _ _ _ [_ [T' HT]].
    by destruct (tiling_head problem _ _ _ HT) as (_ & Hnot & _). }
  destruct (Hknown name Hsel) as [os Hos].
  apply total_bind. unfold orientations_of.
  eapply total_query; [by rewrite Hos|].
  apply (total_for_acc
           (fun rest acc' st' =>
              (∀ o, o ∈ rest → o ∈ os)
              ∧ loop_ok s display acc' st'
              ∧ ∀ orient cell, orient ∈ os → orient ∉ rest → cell ∈ orient →
                  ¬ starts (name, shift orient (anchor.1 - cell.1)
                                     (anchor.2 - cell.2)))).
  - split; [done|]. split; [done|]. by intros orient cell Ho Hno.
  - intros orient rest acc1 st1 (Hin & Hloop1 & Hdone).
    assert (orient ∈ os) as Ho by (apply Hin, elem_of_cons; by left).
    eapply total_mono.
    { apply (total_for_acc
               (fun rest' acc' st' =>
                  loop_ok s display acc' st'
                  ∧ ∀ cell, cell ∈ orient → cell ∉ rest' →
                      ¬ starts (name, shift orient (anchor.1 - cell.1)
                                         (anchor.2 - cell.2)))
               (fun r st' =>
                  match r with
                  | inl acc' =>
                      loop_ok s display acc' st'
                      ∧ ∀ cell, cell ∈ orient →
                          ¬ starts (name, shift orient (anchor.1 - cell.1)
                                             (anchor.2 - cell.2))
                  | inr res => dfs_post s display res st'
                  end)).
      - split; [done|]. by intros cell Hc Hnc.
      - intros cell rest' acc2 st2 (Hloop2 & Hdone2). eapply total_mono.
        + by apply (tri_try_cell_total display name os orient).
        + intros [acc3|res] st3; [|done]. intros [Hloop3 Hno].
          split; [done|]. intros c Hc Hnotin.
          destruct (decide (c = cell)) as [->|Hne]; [done|].
          apply Hdone2; [done|]. by intros [?|?]%elem_of_cons.
      - intros acc2 st2 (Hloop2 & Hdone2). split; [done|].
        intros cell Hc. apply Hdone2; [done|]. by intros ?%elem_of_nil. }
    intros [acc2|res] st2; [|done]. intros [Hloop2 Hno].
    split; [|split; [done|]].
    + intros o Ho'. apply Hin, elem_of_cons. by right.
    + intros o cell Ho' Hnotin Hc.
      destruct (decide (o = orient)) as [->|Hne]; [by apply Hno|].
      apply Hdone; [done| |done]. by intros [?|?]%elem_of_cons.
  - intros acc1 st1 (_ & Hloop1 & Hdone). split; [done|].
    intros os' orient cell Hos' Ho Hc. rewrite Hos in Hos'.
    injection Hos' as <-. apply Hdone; [done| |done].
    by intros ?%elem_of_nil.
Qed.

End Frame.

Lemma tri_dfs_total (fuel : nat) (depth : Z) (display : option Z)
    (s : TraceState) :
  known_pieces problem →
  dfs_pre fuel display s →
  total (dfs problem enable_pruning max_display_depth max_display_children
           max_nodes fuel depth display) s
    (dfs_post s display).
Proof.
  intros Hknown. revert depth display s.
  induction fuel as [|fuel IH]; intros depth display s (Hb & Hnok & Hfuel & Hd);
    [lia|].
  cbn [dfs]. apply total_bind. unfold bump_node_counter.
  eapply total_update; [reflexivity|].
  set (s1 := mkTraceState _ _ _ _ _).
  assert (frame_ok s display s1) as Hframe1.
  { split; [done|]. split; [done|]. split; [cbn; lia|].
    by destruct display. }
  apply total_bind, total_get. cbn [s1 node_counter]. fold s1.
  case_decide as Hover.
  { apply total_ret. split; [done|]. split; [|split; [done|by split]].
    intros _. split; [done|]. cbn [s1 node_counter]. lia. }
  assert (node_counter s < node_counter s1 ≤ max_nodes) as Hcnt1
    by (cbn [s1 node_counter]; lia).
  assert (events_ok s display [] s1) as Hev1.
  { destruct display as [d|]; [|done]. exists [].
    split; [by rewrite !app_nil_r|constructor]. }
  assert (match display with
          | Some d => is_Some (nodes s1 !! d)
          | None => True
          end) as Hd1.
  { destruct display as [d|]; [|done]. destruct Hd as (m & Hm & _).
    by eauto. }
  apply total_bind. eapply total_query; [reflexivity|].
  cbn [s1 placed]. fold s1.
  destruct (first_empty_from _ _) as [anchor|] eqn:Hanchor.
  2:{ apply (tri_close_frame s display 0 (true, 1, false) s1);
        [done|done|done|done| |done|done].
      intros _. exists []. by apply tiling_nil. }
  apply first_empty_from_Some in Hanchor as [Hmask Hfree].
  unfold sorted_mask in Hmask. rewrite (sorted_perm _) in Hmask.
  apply total_bind. eapply total_mono.
  { apply (total_for_acc
             (fun rest acc st =>
                (∀ n, n ∈ rest → n ∈ selected_pieces problem)
                ∧ loop_ok s display acc st
                ∧ ∀ name os orient cell,
                    name ∈ selected_pieces problem → name ∉ rest →
                    dict_get ORIENTATIONS name = Some os → orient ∈ os →
                    cell ∈ orient →
                    ¬ starts s (name, shift orient (anchor.1 - cell.1)
                                         (anchor.2 - cell.2)))
             (fun r st =>
                match r with
                | inl acc =>
                    loop_ok s display acc st
                    ∧ (mask_ok → ¬ solvable problem (placed s))
                | inr res => dfs_post s display res st
                end)).
    - split; [done|]. split; [|by intros name os orient cell Hsel Hno].
      split; [done|]. split; [|by split].
      destruct display as [d|]; [|done]. destruct Hd as (m & Hm & Hnil).
      exists m. split; [done|]. by rewrite Hnil.
    - intros name rest acc st (Hin & Hloop & Hdone).
      assert (name ∈ selected_pieces problem) as Hsel
        by (apply Hin, elem_of_cons; by left).
      eapply total_mono.
      + by apply (tri_try_name_total fuel
                    (dfs problem enable_pruning max_display_depth
                       max_display_children max_nodes fuel)
                    (fun depth' display' st' Hpre => IH depth' display' st' Hpre)
                    s depth anchor Hb Hfuel display).
      + intros [acc'|res] st'; [|done]. intros [Hloop' Hno].
        split; [|split; [done|]].
        * intros n Hn. apply Hin, elem_of_cons. by right.
        * intros n os orient cell Hsel' Hnotin Hos Ho Hc.
          destruct (decide (n = name)) as [->|Hne]; [by eapply Hno|].
          eapply Hdone; [done| |done|done|done].
          by intros [?|?]%elem_of_cons.
    - intros acc st (_ & Hloop & Hdone). split; [done|].
      intros Hok [T HT].
      destruct (tiling_anchor problem _ _ anchor HT Hmask Hfree)
        as (name & os & orient & cell & T' & Hos & Ho & Hc & HT').
      destruct (tiling_head problem _ _ _ HT') as (Hsel & _).
      apply (Hdone name os orient cell);
        [done| |done|done|done|by split; [|exists T']].
      by intros ?%elem_of_nil. }
  intros [acc|res] st; [|intros Hpost; by apply total_ret].
  intros (Hloop & Hnone).
  destruct Hloop as (Hframe & Hnode & Hcnt & Hev).
  apply (tri_close_frame s display _ (false, acc.1, false) st);
    [done| |done|done|done|by intros _ _|done].
  destruct display as [d|]; [|done]. destruct Hnode as (n' & Hn' & _).
  by eauto.
Qed.


(** The mask can be tiled with selected pieces, each used at most once. *)
Definition tileable : Prop :=
  ∃ T : list Placement,
    Forall piece_placed T
    ∧ NoDup (concat T.*2)
    ∧ (∀ rc, rc ∈ concat T.*2 ↔ rc ∈ mask_cells problem)
    ∧ NoDup T.*1
    ∧ Forall (fun pl : Placement => pl.1 ∈ selected_pieces problem) T.

Lemma tileable_solvable : tileable ↔ solvable problem (mkPlaced ∅ ∅ ∅).
Proof.
  split.
  - intros (T & Hp & Hnd & Hc & Hn & Hs). exists T.
    split; [split; [done|split; [done|]]|split; [done|]].
    + intros rc. rewrite Hc. cbn [filled_keys]. split; [|tauto].
      intros Hrc. split; [done|]. apply not_elem_of_empty.
    + eapply Forall_impl; [exact Hs|]. intros pl Hpl. split; [done|].
      apply not_elem_of_empty.
  - intros (T & (Hp & Hnd & Hc) & Hn & Hs). exists T.
    split; [done|]. split; [done|]. split; [|split; [done|]].
    + intros rc. rewrite Hc. cbn [filled_keys]. split; [tauto|].
      intros Hrc. split; [done|]. apply not_elem_of_empty.
    + eapply Forall_impl; [exact Hs|]. by intros pl [Hpl _].
Qed.

(** What [build_trace] has done when its call of [dfs] returns. *)
Definition root_post (r : bool * Z * bool) (s' : TraceState) : Prop :=
  nodes_ok (nodes s') (next_node_id s')
  ∧ (r.2 = true →
     r.1.1 = false ∧ node_counter s' = Z.max max_nodes 0 + 1)
  ∧ (r.2 = false →
     0 < node_counter s' ≤ max_nodes
     ∧ ∃ mid, events s' = Event.mk "enter" 0 :: mid ++ [Event.mk "exit" 0]
              ∧ balanced mid)
  ∧ (r.1.1 = true → tileable)
  ∧ (r.1.1 = false → r.2 = false → mask_ok → ¬ tileable).

Lemma tri_root_dfs_total :
  known_pieces problem →
  total (root_dfs problem enable_pruning max_display_depth
           max_display_children max_nodes) initial_state root_post.
Proof.
  intros Hknown. unfold root_dfs.
  eapply total_bind, tri_total_create_root.
  cbn [initial_state next_node_id placed nodes events node_counter].
  set (s1 := mkTraceState _ _ _ _ _).
  eapply total_mono.
  { apply (tri_dfs_total (dfs_fuel problem) 0 (Some 0) s1 Hknown).
    split; [|split; [|split]].
    - intros rc. cbn [s1 placed board filled_keys]. rewrite lookup_empty.
      split; [by intros [? ?]|by intros ?%elem_of_empty].
    - cbn [s1 nodes next_node_id]. split.
      + intros id. destruct (decide (id = 0)) as [->|Hne].
        * rewrite lookup_insert_eq. split; [lia|by eauto].
        * rewrite lookup_insert_ne, lookup_empty by done.
          split; [by intros [? ?]|lia].
      + intros id n. destruct (decide (id = 0)) as [->|Hne].
        * rewrite lookup_insert_eq. intros [= <-]. split; cbn; lia.
        * by rewrite lookup_insert_ne, lookup_empty.
    - pose proof (unused_count_le problem (placed s1)). unfold dfs_fuel. lia.
    - eexists. cbn [s1 nodes]. rewrite lookup_insert_eq. by split. }
  intros r s' ((_ & Hnok & _) & Hab & Hok & Hsol & Hno).
  cbn [s1 node_counter placed events] in *.
  split; [done|]. split; [done|]. split; [|split].
  - intros Hr. destruct (Hok Hr) as (Hcnt & mid & Hev & Hbal).
    split; [done|]. exists mid. split; [|done]. by rewrite Hev.
  - intros Hr. by apply tileable_solvable, Hsol.
  - intros Hr1 Hr2 Hmask Htile. apply (Hno Hr1 Hr2 Hmask).
    by apply tileable_solvable.
Qed.

End TriFacts.


(** The problem of [TriplicationDFSTreeSeparate.construct]. *)
Definition scene_problem : result Problem :=
  rbind (triplicate_piece_cells "Z") (fun '(rows, cols, mask_cells) =>
    Ok (mkProblem rows cols mask_cells
          ["T"; "I"; "P"; "X"; "W"; "U"; "Y"; "N"; "V"]%string)).

Definition z_problem : Problem :=
  mkProblem 9 9
    (flat_map triple_cell [(0, 0); (0, 1); (1, 1); (2, 1); (2, 2)])
    ["T"; "I"; "P"; "X"; "W"; "U"; "Y"; "N"; "V"]%string.

Lemma scene_problem_run : scene_problem = Ok z_problem.
Proof. vm_compute. reflexivity. Qed.

Lemma z_problem_known : known_pieces z_problem.
Proof. apply known_piecesb_correct. reflexivity. Qed.

Lemma z_problem_in_bounds (rc : Coord) :
  rc ∈ mask_cells z_problem → in_bounds 9 9 rc.
Proof.
  intros Hrc.
  assert (forallb (fun rc : Coord =>
                     bool_decide (0 ≤ rc.1 < 9 ∧ 0 ≤ rc.2 < 9))
            (mask_cells z_problem) = true) as Hall by (vm_compute; reflexivity).
  rewrite forallb_forall in Hall.
  apply list_elem_of_In, Hall, bool_decide_eq_true in Hrc.
  unfold in_bounds. lia.
Qed.

(** X24: this [build_trace] returns for every problem whose pieces are
    known. Its call of [dfs] reports an abort exactly when more than
    [max_nodes] calls were counted; otherwise the events start by entering
    node 0, end by exiting it and are well nested. The ids of the node
    table are the numbers below the number of nodes, no node has more
    than [max_display_children] children and none is deeper than
    [max_display_depth]. *)
Theorem triplication_trace_well_formed (problem : Problem)
    (enable_pruning : bool)
    (max_display_depth max_display_children max_nodes : Z) :
  known_pieces problem →
  ∃ r s,
    (root_dfs problem enable_pruning max_display_depth max_display_children
       max_nodes initial_state).2 = Ok (r, s)
    ∧ build_trace problem enable_pruning max_display_depth
        max_display_children max_nodes
      = Ok (TraceResult.mk (nodes s) (events s))
    ∧ (r.2 = true ↔ max_nodes < node_counter s)
    ∧ (r.2 = false →
       well_nested (events s) = true
       ∧ ∃ mid, events s
                = Event.mk "enter" 0 :: mid ++ [Event.mk "exit" 0])
    ∧ (∀ id, is_Some (nodes s !! id) ↔ 0 ≤ id < next_node_id s)
    ∧ ∀ id n, nodes s !! id = Some n →
        Z.of_nat (length (NodeData.children n)) ≤ Z.max 0 max_display_children
        ∧ NodeData.depth n ≤ Z.max 0 max_display_depth.
Proof.
  intros Hknown.
  destruct (tri_root_dfs_total problem enable_pruning max_display_depth
              max_display_children max_nodes Hknown)
    as (r & s & Hrun & [Hdom Hcaps] & Hab & Hok & _).
  exists r, s. split; [done|]. split; [unfold build_trace; by rewrite Hrun|].
  split; [|split; [|by split]].
  - split.
    + intros Hr. destruct (Hab Hr) as [_ Hcnt]. lia.
    + intros Hover. destruct (r.2); [done|].
      destruct (Hok eq_refl) as [Hcnt _]. lia.
  - intros Hr. destruct (Hok Hr) as (_ & mid & Hev & Hbal).
    split; [|by exists mid]. rewrite Hev. apply balanced_well_nested.
    apply (balanced_node 0 mid []); [done|constructor].
Qed.

Lemma triplication_trace_well_formed_witness :
  ∃ r s,
    (root_dfs z_problem true 3 3 1500000 initial_state).2 = Ok (r, s)
    ∧ build_trace z_problem true 3 3 1500000
      = Ok (TraceResult.mk (nodes s) (events s))
    ∧ (r.2 = true ↔ 1500000 < node_counter s)
    ∧ (r.2 = false →
       well_nested (events s) = true
       ∧ ∃ mid, events s
                = Event.mk "enter" 0 :: mid ++ [Event.mk "exit" 0])
    ∧ (∀ id, is_Some (nodes s !! id) ↔ 0 ≤ id < next_node_id s)
    ∧ ∀ id n, nodes s !! id = Some n →
        Z.of_nat (length (NodeData.children n)) ≤ Z.max 0 3
        ∧ NodeData.depth n ≤ Z.max 0 3.
Proof.
  exact (triplication_trace_well_formed z_problem true 3 3 1500000
           z_problem_known).
Defined.

(** X25: the search of this [build_trace] is correct. When [dfs] reports
    [solved], the mask can be tiled with selected pieces, each used at most
    once; and when it reports neither [solved] nor [aborted], it cannot,
    provided the mask lies inside the [rows] x [cols] bounds when pruning
    is on. *)
Theorem triplication_search_correct (problem : Problem)
    (enable_pruning : bool)
    (max_display_depth max_display_children max_nodes : Z) :
  known_pieces problem →
  mask_ok problem enable_pruning →
  ∃ solved count aborted s,
    (root_dfs problem enable_pruning max_display_depth max_display_children
       max_nodes initial_state).2 = Ok ((solved, count, aborted), s)
    ∧ (solved = true → tileable problem)
    ∧ (aborted = false → tileable problem → solved = true)
    ∧ (aborted = true → solved = false).
Proof.
  intros Hknown Hmask.
  destruct (tri_root_dfs_total problem enable_pruning max_display_depth
              max_display_children max_nodes Hknown)
    as ([[solved count] aborted] & s & Hrun & _ & Hab & _ & Hsol & Hno).
  cbn [fst snd] in *. exists solved, count, aborted, s.
  split; [done|]. split; [done|]. split.
  - intros Hr Htile. destruct solved; [done|].
    by destruct (Hno eq_refl Hr Hmask).
  - intros Hr. by destruct (Hab Hr).
Qed.

Lemma triplication_search_correct_witness :
  ∃ solved count aborted s,
    (root_dfs z_problem true 3 3 1500000 initial_state).2
    = Ok ((solved, count, aborted), s)
    ∧ (solved = true → tileable z_problem)
    ∧ (aborted = false → tileable z_problem → solved = true)
    ∧ (aborted = true → solved = false).
Proof.
  apply (triplication_search_correct z_problem true 3 3 1500000
           z_problem_known).
  intros _. exact z_problem_in_bounds.
Defined.

(** X26: pruning does not change the answer. For a mask inside the bounds,
    the search with the oracle and the search without it, each with its
    own display caps and budget, report the same [solved] unless one of
    them is aborted. *)
Theorem pruning_keeps_answer (problem : Problem)
    (max_display_depth max_display_children max_nodes : Z)
    (max_display_depth' max_display_children' max_nodes' : Z) :
  known_pieces problem →
  (∀ rc, rc ∈ mask_cells problem →
         in_bounds (rows problem) (cols problem) rc) →
  ∃ r s r' s',
    (root_dfs problem true max_display_depth max_display_children
       max_nodes initial_state).2 = Ok (r, s)
    ∧ (root_dfs problem false max_display_depth' max_display_children'
         max_nodes' initial_state).2 = Ok (r', s')
    ∧ (r.2 = false → r'.2 = false → r.1.1 = r'.1.1).
Proof.
  intros Hknown Hbounds.
  destruct (tri_root_dfs_total problem true max_display_depth
              max_display_children max_nodes Hknown)
    as (r & s & Hrun & _ & _ & _ & Hsol & Hno).
  destruct (tri_root_dfs_total problem false max_display_depth'
              max_display_children' max_nodes' Hknown)
    as (r' & s' & Hrun' & _ & _ & _ & Hsol' & Hno').
  exists r, s, r', s'. split; [done|]. split; [done|]. intros Hr Hr'.
  assert (mask_ok problem true) as Hm by (by intros _).
  assert (mask_ok problem false) as Hm' by (by intros ?).
  destruct (r.1.1) eqn:H1, (r'.1.1) eqn:H2; try done.
  - by destruct (Hno' eq_refl Hr' Hm' (Hsol eq_refl)).
  - by destruct (Hno eq_refl Hr Hm (Hsol' eq_refl)).
Qed.

Lemma pruning_keeps_answer_witness :
  ∃ r s r' s',
    (root_dfs z_problem true 3 3 1500000 initial_state).2 = Ok (r, s)
    ∧ (root_dfs z_problem false 3 3 1500000 initial_state).2 = Ok (r', s')
    ∧ (r.2 = false → r'.2 = false → r.1.1 = r'.1.1).
Proof.
  exact (pruning_keeps_answer z_problem 3 3 1500000 3 3 1500000
           z_problem_known z_problem_in_bounds).
Defined.

End TriplicationDfsTree.
